(* ===== verification/_CoqProject ===== *)
-Q . S2P
Prelude.v
RateLimit.v
Grpc.v
Ldk.v
OfferError.v
Parse.v
Lnd.v
LndRequests.v
LndRequestsFacts.v
Handler.v
HandlerFacts.v
HandlerSteps.v
HandlerLiveness.v
OnionMessenger.v
OnionMessengerFacts.v
Shutdown.v
MessageRouter.v
ClientImpls.v
Server.v
ServerFacts.v
Daemon.v
Cli.v
Mock.v
UnitTests.v
UnitTestsOffers.v
UnitTestsMessenger.v
Witnesses.v
