(* ===== verification/Prelude.v ===== *)
(** * A verification of LNDK

    LNDK runs beside an LND node.  It adds BOLT 12 offers to it: an onion
    messenger, driven with LND's peer and message streams, carries invoice
    requests and invoices; an offer handler fetches and pays invoices and
    answers requests for them; a gRPC server gives clients access to both, and a
    command line client calls the server.

    ** How the program is modelled

    Code is translated to functions of [M W A]: from a world [W] to an outcome
    (a value, a panic, or [Pending] when the fuel given to a loop is used up)
    and the world after it.  [?] is [let?], sequencing is [let*].  Whatever is
    not in the repository is a parameter: secp256k1 and LDK are type classes of
    functions ([Ldk]), LND, the task runtime, clocks and channels are classes
    over the world.  What theorems assume of them is a named hypothesis or a
    separate class of laws ([SecpLaws], [TimerLaws], [HandlerRely],
    [MessengerHistory], [ProducerHistory], [BoundedChannel], [TaskLaws],
    [FsLaws]); [Mock] has executable instances that satisfy all of them and [Witnesses]
    applies the theorems there.

    Awaited calls are functions of the whole world, so other tasks may act while
    they run.  Where a theorem depends on what other tasks do, it says so.

    Integers are [Z], with casts written out ([wrap_u], [wrap_i]); durations are
    milliseconds in loops and nanoseconds in the limiter and the expiry of
    offers; maps and sets are [gmap] and [gset], whose order of listing stands
    for that of a hash map.

    ** Files

    - [Prelude]: results, outcomes, the monad and its laws, frame conditions
      ([respects]), hexadecimal text, list counting.
    - [RateLimit] (src/rate_limit.rs, src/clock.rs): the token limiter.  Its
      counters stay in range; what a peer is granted is paid for from its
      budget; any window of a period sees at most twice the count; it refines a
      window of time with a log of grants, which decides by itself when it is
      over.  [RateLimiterLaws] is what the consumer relies on.
    - [Grpc] (src/grpc.rs): retries, bounded and unbounded.
    - [Ldk]: keys, LDK and LND's messages, as parameters and records.
    - [OfferError] (src/offers/mod.rs), [Parse] (src/offers/parse.rs).
    - [Lnd] (src/lnd.rs): credentials, versions, features, networks, blinded
      paths, the seed, the signer, the traits over LND.
    - [LndRequests], [LndRequestsFacts] (src/offers/lnd_requests.rs): invoice
      requests, offers, reply paths, connecting to peers, payments.
    - [Handler] (src/offers/handler.rs): the table of active payments, the queue
      of messages, fetching and paying invoices, the reaction to messages.
      [HandlerFacts] has what each operation does on each path, and that the wait
      for an invoice ends by its deadline.  [HandlerSteps] runs the pieces of
      code under one lock ([block]) in any order, with invariants of all such
      runs: stored invoices are verified and write-once, the queue is first in
      first out.  It then shows which steps, specified independently by [hstep],
      each operation makes while other tasks do anything in between, and that
      a payment made settles a verified invoice when the other tasks only run
      blocks.  [HandlerLiveness] has the whole course of a payment: an offer that
      is answered in time, with a path that settles, is paid.
    - [OnionMessenger], [OnionMessengerFacts] (src/onion_messenger.rs):
      producers, consumer, relay and startup.  The consumer follows a plan
      determined by the events and the limiter; with the token limiter this
      bounds what a peer can push into LDK.  Producers forward their streams.
    - [Shutdown]: the end of [run_onion_messenger].  [TaskLaws] says what the
      messenger relies on from the runtime: a task of the set is joined when its
      code has run, and a trigger stays.  The messenger returns normally only
      after the shutdown, with its consumer and all of its tasks ended normally.
    - [MessageRouter] (src/message_router.rs): paths for onion messages.
    - [ClientImpls] (src/offers/client_impls.rs): the requests to LND.
    - [Server], [ServerFacts] (src/server.rs, [get_lnd_client] of src/lnd.rs,
      [Bolt12InvoiceString] of src/lib.rs): the gRPC requests, the contract of
      their errors, authentication, invoices in and out.
    - [Daemon] (src/main.rs, [setup_logger] and [run] of src/lib.rs): the checks
      of LND before the messenger starts, TLS credentials, directories, the
      setup of the daemon, and [daemon_main], which races server and messenger.
      The messenger starts only on a node that is fit; existing credentials are
      kept, and a new private key is written to a file only its owner may read;
      the identity served is the pair that was found or made; in the handler that
      server and messenger share, the blocks of its code put only invoices
      verified with the key made from LND's signature.
    - [Cli] (src/cli.rs): the command line client, and its composition with the
      server: what a command that succeeds made the server do.
    - [UnitTests], [UnitTestsOffers], [UnitTestsMessenger]: the unit tests of the
      sources, translated and evaluated on the model.
    - [Mock], [Witnesses]: the concrete world and the theorems applied to it.

    ** Fuel and bounds

    [with_max_attempts] runs 256 rounds at most because its counter is a [u8];
    [connect_to_peer_with_retry] has fuel 11 because the loop gives up when ten
    attempts are exceeded; both are proved to return.  The wait for an invoice
    has fuel [wait_fuel]: a sleep of two seconds ends before the deadline fewer
    times than that ([idle_rounds]), so that it always ends with an invoice or
    with the timeout ([get_invoice_wait_ends]).  Loops that the program runs for ever
    (producers, consumer, unbounded retries) take fuel; their theorems hold for
    any fuel, and for any way of being interrupted where that matters.

    ** Not modelled

    What is logged or printed on the way; the parsing of arguments and of
    configuration files, which clap and configure_me generate (their results
    are inputs); the scheduler of tasks, beyond what [spawn], [select!] and
    [JoinSet] promise; the build script, which generates the gRPC code; the
    integration tests, which run bitcoind, LND and LDK nodes. *)

From Stdlib Require Export ZArith Lia.
From stdpp Require Export base decidable option list list_monad strings pretty gmap fin_maps sets.

#[export] Set Warnings "-clear-no-such-hyp".

(** ** Rust's [Result], panics and unfinished computations *)

(** [Result<T, E>]. *)
Inductive result (T E : Type) : Type :=
| Ok (t : T)
| Err (e : E).
Arguments Ok {T E} _.
Arguments Err {T E} _.

(** How a call ends: it returns a value, it panics ([unwrap], [expect], an
    index out of range), or it is still running when the fuel given to its
    loops is used up. *)
Inductive outcome (A : Type) : Type :=
| Ret (a : A)
| Panic
| Pending.
Arguments Ret {A} _.
Arguments Panic {A}.
Arguments Pending {A}.

(** A computation over a world [W]: the state it and everything it calls can
    reach.  Calls to LND, sleeps and other await points are functions of this
    type, so whatever other tasks do meanwhile is part of their effect. *)
Definition M (W A : Type) : Type := W → outcome A * W.

Definition ret {W A} (a : A) : M W A := λ w, (Ret a, w).
Definition panic {W A} : M W A := λ w, (Panic, w).
Definition pending {W A} : M W A := λ w, (Pending, w).

Definition bind {W A B} (c : M W A) (k : A → M W B) : M W B := λ w,
  match c w with
  | (Ret a, w') => k a w'
  | (Panic, w') => (Panic, w')
  | (Pending, w') => (Pending, w')
  end.

(** The [?] operator: return early with the error. *)
Definition try_bind {W A B E} (c : M W (result A E)) (k : A → M W (result B E))
    : M W (result B E) :=
  bind c (λ r, match r with Ok a => k a | Err e => ret (Err e) end).

(** [Result::map_err] under an await. *)
Definition map_err {W A E F} (f : E → F) (c : M W (result A E)) : M W (result A F) :=
  bind c (λ r, ret match r with Ok a => Ok a | Err e => Err (f e) end).

(** [Option::unwrap] / [expect]. *)
Definition unwrap {W A} (o : option A) : M W A :=
  match o with Some a => ret a | None => panic end.

(** [Iterator::map] with a body that may panic or act on the world. *)
Fixpoint map_m {W A B} (f : A → M W B) (l : list A) : M W (list B) :=
  match l with
  | [] => ret []
  | a :: l => bind (f a) (λ b, bind (map_m f l) (λ bs, ret (b :: bs)))
  end.

(** Reading and updating the world in one atomic step. *)
Definition get_world {W A} (f : W → A) : M W A := λ w, (Ret (f w), w).
Definition modify {W} (f : W → W) : M W unit := λ w, (Ret tt, f w).

Declare Scope lndk_scope.
Delimit Scope lndk_scope with lndk.
Notation "'let*' x ':=' c 'in' k" := (bind c (λ x, k))
  (at level 10, x pattern, c at level 100, k at level 200) : lndk_scope.
Notation "'let?' x ':=' c 'in' k" := (try_bind c (λ x, k))
  (at level 10, x pattern, c at level 100, k at level 200) : lndk_scope.
Open Scope lndk_scope.

(** [Option::is_none] and [Option::is_some]. *)
Definition is_none {A} (o : option A) : bool := match o with Some _ => false | None => true end.
Definition is_some {A} (o : option A) : bool := negb (is_none o).

Definition is_ok {T E} (r : result T E) : bool :=
  match r with Ok _ => true | Err _ => false end.

Definition result_map_err {T E F} (f : E → F) (r : result T E) : result T F :=
  match r with Ok t => Ok t | Err e => Err (f e) end.

Definition ok_or {A E} (e : E) (o : option A) : result A E :=
  match o with Some a => Ok a | None => Err e end.

(** [Result::ok]. *)
Definition result_ok {T E} (r : result T E) : option T :=
  match r with Ok t => Some t | Err _ => None end.

(** ** Machine integers

    A [w]-bit integer is a [Z]; the conversions the code writes with [as] are
    spelled out. *)
Definition wrap_u (w : Z) (z : Z) : Z := (z mod 2 ^ w)%Z.
Definition wrap_i (w : Z) (z : Z) : Z :=
  (let u := z mod 2 ^ w in if u <? 2 ^ (w - 1) then u else u - 2 ^ w)%Z.

Definition in_u (w z : Z) : Prop := (0 ≤ z < 2 ^ w)%Z.

Abbreviation u8_max := 255%Z.
Abbreviation bytes := (list Z).

(** ** Laws of the monad *)
Section monad_laws.
Context {W A B C E : Type}.

Lemma bind_ret_l (a : A) (k : A → M W B) w : bind (ret a) k w = k a w.
Proof. reflexivity. Qed.

Lemma bind_ret_r (c : M W A) w : bind c ret w = c w.
Proof. unfold bind. by destruct (c w) as [[a| |] w']. Qed.

Lemma bind_assoc (c : M W A) (f : A → M W B) (g : B → M W C) w :
  bind (bind c f) g w = bind c (λ a, bind (f a) g) w.
Proof. unfold bind. by destruct (c w) as [[a| |] w']. Qed.

Lemma bind_Ret (c : M W A) (k : A → M W B) w a w' :
  c w = (Ret a, w') → bind c k w = k a w'.
Proof. unfold bind. by intros ->. Qed.

Lemma bind_inv_Ret (c : M W A) (k : A → M W B) w b w2 :
  bind c k w = (Ret b, w2) → ∃ a w1, c w = (Ret a, w1) ∧ k a w1 = (Ret b, w2).
Proof. unfold bind. destruct (c w) as [[a| |] w1]; naive_solver. Qed.

Lemma try_bind_inv (c : M W (result A E)) (k : A → M W (result B E)) w r w2 :
  try_bind c k w = (Ret r, w2) →
  (∃ a w1, c w = (Ret (Ok a), w1) ∧ k a w1 = (Ret r, w2)) ∨
  (∃ e, c w = (Ret (Err e), w2) ∧ r = Err e).
Proof.
  unfold try_bind, bind, ret. destruct (c w) as [[[a|e]| |] w1]; naive_solver.
Qed.
End monad_laws.

Lemma unwrap_inv {W A} (o : option A) (w : W) a w' :
  unwrap o w = (Ret a, w') → w' = w ∧ o = Some a.
Proof. destruct o; cbn; unfold ret, panic; naive_solver. Qed.

Lemma map_err_inv_Ok {W A E F} (f : E → F) (c : M W (result A E)) w a w' :
  map_err f c w = (Ret (Ok a), w') → c w = (Ret (Ok a), w').
Proof. unfold map_err, bind, ret. destruct (c w) as [[[|]| |] ?]; naive_solver. Qed.

Lemma map_err_inv_Err {W A E F} (f : E → F) (c : M W (result A E)) w e w' :
  map_err f c w = (Ret (Err e), w') → ∃ e0, c w = (Ret (Err e0), w') ∧ e = f e0.
Proof. unfold map_err, bind, ret. destruct (c w) as [[[|]| |] ?]; naive_solver. Qed.

Lemma map_err_inv {W A E F} (f : E → F) (c : M W (result A E)) w r w' :
  map_err f c w = (Ret r, w') → ∃ r0, c w = (Ret r0, w') ∧ r = result_map_err f r0.
Proof. unfold map_err, bind, ret. destruct (c w) as [[[|]| |] ?]; naive_solver. Qed.

Create HintDb lndk.
Create Rewrite HintDb lndk.

(** Takes apart a computation known to have returned. *)
Ltac run_inv :=
  repeat match goal with
  | H : try_bind _ _ _ = (Ret _, _) |- _ =>
      let E := fresh "E" in
      apply try_bind_inv in H as [(? & ? & ? & H) | (? & ? & E)];
      [|first [discriminate E | simplify_eq/=]]
  | H : bind _ _ _ = (Ret _, _) |- _ => apply bind_inv_Ret in H as (? & ? & ? & H)
  | H : map_err _ _ _ = (Ret (Ok _), _) |- _ => apply map_err_inv_Ok in H
  | H : map_err _ _ _ = (Ret (Err _), _) |- _ => apply map_err_inv_Err in H as (? & ? & ->)
  | H : unwrap _ _ = (Ret _, _) |- _ => apply unwrap_inv in H as [-> ?]
  | H : ret _ _ = (_, _) |- _ => unfold ret in H; simplify_eq/=
  | H : get_world _ _ = (_, _) |- _ => unfold get_world in H; simplify_eq/=
  | H : modify _ _ = (_, _) |- _ => unfold modify in H; simplify_eq/=
  | H : panic _ = (Ret _, _) |- _ => discriminate H
  | H : pending _ = (Ret _, _) |- _ => discriminate H
  | u : unit |- _ => destruct u
  end.

(** ** Traversals *)

Lemma map_m_inv {W A B} (f : A → M W B) (P : A → B → Prop) l w bs w' :
  (∀ a w b w', f a w = (Ret b, w') → w' = w ∧ P a b) →
  map_m f l w = (Ret bs, w') → w' = w ∧ Forall2 P l bs.
Proof.
  intros Hf. revert w bs w'. induction l as [|a l IH]; intros w bs w' Hrun; cbn in Hrun; run_inv.
  { split; [done|constructor]. }
  match goal with H : f a w = _ |- _ => apply Hf in H as [-> HP] end.
  match goal with H : map_m f l w = _ |- _ => apply IH in H as [-> HF] end.
  split; [done|by constructor].
Qed.

Lemma map_m_total {W A B} (f : A → M W B) l w :
  Forall (λ a, ∃ b, f a w = (Ret b, w)) l → ∃ bs, map_m f l w = (Ret bs, w).
Proof.
  induction 1 as [|a l [b Hb] _ [bs IH]]; [by exists []|].
  exists (b :: bs). cbn. rewrite (bind_Ret _ _ _ _ _ Hb), (bind_Ret _ _ _ _ _ IH). done.
Qed.

(** Decoding element by element what was encoded element by element. *)
Lemma map_m_roundtrip {W A B} (f : B → M W A) (h : A → B) l w :
  (∀ a, f (h a) w = (Ret a, w)) → map_m f (map h l) w = (Ret l, w).
Proof.
  intros Hf. induction l as [|a l IH]; [done|]. cbn [map map_m].
  by rewrite (bind_Ret _ _ _ _ _ (Hf a)), (bind_Ret _ _ _ _ _ IH).
Qed.

Lemma Forall2_left {A B} (R : A → B → Prop) (P : A → Prop) l k :
  Forall2 R l k → (∀ x y, R x y → P x) → Forall P l.
Proof. intros HF HP. induction HF; constructor; eauto. Qed.

(** ** Frame conditions

    [respects R c]: however [c] ends, the world it leaves is related by [R] to
    the one it started in.  With a preorder [R] this composes. *)
Definition respects {W A} (R : relation W) (c : M W A) : Prop :=
  ∀ w o w', c w = (o, w') → R w w'.

Section respects.
Context {W : Type} (R : relation W) `{!PreOrder R}.

Lemma respects_ret {A} (a : A) : respects R (ret a).
Proof. intros w o w' [= _ <-]. reflexivity. Qed.

Lemma respects_panic {A} : respects R (panic (A := A)).
Proof. intros w o w' [= _ <-]. reflexivity. Qed.

Lemma respects_pending {A} : respects R (pending (A := A)).
Proof. intros w o w' [= _ <-]. reflexivity. Qed.

Lemma respects_get_world {A} (f : W → A) : respects R (get_world f).
Proof. intros w o w' [= _ <-]. reflexivity. Qed.

Lemma respects_unwrap {A} (o : option A) : respects R (unwrap o).
Proof. destruct o; [apply respects_ret|apply respects_panic]. Qed.

Lemma respects_bind {A B} (c : M W A) (k : A → M W B) :
  respects R c → (∀ a, respects R (k a)) → respects R (bind c k).
Proof.
  intros Hc Hk w o w'. unfold bind. destruct (c w) as [[a| |] w1] eqn:E; intros Hrun.
  - transitivity w1; [by eapply Hc|by eapply Hk].
  - simplify_eq. by eapply Hc.
  - simplify_eq. by eapply Hc.
Qed.

Lemma respects_try_bind {A B E} (c : M W (result A E)) (k : A → M W (result B E)) :
  respects R c → (∀ a, respects R (k a)) → respects R (try_bind c k).
Proof. intros Hc Hk. apply respects_bind; [done|]. intros [a|e]; [done|apply respects_ret]. Qed.

Lemma respects_map_err {A E F} (f : E → F) (c : M W (result A E)) :
  respects R c → respects R (map_err f c).
Proof. intros Hc. apply respects_bind; [done|]. intros r. apply respects_ret. Qed.

Lemma respects_map_m {A B} (f : A → M W B) l :
  (∀ a, respects R (f a)) → respects R (map_m f l).
Proof.
  intros Hf. induction l as [|a l IH]; [apply respects_ret|].
  repeat (apply respects_bind; [done|intros ?]). apply respects_ret.
Qed.
End respects.

#[export] Hint Resolve respects_ret respects_panic respects_pending respects_get_world
  respects_unwrap respects_map_err : lndk.

(** Proves [respects] of a composed computation from its parts: the known ones
    are found in the hint database, whatever the code tests is split. *)
Ltac respect :=
  repeat first
    [ solve [eauto with lndk typeclass_instances]
    | apply respects_bind; [exact _| |intros ?]
    | apply respects_try_bind; [exact _| |intros ?]
    | apply respects_map_err; [exact _|]
    | apply respects_map_m; [exact _|intros ?]
    | progress cbv zeta
    | match goal with |- respects _ (match ?x with _ => _ end) => destruct x end ].

(** ** Strings *)

(** Decimal digits of a non-negative number, as [Display] prints it. *)
Definition string_of_Z (z : Z) : string := pretty z.

Definition hex_digit (n : Z) : Ascii.ascii :=
  Ascii.ascii_of_nat (Z.to_nat (if n <? 10 then 48 + n else 87 + n)%Z).

Definition hex_byte (b : Z) : string :=
  String (hex_digit (b / 16)) (String (hex_digit (b mod 16)) "").

(** [hex::encode]. *)
Fixpoint hex_encode (l : bytes) : string :=
  match l with [] => "" | b :: l => hex_byte b +:+ hex_encode l end.

(** The value of a hexadecimal digit, in either case. *)
Definition hex_val (c : Ascii.ascii) : option Z :=
  let n := Z.of_nat (Ascii.nat_of_ascii c) in
  if ((48 <=? n) && (n <=? 57))%Z then Some (n - 48)%Z
  else if ((97 <=? n) && (n <=? 102))%Z then Some (n - 87)%Z
  else if ((65 <=? n) && (n <=? 70))%Z then Some (n - 55)%Z
  else None.

(** [hex::decode]: fails on an odd length and on other characters. *)
Fixpoint hex_decode (s : string) : option bytes :=
  match s with
  | EmptyString => Some []
  | String a (String b s) =>
      match hex_val a, hex_val b, hex_decode s with
      | Some x, Some y, Some l => Some ((16 * x + y)%Z :: l)
      | _, _, _ => None
      end
  | String _ EmptyString => None
  end.

Lemma hex_val_digit n : (0 ≤ n < 16)%Z → hex_val (hex_digit n) = Some n.
Proof.
  intros Hn. assert (n ∈ seqZ 0 16) as Hin by (apply elem_of_seqZ; lia).
  revert Hin. clear Hn. generalize n. apply Forall_forall. by repeat constructor.
Qed.

Lemma hex_decode_encode l : Forall (in_u 8) l → hex_decode (hex_encode l) = Some l.
Proof.
  induction 1 as [|b l [Hb0 Hb1] _ IH]; [done|]. change (2 ^ 8)%Z with 256%Z in Hb1.
  change (hex_encode (b :: l)) with
    (String (hex_digit (b / 16)) (String (hex_digit (b mod 16)) (hex_encode l))).
  cbn [hex_decode]. pose proof (Z.mod_pos_bound b 16 ltac:(lia)).
  pose proof (Z.div_mod b 16 ltac:(lia)).
  rewrite hex_val_digit by (split; [apply Z.div_pos|apply Z.div_lt_upper_bound]; lia).
  rewrite hex_val_digit by done. rewrite IH. by rewrite <- Z.div_mod by lia.
Qed.

(** [char::escape_debug] on a byte of a string; bytes of multi-byte characters
    are kept. *)
Definition escape_debug (c : Ascii.ascii) : string :=
  let n := Z.of_nat (Ascii.nat_of_ascii c) in
  let bs := Ascii.ascii_of_nat 92 in
  if (n =? 34)%Z || (n =? 92)%Z then String bs (String c "")
  else if (n =? 9)%Z then String bs "t"
  else if (n =? 10)%Z then String bs "n"
  else if (n =? 13)%Z then String bs "r"
  else if (n =? 0)%Z then String bs "0"
  else if (n <? 32)%Z || (n =? 127)%Z then
    String bs ("u{" +:+ (if (n <? 16)%Z then String (hex_digit n) "" else hex_byte n) +:+ "}")
  else String c "".

(** [{:?}] of a string. *)
Definition str_debug (s : string) : string :=
  let q := String (Ascii.ascii_of_nat 34) "" in
  q +:+ foldr (λ c acc, escape_debug c +:+ acc) q (String.list_ascii_of_string s).

(** ** Lists *)

(** Number of occurrences of [x]. *)
Definition occurrences {A} `{EqDecision A} (x : A) (l : list A) : nat :=
  length (filter (x =.) l).
Arguments occurrences : simpl never.

Lemma occurrences_nil {A} `{EqDecision A} (x : A) : occurrences x [] = 0%nat.
Proof. reflexivity. Qed.

Lemma occurrences_cons {A} `{EqDecision A} (x y : A) l :
  occurrences x (y :: l) = ((if decide (x = y) then 1 else 0) + occurrences x l)%nat.
Proof. unfold occurrences. rewrite filter_cons. by case_decide. Qed.

Lemma occurrences_app {A} `{EqDecision A} (x : A) l1 l2 :
  occurrences x (l1 ++ l2) = (occurrences x l1 + occurrences x l2)%nat.
Proof. unfold occurrences. by rewrite filter_app, length_app. Qed.

#[export] Hint Rewrite @occurrences_nil @occurrences_cons @occurrences_app : lndk.
