(* ===== verification/RateLimit.v ===== *)
(** * Per-peer token bucket rate limiting

    Models src/rate_limit.rs ([PeerRecord], [TokenLimiter], the [RateLimiter]
    trait) and src/clock.rs ([Clock], [TokioClock]).  Instants and durations
    are numbers of nanoseconds.  A clock is a value whose readings are
    consumed one by one, because [query_peer] may read it twice. *)

From S2P Require Import Prelude.
Open Scope Z_scope.

(** ** Clocks *)

(** The trait [Clock]: one reading, and the clock from then on. *)
Class Clock (C : Type) : Type := clock_now : C → Z * C.

(** [TokioClock] forwards to tokio's [Instant::now]; the runtime's readings
    are a parameter, [tokio_reads] the number of them taken so far. *)
Record TokioClock := { tokio_now : nat → Z; tokio_reads : nat }.

Definition TokioClock_new (tokio_now : nat → Z) : TokioClock :=
  {| tokio_now := tokio_now; tokio_reads := 0%nat |}.

#[export] Instance TokioClock_now : Clock TokioClock := λ c,
  (tokio_now c (tokio_reads c), {| tokio_now := tokio_now c; tokio_reads := S (tokio_reads c) |}).

(** The next [n] readings of a clock. *)
Fixpoint readings {C} `{Clock C} (n : nat) (c : C) : list Z :=
  match n with
  | O => []
  | S n => let '(t, c') := clock_now c in t :: readings n c'
  end.

(** [Instant::duration_since], which saturates at zero. *)
Definition duration_since (now earlier : Z) : Z := Z.max 0 (now - earlier).

(** ** The trait and what its user relies on *)

Class RateLimiter (PublicKey R : Type) : Type := {
  rl_peer_connected : PublicKey → R → R;
  rl_peer_disconnected : PublicKey → R → R;
  rl_peers : R → list PublicKey;
  rl_query_peer : PublicKey → R → bool * R;
}.

(** The contract of a rate limiter for its user: a set of online peers that
    follows connections and disconnections, is listed without repetition by
    [rl_peers], and is not affected by queries; an unknown peer is refused. *)
Class RateLimiterLaws (PublicKey R : Type) `{Countable PublicKey} `{!RateLimiter PublicKey R}
    : Type := {
  rl_online : R → gset PublicKey;
  rl_online_connected pk r :
    rl_online (rl_peer_connected pk r) = {[pk]} ∪ rl_online r;
  rl_online_disconnected pk r :
    rl_online (rl_peer_disconnected pk r) = rl_online r ∖ {[pk]};
  rl_online_query pk r : rl_online (rl_query_peer pk r).2 = rl_online r;
  rl_peers_online pk r : pk ∈ rl_peers r ↔ pk ∈ rl_online r;
  rl_peers_NoDup r : NoDup (rl_peers r);
}.

Record PeerRecord := { online : bool; remaining_calls : Z }.

Definition PeerRecord_new (online : bool) (remaining_calls : Z) : PeerRecord :=
  {| online := online; remaining_calls := remaining_calls |}.

Section limiter.
Context {PublicKey : Type} `{Countable PublicKey}.
Context {C : Type} `{Clock C}.
Implicit Types pk : PublicKey.

Record TokenLimiter := {
  peer_map : gmap PublicKey PeerRecord;
  clock : C;
  call_count : Z;
  call_frequency : Z;
  last_update : Z;
}.
Implicit Types tl : TokenLimiter.

Definition with_peer_map (m : gmap PublicKey PeerRecord) tl : TokenLimiter :=
  {| peer_map := m; clock := clock tl; call_count := call_count tl;
     call_frequency := call_frequency tl; last_update := last_update tl |}.

Definition with_clock (c : C) tl : TokenLimiter :=
  {| peer_map := peer_map tl; clock := c; call_count := call_count tl;
     call_frequency := call_frequency tl; last_update := last_update tl |}.

Definition TokenLimiter_new (peers : list PublicKey) (call_count call_frequency : Z) (clock : C)
    : TokenLimiter :=
  let peer_map := foldl (λ m peer, <[peer := PeerRecord_new true call_count]> m) ∅ peers in
  let '(last_update, clock) := clock_now clock in
  {| peer_map := peer_map; clock := clock; call_count := call_count;
     call_frequency := call_frequency; last_update := last_update |}.

Definition needs_update tl : bool * TokenLimiter :=
  let '(now, c) := clock_now (clock tl) in
  (call_frequency tl <=? duration_since now (last_update tl), with_clock c tl).

Definition update tl : TokenLimiter :=
  let kept := filter (λ kv, online kv.2 = true) (peer_map tl) in
  let refreshed :=
    (λ v, {| online := online v; remaining_calls := call_count tl |}) <$> kept in
  let '(now, c) := clock_now (clock tl) in
  {| peer_map := refreshed; clock := c; call_count := call_count tl;
     call_frequency := call_frequency tl; last_update := now |}.

Definition hit pk tl : bool * TokenLimiter :=
  match peer_map tl !! pk with
  | Some v =>
      if remaining_calls v =? 0 then (false, tl)
      else
        (true, with_peer_map
                 (<[pk := {| online := online v; remaining_calls := remaining_calls v - 1 |}]>
                    (peer_map tl)) tl)
  | None => (false, tl)
  end.

Definition peer_connected pk tl : TokenLimiter :=
  with_peer_map
    match peer_map tl !! pk with
    | Some e => <[pk := {| online := true; remaining_calls := remaining_calls e |}]> (peer_map tl)
    | None => <[pk := PeerRecord_new true (call_count tl)]> (peer_map tl)
    end tl.

Definition peer_disconnected pk tl : TokenLimiter :=
  with_peer_map
    (alter (λ e, {| online := false; remaining_calls := remaining_calls e |}) pk (peer_map tl)) tl.

Definition peers tl : list PublicKey :=
  (filter (λ p, online p.2 = true) (map_to_list (peer_map tl))).*1.

Definition query_peer pk tl : bool * TokenLimiter :=
  let '(due, tl) := needs_update tl in
  hit pk (if due then update tl else tl).

(** ** Sequences of calls *)

Inductive rl_op :=
| OpConnected (pk : PublicKey)
| OpDisconnected (pk : PublicKey)
| OpQuery (pk : PublicKey).

(** One call: the peer it granted a hit to, if any. *)
Definition run_op (op : rl_op) tl : list PublicKey * TokenLimiter :=
  match op with
  | OpConnected pk => ([], peer_connected pk tl)
  | OpDisconnected pk => ([], peer_disconnected pk tl)
  | OpQuery pk => let '(b, tl') := query_peer pk tl in (if b then [pk] else [], tl')
  end.

Fixpoint run_ops (ops : list rl_op) tl : list PublicKey * TokenLimiter :=
  match ops with
  | [] => ([], tl)
  | op :: ops =>
      let '(g, tl1) := run_op op tl in
      let '(gs, tl2) := run_ops ops tl1 in (g ++ gs, tl2)
  end.

(** The invariant: counters are within the configured count, a [u8]. *)
Definition limiter_ok tl : Prop :=
  0 ≤ call_count tl ≤ u8_max ∧ 0 ≤ call_frequency tl ∧
  ∀ pk v, peer_map tl !! pk = Some v → 0 ≤ remaining_calls v ≤ call_count tl.

(** What a peer may still use before the next refresh. *)
Definition budget tl pk : Z :=
  match peer_map tl !! pk with Some v => remaining_calls v | None => call_count tl end.

(** The state [query_peer] has when it calls [hit]. *)
Definition refreshed tl : TokenLimiter :=
  let '(now, c) := clock_now (clock tl) in
  if call_frequency tl <=? duration_since now (last_update tl)
  then update (with_clock c tl) else with_clock c tl.

Lemma query_peer_hit pk tl : query_peer pk tl = hit pk (refreshed tl).
Proof. unfold query_peer, needs_update, refreshed. by destruct (clock_now (clock tl)). Qed.

Lemma run_op_query pk tl :
  run_op (OpQuery pk) tl =
    (if (hit pk (refreshed tl)).1 then [pk] else [], (hit pk (refreshed tl)).2).
Proof. cbn [run_op]. rewrite query_peer_hit. by destruct (hit pk (refreshed tl)). Qed.

Lemma update_lookup tl pk :
  peer_map (update tl) !! pk =
    match peer_map tl !! pk with
    | Some v => if online v then Some (PeerRecord_new true (call_count tl)) else None
    | None => None
    end.
Proof.
  unfold update. destruct (clock_now (clock tl)) as [now c]; cbn.
  rewrite lookup_fmap, map_lookup_filter.
  destruct (peer_map tl !! pk) as [[o r]|]; [|done]. by destruct o.
Qed.

Lemma update_fields tl :
  call_count (update tl) = call_count tl ∧ call_frequency (update tl) = call_frequency tl ∧
  last_update (update tl) = (clock_now (clock tl)).1 ∧
  clock (update tl) = (clock_now (clock tl)).2.
Proof. unfold update. by destruct (clock_now (clock tl)). Qed.

(** A hit only touches the entry of its peer. *)
Lemma hit_fields pk tl :
  call_count (hit pk tl).2 = call_count tl ∧ call_frequency (hit pk tl).2 = call_frequency tl ∧
  last_update (hit pk tl).2 = last_update tl ∧ clock (hit pk tl).2 = clock tl.
Proof. unfold hit. destruct (peer_map tl !! pk); [case_match|]; done. Qed.

Lemma refreshed_fields tl :
  call_count (refreshed tl) = call_count tl ∧ call_frequency (refreshed tl) = call_frequency tl.
Proof.
  unfold refreshed. destruct (clock_now (clock tl)) as [now c]. case_match; [|done].
  by destruct (update_fields (with_clock c tl)) as (-> & -> & _).
Qed.

Lemma run_op_fields op tl :
  call_count (run_op op tl).2 = call_count tl ∧
  call_frequency (run_op op tl).2 = call_frequency tl.
Proof.
  destruct op as [pk|pk|pk]; [done|done|]. rewrite run_op_query. cbn [snd].
  destruct (hit_fields pk (refreshed tl)) as (-> & -> & _). apply refreshed_fields.
Qed.

(** *** The invariant is established and preserved *)

Lemma foldl_insert_lookup (peers : list PublicKey) (r : PeerRecord)
    (m : gmap PublicKey PeerRecord) pk :
  foldl (λ m p, <[p := r]> m) m peers !! pk =
    if decide (pk ∈ peers) then Some r else m !! pk.
Proof.
  revert m. induction peers as [|p peers IH]; intros m; cbn.
  - by rewrite decide_False by (by apply not_elem_of_nil).
  - rewrite IH. destruct (decide (pk = p)) as [->|Hne].
    + rewrite lookup_insert_eq. rewrite (decide_True (P := p ∈ p :: peers)) by set_solver.
      by case_decide.
    + rewrite lookup_insert_ne by done. do 2 case_decide; set_solver.
Qed.

Lemma new_lookup ps cc cf c pk :
  peer_map (TokenLimiter_new ps cc cf c) !! pk =
    if decide (pk ∈ ps) then Some (PeerRecord_new true cc) else None.
Proof.
  unfold TokenLimiter_new. destruct (clock_now c); cbn. rewrite foldl_insert_lookup.
  by rewrite lookup_empty.
Qed.

Lemma new_ok ps cc cf c :
  0 ≤ cc ≤ u8_max → 0 ≤ cf → limiter_ok (TokenLimiter_new ps cc cf c).
Proof.
  intros Hcc Hcf. refine (conj _ (conj _ _)); [| |intros pk v Hv].
  1-2: unfold TokenLimiter_new; destruct (clock_now c); cbn; lia.
  rewrite new_lookup in Hv. case_decide; simplify_eq/=.
  unfold TokenLimiter_new; destruct (clock_now c); cbn; lia.
Qed.

Lemma update_ok tl : limiter_ok tl → limiter_ok (update tl).
Proof.
  intros (Hc & Hf & Hm). destruct (update_fields tl) as (E1 & E2 & _).
  refine (conj _ (conj _ _)); [lia|lia|]. intros pk v. rewrite update_lookup, E1.
  destruct (peer_map tl !! pk) as [[o r]|]; [|done]. destruct o; intros; simplify_eq/=; lia.
Qed.

Lemma insert_ok pk v tl :
  limiter_ok tl → 0 ≤ remaining_calls v ≤ call_count tl →
  limiter_ok (with_peer_map (<[pk := v]> (peer_map tl)) tl).
Proof.
  intros (Hc & Hf & Hm) Hv. refine (conj _ (conj _ _)); [done|done|]. cbn. intros pk' v'.
  rewrite lookup_insert. case_decide; naive_solver.
Qed.

Lemma hit_ok pk tl : limiter_ok tl → limiter_ok (hit pk tl).2.
Proof.
  intros Hok. unfold hit. destruct (peer_map tl !! pk) as [v|] eqn:E; [|done].
  destruct (Z.eqb_spec (remaining_calls v) 0); [done|]. cbn. apply insert_ok; [done|].
  destruct Hok as (_ & _ & Hm). specialize (Hm _ _ E). cbn. lia.
Qed.

Lemma connected_ok pk tl : limiter_ok tl → limiter_ok (peer_connected pk tl).
Proof.
  intros Hok. unfold peer_connected. destruct (peer_map tl !! pk) eqn:E; apply insert_ok; try done.
  - destruct Hok as (_ & _ & Hm). by apply (Hm _ _ E).
  - destruct Hok as (Hc & _). cbn. lia.
Qed.

Lemma disconnected_ok pk tl : limiter_ok tl → limiter_ok (peer_disconnected pk tl).
Proof.
  intros (Hc & Hf & Hm). refine (conj _ (conj _ _)); [done|done|]. cbn. intros pk' v'. rewrite lookup_alter.
  case_decide; [|apply Hm]. subst. destruct (peer_map tl !! pk') eqn:E; [|done].
  intros; simplify_eq/=. by apply (Hm _ _ E).
Qed.

Lemma refreshed_ok tl : limiter_ok tl → limiter_ok (refreshed tl).
Proof.
  intros Hok. unfold refreshed. destruct (clock_now (clock tl)) as [now c].
  case_match; [by apply update_ok|done].
Qed.

Lemma run_op_ok op tl : limiter_ok tl → limiter_ok (run_op op tl).2.
Proof.
  intros Hok. destruct op as [pk|pk|pk]; [by apply connected_ok|by apply disconnected_ok|].
  rewrite run_op_query. by apply hit_ok, refreshed_ok.
Qed.
#[local] Hint Resolve run_op_ok : lndk.

Lemma budget_nonneg tl pk : limiter_ok tl → 0 ≤ budget tl pk ≤ call_count tl.
Proof.
  intros (Hc & _ & Hm). unfold budget. destruct (peer_map tl !! pk) eqn:E; [by apply (Hm _ _ E)|lia].
Qed.

(** *** Conservation: a grant is paid for from the peer's budget *)

Lemma hit_conserves pk pk' tl :
  Z.of_nat (occurrences pk' (if (hit pk tl).1 then [pk] else [])) + budget (hit pk tl).2 pk'
    = budget tl pk'.
Proof.
  unfold hit. destruct (peer_map tl !! pk) as [v|] eqn:E; [|done].
  destruct (Z.eqb_spec (remaining_calls v) 0); [done|]. cbn -[occurrences].
  autorewrite with lndk. unfold budget; cbn. rewrite lookup_insert.
  case_decide; simplify_eq; case_decide; simplify_eq/=; [|lia].
  rewrite E. lia.
Qed.

Lemma connected_budget pk pk' tl : budget (peer_connected pk tl) pk' = budget tl pk'.
Proof.
  unfold budget, peer_connected. destruct (peer_map tl !! pk) eqn:E; cbn;
    rewrite lookup_insert; case_decide; simplify_eq/=; by rewrite ?E.
Qed.

Lemma disconnected_budget pk pk' tl : budget (peer_disconnected pk tl) pk' = budget tl pk'.
Proof.
  unfold budget, peer_disconnected; cbn. rewrite lookup_alter.
  case_decide; subst; [|done]. by destruct (peer_map tl !! pk').
Qed.

Lemma update_budget tl pk : budget (update tl) pk = call_count tl.
Proof.
  unfold budget. rewrite update_lookup. destruct (update_fields tl) as (-> & _).
  destruct (peer_map tl !! pk) as [[o r]|]; [|done]. by destruct o.
Qed.

Lemma run_ops_cons op ops tl :
  run_ops (op :: ops) tl =
    ((run_op op tl).1 ++ (run_ops ops (run_op op tl).2).1, (run_ops ops (run_op op tl).2).2).
Proof. cbn. destruct (run_op op tl) as [g tl1]; cbn. by destruct (run_ops ops tl1). Qed.

Lemma run_ops_ok ops tl : limiter_ok tl → limiter_ok (run_ops ops tl).2.
Proof.
  revert tl. induction ops as [|op ops IH]; intros tl Hok; [done|].
  rewrite run_ops_cons. by apply IH, run_op_ok.
Qed.

Lemma run_ops_fields ops tl :
  call_count (run_ops ops tl).2 = call_count tl ∧
  call_frequency (run_ops ops tl).2 = call_frequency tl.
Proof.
  revert tl. induction ops as [|op ops IH]; intros tl; [done|].
  rewrite run_ops_cons; cbn. destruct (IH (run_op op tl).2) as [-> ->]. apply run_op_fields.
Qed.

Lemma new_fields ps cc cf c :
  call_count (TokenLimiter_new ps cc cf c) = cc ∧
  call_frequency (TokenLimiter_new ps cc cf c) = cf.
Proof. unfold TokenLimiter_new. by destruct (clock_now c). Qed.

(** *** Readings of the clock *)

Lemma readings_Forall_le (P : Z → Prop) n m c :
  (n ≤ m)%nat → Forall P (readings m c) → Forall P (readings n c).
Proof.
  revert m c. induction n as [|n IH]; intros [|m] c Hle; cbn; try done; [lia|].
  destruct (clock_now c) as [t c']. rewrite !Forall_cons. intros [? ?]; split; [done|].
  apply (IH m); [lia|done].
Qed.

Lemma readings_cons_Forall (P : Z → Prop) n c :
  Forall P (readings (S n) c) ↔
  P (clock_now c).1 ∧ Forall P (readings n (clock_now c).2).
Proof. cbn. destruct (clock_now c) as [t c']. by rewrite Forall_cons. Qed.

(** Before the end of the period a query does not refresh. *)
Lemma refreshed_not_due tl :
  0 < call_frequency tl → (clock_now (clock tl)).1 < last_update tl + call_frequency tl →
  refreshed tl = with_clock (clock_now (clock tl)).2 tl.
Proof.
  unfold refreshed, duration_since. destruct (clock_now (clock tl)) as [now c]; cbn.
  intros. destruct (Z.leb_spec (call_frequency tl) (Z.max 0 (now - last_update tl))); [lia|done].
Qed.

(** A call made before the end of the period keeps the period, reads the clock
    at most twice and pays for its grant. *)
Lemma run_op_within op tl (P : Z → Prop) n pk :
  0 < call_frequency tl →
  (∀ t, P t → t < last_update tl + call_frequency tl) →
  Forall P (readings (S (S n)) (clock tl)) →
  last_update (run_op op tl).2 = last_update tl ∧
  Forall P (readings n (clock (run_op op tl).2)) ∧
  Z.of_nat (occurrences pk (run_op op tl).1) + budget (run_op op tl).2 pk = budget tl pk.
Proof.
  intros Hf HP HF. destruct op as [p|p|p].
  - split_and!; [done| |apply connected_budget]. eapply (readings_Forall_le _ n); [|exact HF]. lia.
  - split_and!; [done| |apply disconnected_budget]. eapply (readings_Forall_le _ n); [|exact HF]. lia.
  - apply readings_cons_Forall in HF as [Ht HF]. rewrite run_op_query; cbn [fst snd].
    rewrite refreshed_not_due by auto. set (tl1 := with_clock _ tl).
    destruct (hit_fields p tl1) as (_ & _ & -> & ->). split_and!; [done| |apply (hit_conserves p pk tl1)].
    eapply (readings_Forall_le _ n); [|exact HF]. lia.
Qed.

Lemma run_ops_within ops tl (P : Z → Prop) pk :
  0 < call_frequency tl →
  (∀ t, P t → t < last_update tl + call_frequency tl) →
  Forall P (readings (2 * length ops) (clock tl)) →
  Z.of_nat (occurrences pk (run_ops ops tl).1) + budget (run_ops ops tl).2 pk = budget tl pk.
Proof.
  revert tl. induction ops as [|op ops IH]; intros tl Hf HP HF; [done|].
  replace (2 * length (op :: ops))%nat with (S (S (2 * length ops))) in HF by (cbn; lia).
  destruct (run_op_within op tl P _ pk Hf HP HF) as (Hlu & HF' & Hb).
  destruct (run_op_fields op tl) as [_ Hcf].
  rewrite run_ops_cons; cbn [fst snd]. autorewrite with lndk.
  specialize (IH (run_op op tl).2). rewrite Hcf, Hlu in IH. specialize (IH Hf HP HF'). lia.
Qed.

(** A query either refreshes all budgets and starts a new period at one of its
    readings, or leaves both alone. *)
Lemma refreshed_cases tl (P : Z → Prop) n :
  Forall P (readings (S (S n)) (clock tl)) →
  Forall P (readings n (clock (refreshed tl))) ∧
  ((P (last_update (refreshed tl)) ∧ ∀ pk, budget (refreshed tl) pk = call_count tl) ∨
   (last_update (refreshed tl) = last_update tl ∧ ∀ pk, budget (refreshed tl) pk = budget tl pk)).
Proof.
  intros [Ht HF]%readings_cons_Forall. unfold refreshed.
  destruct (clock_now (clock tl)) as [now c]; cbn [fst snd] in *. case_match.
  - destruct (update_fields (with_clock c tl)) as (_ & _ & -> & ->).
    apply readings_cons_Forall in HF as [Ht2 HF]. split; [done|left]. split; [done|].
    intros pk. exact (update_budget (with_clock c tl) pk).
  - split; [|by right]. eapply readings_Forall_le; [|exact HF]. lia.
Qed.

(** Over a window shorter than the period there is at most one refresh. *)
Lemma run_ops_window ops tl t0 pk :
  limiter_ok tl → 0 < call_frequency tl →
  Forall (λ t, t0 ≤ t < t0 + call_frequency tl) (readings (2 * length ops) (clock tl)) →
  Z.of_nat (occurrences pk (run_ops ops tl).1) ≤ budget tl pk + call_count tl.
Proof.
  revert tl. induction ops as [|op ops IH]; intros tl Hok Hf HF.
  { cbn. rewrite occurrences_nil. pose proof (budget_nonneg tl pk Hok). destruct Hok. lia. }
  replace (2 * length (op :: ops))%nat with (S (S (2 * length ops))) in HF by (cbn; lia).
  rewrite run_ops_cons; cbn [fst snd]. autorewrite with lndk.
  pose proof (run_op_fields op tl) as [Hcc Hcf].
  pose proof (run_op_ok op tl Hok) as Hok'.
  pose proof (budget_nonneg tl pk Hok) as Hbn.
  specialize (IH (run_op op tl).2 Hok'). rewrite Hcc, Hcf in IH. specialize (IH Hf).
  destruct op as [p|p|p].
  1,2: revert IH; cbn [run_op fst snd]; rewrite ?connected_budget, ?disconnected_budget;
    intros IH; apply IH; eapply readings_Forall_le; [|exact HF]; lia.
  destruct (refreshed_cases tl _ _ HF) as [HF' Hcases]. revert IH Hok'.
  rewrite run_op_query in *; cbn [fst snd] in *. intros IH Hok'.
  pose proof (hit_conserves p pk (refreshed tl)) as Hc.
  destruct (hit_fields p (refreshed tl)) as (_ & _ & Hlu & Hclk).
  rewrite Hclk in IH. specialize (IH HF').
  destruct Hcases as [[Hlu' Hb] | [_ Hb]]; specialize (Hb pk); [|lia].
  pose proof (run_ops_within ops (hit p (refreshed tl)).2
    (λ t, t0 ≤ t < t0 + call_frequency tl) pk) as Hw.
  rewrite Hclk, Hcf, Hlu in Hw. specialize (Hw Hf ltac:(lia) HF').
  pose proof (budget_nonneg _ pk (run_ops_ok ops _ Hok')). lia.
Qed.

(** ** Abstract specification: a window with a log of grants

    The limiter is meant to be a window of time in which each known peer may
    be granted a number of hits.  The abstract state has no counters and
    nothing of the limiter: the peers known in this window, those online, the
    log of grants, when the window started, and the clock.  A query that comes
    a period or more after the start opens a new window, which starts when it
    is opened. *)
Record Window := {
  win_known : gset PublicKey;
  win_online : gset PublicKey;
  win_granted : list PublicKey;
  win_start : Z;
  win_clock : C;
}.
Implicit Types win : Window.

Definition win_connect pk win : Window :=
  {| win_known := {[pk]} ∪ win_known win; win_online := {[pk]} ∪ win_online win;
     win_granted := win_granted win; win_start := win_start win; win_clock := win_clock win |}.

Definition win_disconnect pk win : Window :=
  {| win_known := win_known win; win_online := win_online win ∖ {[pk]};
     win_granted := win_granted win; win_start := win_start win; win_clock := win_clock win |}.

(** A new window: the peers online are those known. *)
Definition win_open (start : Z) (c : C) win : Window :=
  {| win_known := win_online win; win_online := win_online win; win_granted := [];
     win_start := start; win_clock := c |}.

(** The window that a query falls into. *)
Definition win_current (period : Z) win : Window :=
  let '(now, c) := clock_now (win_clock win) in
  if win_start win + period <=? Z.max (win_start win) now
  then let '(start, c) := clock_now c in win_open start c win
  else {| win_known := win_known win; win_online := win_online win;
          win_granted := win_granted win; win_start := win_start win; win_clock := c |}.

(** A known peer with fewer than [n] grants in this window gets one. *)
Definition win_query (n : Z) pk win : bool * Window :=
  if decide (pk ∈ win_known win ∧ Z.of_nat (occurrences pk (win_granted win)) < n)
  then (true, {| win_known := win_known win; win_online := win_online win;
                 win_granted := pk :: win_granted win; win_start := win_start win;
                 win_clock := win_clock win |})
  else (false, win).

Definition win_op (n period : Z) (op : rl_op) win : list PublicKey * Window :=
  match op with
  | OpConnected pk => ([], win_connect pk win)
  | OpDisconnected pk => ([], win_disconnect pk win)
  | OpQuery pk =>
      let '(b, win') := win_query n pk (win_current period win) in
      (if b then [pk] else [], win')
  end.

(** The state of a limiter represents a window. *)
Definition represents tl win : Prop :=
  last_update tl = win_start win ∧ clock tl = win_clock win ∧
  win_online win ⊆ win_known win ∧
  ∀ pk, match peer_map tl !! pk with
        | None => (pk ∉ win_known win) ∧ (pk ∉ win_granted win)
        | Some v => pk ∈ win_known win ∧ (online v = true ↔ pk ∈ win_online win) ∧
                    remaining_calls v = call_count tl - Z.of_nat (occurrences pk (win_granted win))
        end.

Lemma occurrences_not_elem (pk : PublicKey) l : pk ∉ l → occurrences pk l = 0%nat.
Proof.
  induction l as [|p l IH]; [done|]. rewrite not_elem_of_cons, occurrences_cons.
  intros [Hne Hni]. by rewrite decide_False, IH.
Qed.

Lemma represents_connect pk tl win :
  represents tl win → represents (peer_connected pk tl) (win_connect pk win).
Proof.
  intros (Hs & Hc & Hsub & Hrep). split_and!; [done|done|cbn; set_solver|].
  intros p. specialize (Hrep p) as Hp.
  unfold peer_connected. destruct (decide (pk = p)) as [->|Hne].
  - destruct (peer_map tl !! p) as [e|]; cbn; rewrite lookup_insert_eq; cbn; [set_solver|].
    destruct Hp as [? ?]. rewrite occurrences_not_elem by done.
    split; [set_solver|]. split; [set_solver|lia].
  - destruct (peer_map tl !! pk) as [e|]; cbn; rewrite lookup_insert_ne by done;
      destruct (peer_map tl !! p) as [v|]; set_solver.
Qed.

Lemma represents_disconnect pk tl win :
  represents tl win → represents (peer_disconnected pk tl) (win_disconnect pk win).
Proof.
  intros (Hs & Hc & Hsub & Hrep). split_and!; [done|done|cbn; set_solver|].
  intros p. specialize (Hrep p) as Hp.
  cbn. rewrite lookup_alter. destruct (decide (pk = p)) as [->|Hne];
    destruct (peer_map tl !! p) as [v|]; cbn in *; set_solver.
Qed.

Lemma represents_open tl win now c :
  represents tl win → clock_now (clock tl) = (now, c) → represents (update tl) (win_open now c win).
Proof.
  intros (Hs & Hc & Hsub & Hrep) Hnow.
  split_and!; [unfold update; by rewrite Hnow|unfold update; by rewrite Hnow|done|].
  intros p. rewrite update_lookup.
  destruct (update_fields tl) as (-> & _). specialize (Hrep p).
  destruct (peer_map tl !! p) as [[o r]|]; cbn in *; [destruct o; cbn|set_solver].
  - destruct Hrep as (_ & Ho & _). rewrite occurrences_nil. split; [by apply Ho|].
    split; [done|lia].
  - destruct Hrep as (_ & Ho & _). split; [by intros ?%Ho|set_solver].
Qed.

Lemma represents_hit pk tl win :
  limiter_ok tl → represents tl win →
  (hit pk tl).1 = (win_query (call_count tl) pk win).1 ∧
  represents (hit pk tl).2 (win_query (call_count tl) pk win).2.
Proof.
  intros (_ & _ & Hm) (Hs & Hc & Hsub & Hrep). pose proof (Hrep pk) as Hp. unfold hit, win_query.
  destruct (peer_map tl !! pk) as [v|] eqn:E; [|by rewrite decide_False by naive_solver].
  specialize (Hm _ _ E). destruct Hp as (Hk & Ho & Hr).
  destruct (Z.eqb_spec (remaining_calls v) 0); [rewrite decide_False by lia; done|].
  rewrite decide_True by (split; [done|lia]). split; [done|]. split_and!; [done..|].
  intros p. specialize (Hrep p). cbn. rewrite lookup_insert, occurrences_cons.
  destruct (decide (pk = p)) as [->|Hne].
  - rewrite decide_True by done. cbn. split; [done|]. split; [done|lia].
  - rewrite decide_False by done. destruct (peer_map tl !! p); [done|set_solver].
Qed.

Lemma represents_refreshed tl win :
  represents tl win → represents (refreshed tl) (win_current (call_frequency tl) win).
Proof.
  intros Hrep. pose proof Hrep as (Hs & Hc & _). unfold refreshed, win_current, duration_since.
  rewrite <- Hs, <- Hc. destruct (clock_now (clock tl)) as [now c]; cbn.
  replace (last_update tl + call_frequency tl <=? Z.max (last_update tl) now)
    with (call_frequency tl <=? Z.max 0 (now - last_update tl))
    by (apply eq_true_iff_eq; rewrite !Z.leb_le; lia).
  assert (represents (with_clock c tl)
            {| win_known := win_known win; win_online := win_online win;
               win_granted := win_granted win; win_start := last_update tl; win_clock := c |}) as Hread.
  { destruct Hrep as (_ & _ & Hsub & Hrep). by split_and!. }
  case_match; [|done]. destruct (clock_now c) as [start c'] eqn:E.
  exact (represents_open _ _ start c' Hread E).
Qed.

(** Each call of the limiter does what the window does. *)
Lemma represents_op op tl win :
  limiter_ok tl → represents tl win →
  let spec := win_op (call_count tl) (call_frequency tl) op win in
  (run_op op tl).1 = spec.1 ∧ represents (run_op op tl).2 spec.2.
Proof.
  intros Hok Hrep. destruct op as [p|p|p];
    [by split; [|apply represents_connect]|by split; [|apply represents_disconnect]|].
  rewrite run_op_query. cbn [win_op].
  destruct (represents_hit p (refreshed tl) _ (refreshed_ok _ Hok) (represents_refreshed _ _ Hrep))
    as [Hb Hr]. revert Hb Hr. destruct (refreshed_fields tl) as [-> _].
  destruct (win_query _ _ _) as [b w]; cbn. by intros ->.
Qed.

(** The grants and the window after a sequence of calls. *)
Fixpoint win_ops (n period : Z) (ops : list rl_op) win : list PublicKey * Window :=
  match ops with
  | [] => ([], win)
  | op :: ops =>
      let '(g, win1) := win_op n period op win in
      let '(gs, win2) := win_ops n period ops win1 in (g ++ gs, win2)
  end.

Lemma represents_ops ops tl win :
  limiter_ok tl → represents tl win →
  let spec := win_ops (call_count tl) (call_frequency tl) ops win in
  (run_ops ops tl).1 = spec.1 ∧ represents (run_ops ops tl).2 spec.2.
Proof.
  revert tl win. induction ops as [|op ops IH]; intros tl win Hok Hrep; [done|].
  destruct (represents_op op tl win Hok Hrep) as [Hg Hrep1].
  rewrite run_ops_cons. cbn [win_ops]. destruct (win_op _ _ op win) as [g w1]; cbn in *.
  destruct (IH _ _ (run_op_ok op tl Hok) Hrep1) as [Hgs Hrep2].
  destruct (run_op_fields op tl) as [Hcc Hcf]. cbn zeta in *. rewrite Hcc, Hcf in Hgs, Hrep2.
  destruct (win_ops _ _ ops w1); cbn in *. by rewrite Hg, Hgs.
Qed.

(** The first window, in which the given peers are known and online. *)
Definition win_new (ps : list PublicKey) (c : C) : Window :=
  let '(start, c) := clock_now c in
  {| win_known := list_to_set ps; win_online := list_to_set ps; win_granted := [];
     win_start := start; win_clock := c |}.

Lemma represents_new ps cc cf c : represents (TokenLimiter_new ps cc cf c) (win_new ps c).
Proof.
  assert (∀ pk, peer_map (TokenLimiter_new ps cc cf c) !! pk =
                if decide (pk ∈ ps) then Some (PeerRecord_new true cc) else None) as Hnew
    by apply new_lookup.
  revert Hnew. unfold TokenLimiter_new, win_new. destruct (clock_now c) as [start c'].
  intros Hnew. split_and!; [done..|]. intros pk. cbn in Hnew |- *. rewrite Hnew. case_decide; cbn.
  - rewrite occurrences_nil. split_and!; [set_solver..|lia].
  - set_solver.
Qed.

Lemma peers_elem pk tl : pk ∈ peers tl ↔ ∃ v, peer_map tl !! pk = Some v ∧ online v = true.
Proof.
  unfold peers. rewrite list_elem_of_fmap. split.
  - intros ([k v] & -> & [Ho Hin]%list_elem_of_filter). apply elem_of_map_to_list in Hin.
    by exists v.
  - intros (v & Hv & Ho). exists (pk, v). split; [done|]. apply list_elem_of_filter.
    by rewrite elem_of_map_to_list.
Qed.

Lemma filter_fst_NoDup {A B} (P : A * B → Prop) `{!∀ x, Decision (P x)} (l : list (A * B)) :
  NoDup l.*1 → NoDup (filter P l).*1.
Proof.
  induction l as [|[a b] l IH]; [done|]. rewrite fmap_cons, NoDup_cons, filter_cons.
  intros [Hni Hnd]. case_decide; [|by apply IH]. rewrite fmap_cons. apply NoDup_cons. split; [|by apply IH].
  contradict Hni. apply list_elem_of_fmap in Hni as (x & -> & [_ Hx]%list_elem_of_filter).
  apply list_elem_of_fmap. by exists x.
Qed.

Lemma peers_NoDup tl : NoDup (peers tl).
Proof. unfold peers. apply filter_fst_NoDup, NoDup_fst_map_to_list. Qed.

(** Set of online peers. *)
Definition online_set tl : gset PublicKey := list_to_set (peers tl).

Lemma online_set_elem pk tl :
  pk ∈ online_set tl ↔ ∃ v, peer_map tl !! pk = Some v ∧ online v = true.
Proof. unfold online_set. by rewrite elem_of_list_to_set, peers_elem. Qed.

Lemma hit_online pk p tl :
  (∃ v, peer_map (hit pk tl).2 !! p = Some v ∧ online v = true) ↔
  (∃ v, peer_map tl !! p = Some v ∧ online v = true).
Proof.
  unfold hit. destruct (peer_map tl !! pk) as [v|] eqn:E; [|done]. case_match; [done|]. cbn.
  rewrite lookup_insert. case_decide; [subst p|done]. rewrite E. naive_solver.
Qed.

Lemma refreshed_online p tl :
  (∃ v, peer_map (refreshed tl) !! p = Some v ∧ online v = true) ↔
  (∃ v, peer_map tl !! p = Some v ∧ online v = true).
Proof.
  unfold refreshed. destruct (clock_now (clock tl)) as [now c]. case_match; [|done].
  rewrite update_lookup. cbn. destruct (peer_map tl !! p) as [[o r]|]; [|done].
  destruct o; naive_solver.
Qed.

#[export] Instance TokenLimiter_RateLimiter : RateLimiter PublicKey TokenLimiter := {
  rl_peer_connected := peer_connected;
  rl_peer_disconnected := peer_disconnected;
  rl_peers := peers;
  rl_query_peer := query_peer;
}.

#[export] Instance TokenLimiter_laws : RateLimiterLaws PublicKey TokenLimiter.
Proof.
  refine {| rl_online := online_set |}; cbn.
  - intros pk tl. apply set_eq. intros p. rewrite elem_of_union, elem_of_singleton, !online_set_elem.
    unfold peer_connected. destruct (peer_map tl !! pk) as [v|] eqn:E; cbn;
      rewrite lookup_insert; case_decide; naive_solver.
  - intros pk tl. apply set_eq. intros p.
    rewrite elem_of_difference, elem_of_singleton, !online_set_elem. cbn. rewrite lookup_alter.
    case_decide; [subst p; destruct (peer_map tl !! pk)|]; naive_solver.
  - intros pk tl. apply set_eq. intros p. rewrite query_peer_hit, !online_set_elem.
    by rewrite hit_online, refreshed_online.
  - intros pk tl. by rewrite online_set_elem, peers_elem.
  - intros tl. apply peers_NoDup.
Defined.

(** *** A peer uses its budget up, hit by hit *)

Lemma hit_grants pk tl :
  limiter_ok tl → is_Some (peer_map tl !! pk) →
  (hit pk tl).1 = bool_decide (0 < budget tl pk) ∧ is_Some (peer_map (hit pk tl).2 !! pk).
Proof.
  intros (_ & _ & Hm) [v E]. unfold hit, budget. rewrite E. specialize (Hm _ _ E).
  destruct (Z.eqb_spec (remaining_calls v) 0) as [->|]; cbn.
  - by rewrite E.
  - rewrite lookup_insert_eq, bool_decide_true by lia. by split.
Qed.

Lemma run_queries n pk tl :
  limiter_ok tl → 0 < call_frequency tl → is_Some (peer_map tl !! pk) →
  Forall (λ t, t < last_update tl + call_frequency tl) (readings (2 * n) (clock tl)) →
  (run_ops (replicate n (OpQuery pk)) tl).1 = replicate (Nat.min n (Z.to_nat (budget tl pk))) pk.
Proof.
  revert tl. induction n as [|n IH]; intros tl Hok Hf Htr HF; [done|].
  replace (2 * S n)%nat with (S (S (2 * n))) in HF by lia. cbn [replicate].
  destruct (run_op_within (OpQuery pk) tl _ _ pk Hf (λ t H, H) HF) as (Hlu & HF' & Hb).
  pose proof (run_op_fields (OpQuery pk) tl) as [_ Hcf].
  pose proof (run_op_ok (OpQuery pk) tl Hok) as Hok'. rewrite run_ops_cons; cbn [fst].
  specialize (IH (run_op (OpQuery pk) tl).2 Hok'). rewrite Hcf, Hlu in IH. specialize (IH Hf).
  revert IH Hb HF' Hok'. rewrite run_op_query; cbn [fst snd].
  apply readings_cons_Forall in HF as [Ht _]. rewrite refreshed_not_due by done.
  set (tl1 := with_clock _ tl).
  destruct (hit_grants pk tl1 Hok Htr) as [-> Htr']. intros IH Hb HF' Hok'.
  rewrite IH by done. change (budget tl1 pk) with (budget tl pk) in *.
  pose proof (budget_nonneg tl pk Hok). case_bool_decide; autorewrite with lndk in Hb.
  - rewrite decide_True in Hb by done.
    replace (Z.to_nat (budget tl pk)) with (S (Z.to_nat (budget (hit pk tl1).2 pk))) by lia.
    by rewrite <- Nat.succ_min_distr.
  - replace (budget (hit pk tl1).2 pk) with 0 by lia. replace (budget tl pk) with 0 by lia.
    by rewrite !Nat.min_0_r.
Qed.
End limiter.
Arguments TokenLimiter PublicKey {_ _} C.
Arguments Window PublicKey {_ _}.
Arguments rl_op PublicKey : clear implicits.

(** ** Properties *)
Section properties.
Context {PublicKey : Type} `{Countable PublicKey} {C : Type} `{Clock C}.

(** C11: from a limiter created by [new], whatever the order of connections,
    disconnections and queries, every tracked peer's counter stays between 0
    and the configured count, which is a [u8]: the decrement of [hit] never
    underflows and no refresh or reconnection exceeds the count. *)
Theorem limiter_counters_bounded (ps : list PublicKey) cc cf (c : C) ops :
  0 ≤ cc ≤ u8_max → 0 ≤ cf →
  let tl := (run_ops ops (TokenLimiter_new ps cc cf c)).2 in
  call_count tl = cc ∧
  ∀ pk v, peer_map tl !! pk = Some v → 0 ≤ remaining_calls v ≤ cc ≤ u8_max.
Proof.
  intros Hcc Hcf tl. pose proof (run_ops_ok ops _ (new_ok ps cc cf c Hcc Hcf)) as (Hc & _ & Hm).
  assert (call_count tl = cc) as E.
  { unfold tl. destruct (run_ops_fields ops (TokenLimiter_new ps cc cf c)) as [-> _].
    apply new_fields. }
  split; [done|]. intros pk v Hv. specialize (Hm pk v Hv). fold tl in Hm. lia.
Qed.

(** Until the period has elapsed, what a peer is granted is paid for from
    its budget, whatever else happens in between; disconnecting and
    reconnecting in particular buys nothing.  The number of granted hits plus
    the budget left is the budget at the start. *)
Theorem grants_are_paid_for (tl : TokenLimiter PublicKey C) ops pk :
  0 < call_frequency tl →
  Forall (λ t, t < last_update tl + call_frequency tl) (readings (2 * length ops) (clock tl)) →
  Z.of_nat (occurrences pk (run_ops ops tl).1) + budget (run_ops ops tl).2 pk = budget tl pk.
Proof. intros Hf HF. by apply (run_ops_within ops tl _ pk Hf (λ t H, H)). Qed.

Lemma rate_bound (ps : list PublicKey) cc cf (c : C) before ops t0 pk :
  0 ≤ cc ≤ u8_max → 0 < cf →
  let tl := (run_ops before (TokenLimiter_new ps cc cf c)).2 in
  Forall (λ t, t0 ≤ t < t0 + cf) (readings (2 * length ops) (clock tl)) →
  Z.of_nat (occurrences pk (run_ops ops tl).1) ≤ 2 * cc.
Proof.
  intros Hcc Hcf tl HF.
  pose proof (run_ops_ok before _ (new_ok ps cc cf c Hcc (Z.lt_le_incl _ _ Hcf))) as Hok.
  fold tl in Hok. pose proof (run_ops_window ops tl t0 pk Hok) as Hw.
  pose proof (budget_nonneg tl pk Hok) as Hb.
  destruct (run_ops_fields before (TokenLimiter_new ps cc cf c)) as [E1 E2].
  destruct (new_fields ps cc cf c) as [F1 F2]. fold tl in E1, E2. rewrite F1 in E1.
  rewrite E1, E2, F2 in *. specialize (Hw Hcf HF). lia.
Qed.

(** C10: in any window of time shorter than the period, a peer is granted at
    most twice the configured count: what is left of one period and the whole
    allocation of the next. *)
Theorem window_rate_bound (ps : list PublicKey) cc cf (c : C) before ops t0 pk :
  0 ≤ cc ≤ u8_max → 0 < cf →
  let tl := (run_ops before (TokenLimiter_new ps cc cf c)).2 in
  Forall (λ t, t0 ≤ t < t0 + cf) (readings (2 * length ops) (clock tl)) →
  Z.of_nat (occurrences pk (run_ops ops tl).1) ≤ 2 * cc.
Proof. apply rate_bound. Qed.

(** Within a period a tracked peer that keeps querying is granted exactly
    its budget: the first [budget] queries succeed and all later ones are
    refused. *)
Theorem quota_is_exact (tl : TokenLimiter PublicKey C) pk n :
  limiter_ok tl → 0 < call_frequency tl → is_Some (peer_map tl !! pk) →
  Forall (λ t, t < last_update tl + call_frequency tl) (readings (2 * n) (clock tl)) →
  (run_ops (replicate n (OpQuery pk)) tl).1 = replicate (Nat.min n (Z.to_nat (budget tl pk))) pk.
Proof. apply run_queries. Qed.

(** C9: the limiter implements its specification, a window of time with a log
    of grants and no counters.  For every sequence of calls and every clock, it
    grants exactly what the window grants, which restarts at the first query
    that comes a period or more after its own start. *)
Theorem limiter_refines_window (ps : list PublicKey) cc cf (c : C) ops :
  0 ≤ cc ≤ u8_max → 0 ≤ cf →
  let tl := TokenLimiter_new ps cc cf c in
  let spec := win_ops cc cf ops (win_new ps c) in
  (run_ops ops tl).1 = spec.1 ∧ represents (run_ops ops tl).2 spec.2.
Proof.
  intros Hcc Hcf tl. pose proof (represents_ops ops tl (win_new ps c) (new_ok ps cc cf c Hcc Hcf)
    (represents_new ps cc cf c)) as Hr.
  revert Hr. unfold tl, TokenLimiter_new. by destruct (clock_now c).
Qed.
End properties.

(** ** Witnesses *)

(** A clock that stands still at 10 and then jumps to 1000. *)
Definition example_clock : TokioClock :=
  TokioClock_new (λ n, if (n <? 5)%nat then 10 else 1000).

Definition example_ops : list (rl_op nat) :=
  [OpQuery 1%nat; OpDisconnected 1%nat; OpConnected 1%nat; OpQuery 1%nat; OpQuery 1%nat;
   OpQuery 7%nat; OpQuery 1%nat; OpQuery 1%nat].

Example example_grants :
  (run_ops example_ops (TokenLimiter_new [1%nat] 2 100 example_clock)).1 = [1; 1; 1; 1]%nat.
Proof. vm_compute. reflexivity. Qed.

Lemma limiter_counters_bounded_witness :
  call_count (run_ops example_ops (TokenLimiter_new [1%nat] 2 100 example_clock)).2 = 2.
Proof.
  apply (limiter_counters_bounded [1%nat] 2 100 example_clock example_ops); lia.
Defined.

Lemma grants_are_paid_for_witness :
  let tl := TokenLimiter_new [1%nat] 2 100 example_clock in
  let ops := [OpQuery 1; OpDisconnected 1]%nat in
  Z.of_nat (occurrences 1%nat (run_ops ops tl).1) + budget (run_ops ops tl).2 1%nat = 2.
Proof.
  intros tl ops.
  rewrite (grants_are_paid_for tl ops 1%nat); [vm_compute; reflexivity|vm_compute; reflexivity|].
  vm_compute. repeat constructor.
Defined.

Lemma window_rate_bound_witness :
  let tl := (run_ops [] (TokenLimiter_new [1%nat] 2 100 example_clock)).2 in
  Z.of_nat (occurrences 1%nat (run_ops [OpQuery 1; OpQuery 1]%nat tl).1) ≤ 4.
Proof.
  intros tl.
  refine (window_rate_bound [1%nat] 2 100 example_clock [] [OpQuery 1; OpQuery 1]%nat
            10 1%nat _ _ _).
  - lia.
  - vm_compute; reflexivity.
  - vm_compute. repeat constructor; discriminate.
Defined.

Lemma quota_is_exact_witness :
  let tl := TokenLimiter_new [1%nat] 2 100 (TokioClock_new (λ _, 10)) in
  (run_ops (replicate 3 (OpQuery 1%nat)) tl).1 = replicate 2 1%nat.
Proof.
  intros tl. refine (quota_is_exact tl 1%nat 3 _ _ _ _).
  - apply new_ok; lia.
  - vm_compute; reflexivity.
  - vm_compute. by eexists.
  - vm_compute. repeat constructor.
Defined.

Lemma limiter_refines_window_witness :
  let tl := TokenLimiter_new [1%nat] 2 100 example_clock in
  (run_ops example_ops tl).1 = (win_ops 2 100 example_ops (win_new [1%nat] example_clock)).1.
Proof.
  apply (limiter_refines_window [1%nat] 2 100 example_clock example_ops); lia.
Defined.
