(* ===== verification/Grpc.v ===== *)
(** * gRPC statuses and retries

    Models src/grpc.rs: which statuses are worth a retry, the loop that retries
    for ever ([with_infinite_retries]) and the bounded one
    ([with_max_attempts]).  The wrapped client is part of the world; a request
    is a computation over it.  [Code] and [Status] are tonic's. *)

From S2P Require Import Prelude.
Open Scope Z_scope.

(** tonic's status codes. *)
Inductive Code :=
| CodeOk | Cancelled | Unknown | InvalidArgument | DeadlineExceeded | NotFound
| AlreadyExists | PermissionDenied | ResourceExhausted | FailedPrecondition | Aborted
| OutOfRange | Unimplemented | Internal | Unavailable | DataLoss | Unauthenticated.

#[export] Instance Code_eq_dec : EqDecision Code.
Proof. solve_decision. Defined.

(** The [google.rpc.ErrorInfo] detail LNDK attaches to its own statuses. *)
Record ErrorInfo := { error_reason : string; error_domain : string }.

Record Status := {
  status_code : Code;
  status_message : string;
  status_details : option ErrorInfo;
}.

Definition Status_new (code : Code) (message : string) : Status :=
  {| status_code := code; status_message := message; status_details := None |}.

(** [Status::with_error_details] with [ErrorDetails::with_error_info]. *)
Definition with_error_details (code : Code) (message : string) (info : ErrorInfo) : Status :=
  {| status_code := code; status_message := message; status_details := Some info |}.

(** Waiting for a number of milliseconds: a point where other tasks run. *)
Class Sleep (W : Type) : Type := sleep : Z → M W unit.

(** Milliseconds. *)
Definition RETRY_DELAY : Z := 100.
Definition MAX_RETRY_ATTEMPTS : Z := 5.

Definition is_retryable_error (status : Status) : bool :=
  bool_decide (status_code status = Unavailable)
  || bool_decide (status_code status = DeadlineExceeded)
  || bool_decide (status_code status = Aborted)
  || bool_decide (status_code status = Unknown).

Section retry.
Context {W Req R : Type} `{Sleep W}.

Fixpoint with_infinite_retries (fuel : nat) (f : Req → M W (result R Status)) (req : Req)
    (retry_notify : option (M W unit)) : M W (result R Status) :=
  match fuel with
  | O => pending
  | S fuel =>
      let* r := f req in
      match r with
      | Ok response => ret (Ok response)
      | Err e =>
          if is_retryable_error e then
            let* _ := match retry_notify with
                      | Some notify_waiters => notify_waiters
                      | None => ret tt
                      end in
            let* _ := sleep RETRY_DELAY in
            with_infinite_retries fuel f req retry_notify
          else ret (Err e)
      end
  end.

(** The loop of [with_max_attempts]; [attempt] is a [u8] and adding to it past
    255 panics. *)
Fixpoint with_max_attempts_loop (fuel : nat) (f : Req → M W (result R Status)) (req : Req)
    (max_retry_attempts attempt : Z) : M W (result R Status) :=
  match fuel with
  | O => pending
  | S fuel =>
      let* r := f req in
      match r with
      | Ok response => ret (Ok response)
      | Err e =>
          if is_retryable_error e then
            if u8_max <? attempt + 1 then panic
            else
              let attempt := attempt + 1 in
              if max_retry_attempts <=? attempt then ret (Err e)
              else
                let* _ := sleep RETRY_DELAY in
                with_max_attempts_loop fuel f req max_retry_attempts attempt
          else ret (Err e)
      end
  end.

(** 256 iterations are enough: [attempt] grows with each of them. *)
Definition with_max_attempts (f : Req → M W (result R Status)) (req : Req)
    (max_attempts : option Z) : M W (result R Status) :=
  let max_retry_attempts := default MAX_RETRY_ATTEMPTS max_attempts in
  with_max_attempts_loop 256 f req max_retry_attempts 0.

(** ** What a retried request does

    [attempts f req pause n w r w']: [n] calls are made from [w], all but the
    last failing with a retryable status and followed by [pause]; the last one
    answers [r] and leaves [w']. *)
Inductive attempts (f : Req → M W (result R Status)) (req : Req) (pause : M W unit)
    : nat → W → result R Status → W → Prop :=
| attempts_last w r w' : f req w = (Ret r, w') → attempts f req pause 1 w r w'
| attempts_retry n w e w1 w2 r w' :
    f req w = (Ret (Err e), w1) → is_retryable_error e = true →
    pause w1 = (Ret tt, w2) →
    attempts f req pause n w2 r w' → attempts f req pause (S n) w r w'.

(** The answer is one that no retry loop retries. *)
Definition final (r : result R Status) : bool :=
  match r with Ok _ => true | Err e => negb (is_retryable_error e) end.

(** What happens between two attempts of the unbounded loop. *)
Definition notify_and_sleep (retry_notify : option (M W unit)) : M W unit :=
  let* _ := match retry_notify with Some n => n | None => ret tt end in sleep RETRY_DELAY.

Lemma attempts_pos f req pause n w r w' : attempts f req pause n w r w' → (1 ≤ n)%nat.
Proof. destruct 1; lia. Qed.

Lemma bounded_loop_spec fuel f req limit attempt w r w' :
  0 ≤ attempt →
  with_max_attempts_loop fuel f req limit attempt w = (Ret r, w') →
  ∃ n, attempts f req (sleep RETRY_DELAY) n w r w' ∧
       Z.of_nat n ≤ Z.max 1 (limit - attempt) ∧
       (final r = false → Z.of_nat n = Z.max 1 (limit - attempt)).
Proof.
  revert attempt w. induction fuel as [|fuel IH]; intros attempt w Ha Hrun; [done|].
  cbn in Hrun. apply bind_inv_Ret in Hrun as (r1 & w1 & Hf & Hrun).
  destruct r1 as [resp|e]; run_inv.
  { exists 1%nat. split_and!; [by constructor|lia|done]. }
  destruct (is_retryable_error e) eqn:Hret; run_inv.
  2:{ exists 1%nat. split_and!; [by constructor|lia|cbn; by rewrite Hret]. }
  destruct (u8_max <? attempt + 1); [done|].
  destruct (Z.leb_spec limit (attempt + 1)); run_inv.
  { exists 1%nat. split_and!; [by constructor|lia|lia]. }
  destruct (IH (attempt + 1) _ ltac:(lia) Hrun) as (n & Hn & Hle & Hlast).
  exists (S n). pose proof (attempts_pos _ _ _ _ _ _ _ Hn). split_and!; [|lia|].
  - by eapply attempts_retry.
  - intros Hfin. specialize (Hlast Hfin). lia.
Qed.

Lemma bounded_loop_total fuel f req limit attempt w :
  0 ≤ attempt < 256 → limit ≤ u8_max → (attempt = 0 ∨ attempt < limit) →
  Z.max 1 (limit - attempt) ≤ Z.of_nat fuel →
  (∀ w, ∃ r w', f req w = (Ret r, w')) → (∀ w, ∃ w', sleep RETRY_DELAY w = (Ret tt, w')) →
  ∃ r w', with_max_attempts_loop fuel f req limit attempt w = (Ret r, w').
Proof.
  revert attempt w. induction fuel as [|fuel IH]; intros attempt w Ha Hl Hal Hfuel Hf Hs; [lia|].
  cbn. destruct (Hf w) as (r & w1 & Hfw). rewrite (bind_Ret _ _ _ _ _ Hfw).
  destruct r as [resp|e]; [by eexists _, _|].
  destruct (is_retryable_error e); [|by eexists _, _].
  destruct (Z.ltb_spec u8_max (attempt + 1)); [lia|].
  destruct (Z.leb_spec limit (attempt + 1)); [by eexists _, _|].
  destruct (Hs w1) as (w2 & Hsw). rewrite (bind_Ret _ _ _ _ _ Hsw).
  apply IH; [lia|lia|lia|lia|done|done].
Qed.

Lemma infinite_loop_sound fuel f req ntf w r w' :
  with_infinite_retries fuel f req ntf w = (Ret r, w') →
  final r = true ∧ ∃ n, (n ≤ fuel)%nat ∧ attempts f req (notify_and_sleep ntf) n w r w'.
Proof.
  revert w. induction fuel as [|fuel IH]; intros w Hrun; [done|].
  cbn in Hrun. apply bind_inv_Ret in Hrun as (r1 & w1 & Hf & Hrun).
  destruct r1 as [resp|e]; run_inv.
  { split; [done|]. exists 1%nat. split; [lia|by constructor]. }
  destruct (is_retryable_error e) eqn:Hret; run_inv.
  2:{ split; [cbn; by rewrite Hret|]. exists 1%nat. split; [lia|by constructor]. }
  destruct (IH _ Hrun) as (Hfin & n & Hle & Hn). split; [done|]. exists (S n). split; [lia|].
  eapply attempts_retry; [done|done| |exact Hn].
  unfold notify_and_sleep. erewrite bind_Ret by eassumption. eassumption.
Qed.

Lemma infinite_loop_complete fuel f req ntf n w r w' :
  attempts f req (notify_and_sleep ntf) n w r w' → final r = true → (n ≤ fuel)%nat →
  with_infinite_retries fuel f req ntf w = (Ret r, w').
Proof.
  intros Hn Hfin. revert fuel. induction Hn as [w r w' Hf|n w e w1 w2 r w' Hf Hret Hp Hn IH];
    intros [|fuel] Hle; [lia| |pose proof (attempts_pos _ _ _ _ _ _ _ Hn); lia|].
  - cbn. rewrite (bind_Ret _ _ _ _ _ Hf). destruct r as [resp|e]; [done|].
    cbn in Hfin. by destruct (is_retryable_error e).
  - cbn. rewrite (bind_Ret _ _ _ _ _ Hf), Hret. unfold notify_and_sleep in Hp.
    rewrite <- bind_assoc. rewrite (bind_Ret _ _ _ _ _ Hp). apply IH; [done|lia].
Qed.
End retry.

(** ** Properties *)

Section properties.
Context {W Req R : Type} `{Sleep W}.

(** C29: a request with a limit of attempts always comes back when the client
    does: at most [max 1 limit] calls are made (the default limit is 5), each
    but the last having failed with a retryable status; a retryable error is
    reported only when all of them are used up; the attempt counter never
    overflows its [u8]. *)
Theorem bounded_retry_behaviour (f : Req → M W (result R Status)) req max_attempts w :
  let limit := default MAX_RETRY_ATTEMPTS max_attempts in
  in_u 8 limit →
  (∀ w, ∃ r w', f req w = (Ret r, w')) → (∀ w, ∃ w', sleep RETRY_DELAY w = (Ret tt, w')) →
  ∃ n r w', with_max_attempts f req max_attempts w = (Ret r, w') ∧
    attempts f req (sleep RETRY_DELAY) n w r w' ∧
    Z.of_nat n ≤ Z.max 1 limit ∧
    (final r = false → Z.of_nat n = Z.max 1 limit).
Proof.
  intros limit Hlim Hf Hs. unfold in_u in Hlim.
  destruct (bounded_loop_total 256 f req limit 0 w) as (r & w' & Hrun);
    [lia|lia|by left|lia|done|done|].
  destruct (bounded_loop_spec _ _ _ _ _ _ _ _ (Z.le_refl 0) Hrun) as (n & Hn & Hle & Hlast).
  rewrite Z.sub_0_r in *. by exists n, r, w'.
Qed.

(** The unbounded retry returns exactly when the client gives an answer
    that is not a retryable error: with [n] or more iterations it returns the
    [n]-th answer if that is the first final one, it never returns a retryable
    error, and the reconnection notification is sent after each failure. *)
Theorem infinite_retry_behaviour fuel (f : Req → M W (result R Status)) req ntf w r w' :
  with_infinite_retries fuel f req ntf w = (Ret r, w') ↔
  final r = true ∧ ∃ n, (n ≤ fuel)%nat ∧ attempts f req (notify_and_sleep ntf) n w r w'.
Proof.
  split; [apply infinite_loop_sound|]. intros (Hfin & n & Hle & Hn).
  by eapply infinite_loop_complete.
Qed.
End properties.

(** ** Witness: a client that answers from a script *)

#[local] Instance script_sleep : Sleep (list (result nat Status)) := λ _ w, (Ret tt, w).

Definition script_request (_ : unit) : M (list (result nat Status)) (result nat Status) := λ w,
  match w with
  | [] => (Ret (Err (Status_new Unavailable "script over")), [])
  | r :: w' => (Ret r, w')
  end.

Lemma bounded_retry_behaviour_witness :
  ∃ n r w', with_max_attempts script_request tt (Some 2)
    [Err (Status_new Unavailable "down"); Ok 3%nat] = (Ret r, w') ∧
    attempts script_request tt (sleep RETRY_DELAY) n
      [Err (Status_new Unavailable "down"); Ok 3%nat] r w' ∧ Z.of_nat n ≤ 2.
Proof.
  destruct (bounded_retry_behaviour script_request tt (Some 2)
    [Err (Status_new Unavailable "down"); Ok 3%nat]) as (n & r & w' & H1 & H2 & H3 & _).
  - vm_compute. split; [discriminate|reflexivity].
  - intros [|r w]; by eexists _, _.
  - intros w. by exists w.
  - exists n, r, w'. split_and!; [exact H1|exact H2|exact H3].
Defined.
