(* ===== verification/Ldk.v ===== *)
(** * What lies outside the repository

    secp256k1 keys, the types and functions of the [lightning] crate (LDK) and
    the protobuf messages of LND that LNDK uses.  None of this code is in the
    repository: key and LDK operations are fields of type classes, so every
    definition that uses them is parameterised by them, and what theorems rely
    on is a separate class of laws.  Records and enumerations carry the fields
    and variants the sources read or build. *)

From S2P Require Import Prelude Grpc.
Open Scope Z_scope.

(** ** secp256k1 public keys *)

Class Secp : Type := {
  PublicKey : Type;
  PublicKey_eq_dec :: EqDecision PublicKey;
  PublicKey_countable :: Countable PublicKey;
  pk_from_str : string → option PublicKey;
  pk_to_string : PublicKey → string;
  pk_from_slice : bytes → option PublicKey;
  pk_serialize : PublicKey → bytes;
}.

(** [str::as_bytes]. *)
Definition as_bytes (s : string) : bytes :=
  map (λ c, Z.of_nat (Ascii.nat_of_ascii c)) (String.list_ascii_of_string s).

(** The documented behaviour of [PublicKey]: its text is the 66 hexadecimal
    digits of the 33-byte compressed serialization, both parse back, and
    [from_slice] only takes the 33-byte and 65-byte encodings. *)
Class SecpLaws `{Secp} : Prop := {
  pk_from_to_string pk : pk_from_str (pk_to_string pk) = Some pk;
  pk_from_slice_serialize pk : pk_from_slice (pk_serialize pk) = Some pk;
  pk_to_string_length pk : String.length (pk_to_string pk) = 66%nat;
  pk_from_slice_length b pk :
    pk_from_slice b = Some pk → length b = 33%nat ∨ length b = 65%nat;
}.

Lemma as_bytes_length s : length (as_bytes s) = String.length s.
Proof. unfold as_bytes. rewrite length_map. induction s; cbn; congruence. Qed.

(** The text of a key is never taken for a serialized key. *)
Lemma pk_from_slice_of_text `{SecpLaws} pk : pk_from_slice (as_bytes (pk_to_string pk)) = None.
Proof.
  destruct (pk_from_slice _) as [pk'|] eqn:E; [|done].
  apply pk_from_slice_length in E. rewrite as_bytes_length, pk_to_string_length in E. lia.
Qed.

(** ** bitcoin *)

Inductive Network := Bitcoin | Testnet | Signet | Regtest.

#[export] Instance Network_eq_dec : EqDecision Network.
Proof. solve_decision. Defined.

(** [PaymentId] and [PaymentHash]: 32 bytes. *)
Abbreviation PaymentId := (list Z).
Abbreviation PaymentHash := (list Z).

(** ** LDK *)

Inductive Direction := NodeOne | NodeTwo.

(** [lightning::offers::offer::Amount]. *)
Inductive Amount :=
| AmountBitcoin (amount_msats : Z)
| AmountCurrency (iso4217_code : list Z) (amount : Z).

(** [lightning::offers::offer::Quantity]. *)
Inductive Quantity := QBounded (n : Z) | QUnbounded | QOne.

Section ldk_data.
Context `{Secp}.

Inductive IntroductionNode :=
| NodeId (pk : PublicKey)
| DirectedShortChannelId (direction : Direction) (scid : Z).

Record MessageForwardNode := {
  fwd_node_id : PublicKey;
  fwd_short_channel_id : option Z;
}.

Record BlindedHop := { blinded_node_id : PublicKey; encrypted_payload : bytes }.
End ldk_data.

Class Ldk `{Secp} : Type := {
  (** Opaque values. *)
  Offer : Type;
  InvoiceRequest : Type;
  VerifiedInvoiceRequest : Type;
  InvoiceRequestBuilder : Type;
  InvoiceBuilder : Type;
  Bolt12Invoice : Type;
  BlindedMessagePath : Type;
  BlindedPaymentPath : Type;
  BlindedHopFeatures : Type;
  Nonce : Type;
  ExpandedKey : Type;
  Hmac : Type;
  InvoiceError : Type;
  Responder : Type;
  ResponseInstruction : Type;
  Bolt12SemanticError : Type;
  Bolt12ParseError : Type;
  DecodeError : Type;
  SignError : Type;
  BitcoinIoError : Type;
  (** Offers. *)
  offer_from_str : string → result Offer Bolt12ParseError;
  offer_to_string : Offer → string;
  offer_amount : Offer → option Amount;
  offer_paths : Offer → list BlindedMessagePath;
  offer_issuer_signing_pubkey : Offer → option PublicKey;
  message_path_introduction_node : BlindedMessagePath → IntroductionNode;
  (** Invoice requests. *)
  request_invoice :
    Offer → ExpandedKey → Nonce → PaymentId → result InvoiceRequestBuilder Bolt12SemanticError;
  irb_chain : InvoiceRequestBuilder → Network → result InvoiceRequestBuilder Bolt12SemanticError;
  irb_amount_msats :
    InvoiceRequestBuilder → Z → result InvoiceRequestBuilder Bolt12SemanticError;
  irb_payer_note : InvoiceRequestBuilder → string → InvoiceRequestBuilder;
  irb_build_and_sign : InvoiceRequestBuilder → result InvoiceRequest Bolt12SemanticError;
  invoice_request_amount : InvoiceRequest → option Amount;
  invoice_request_description : InvoiceRequest → option string;
  verify_using_recipient_data :
    InvoiceRequest → Nonce → ExpandedKey → result VerifiedInvoiceRequest unit;
  respond_using_derived_keys :
    VerifiedInvoiceRequest → list BlindedPaymentPath → PaymentHash →
    result InvoiceBuilder Bolt12SemanticError;
  invoice_build_and_sign : InvoiceBuilder → result Bolt12Invoice Bolt12SemanticError;
  (** Invoices. *)
  invoice_payment_hash : Bolt12Invoice → PaymentHash;
  invoice_payment_paths : Bolt12Invoice → list BlindedPaymentPath;
  invoice_amount : Bolt12Invoice → option Amount;
  verify_using_payer_data : Bolt12Invoice → PaymentId → Nonce → ExpandedKey → result PaymentId unit;
  hmac_for_offer_payment : PaymentId → Nonce → ExpandedKey → Hmac;
  verify_for_offer_payment : PaymentId → Hmac → Nonce → ExpandedKey → result unit unit;
  invoice_error_from_semantic : Bolt12SemanticError → InvoiceError;
  invoice_error_from_string : string → InvoiceError;
  responder_respond : Responder → ResponseInstruction;
  expanded_key_new : bytes → ExpandedKey;
  (** Blinded payment paths. *)
  blinded_hop_features_from_le_bytes : bytes → BlindedHopFeatures;
  payment_path_introduction_node : BlindedPaymentPath → IntroductionNode;
  payment_path_blinding_point : BlindedPaymentPath → PublicKey;
  payment_path_blinded_hops : BlindedPaymentPath → list BlindedHop;
  payment_path_cltv_expiry_delta : BlindedPaymentPath → Z;
  payment_path_fee_base_msat : BlindedPaymentPath → Z;
  payment_path_fee_proportional_millionths : BlindedPaymentPath → Z;
}.

Section ldk_messages.
Context `{Ldk}.

Inductive Destination :=
| DestNode (pk : PublicKey)
| DestBlindedPath (path : BlindedMessagePath).

(** [OffersContext]: the variants other than the two LNDK uses are lumped. *)
Inductive OffersContext :=
| CtxInvoiceRequest (nonce : Nonce)
| CtxOutboundPayment (payment_id : PaymentId) (nonce : Nonce) (hmac : option Hmac)
| CtxOther.

Inductive MessageContext := CtxOffers (c : OffersContext).

Inductive OffersMessage :=
| MsgInvoiceRequest (invoice_request : InvoiceRequest)
| MsgInvoice (invoice : Bolt12Invoice)
| MsgInvoiceError (error : InvoiceError).

(** [WithSpecifiedReplyPath], or the result of [into_instructions] on a
    response instruction. *)
Inductive MessageSendInstructions :=
| WithSpecifiedReplyPath (destination : Destination) (reply_path : BlindedMessagePath)
| IntoInstructions (instruction : ResponseInstruction).

(** The calls made on an [OfferBuilder] before [build]. *)
Inductive OfferBuilderCall :=
| OBChain (chain : Network)
| OBAmountMsats (amount_msats : Z)
| OBPath (path : BlindedMessagePath)
| OBDescription (description : string)
| OBIssuer (issuer : string)
| OBSupportedQuantity (quantity : Quantity)
| OBAbsoluteExpiry (absolute_expiry : Z).

Record BlindedPayInfo := {
  fee_base_msat : Z;
  fee_proportional_millionths : Z;
  cltv_expiry_delta : Z;
  htlc_minimum_msat : Z;
  htlc_maximum_msat : Z;
  payinfo_features : BlindedHopFeatures;
}.
End ldk_messages.

(** LDK operations that draw on the entropy source ([MessengerUtilities]) or
    on the records above. *)
Class LdkEntropy `{Ldk} (W : Type) : Type := {
  get_secure_random_bytes : M W bytes;
  nonce_from_entropy_source : M W Nonce;
  message_path_one_hop :
    PublicKey → MessageContext → M W (result BlindedMessagePath unit);
  message_path_new :
    list MessageForwardNode → PublicKey → MessageContext → M W (result BlindedMessagePath unit);
}.

Class LdkBuild `{Ldk} : Type := {
  (** [OfferBuilder::deriving_signing_pubkey], the calls, then [build]. *)
  offer_build :
    PublicKey → ExpandedKey → Nonce → list OfferBuilderCall → result Offer Bolt12SemanticError;
  from_blinded_path_and_payinfo :
    PublicKey → PublicKey → list BlindedHop → BlindedPayInfo → BlindedPaymentPath;
}.

(** ** LND's protobuf messages *)

Record Feature := { feature_name : string; feature_is_required : bool; feature_is_known : bool }.

Record Peer := { peer_pub_key : string; peer_features : gmap Z Feature }.

Record NodeAddress := { addr_network : string; addr_addr : string }.

Record LightningNode := {
  node_addresses : list NodeAddress;
  node_features : gmap Z Feature;
}.

Record ChannelEdge := { channel_id : Z; node1_pub : string; node2_pub : string }.

Record NodeInfo := { info_node : option LightningNode; info_channels : list ChannelEdge }.

Record Channel := { remote_pubkey : string; chan_id : Z }.

Record Chain := { chain_chain : string; chain_network : string }.

Record GetInfoResponse := {
  identity_pubkey : string;
  info_features : gmap Z Feature;
  info_chains : list Chain;
}.

Record Version := {
  app_major : Z;
  app_minor : Z;
  app_patch : Z;
  app_pre_release : string;
  build_tags : list string;
}.

Record LndBlindedHop := { lnd_blinded_node : bytes; lnd_encrypted_data : bytes }.

Record LndBlindedPath := {
  lnd_introduction_node : bytes;
  lnd_blinding_point : bytes;
  lnd_blinded_hops : list LndBlindedHop;
}.

Record LndBlindedPaymentPath := {
  lnd_blinded_path : option LndBlindedPath;
  lnd_base_fee_msat : Z;
  lnd_proportional_fee_rate : Z;
  lnd_total_cltv_delta : Z;
  lnd_htlc_min_msat : Z;
  lnd_htlc_max_msat : Z;
  lnd_features : list Z;
}.

Record PayReq := { payreq_payment_hash : string; payreq_blinded_paths : list LndBlindedPaymentPath }.

Inductive PaymentStatus :=
| PaymentUnknown | PaymentInFlight | PaymentSucceeded | PaymentFailed | PaymentInitiated.

#[export] Instance PaymentStatus_eq_dec : EqDecision PaymentStatus.
Proof. solve_decision. Defined.

Record Payment := { payment_preimage : string; payment_status : PaymentStatus }.

(** [FeeLimit] with its [limit] oneof; [fee_limit_fixed] in satoshis is never
    built by LNDK. *)
Inductive FeeLimit := FixedMsat (fixed : Z) | Percent (percent : Z).
