(* ===== verification/OfferError.v ===== *)
(** * Errors of the offers component

    Models src/offers/mod.rs: [OfferError], its stable error codes, its gRPC
    codes, its messages and its conversion to a [Status]. *)

From S2P Require Import Prelude Grpc Ldk.

(** Debug formatting of LDK's error values. *)
Class LdkFmt `{Ldk} : Type := {
  fmt_semantic_error : Bolt12SemanticError → string;
  fmt_parse_error : Bolt12ParseError → string;
  fmt_decode_error : DecodeError → string;
  fmt_sign_error : SignError → string;
  fmt_io_error : BitcoinIoError → string;
}.

Section offer_error.
Context `{Ldk}.

Inductive OfferError :=
| AlreadyProcessing (id : PaymentId)
| BuildUIRFailure (e : Bolt12SemanticError)
| OESignError (e : SignError)
| DeriveKeyFailure (e : string)
| InvalidAmount (e : string)
| InvalidCurrency
| PeerConnectError (e : string)
| NodeAddressNotFound
| ListPeersFailure (e : string)
| BuildBlindedPathFailure
| RouteFailure (e : string)
| TrackFailure (e : string)
| PaymentFailure
| InvoiceTimeout (seconds : Z)
| IntroductionNodeNotFound
| GetChannelInfo (e : string)
| CreateOfferFailure (e : Bolt12SemanticError)
| CreateOfferTimeFailure
| AddInvoiceFailure (e : string)
| DecodePaymentRequestFailure (e : string)
| ParsePaymentHashFailure (e : string)
| ParseOfferFailure (e : Bolt12ParseError)
| ParseInvoiceFailure (e : DecodeError)
| EncodeInvoiceFailure (e : BitcoinIoError)
| ListChannelsFailure (e : string).

Definition OfferError_code (self : OfferError) : string :=
  match self with
  | CreateOfferFailure _ => "CREATE_OFFER_FAILURE"
  | CreateOfferTimeFailure => "CREATE_OFFER_TIME_FAILURE"
  | AddInvoiceFailure _ => "ADD_INVOICE_FAILURE"
  | DecodePaymentRequestFailure _ => "DECODE_PAYMENT_REQUEST_FAILURE"
  | ParsePaymentHashFailure _ => "PARSE_PAYMENT_HASH_FAILURE"
  | ParseOfferFailure _ => "PARSE_OFFER_FAILURE"
  | ParseInvoiceFailure _ => "PARSE_INVOICE_FAILURE"
  | EncodeInvoiceFailure _ => "ENCODE_INVOICE_FAILURE"
  | InvalidAmount _ => "INVALID_AMOUNT"
  | InvalidCurrency => "INVALID_CURRENCY"
  | AlreadyProcessing _ => "ALREADY_PROCESSING"
  | BuildUIRFailure _ => "BUILD_UIR_FAILURE"
  | OESignError _ => "SIGN_ERROR"
  | DeriveKeyFailure _ => "DERIVE_KEY_FAILURE"
  | PeerConnectError _ => "PEER_CONNECT_ERROR"
  | NodeAddressNotFound => "NODE_ADDRESS_NOT_FOUND"
  | ListPeersFailure _ => "LIST_PEERS_FAILURE"
  | BuildBlindedPathFailure => "BUILD_BLINDED_PATH_FAILURE"
  | RouteFailure _ => "ROUTE_FAILURE"
  | TrackFailure _ => "TRACK_FAILURE"
  | PaymentFailure => "PAYMENT_FAILURE"
  | InvoiceTimeout _ => "INVOICE_TIMEOUT"
  | IntroductionNodeNotFound => "INTRODUCTION_NODE_NOT_FOUND"
  | GetChannelInfo _ => "GET_CHANNEL_INFO"
  | ListChannelsFailure _ => "LIST_CHANNELS_FAILURE"
  end.

Definition OfferError_grpc_code (self : OfferError) : Code :=
  match self with
  | InvalidAmount _ | InvalidCurrency | ParseOfferFailure _ | ParseInvoiceFailure _
  | EncodeInvoiceFailure _ => InvalidArgument
  | _ => Internal
  end.

Context `{!LdkFmt}.

Definition OfferError_fmt (self : OfferError) : string :=
  match self with
  | AlreadyProcessing id => "Payment with id " +:+ hex_encode id +:+ " already in progress"
  | BuildUIRFailure e => "Failed to build invoice request: " +:+ fmt_semantic_error e
  | OESignError e => "Failed to sign invoice request: " +:+ fmt_sign_error e
  | DeriveKeyFailure e => "Failed to derive key: " +:+ e
  | InvalidAmount e => "Invalid amount: " +:+ e
  | InvalidCurrency => "Only bitcoin currency is supported"
  | PeerConnectError e => "Failed to connect to peer: " +:+ e
  | NodeAddressNotFound => "Node address not found"
  | ListPeersFailure e => "Failed to list peers: " +:+ e
  | BuildBlindedPathFailure => "Failed to build blinded path"
  | RouteFailure e => "Failed to route payment: " +:+ e
  | TrackFailure e => "Failed to track payment: " +:+ e
  | PaymentFailure => "Payment failed"
  | InvoiceTimeout e => "Invoice request timed out after " +:+ string_of_Z e +:+ " seconds"
  | IntroductionNodeNotFound => "Introduction node not found"
  | GetChannelInfo e => "Failed to get channel info: " +:+ e
  | CreateOfferFailure e => "Failed to create offer: " +:+ fmt_semantic_error e
  | CreateOfferTimeFailure => "Invalid offer expiry time"
  | AddInvoiceFailure e => "Failed to add invoice to lnd node: " +:+ e
  | DecodePaymentRequestFailure e => "Failed to decode payment request: " +:+ e
  | ParsePaymentHashFailure e => "Failed to parse payment hash: " +:+ str_debug e
  | ParseOfferFailure e => "Invalid offer: must start with 'lno'. Error: " +:+ fmt_parse_error e
  | ParseInvoiceFailure e => "Invalid invoice: must be hex format. Error: " +:+ fmt_decode_error e
  | ListChannelsFailure e => "Error listing channels: " +:+ str_debug e
  | EncodeInvoiceFailure e => "Failed to encode invoice: " +:+ fmt_io_error e
  end.

Definition OfferError_to_status (self : OfferError) : Status :=
  with_error_details (OfferError_grpc_code self) (OfferError_fmt self)
    {| error_reason := OfferError_code self; error_domain := "lndk" |}.

(** The variant of an error, without its payload. *)
Definition same_variant (a b : OfferError) : bool :=
  match a, b with
  | AlreadyProcessing _, AlreadyProcessing _ | BuildUIRFailure _, BuildUIRFailure _
  | OESignError _, OESignError _ | DeriveKeyFailure _, DeriveKeyFailure _
  | InvalidAmount _, InvalidAmount _ | InvalidCurrency, InvalidCurrency
  | PeerConnectError _, PeerConnectError _ | NodeAddressNotFound, NodeAddressNotFound
  | ListPeersFailure _, ListPeersFailure _ | BuildBlindedPathFailure, BuildBlindedPathFailure
  | RouteFailure _, RouteFailure _ | TrackFailure _, TrackFailure _
  | PaymentFailure, PaymentFailure | InvoiceTimeout _, InvoiceTimeout _
  | IntroductionNodeNotFound, IntroductionNodeNotFound | GetChannelInfo _, GetChannelInfo _
  | CreateOfferFailure _, CreateOfferFailure _ | CreateOfferTimeFailure, CreateOfferTimeFailure
  | AddInvoiceFailure _, AddInvoiceFailure _
  | DecodePaymentRequestFailure _, DecodePaymentRequestFailure _
  | ParsePaymentHashFailure _, ParsePaymentHashFailure _
  | ParseOfferFailure _, ParseOfferFailure _ | ParseInvoiceFailure _, ParseInvoiceFailure _
  | EncodeInvoiceFailure _, EncodeInvoiceFailure _
  | ListChannelsFailure _, ListChannelsFailure _ => true
  | _, _ => false
  end.

(** A client can tell the errors apart: the reason in the status of an
    error determines its variant, errors of one variant have one gRPC code, and
    no status of the offers component is one that the retry loops would retry. *)
Theorem offer_error_status_faithful (a b : OfferError) :
  (status_details (OfferError_to_status a) = status_details (OfferError_to_status b) ↔
     same_variant a b = true) ∧
  (same_variant a b = true →
     status_code (OfferError_to_status a) = status_code (OfferError_to_status b)) ∧
  is_retryable_error (OfferError_to_status a) = false.
Proof.
  split; [|split].
  - split; [|destruct a, b; done]. unfold OfferError_to_status, with_error_details; cbn.
    intros [= Hc]. destruct a, b; done.
  - destruct a, b; done.
  - destruct a; done.
Qed.
End offer_error.
