(* ===== verification/Parse.v ===== *)
(** * Decoding offers and validating amounts

    Models src/offers/parse.rs. *)

From S2P Require Import Prelude Grpc Ldk OfferError.
Open Scope Z_scope.

Section parse.
Context `{Ldk}.

Definition decode (offer_str : string) : result Offer OfferError :=
  result_map_err ParseOfferFailure (offer_from_str offer_str).

Definition get_destination (offer : Offer) : result Destination OfferError :=
  match offer_paths offer with
  | [] =>
      match offer_issuer_signing_pubkey offer with
      | Some signing_pubkey => Ok (DestNode signing_pubkey)
      | None => Err IntroductionNodeNotFound
      end
  | path :: _ => Ok (DestBlindedPath path)
  end.

Definition validate_amount (offer_amount_msats : option Amount) (pay_amount_msats : option Z)
    : result Z OfferError :=
  match offer_amount_msats with
  | Some offer_amount =>
      match offer_amount with
      | AmountBitcoin bitcoin_amt =>
          if bitcoin_amt =? 0 then
            Err (InvalidAmount
              "Offer has amount explicitly set to 0, which is invalid per BOLT 12 spec")
          else
            match pay_amount_msats with
            | Some msats =>
                if msats <? bitcoin_amt then
                  Err (InvalidAmount (string_of_Z msats +:+ " is less than offer amount "
                                      +:+ string_of_Z bitcoin_amt))
                else Ok msats
            | None => Ok bitcoin_amt
            end
      | _ => Err InvalidCurrency
      end
  | None =>
      match pay_amount_msats with
      | Some msats => Ok msats
      | None =>
          Err (InvalidAmount "Offer doesn't set an amount, so user must specify one")
      end
  end.

Lemma validate_amount_Ok oa pa a :
  validate_amount oa pa = Ok a ↔
  (∃ b, oa = Some (AmountBitcoin b) ∧ b ≠ 0 ∧
        ((pa = None ∧ a = b) ∨ (pa = Some a ∧ b ≤ a))) ∨
  (oa = None ∧ pa = Some a).
Proof.
  unfold validate_amount. destruct oa as [[b|code b]|]; [|naive_solver|destruct pa; naive_solver].
  destruct (Z.eqb_spec b 0); [naive_solver|].
  destruct pa as [m|]; [|naive_solver].
  destruct (Z.ltb_spec m b); split; intros; destruct_or?; destruct_and?; naive_solver lia.
Qed.

(** C31: an amount is accepted exactly when the offer asks for a non-zero bitcoin
    amount that the payer meets or leaves to the offer, or asks for none and the
    payer names one; what is paid is then what the payer said, if anything,
    and never less than the offer's amount. *)
Theorem validate_amount_correct oa pa a :
  (validate_amount oa pa = Ok a ↔
     (∃ b, oa = Some (AmountBitcoin b) ∧ b ≠ 0 ∧
           ((pa = None ∧ a = b) ∨ (pa = Some a ∧ b ≤ a))) ∨
     (oa = None ∧ pa = Some a)) ∧
  (∀ code n, ∃ e, validate_amount (Some (AmountCurrency code n)) pa = Err e ∧
                  OfferError_code e = "INVALID_CURRENCY"%string) ∧
  (∀ e, validate_amount oa pa = Err e → OfferError_grpc_code e = InvalidArgument).
Proof.
  split; [apply validate_amount_Ok|split].
  - intros code n. by eexists.
  - intros e. unfold validate_amount. repeat case_match; intros; by simplify_eq.
Qed.

(** An offer is reached through its first blinded path when it has one, and
    only then by its signing key; an offer with neither has no destination. *)
Theorem get_destination_correct offer :
  match get_destination offer with
  | Ok (DestBlindedPath p) => head (offer_paths offer) = Some p
  | Ok (DestNode pk) => offer_paths offer = [] ∧ offer_issuer_signing_pubkey offer = Some pk
  | Err e => e = IntroductionNodeNotFound ∧ offer_paths offer = [] ∧
             offer_issuer_signing_pubkey offer = None
  end.
Proof.
  unfold get_destination. destruct (offer_paths offer); [|done].
  by destruct (offer_issuer_signing_pubkey offer).
Qed.
End parse.
