(* ===== verification/Lnd.v ===== *)
(** * LND: credentials, version checks, networks, signing, blinded paths

    Models src/lnd.rs: validation of credentials, the feature, version and
    build-tag checks, the network lookup, [LndError], LND's node signer, the
    seed derivation, the conversion of LND's blinded payment paths, and the
    traits through which the rest of LNDK talks to LND.  A trait is a type
    class over the world. *)

From Stdlib Require Import OrdersEx.
From S2P Require Import Prelude Grpc Ldk OfferError.
Open Scope Z_scope.

Definition ONION_MESSAGES_REQUIRED : Z := 38.
Definition ONION_MESSAGES_OPTIONAL : Z := 39.
Definition MIN_LND_MAJOR_VER : Z := 0.
Definition MIN_LND_MINOR_VER : Z := 18.
Definition MIN_LND_PATCH_VER : Z := 0.
Definition MIN_LND_PRE_RELEASE_VER : string := "beta".
Definition BUILD_TAGS_REQUIRED : list string := ["peersrpc"; "signrpc"; "walletrpc"]%string.
Definition SEED_KEY_FAMILY : Z := 4.
Definition SEED_KEY_INDEX : Z := 425.

(** ** Credentials *)

Inductive ValidationError :=
| CertOnlyOne | MacaroonOnlyOne | CertRequired | MacaroonRequired | CredMismatch.

(** The lines of the texts are indented as in the source. *)
Definition ValidationError_fmt (self : ValidationError) : string :=
  match self with
  | CertOnlyOne => "Only one of `cert_path` or `cert_pem` should be set."
  | MacaroonOnlyOne => "Only one of `macaroon_path` or `macaroon_hex` should be set."
  | CertRequired =>
      "Cert config option is required. Please set either `cert_path` or `cert_pem`."
  | MacaroonRequired =>
      "Macaroon config option is required. Please set either `macaroon_path`
                    or `macaroon_hex`."
  | CredMismatch =>
      "There are two options for loading credentials: either both `cert_path` and `macaroon_path`
                    must be set or both `cert_pem` and `macaroon_hex` must be set. It's not possible to
                    mismatch them."
  end.

(** Paths are the strings they are given as. *)
Inductive Creds :=
| CredsPath (macaroon cert : string)
| CredsString (macaroon cert : string).

Record LndCfg := { lnd_address : string; lnd_creds : Creds }.

(** The outcome is [Panic] if [cert_pem.unwrap()] is reached without a value. *)
Definition validate_lnd_creds (cert_path cert_pem macaroon_path macaroon_hex : option string)
    : outcome (result Creds ValidationError) :=
  if is_none cert_path && is_none cert_pem then Ret (Err CertRequired)
  else if is_some cert_path && is_some cert_pem then Ret (Err CertOnlyOne)
  else if is_none macaroon_path && is_none macaroon_hex then Ret (Err MacaroonRequired)
  else if is_some macaroon_path && is_some macaroon_hex then Ret (Err MacaroonOnlyOne)
  else
    match cert_path with
    | Some cert_path =>
        match macaroon_path with
        | Some path => Ret (Ok (CredsPath path cert_path))
        | None => Ret (Err CredMismatch)
        end
    | None =>
        match macaroon_hex with
        | Some macaroon =>
            match cert_pem with
            | Some cert => Ret (Ok (CredsString macaroon cert))
            | None => Panic
            end
        | None => Ret (Err CredMismatch)
        end
    end.

(** Reading a file, for the credentials given as paths. *)
Class ReadFile (W : Type) : Type := read_to_string : string → M W (result string string).

Definition get_certificate_string {W} `{ReadFile W} (self : Creds) : M W (result string unit) :=
  match self with
  | CredsPath _ cert => map_err (λ _, tt) (read_to_string cert)
  | CredsString _ cert => ret (Ok cert)
  end.

(** ** Features, version, build tags *)

Definition features_support_onion_messages (features : gmap Z Feature) : bool :=
  bool_decide (is_Some (features !! ONION_MESSAGES_OPTIONAL))
  || bool_decide (is_Some (features !! ONION_MESSAGES_REQUIRED)).

Record VersionRequirement := {
  req_major : Z; req_minor : Z; req_patch : Z; req_pre_release : string;
}.

(** [>] on strings: byte-wise lexicographic. *)
Definition str_gt (a b : string) : bool :=
  match String.compare a b with Gt => true | _ => false end.

Definition default_version_requirement : VersionRequirement :=
  {| req_major := MIN_LND_MAJOR_VER; req_minor := MIN_LND_MINOR_VER;
     req_patch := MIN_LND_PATCH_VER; req_pre_release := MIN_LND_PRE_RELEASE_VER |}.

Definition has_version (version : Version) (requirement : option VersionRequirement) : bool :=
  let requirement := default default_version_requirement requirement in
  if negb (app_major version =? req_major requirement) then
    req_major requirement <? app_major version
  else if negb (app_minor version =? req_minor requirement) then
    req_minor requirement <? app_minor version
  else if negb (app_patch version =? req_patch requirement) then
    req_patch requirement <? app_patch version
  else if negb (app_pre_release version =? req_pre_release requirement)%string then
    str_gt (app_pre_release version) (req_pre_release requirement)
  else true.

Record BuildTagsRequirement := { tags : list string }.

Definition has_build_tags (version : Version) (requirement : option BuildTagsRequirement) : bool :=
  let requirement := default {| tags := BUILD_TAGS_REQUIRED |} requirement in
  forallb (λ tag, bool_decide (tag ∈ build_tags version)) (tags requirement).

(** ** Networks *)

Inductive NetworkParseError := NetworkInvalid (network_str : string).

(** [LndError]; the payload of [ConnectError] is its text. *)
Inductive LndError :=
| LndConnectError (e : string)
| LndNetworkParseError (e : NetworkParseError)
| NetworkNotConnected
| ServiceUnavailable (e : string).

Definition NetworkParseError_fmt (e : NetworkParseError) : string :=
  match e with
  | NetworkInvalid s =>
      "invalid network provided: " +:+ s +:+ ". Should be mainnet, testnet, signet, or regtest."
  end.

Definition LndError_code (self : LndError) : string :=
  match self with
  | LndConnectError _ => "CONNECT_ERROR"
  | LndNetworkParseError _ => "NETWORK_PARSE_ERROR"
  | NetworkNotConnected => "NETWORK_NOT_CONNECTED"
  | ServiceUnavailable _ => "SERVICE_UNAVAILABLE"
  end.

Definition LndError_grpc_code (self : LndError) : Code :=
  match self with
  | LndNetworkParseError _ => InvalidArgument
  | LndConnectError _ | NetworkNotConnected | ServiceUnavailable _ => Unavailable
  end.

Definition LndError_fmt (self : LndError) : string :=
  match self with
  | LndConnectError e => "Failed to connect to LND: " +:+ e
  | LndNetworkParseError e => "Failed to parse network configuration: " +:+ NetworkParseError_fmt e
  | NetworkNotConnected => "LND node is not connected to bitcoin network"
  | ServiceUnavailable e => "LND service is unavailable: " +:+ e
  end.

Definition LndError_to_status (self : LndError) : Status :=
  with_error_details (LndError_grpc_code self) (LndError_fmt self)
    {| error_reason := LndError_code self; error_domain := "lndk" |}.

(** [str::to_lowercase] on ASCII letters; other characters are kept. *)
Definition lower_ascii (c : Ascii.ascii) : Ascii.ascii :=
  let n := Ascii.nat_of_ascii c in
  if (65 <=? n)%nat && (n <=? 90)%nat then Ascii.ascii_of_nat (n + 32) else c.

Fixpoint to_lowercase (s : string) : string :=
  match s with
  | EmptyString => EmptyString
  | String c s => String (lower_ascii c) (to_lowercase s)
  end.

Definition string_to_network (network_str : string) : result Network NetworkParseError :=
  let network_str := to_lowercase network_str in
  if (network_str =? "mainnet")%string then Ok Bitcoin
  else if (network_str =? "testnet")%string then Ok Testnet
  else if (network_str =? "signet")%string then Ok Signet
  else if (network_str =? "regtest")%string then Ok Regtest
  else Err (NetworkInvalid network_str).

Definition get_network (info : GetInfoResponse) : result Network LndError :=
  let network_str :=
    foldl (λ acc chain,
             if (chain_chain chain =? "bitcoin")%string then Some (chain_network chain) else acc)
      None (info_chains info) in
  match network_str with
  | None => Err NetworkNotConnected
  | Some network_str => result_map_err LndNetworkParseError (string_to_network network_str)
  end.

(** ** Feature bits *)

(** [u128::to_le_bytes]: the [n] low bytes, least significant first. *)
Fixpoint to_le_bytes (n : nat) (z : Z) : bytes :=
  match n with
  | O => []
  | S n => Z.land z 255 :: to_le_bytes n (Z.shiftr z 8)
  end.

Definition feature_bits_to_le_bytes (feature_bits : list Z) : bytes :=
  let bits :=
    foldl (λ bits bit,
             if (0 <=? bit) && (bit <=? 127) then Z.lor bits (Z.shiftl 1 bit) else bits)
      0 feature_bits in
  to_le_bytes 16 bits.

(** ** Traits over LND's API *)

Record KeyLocator := { key_family : Z; key_index : Z }.

Class MessageSigner (W : Type) : Type :=
  sign_message : bytes → KeyLocator → bool → bool → M W (result bytes unit).

Class PeerConnector (W : Type) : Type := {
  list_peers : M W (result (list Peer) Status);
  connect_peer : string → string → M W (result unit Status);
  get_node_info : string → bool → M W (result NodeInfo Status);
  list_active_public_channels : M W (result (list Channel) Status);
}.

Class InvoicePayer `{Ldk} (W : Type) : Type := {
  Route : Type;
  HtlcAttempt : Type;
  query_routes :
    BlindedPaymentPath → Z → Z → Z → Z → option FeeLimit → M W (result (list Route) Status);
  send_to_route : PaymentHash → Route → M W (result HtlcAttempt Status);
  payer_track_payment : PaymentHash → M W (result Payment OfferError);
}.

Class OfferCreator (W : Type) : Type :=
  get_info : M W (result GetInfoResponse Status).

(** [add_invoice] answers the payment request of the invoice. *)
Class Bolt12InvoiceCreator `{Ldk} (W : Type) : Type := {
  add_invoice : InvoiceRequest → M W (result string Status);
  decode_payment_request : string → M W (result PayReq Status);
}.

(** ** The seed *)

Definition seed_message : string := "LNDK:DO NOT SIGN THIS MANUALLY:SEED".

(** SHA-256 is a parameter. *)
Definition build_seed_from_lnd_node {W} `{MessageSigner W} (sha256 : bytes → bytes)
    : M W (result bytes unit) :=
  let key_loc := {| key_family := SEED_KEY_FAMILY; key_index := SEED_KEY_INDEX |} in
  let? signature := sign_message (as_bytes seed_message) key_loc false true in
  ret (Ok (sha256 signature)).

(** ** LND as node signer *)

Inductive Recipient := RecipientNode | RecipientPhantomNode.

(** Scalar multiplication, shared secrets and LND's [DeriveSharedKey]. *)
Class Ecdh `{Secp} (W : Type) : Type := {
  Scalar : Type;
  SharedSecret : Type;
  mul_tweak : PublicKey → Scalar → option PublicKey;
  shared_secret_from_slice : bytes → option SharedSecret;
  derive_shared_key : bytes → M W (result bytes Status);
}.

Record LndNodeSigner `{Secp} := { signer_pubkey : PublicKey }.

Section signer.
Context `{Secp} {W : Type} `{!Ecdh W}.

Definition signer_get_node_id (self : LndNodeSigner) (recipient : Recipient)
    : result PublicKey unit :=
  match recipient with
  | RecipientNode => Ok (signer_pubkey self)
  | RecipientPhantomNode => Err tt
  end.

Definition ecdh (recipient : Recipient) (other_key : PublicKey) (tweak : option Scalar)
    : M W (result SharedSecret unit) :=
  match recipient with
  | RecipientPhantomNode => ret (Err tt)
  | RecipientNode =>
      let? tweaked_key :=
        ret match tweak with
            | Some tweak => ok_or tt (mul_tweak other_key tweak)
            | None => Ok other_key
            end in
      let* r := derive_shared_key (pk_serialize tweaked_key) in
      match r with
      | Ok shared_secret =>
          match shared_secret_from_slice shared_secret with
          | Some secret => ret (Ok secret)
          | None => ret (Err tt)
          end
      | Err _ => ret (Err tt)
      end
  end.

(** The methods that onion messaging does not need are [unimplemented!]. *)
Definition get_inbound_payment_key {ExpandedKey : Type} : M W ExpandedKey := panic.
Definition sign_invoice {RawBolt11Invoice RecoverableSignature : Type}
    (_ : RawBolt11Invoice) (_ : Recipient) : M W (result RecoverableSignature unit) := panic.
Definition sign_bolt12_invoice {UnsignedBolt12Invoice Signature : Type}
    (_ : UnsignedBolt12Invoice) : M W (result Signature unit) := panic.
Definition sign_gossip_message {UnsignedGossipMessage Signature : Type}
    (_ : UnsignedGossipMessage) : M W (result Signature unit) := panic.
End signer.

(** ** LND's blinded payment paths *)

Section blinded_paths.
Context `{Ldk} `{!LdkBuild} {W : Type}.

Definition parse_blinded_hops (blinded_hops : list LndBlindedHop) : M W (list BlindedHop) :=
  map_m (λ hop,
    let* blinded_node_id := unwrap (pk_from_slice (lnd_blinded_node hop)) in
    ret {| blinded_node_id := blinded_node_id; encrypted_payload := lnd_encrypted_data hop |})
    blinded_hops.

Definition parse_blinded_paths (blinded_paths : list LndBlindedPaymentPath)
    : M W (list BlindedPaymentPath) :=
  map_m (λ blinded_path,
    let features_le_bytes := feature_bits_to_le_bytes (lnd_features blinded_path) in
    let features := blinded_hop_features_from_le_bytes features_le_bytes in
    let blinded_pay_info :=
      {| fee_base_msat := wrap_u 32 (lnd_base_fee_msat blinded_path);
         fee_proportional_millionths := lnd_proportional_fee_rate blinded_path;
         cltv_expiry_delta := wrap_u 16 (lnd_total_cltv_delta blinded_path);
         htlc_minimum_msat := lnd_htlc_min_msat blinded_path;
         htlc_maximum_msat := lnd_htlc_max_msat blinded_path;
         payinfo_features := features |} in
    let* lnd_path := unwrap (lnd_blinded_path blinded_path) in
    let* node_id := unwrap (pk_from_slice (lnd_introduction_node lnd_path)) in
    let* blinding_point := unwrap (pk_from_slice (lnd_blinding_point lnd_path)) in
    let* hops := parse_blinded_hops (lnd_blinded_hops lnd_path) in
    ret (from_blinded_path_and_payinfo node_id blinding_point hops blinded_pay_info))
    blinded_paths.
End blinded_paths.

(** ** Credentials: which combinations are accepted *)

(** Credentials are accepted exactly when the certificate and the macaroon
    are both given as paths or both given directly, each once; the [unwrap] of
    the certificate never panics. *)
Theorem validate_lnd_creds_correct cp cpem mp mh :
  validate_lnd_creds cp cpem mp mh ≠ Panic ∧
  ∀ creds, validate_lnd_creds cp cpem mp mh = Ret (Ok creds) ↔
    (∃ c m, cp = Some c ∧ cpem = None ∧ mp = Some m ∧ mh = None ∧ creds = CredsPath m c) ∨
    (∃ c m, cp = None ∧ cpem = Some c ∧ mp = None ∧ mh = Some m ∧ creds = CredsString m c).
Proof. split; destruct cp, cpem, mp, mh; cbn; naive_solver. Qed.

(** ** The version check is an order *)

(** Version triples and pre-release strings compared lexicographically. *)
Definition version_compare (a b : Z * Z * Z * string) : comparison :=
  let '(a1, a2, a3, a4) := a in
  let '(b1, b2, b3, b4) := b in
  match a1 ?= b1 with
  | Eq => match a2 ?= b2 with
          | Eq => match a3 ?= b3 with Eq => String.compare a4 b4 | c => c end
          | c => c
          end
  | c => c
  end.

Definition version_key (v : Version) : Z * Z * Z * string :=
  (app_major v, app_minor v, app_patch v, app_pre_release v).

Definition requirement_key (r : VersionRequirement) : Z * Z * Z * string :=
  (req_major r, req_minor r, req_patch r, req_pre_release r).

Lemma string_compare_refl (s : string) : String.compare s s = Eq.
Proof. pose proof (String.compare_antisym s s). by destruct (String.compare s s). Qed.

Lemma Z_compare_step (a b : Z) (k : bool) :
  (if negb (a =? b) then b <? a else k) =
    match a ?= b with Eq => k | Gt => true | Lt => false end.
Proof.
  destruct (Z.compare_spec a b) as [->|Hlt|Hgt].
  - by rewrite Z.eqb_refl.
  - destruct (Z.eqb_spec a b); [lia|]. destruct (Z.ltb_spec b a); [lia|done].
  - destruct (Z.eqb_spec a b); [lia|]. destruct (Z.ltb_spec b a); [done|lia].
Qed.

Lemma str_compare_step (a b : string) :
  (if negb (a =? b)%string then str_gt a b else true) =
    match String.compare a b with Lt => false | _ => true end.
Proof.
  unfold str_gt. destruct (String.eqb_spec a b) as [->|Hne]; [by rewrite string_compare_refl|].
  destruct (String.compare a b) eqn:E; [|done|done]. by apply String.compare_eq_iff in E.
Qed.

Lemma has_version_compare v r :
  has_version v (Some r) =
    match version_compare (version_key v) (requirement_key r) with Lt => false | _ => true end.
Proof.
  unfold has_version, version_compare, version_key, requirement_key; cbn [default from_option id].
  rewrite !Z_compare_step, str_compare_step.
  destruct (app_major v ?= req_major r); [|done|done].
  destruct (app_minor v ?= req_minor r); [|done|done].
  by destruct (app_patch v ?= req_patch r).
Qed.

Lemma string_compare_OT (a b : string) : String.compare a b = String_as_OT.compare a b.
Proof.
  revert b. induction a as [|c a IH]; intros [|d b]; cbn; [done..|]. by rewrite IH.
Qed.

Lemma string_ge_trans (a b c : string) :
  String.compare a b ≠ Lt → String.compare b c ≠ Lt → String.compare a c ≠ Lt.
Proof.
  rewrite (string_compare_OT a b), (string_compare_OT b c), (string_compare_OT a c).
  intros Hab Hbc Hac.
  destruct (String_as_OT.compare_spec b a) as [->|Hba|Hba]; [done| |].
  - apply Hbc. by apply (transitivity (R := String_as_OT.lt) (y := a)).
  - by apply Hab.
Qed.

Lemma version_ge_trans a b c :
  version_compare a b ≠ Lt → version_compare b c ≠ Lt → version_compare a c ≠ Lt.
Proof.
  destruct a as [[[a1 a2] a3] a4], b as [[[b1 b2] b3] b4], c as [[[c1 c2] c3] c4]; cbn.
  destruct (Z.compare_spec a1 b1), (Z.compare_spec b1 c1), (Z.compare_spec a1 c1);
    subst; try done; try lia.
  destruct (Z.compare_spec a2 b2), (Z.compare_spec b2 c2), (Z.compare_spec a2 c2);
    subst; try done; try lia.
  destruct (Z.compare_spec a3 b3), (Z.compare_spec b3 c3), (Z.compare_spec a3 c3);
    subst; try done; try lia.
  apply string_ge_trans.
Qed.

(** C39: the chain of comparisons in [has_version] is the lexicographic order on
    (major, minor, patch, pre-release): a version is accepted exactly when it
    is not below the requirement, the required version itself is accepted, and
    whatever is at least an accepted version is accepted. *)
Theorem has_version_is_order v r :
  (has_version v (Some r) = true ↔ version_compare (version_key v) (requirement_key r) ≠ Lt) ∧
  (version_key v = requirement_key r → has_version v (Some r) = true) ∧
  (∀ v', has_version v (Some r) = true →
         version_compare (version_key v') (version_key v) ≠ Lt → has_version v' (Some r) = true).
Proof.
  assert (∀ v, has_version v (Some r) = true ↔
               version_compare (version_key v) (requirement_key r) ≠ Lt) as Hiff.
  { intros u. rewrite has_version_compare. by case_match. }
  split_and!; [apply Hiff| |].
  - rewrite Hiff. intros ->. unfold version_compare, requirement_key.
    by rewrite !Z.compare_refl, string_compare_refl.
  - intros v' Hv Hv'. apply Hiff. apply Hiff in Hv. by eapply version_ge_trans.
Qed.

(** ** Feature bits *)

(** Bit [i] of a little-endian byte string. *)
Definition le_bit (bs : bytes) (i : Z) : bool :=
  Z.testbit (nth (Z.to_nat (i / 8)) bs 0) (i mod 8).

Lemma to_le_bytes_length n z : length (to_le_bytes n z) = n.
Proof. revert z. induction n as [|n IH]; intros z; cbn; congruence. Qed.

Lemma to_le_bytes_nth n z k :
  (k < n)%nat → nth k (to_le_bytes n z) 0 = Z.land (Z.shiftr z (8 * Z.of_nat k)) 255.
Proof.
  revert z k. induction n as [|n IH]; intros z k Hk; [lia|]. cbn. destruct k as [|k].
  - by rewrite Z.shiftr_0_r.
  - rewrite IH by lia. rewrite Z.shiftr_shiftr by lia. do 2 f_equal. lia.
Qed.

Lemma to_le_bytes_range n z : Forall (in_u 8) (to_le_bytes n z).
Proof.
  revert z. induction n as [|n IH]; intros z; cbn; constructor; [|apply IH].
  unfold in_u. change 255 with (Z.ones 8). rewrite Z.land_ones by lia. by apply Z.mod_pos_bound.
Qed.

Lemma le_bit_to_le_bytes n z i :
  0 ≤ i < 8 * Z.of_nat n → le_bit (to_le_bytes n z) i = Z.testbit z i.
Proof.
  intros Hi. unfold le_bit. pose proof (Z.mod_pos_bound i 8 ltac:(lia)) as Hm.
  assert (0 ≤ i / 8 < Z.of_nat n) as Hd.
  { split; [by apply Z.div_pos; lia|]. apply Z.div_lt_upper_bound; lia. }
  rewrite to_le_bytes_nth by lia. rewrite Z.land_spec. change 255 with (Z.ones 8).
  rewrite Z.ones_spec_low, andb_true_r by lia. rewrite Z.shiftr_spec by lia. f_equal.
  rewrite Z2Nat.id by lia. pose proof (Z.div_mod i 8). lia.
Qed.

Lemma feature_bits_fold_testbit l acc i :
  0 ≤ i ≤ 127 →
  Z.testbit (foldl (λ bits bit,
    if (0 <=? bit) && (bit <=? 127) then Z.lor bits (Z.shiftl 1 bit) else bits) acc l) i =
  Z.testbit acc i || bool_decide (i ∈ l).
Proof.
  intros Hi. revert acc. induction l as [|b l IH]; intros acc; cbn [foldl].
  { rewrite bool_decide_false by (by apply not_elem_of_nil). by rewrite orb_false_r. }
  rewrite IH. destruct (decide (i = b)) as [->|Hne].
  - replace ((0 <=? b) && (b <=? 127)) with true by lia.
    rewrite Z.lor_spec, Z.shiftl_spec, Z.sub_diag by lia. cbn. rewrite orb_true_r; cbn.
    rewrite bool_decide_true by set_solver. by rewrite orb_true_r.
  - assert (Z.testbit (if (0 <=? b) && (b <=? 127) then Z.lor acc (Z.shiftl 1 b) else acc) i
            = Z.testbit acc i) as ->.
    { case_match; [|done]. rewrite Z.lor_spec, Z.shiftl_spec by lia.
      destruct (Z.ltb_spec i b).
      - rewrite (Z.testbit_neg_r 1) by lia. by rewrite orb_false_r.
      - rewrite (Z.bits_above_log2 1) by (cbn; lia). by rewrite orb_false_r. }
    f_equal. apply bool_decide_ext. set_solver.
Qed.

(** The 16 bytes built from LND's feature bit numbers have exactly those
    bits set, little-endian; numbers outside 0..127 are dropped. *)
Theorem feature_bits_to_le_bytes_correct bits :
  length (feature_bits_to_le_bytes bits) = 16%nat ∧
  Forall (in_u 8) (feature_bits_to_le_bytes bits) ∧
  ∀ i, 0 ≤ i < 128 → le_bit (feature_bits_to_le_bytes bits) i = bool_decide (i ∈ bits).
Proof.
  unfold feature_bits_to_le_bytes. split_and!; [apply to_le_bytes_length|apply to_le_bytes_range|].
  intros i Hi. rewrite le_bit_to_le_bytes by lia. rewrite feature_bits_fold_testbit by lia.
  by rewrite Z.testbit_0_l.
Qed.

(** ** Blinded payment paths *)

Section blinded_path_facts.
Context `{Ldk} `{!LdkBuild} {W : Type}.

(** The keys of a hop and of a path parse. *)
Definition hop_wf (hop : LndBlindedHop) : Prop := is_Some (pk_from_slice (lnd_blinded_node hop)).

Definition path_wf (p : LndBlindedPaymentPath) : Prop :=
  ∃ lp, lnd_blinded_path p = Some lp ∧
        is_Some (pk_from_slice (lnd_introduction_node lp)) ∧
        is_Some (pk_from_slice (lnd_blinding_point lp)) ∧
        Forall hop_wf (lnd_blinded_hops lp).

(** A hop and its conversion. *)
Definition hop_matches (hop : LndBlindedHop) (out : BlindedHop) : Prop :=
  pk_from_slice (lnd_blinded_node hop) = Some (blinded_node_id out) ∧
  encrypted_payload out = lnd_encrypted_data hop.

(** A path and its conversion: keys and hops are LND's, the pay info carries
    LND's numbers with the fee and the expiry delta cut to their widths. *)
Definition path_matches (p : LndBlindedPaymentPath) (out : BlindedPaymentPath) : Prop :=
  ∃ lp nid bp hops info,
    lnd_blinded_path p = Some lp ∧
    pk_from_slice (lnd_introduction_node lp) = Some nid ∧
    pk_from_slice (lnd_blinding_point lp) = Some bp ∧
    Forall2 hop_matches (lnd_blinded_hops lp) hops ∧
    out = from_blinded_path_and_payinfo nid bp hops info ∧
    fee_base_msat info = lnd_base_fee_msat p mod 2 ^ 32 ∧
    cltv_expiry_delta info = lnd_total_cltv_delta p mod 2 ^ 16 ∧
    (fee_base_msat info = lnd_base_fee_msat p ↔ 0 ≤ lnd_base_fee_msat p < 2 ^ 32) ∧
    (cltv_expiry_delta info = lnd_total_cltv_delta p ↔ 0 ≤ lnd_total_cltv_delta p < 2 ^ 16) ∧
    fee_proportional_millionths info = lnd_proportional_fee_rate p ∧
    htlc_minimum_msat info = lnd_htlc_min_msat p ∧
    htlc_maximum_msat info = lnd_htlc_max_msat p ∧
    payinfo_features info = blinded_hop_features_from_le_bytes
                              (feature_bits_to_le_bytes (lnd_features p)).

Lemma parse_blinded_hops_inv hops (w : W) out w' :
  parse_blinded_hops hops w = (Ret out, w') → w' = w ∧ Forall2 hop_matches hops out.
Proof.
  apply map_m_inv. intros hop w0 b w1 Hrun. by run_inv.
Qed.

Lemma wrap_u_range w z : 0 ≤ w → in_u w (wrap_u w z).
Proof. intros. unfold in_u, wrap_u. apply Z.mod_pos_bound. by apply Z.pow_pos_nonneg. Qed.

Lemma wrap_u_id w z : 0 ≤ w → wrap_u w z = z ↔ in_u w z.
Proof.
  intros Hw. split; [intros <-; by apply wrap_u_range|]. intros Hz. by apply Z.mod_small.
Qed.

Lemma parse_blinded_paths_inv ps (w : W) out w' :
  parse_blinded_paths ps w = (Ret out, w') → w' = w ∧ Forall2 path_matches ps out.
Proof.
  apply map_m_inv. intros p w0 b w1 Hrun. cbv zeta in Hrun. run_inv.
  match goal with H : parse_blinded_hops _ _ = _ |- _ => apply parse_blinded_hops_inv in H as [-> ?] end.
  split; [done|]. eexists _, _, _, _, _. split_and!; try done; cbn;
    first [reflexivity|by apply wrap_u_id].
Qed.

Lemma parse_blinded_hops_total hops (w : W) :
  Forall hop_wf hops → ∃ out, parse_blinded_hops hops w = (Ret out, w).
Proof.
  intros Hwf. apply map_m_total. eapply Forall_impl; [exact Hwf|].
  intros hop [pk Hpk]. cbn. rewrite Hpk. by eexists.
Qed.

Lemma parse_blinded_paths_total ps (w : W) :
  Forall path_wf ps → ∃ out, parse_blinded_paths ps w = (Ret out, w).
Proof.
  intros Hwf. apply map_m_total. eapply Forall_impl; [exact Hwf|].
  intros p (lp & Elp & [nid Enid] & [bp Ebp] & Hhops). cbn.
  destruct (parse_blinded_hops_total _ w Hhops) as [hops Eh].
  rewrite Elp. cbn. rewrite Enid. cbn. rewrite Ebp. cbn.
  rewrite (bind_Ret _ _ _ _ _ Eh). by eexists.
Qed.

End blinded_path_facts.

(** ** Networks *)

Lemma get_network_fold chains acc :
  foldl (λ acc chain,
           if (chain_chain chain =? "bitcoin")%string then Some (chain_network chain) else acc)
    acc chains =
  match last (filter (λ c, chain_chain c = "bitcoin"%string) chains) with
  | Some c => Some (chain_network c)
  | None => acc
  end.
Proof.
  revert acc. induction chains as [|c chains IH]; intros acc; [done|]. cbn [foldl].
  rewrite IH, filter_cons. destruct (String.eqb_spec (chain_chain c) "bitcoin") as [E|E].
  - rewrite decide_True by done. rewrite last_cons. by destruct (last _).
  - by rewrite decide_False.
Qed.

(** The name LND uses for a network. *)
Definition network_name (n : Network) : string :=
  match n with
  | Bitcoin => "mainnet" | Testnet => "testnet" | Signet => "signet" | Regtest => "regtest"
  end.

Lemma string_to_network_Ok s n :
  string_to_network s = Ok n ↔ to_lowercase s = network_name n.
Proof.
  unfold string_to_network.
  destruct (String.eqb_spec (to_lowercase s) "mainnet") as [->|]; [by destruct n|].
  destruct (String.eqb_spec (to_lowercase s) "testnet") as [->|]; [by destruct n|].
  destruct (String.eqb_spec (to_lowercase s) "signet") as [->|]; [by destruct n|].
  destruct (String.eqb_spec (to_lowercase s) "regtest") as [->|]; [by destruct n|].
  by destruct n.
Qed.

(** The network is that of the last chain LND lists as bitcoin, by its
    name without regard to case; with no bitcoin chain, or a name that is none
    of the four, an error says so. *)
Theorem get_network_correct info :
  match last (filter (λ c, chain_chain c = "bitcoin"%string) (info_chains info)) with
  | None => get_network info = Err NetworkNotConnected
  | Some c =>
      (∀ n, get_network info = Ok n ↔ to_lowercase (chain_network c) = network_name n) ∧
      ((∀ n, to_lowercase (chain_network c) ≠ network_name n) →
       get_network info =
         Err (LndNetworkParseError (NetworkInvalid (to_lowercase (chain_network c)))))
  end.
Proof.
  unfold get_network. rewrite get_network_fold. destruct (last _) as [c|]; [|done]. split.
  - intros n. rewrite <- string_to_network_Ok. destruct (string_to_network _); naive_solver.
  - intros Hn. unfold string_to_network.
    destruct (String.eqb_spec (to_lowercase (chain_network c)) "mainnet"); [by destruct (Hn Bitcoin)|].
    destruct (String.eqb_spec (to_lowercase (chain_network c)) "testnet"); [by destruct (Hn Testnet)|].
    destruct (String.eqb_spec (to_lowercase (chain_network c)) "signet"); [by destruct (Hn Signet)|].
    destruct (String.eqb_spec (to_lowercase (chain_network c)) "regtest"); [by destruct (Hn Regtest)|].
    done.
Qed.

(** The seed key index is what its comment says: the sum of the ASCII values
    of "lndk". *)
Example seed_key_index_value : foldl Z.add 0 (as_bytes "lndk") = SEED_KEY_INDEX.
Proof. reflexivity. Qed.

Example default_requirement_examples :
  has_version {| app_major := 0; app_minor := 18; app_patch := 0; app_pre_release := "beta";
                 build_tags := [] |} None = true ∧
  has_version {| app_major := 0; app_minor := 17; app_patch := 5; app_pre_release := "beta";
                 build_tags := [] |} None = false ∧
  (* a release without a pre-release tag sorts below "beta" *)
  has_version {| app_major := 0; app_minor := 18; app_patch := 0; app_pre_release := "";
                 build_tags := [] |} None = false.
Proof. vm_compute. done. Qed.
