(* ===== verification/LndRequests.v ===== *)
(** * Requests to LND for offers and payments

    Models src/offers/lnd_requests.rs: building invoice requests and offers,
    choosing introduction nodes for reply paths, connecting to peers with
    retries, sending and tracking payments.  The clients are traits
    ([PeerConnector], [InvoicePayer], ...) over the world; the two calls made
    on the concrete [Client] ([get_chan_info], the system clock) are classes of
    their own. *)

From S2P Require Import Prelude Grpc Ldk OfferError Parse Lnd.
Open Scope Z_scope.

Definition INITIAL_DELAY_MS : Z := 500.
Definition MAX_DELAY_MS : Z := 60000.
Definition MAX_ATTEMPTS : Z := 10.

(** LND's [GetChanInfo]. *)
Class ChanInfo (W : Type) : Type := get_chan_info : Z → M W (result ChannelEdge Status).

(** [SystemTime::now], in nanoseconds from the Unix epoch. *)
Class SystemClock (W : Type) : Type := system_now : M W Z.

(** [SystemTime + Duration]: panics when the seconds leave [i64]. *)
Definition system_time_add {W} (t d : Z) : M W Z :=
  if t + d <? 2 ^ 63 * 10 ^ 9 then ret (t + d) else panic.

(** One [select! { biased; shutdown_listener, sleep }]: whether the shutdown
    signal is what ended the wait of so many milliseconds. *)
Class Shutdown (W : Type) : Type := select_shutdown : Z → M W bool.

Section requests.
Context `{Ldk} {W : Type}.

Record LndkBolt12InvoiceInfo := {
  info_payment_hash : PaymentHash;
  info_payment_paths : list BlindedPaymentPath;
}.

Definition create_invoice_request `{!LdkEntropy W} (offer : Offer) (network : Network)
    (expanded_key : ExpandedKey) (msats : option Z) (payer_note : option string)
    : M W (result (InvoiceRequest * PaymentId * Z * OffersContext) OfferError) :=
  let? validated_amount := ret (validate_amount (offer_amount offer) msats) in
  let* payment_id := get_secure_random_bytes in
  let* nonce := nonce_from_entropy_source in
  let? builder := ret (result_map_err BuildUIRFailure
                         (request_invoice offer expanded_key nonce payment_id)) in
  let? builder := ret (result_map_err BuildUIRFailure (irb_chain builder network)) in
  let? builder := ret (result_map_err BuildUIRFailure
                         (irb_amount_msats builder validated_amount)) in
  let builder := match payer_note with
                 | Some payer_note_str => irb_payer_note builder payer_note_str
                 | None => builder
                 end in
  let? invoice_request := ret (result_map_err BuildUIRFailure (irb_build_and_sign builder)) in
  let hmac := hmac_for_offer_payment payment_id nonce expanded_key in
  let offer_context := CtxOutboundPayment payment_id nonce (Some hmac) in
  ret (Ok (invoice_request, payment_id, validated_amount, offer_context)).

Record SendPaymentParams := {
  sp_path : BlindedPaymentPath;
  sp_cltv_expiry_delta : Z;
  sp_fee_base_msat : Z;
  sp_fee_ppm : Z;
  sp_payment_hash : PaymentHash;
  sp_msats : Z;
  sp_payment_id : PaymentId;
  sp_fee_limit : option FeeLimit;
}.

Definition send_payment `{!InvoicePayer W} (params : SendPaymentParams)
    : M W (result unit OfferError) :=
  let? routes := map_err (λ e, RouteFailure (status_message e))
    (query_routes (sp_path params) (sp_cltv_expiry_delta params) (sp_fee_base_msat params)
       (sp_fee_ppm params) (sp_msats params) (sp_fee_limit params)) in
  let* route := unwrap (head routes) in
  let? _ := map_err (λ e, RouteFailure (status_message e))
    (send_to_route (sp_payment_hash params) route) in
  ret (Ok tt).

Definition track_payment `{!InvoicePayer W} (payment_hash : PaymentHash)
    : M W (result Payment OfferError) :=
  map_err (λ _, PaymentFailure) (payer_track_payment payment_hash).

Record CreateOfferArgs := {
  args_amount_msats : option Z;
  args_chain : Network;
  args_description : option string;
  args_issuer : option string;
  args_quantity : option Quantity;
  args_expiry : option Z;
}.

(** Creating the blinded path, with the error its callers report. *)
Definition blinded_path_or_failure (c : M W (result BlindedMessagePath unit))
    : M W (result BlindedMessagePath OfferError) :=
  map_err (λ _, BuildBlindedPathFailure) c.

(** The loop over active channels: the introduction nodes found so far. *)
Fixpoint intro_channels_loop `{!PeerConnector W} (channels : list Channel)
    (intro_channels : gset PublicKey) : M W (gset PublicKey) :=
  match channels with
  | [] => ret intro_channels
  | channel :: channels =>
      if (3 <? Z.of_nat (size intro_channels)) then ret intro_channels
      else
        let* r := get_node_info (remote_pubkey channel) true in
        match r with
        | Ok node_info =>
            match info_node node_info with
            | Some node =>
                match info_channels node_info with
                | [] => intro_channels_loop channels intro_channels
                | _ =>
                    let onion_support := features_support_onion_messages (node_features node) in
                    let other_channels :=
                      filter (λ peer_channel, channel_id peer_channel ≠ chan_id channel)
                        (info_channels node_info) in
                    if negb (bool_decide (other_channels = [])) && onion_support then
                      let* pubkey := unwrap (pk_from_str (remote_pubkey channel)) in
                      intro_channels_loop channels ({[pubkey]} ∪ intro_channels)
                    else intro_channels_loop channels intro_channels
                end
            | None => intro_channels_loop channels intro_channels
            end
        | Err _ => intro_channels_loop channels intro_channels
        end
  end.

(** One blinded path per introduction node; the first failure ends the loop. *)
Fixpoint paths_through `{!LdkEntropy W} (nodes : list PublicKey) (node_id : PublicKey)
    (message_context : MessageContext) : M W (result (list BlindedMessagePath) OfferError) :=
  match nodes with
  | [] => ret (Ok [])
  | node :: nodes =>
      let? path := blinded_path_or_failure
        (message_path_new [{| fwd_node_id := node; fwd_short_channel_id := None |}]
           node_id message_context) in
      let? paths := paths_through nodes node_id message_context in
      ret (Ok (path :: paths))
  end.

Definition create_reply_path_for_offer_creation `{!PeerConnector W, !LdkEntropy W}
    (node_id : PublicKey) (message_context : MessageContext)
    : M W (result (list BlindedMessagePath) OfferError) :=
  let? current_channels := map_err (λ e, ListChannelsFailure (status_message e))
    list_active_public_channels in
  let* intro_channels := intro_channels_loop current_channels ∅ in
  if bool_decide (intro_channels = ∅) then
    let? path := blinded_path_or_failure (message_path_one_hop node_id message_context) in
    ret (Ok [path])
  else paths_through (elements intro_channels) node_id message_context.

(** The loop over peers: the first that can introduce us. *)
Fixpoint intro_node_loop `{!PeerConnector W} (peers : list Peer) : M W (option PublicKey) :=
  match peers with
  | [] => ret None
  | peer :: peers =>
      let* pubkey := unwrap (pk_from_str (peer_pub_key peer)) in
      let onion_support := features_support_onion_messages (peer_features peer) in
      if onion_support then
        let* r := get_node_info (peer_pub_key peer) true in
        match r with
        | Ok node =>
            match info_channels node with
            | [] => intro_node_loop peers
            | _ => ret (Some pubkey)
            end
        | Err _ => intro_node_loop peers
        end
      else intro_node_loop peers
  end.

Definition create_reply_path_for_outgoing_payments `{!PeerConnector W, !LdkEntropy W}
    (node_id : PublicKey) (message_context : MessageContext)
    : M W (result BlindedMessagePath OfferError) :=
  let? current_peers := map_err (λ e, ListPeersFailure (status_message e)) list_peers in
  let* intro_node := intro_node_loop current_peers in
  match intro_node with
  | None => blinded_path_or_failure (message_path_one_hop node_id message_context)
  | Some intro_node =>
      blinded_path_or_failure
        (message_path_new [{| fwd_node_id := intro_node; fwd_short_channel_id := None |}]
           node_id message_context)
  end.

(** A builder call made only when a value is there. *)
Definition builder_call {A} (f : A → OfferBuilderCall) (o : option A) : list OfferBuilderCall :=
  match o with Some a => [f a] | None => [] end.

(** The calls on the builder before the expiry is set. *)
Definition offer_builder_calls (args : CreateOfferArgs) (paths : list BlindedMessagePath)
    : list OfferBuilderCall :=
  [OBChain (args_chain args)]
  ++ builder_call OBAmountMsats (args_amount_msats args)
  ++ builder_call OBPath (paths !! 0%nat)
  ++ builder_call OBPath (paths !! 1%nat)
  ++ builder_call OBPath (paths !! 2%nat)
  ++ builder_call OBDescription (args_description args)
  ++ builder_call OBIssuer (args_issuer args)
  ++ builder_call OBSupportedQuantity (args_quantity args).

Definition create_offer `{!PeerConnector W, !LdkEntropy W, !OfferCreator W, !SystemClock W}
    `{!LdkBuild} (args : CreateOfferArgs) (expanded_key : ExpandedKey)
    : M W (result Offer OfferError) :=
  let? info := map_err (λ _, NodeAddressNotFound) get_info in
  let? node_id := ret (ok_or NodeAddressNotFound (pk_from_str (identity_pubkey info))) in
  let* nonce := nonce_from_entropy_source in
  let message_context := CtxOffers (CtxInvoiceRequest nonce) in
  let? paths := create_reply_path_for_offer_creation node_id message_context in
  let builder := offer_builder_calls args paths in
  let? builder :=
    match args_expiry args with
    | Some expiry =>
        let* now := system_now in
        let* expiry := system_time_add now expiry in
        if expiry <? 0 then ret (Err CreateOfferTimeFailure)
        else ret (Ok (builder ++ [OBAbsoluteExpiry expiry]))
    | None => ret (Ok builder)
    end in
  ret (result_map_err CreateOfferFailure (offer_build node_id expanded_key nonce builder)).

(** Parsing a payment hash: 64 hexadecimal digits ([sha256::Hash::from_str]);
    the error is its text. *)
Definition create_invoice_info_from_request `{!Bolt12InvoiceCreator W, !LdkBuild}
    (hash_from_str : string → result PaymentHash string) (invoice_request : InvoiceRequest)
    : M W (result LndkBolt12InvoiceInfo OfferError) :=
  let? payment_request := map_err (λ e, AddInvoiceFailure (status_message e))
    (add_invoice invoice_request) in
  let? payreq := map_err (λ e, DecodePaymentRequestFailure (status_message e))
    (decode_payment_request payment_request) in
  let? payment_hash := ret (result_map_err ParsePaymentHashFailure
                              (hash_from_str (payreq_payment_hash payreq))) in
  let* payment_paths := parse_blinded_paths (payreq_blinded_paths payreq) in
  ret (Ok {| info_payment_hash := payment_hash; info_payment_paths := payment_paths |}).

Definition connect_to_peer `{!PeerConnector W} (node_id : PublicKey) : M W (result unit OfferError) :=
  let? peers := map_err (λ e, PeerConnectError (status_message e)) list_peers in
  let node_id_str := pk_to_string node_id in
  if existsb (λ peer, (peer_pub_key peer =? node_id_str)%string) peers then ret (Ok tt)
  else
    let? node := map_err (λ e, PeerConnectError (status_message e))
      (get_node_info node_id_str false) in
    match info_node node with
    | None => ret (Err NodeAddressNotFound)
    | Some node =>
        match node_addresses node with
        | [] => ret (Err NodeAddressNotFound)
        | address :: _ =>
            map_err (λ e, PeerConnectError (status_message e))
              (connect_peer node_id_str (addr_addr address))
        end
    end.

(** [INITIAL_DELAY_MS * 2u64.pow(attempts - 1)], capped; no delay before the
    first attempt. *)
Definition retry_delay (attempts : Z) : Z :=
  if 0 <? attempts then Z.min (INITIAL_DELAY_MS * 2 ^ (attempts - 1)) MAX_DELAY_MS else 0.

Fixpoint connect_to_peer_loop `{!PeerConnector W, !Shutdown W} (fuel : nat) (node_id : PublicKey)
    (attempts : Z) : M W (result unit OfferError) :=
  match fuel with
  | O => pending
  | S fuel =>
      let* shutdown := select_shutdown (retry_delay attempts) in
      if shutdown : bool then ret (Ok tt)
      else
        let* r := connect_to_peer node_id in
        match r with
        | Ok _ => ret (Ok tt)
        | Err e =>
            let attempts := attempts + 1 in
            if MAX_ATTEMPTS <? attempts then ret (Err e)
            else connect_to_peer_loop fuel node_id attempts
        end
  end.

Definition connect_to_peer_with_retry `{!PeerConnector W, !Shutdown W} (node_id : PublicKey)
    : M W (result unit OfferError) :=
  connect_to_peer_loop 11 node_id 0.

Definition get_node_id_from_scid `{!ChanInfo W} (scid : Z) (direction : Direction)
    : M W (result string OfferError) :=
  let? channel_info := map_err (λ e, GetChannelInfo (status_message e)) (get_chan_info scid) in
  match direction with
  | NodeOne => ret (Ok (node1_pub channel_info))
  | NodeTwo => ret (Ok (node2_pub channel_info))
  end.

Definition get_node_id `{!ChanInfo W} (scid : Z) (direction : Direction)
    : M W (result PublicKey OfferError) :=
  let? pubkey := get_node_id_from_scid scid direction in
  ret (ok_or IntroductionNodeNotFound (pk_from_slice (as_bytes pubkey))).

Definition send_invoice_request
    `{!PeerConnector W, !LdkEntropy W, !OfferCreator W, !ChanInfo W}
    (destination : Destination) (invoice_request : InvoiceRequest) (offer_context : OffersContext)
    : M W (result (OffersMessage * MessageSendInstructions) OfferError) :=
  let? _ :=
    match destination with
    | DestNode pubkey => connect_to_peer pubkey
    | DestBlindedPath path =>
        match message_path_introduction_node path with
        | NodeId pubkey => connect_to_peer pubkey
        | DirectedShortChannelId direction scid =>
            let? pubkey := get_node_id scid direction in
            connect_to_peer pubkey
        end
    end in
  let* r := get_info in
  let* info := unwrap (result_ok r) in
  let* pubkey := unwrap (pk_from_str (identity_pubkey info)) in
  let message_context := CtxOffers offer_context in
  let? reply_path := create_reply_path_for_outgoing_payments pubkey message_context in
  let? _ :=
    match message_path_introduction_node reply_path with
    | NodeId pubkey => ret (Ok (pk_to_string pubkey))
    | DirectedShortChannelId direction scid =>
        let? pubkey := get_node_id scid direction in
        ret (Ok (pk_to_string pubkey))
    end in
  let contents := MsgInvoiceRequest invoice_request in
  let send_instructions := WithSpecifiedReplyPath destination reply_path in
  ret (Ok (contents, send_instructions)).
End requests.

#[global] Arguments retry_delay : simpl never.
