(* ===== verification/LndRequestsFacts.v ===== *)
(** * Facts about the requests to LND

    What src/offers/lnd_requests.rs does: the retry schedule of peer
    connections, the choice of introduction nodes, invoice requests, payments
    and offers. *)

From S2P Require Import Prelude Grpc Ldk OfferError Parse Lnd LndRequests.
Open Scope Z_scope.

(** ** Connecting with retries *)

Section connect.
Context `{Secp} `{!Ldk} {W : Type} `{!PeerConnector W, !Shutdown W}.

(** [connect_trace node a n w r w']: from [w], with [a] attempts already
    failed, the loop waits its delay and attempts again, [n] times in all;
    either the last attempt gave [r], or the shutdown signal ended a wait. *)
Inductive connect_trace (node : PublicKey) : Z → nat → W → result unit OfferError → W → Prop :=
| ct_shutdown a w w1 :
    select_shutdown (retry_delay a) w = (Ret true, w1) → connect_trace node a 0 w (Ok tt) w1
| ct_last a w w1 r w2 :
    select_shutdown (retry_delay a) w = (Ret false, w1) →
    connect_to_peer node w1 = (Ret r, w2) → connect_trace node a 1 w r w2
| ct_again a n w w1 e w2 r w3 :
    select_shutdown (retry_delay a) w = (Ret false, w1) →
    connect_to_peer node w1 = (Ret (Err e), w2) →
    connect_trace node (a + 1) n w2 r w3 → connect_trace node a (S n) w r w3.

Lemma connect_loop_spec fuel node a w r w' :
  0 ≤ a ≤ MAX_ATTEMPTS →
  connect_to_peer_loop fuel node a w = (Ret r, w') →
  ∃ n, connect_trace node a n w r w' ∧ a + Z.of_nat n ≤ MAX_ATTEMPTS + 1 ∧
       (∀ e, r = Err e → a + Z.of_nat n = MAX_ATTEMPTS + 1).
Proof.
  unfold MAX_ATTEMPTS. revert a w. induction fuel as [|fuel IH]; intros a w Ha Hrun; [done|].
  cbn in Hrun. apply bind_inv_Ret in Hrun as (sd & w1 & Hsel & Hrun). destruct sd.
  { run_inv. exists 0%nat. split_and!; [by constructor|lia|done]. }
  apply bind_inv_Ret in Hrun as (r1 & w2 & Hconn & Hrun). destruct r1 as [[]|e]; run_inv.
  { exists 1%nat. split_and!; [by eapply ct_last|lia|done]. }
  unfold MAX_ATTEMPTS in Hrun. destruct (Z.ltb_spec 10 (a + 1)); run_inv.
  { exists 1%nat. split_and!; [by eapply ct_last|lia|]. intros; lia. }
  destruct (IH (a + 1) _ ltac:(lia) Hrun) as (n & Hn & Hle & He).
  exists (S n). split_and!; [by eapply ct_again|lia|]. intros e' ->. specialize (He e' eq_refl). lia.
Qed.

Lemma connect_loop_total fuel node a w :
  0 ≤ a ≤ MAX_ATTEMPTS → MAX_ATTEMPTS + 1 - a ≤ Z.of_nat fuel →
  (∀ d w, ∃ b w', select_shutdown d w = (Ret b, w')) →
  (∀ w, ∃ r w', connect_to_peer node w = (Ret r, w')) →
  ∃ r w', connect_to_peer_loop fuel node a w = (Ret r, w').
Proof.
  unfold MAX_ATTEMPTS. intros Ha Hf Hsel Hconn. revert a w Ha Hf.
  induction fuel as [|fuel IH]; intros a w Ha Hf; [lia|].
  cbn. destruct (Hsel (retry_delay a) w) as (b & w1 & E1). rewrite (bind_Ret _ _ _ _ _ E1).
  destruct b; [by eexists _, _|].
  destruct (Hconn w1) as (r & w2 & E2). rewrite (bind_Ret _ _ _ _ _ E2).
  destruct r; [by eexists _, _|]. unfold MAX_ATTEMPTS.
  destruct (Z.ltb_spec 10 (a + 1)); [by eexists _, _|]. apply IH; lia.
Qed.

(** C30: connecting with retries always ends, after at most eleven attempts:
    it succeeds as soon as one attempt does (or on shutdown), and an error is
    reported only when all eleven failed.  Nothing is waited for before the
    first attempt; the waits before the others are half a second doubled with
    every further failure, up to a minute: 0.5, 1, 2, 4, 8, 16, 32, 60, 60 and
    60 seconds. *)
Theorem connect_with_retry_correct node w :
  (∀ d w, ∃ b w', select_shutdown d w = (Ret b, w')) →
  (∀ w, ∃ r w', connect_to_peer node w = (Ret r, w')) →
  ∃ n r w',
    connect_to_peer_with_retry node w = (Ret r, w') ∧
    connect_trace node 0 n w r w' ∧ (n ≤ 11)%nat ∧ (∀ e, r = Err e → n = 11%nat) ∧
    retry_delay 0 = 0 ∧
    (∀ a, 1 ≤ a → retry_delay a = Z.min (500 * 2 ^ (a - 1)) 60000) ∧
    map retry_delay [1; 2; 3; 4; 5; 6; 7; 8; 9; 10] =
      [500; 1000; 2000; 4000; 8000; 16000; 32000; 60000; 60000; 60000].
Proof.
  intros Hsel Hconn. destruct (connect_loop_total 11 node 0 w) as (r & w' & Hrun);
    [unfold MAX_ATTEMPTS; lia|unfold MAX_ATTEMPTS; lia|done|done|].
  destruct (connect_loop_spec 11 node 0 w r w') as (n & Hn & Hle & He);
    [unfold MAX_ATTEMPTS; lia|done|]. unfold MAX_ATTEMPTS in *.
  exists n, r, w'. split_and!; [done|done|lia|intros e Er; specialize (He e Er); lia|done| |done].
  intros a Ha. unfold retry_delay. by destruct (Z.ltb_spec 0 a); [|lia].
Qed.

(** [connect_to_peer] asks LND to connect only to a node that is not among
    its peers yet, and at the first address that LND knows for it; when it
    returns [Ok] without that call the node was listed as a peer. *)
Theorem connect_to_peer_correct node w w' :
  connect_to_peer node w = (Ret (Ok tt), w') →
  ∃ peers w1, list_peers w = (Ret (Ok peers), w1) ∧
    ((w' = w1 ∧ ∃ p, p ∈ peers ∧ peer_pub_key p = pk_to_string node) ∨
     ((∀ p, p ∈ peers → peer_pub_key p ≠ pk_to_string node) ∧
      ∃ info lnode addr rest w2,
        get_node_info (pk_to_string node) false w1 = (Ret (Ok info), w2) ∧
        info_node info = Some lnode ∧ node_addresses lnode = addr :: rest ∧
        connect_peer (pk_to_string node) (addr_addr addr) w2 = (Ret (Ok tt), w'))).
Proof.
  intros Hrun. unfold connect_to_peer in Hrun. run_inv.
  eexists _, _. split; [done|]. destruct (existsb _ _) eqn:Hex; run_inv.
  - left. split; [done|]. apply existsb_exists in Hex as (p & Hin & Heq).
    exists p. split; [by apply list_elem_of_In|by apply String.eqb_eq].
  - right. split.
    { intros p Hin Heq. apply not_true_iff_false in Hex. apply Hex. apply existsb_exists.
      exists p. split; [by apply list_elem_of_In|by apply String.eqb_eq]. }
    match goal with H : get_node_info _ _ _ = (Ret (Ok ?i), _) |- _ => rename i into info end.
    destruct (info_node info) as [lnode|] eqn:Hn; run_inv.
    destruct (node_addresses lnode) as [|addr rest] eqn:Ha; run_inv. by eexists _, _, _, _, _.
Qed.
End connect.

(** ** Introduction nodes *)

Section reply_paths.
Context `{Secp} `{!Ldk} {W : Type} `{!PeerConnector W, !LdkEntropy W}.
Implicit Types w : W.

(** What LND said about the peer of a channel lets that peer introduce us: it
    is announced with onion message support and has a channel other than this
    one. *)
Definition can_introduce (c : Channel) (info : NodeInfo) : Prop :=
  ∃ node, info_node info = Some node ∧
    features_support_onion_messages (node_features node) = true ∧
    ∃ e, e ∈ info_channels info ∧ channel_id e ≠ chan_id c.

(** LND is asked about the peer of each channel in turn, every question being
    put in the world that the one before left; [keys] are those of the peers
    whose answer qualified. *)
Inductive surveyed : list Channel → W → list PublicKey → W → Prop :=
| sv_nil w : surveyed [] w [] w
| sv_take c cs w info w1 pk keys w' :
    get_node_info (remote_pubkey c) true w = (Ret (Ok info), w1) →
    can_introduce c info → pk_from_str (remote_pubkey c) = Some pk →
    surveyed cs w1 keys w' → surveyed (c :: cs) w (pk :: keys) w'
| sv_skip c cs w answer w1 keys w' :
    get_node_info (remote_pubkey c) true w = (Ret answer, w1) →
    (∀ info, answer = Ok info → ¬ can_introduce c info) →
    surveyed cs w1 keys w' → surveyed (c :: cs) w keys w'.

(** One blinded path is created per node, in their order. *)
Inductive paths_created (node_id : PublicKey) (ctx : MessageContext)
    : list PublicKey → W → list BlindedMessagePath → W → Prop :=
| pc_nil w : paths_created node_id ctx [] w [] w
| pc_cons n ns w path w1 paths w' :
    message_path_new [{| fwd_node_id := n; fwd_short_channel_id := None |}] node_id ctx w
      = (Ret (Ok path), w1) →
    paths_created node_id ctx ns w1 paths w' →
    paths_created node_id ctx (n :: ns) w (path :: paths) w'.

Lemma other_channels_spec c (l : list ChannelEdge) :
  negb (bool_decide (filter (λ e, channel_id e ≠ chan_id c) l = [])) = true ↔
  ∃ e, e ∈ l ∧ channel_id e ≠ chan_id c.
Proof.
  rewrite negb_true_iff, bool_decide_eq_false. split.
  - intros Hne. destruct (filter _ l) as [|e es] eqn:E; [done|].
    exists e. assert (e ∈ filter (λ e, channel_id e ≠ chan_id c) l) as He by (rewrite E; set_solver).
    apply list_elem_of_filter in He. naive_solver.
  - intros (e & Hin & Hne) E.
    assert (e ∈ filter (λ e, channel_id e ≠ chan_id c) l) as He by (by apply list_elem_of_filter).
    rewrite E in He. set_solver.
Qed.

Lemma intro_channels_step c cs acc w s w' :
  intro_channels_loop (c :: cs) acc w = (Ret s, w') →
  (s = acc ∧ w' = w ∧ (3 ≤ size acc)%nat) ∨
  ∃ answer w1, get_node_info (remote_pubkey c) true w = (Ret answer, w1) ∧
    ((∃ info pk, answer = Ok info ∧ can_introduce c info ∧
        pk_from_str (remote_pubkey c) = Some pk ∧
        intro_channels_loop cs ({[pk]} ∪ acc) w1 = (Ret s, w')) ∨
     ((∀ info, answer = Ok info → ¬ can_introduce c info) ∧
        intro_channels_loop cs acc w1 = (Ret s, w'))).
Proof.
  cbn [intro_channels_loop]. destruct (Z.ltb_spec 3 (Z.of_nat (size acc))).
  { intros Hrun. run_inv. left. split_and!; [done|done|lia]. }
  intros Hrun. right. apply bind_inv_Ret in Hrun as (answer & w1 & Hask & Hrun).
  exists answer, w1. split; [done|].
  destruct answer as [info|e]; [|right; split; [done|done]].
  destruct (info_node info) as [node|] eqn:Hn;
    [|right; split; [intros ? [= <-] (? & ? & ?); congruence|done]].
  assert (negb (bool_decide (filter (λ e, channel_id e ≠ chan_id c) (info_channels info) = []))
          && features_support_onion_messages (node_features node) = true ↔ can_introduce c info) as Hci.
  { rewrite andb_true_iff, other_channels_spec. unfold can_introduce. rewrite Hn. naive_solver. }
  destruct (info_channels info) as [|e0 es] eqn:Hc.
  { right. split; [|done]. intros ? [= <-] (? & ? & ? & e' & He' & _). rewrite Hc in He'. set_solver. }
  destruct (negb _ && _) eqn:Hb.
  - left. run_inv. eexists info, _. split_and!; [done|by apply Hci|done|done].
  - right. split; [|done]. intros ? [= <-] Hcan%Hci. congruence.
Qed.

Lemma intro_channels_loop_spec cs acc w s w' :
  intro_channels_loop cs acc w = (Ret s, w') →
  ∃ asked rest keys, cs = asked ++ rest ∧ surveyed asked w keys w' ∧
    s = list_to_set keys ∪ acc ∧ (rest ≠ [] → (3 ≤ size s)%nat).
Proof.
  revert acc w. induction cs as [|c cs IH]; intros acc w Hrun.
  { cbn in Hrun. run_inv. exists [], [], []. split_and!; [done|constructor|set_solver|done]. }
  apply intro_channels_step in Hrun as [(-> & -> & Hsz)|
    (answer & w1 & Hask & [(info & pk & -> & Hcan & Hpk & Hrun)|[Hno Hrun]])].
  - exists [], (c :: cs), []. split_and!; [done|constructor|set_solver|done].
  - destruct (IH _ _ Hrun) as (asked & rest & keys & -> & Hs & -> & Hr).
    exists (c :: asked), rest, (pk :: keys). split_and!; [done|by eapply sv_take|set_solver|done].
  - destruct (IH _ _ Hrun) as (asked & rest & keys & -> & Hs & -> & Hr).
    exists (c :: asked), rest, keys. split_and!; [done|by eapply sv_skip|done|done].
Qed.

Lemma blinded_path_or_failure_Ok (c : M W (result BlindedMessagePath unit)) w path w' :
  blinded_path_or_failure c w = (Ret (Ok path), w') ↔ c w = (Ret (Ok path), w').
Proof.
  unfold blinded_path_or_failure, map_err, bind, ret.
  destruct (c w) as [[[p|e]| |] w1]; cbn; naive_solver.
Qed.

Lemma paths_through_spec nodes node_id ctx w paths w' :
  paths_through nodes node_id ctx w = (Ret (Ok paths), w') →
  paths_created node_id ctx nodes w paths w'.
Proof.
  revert w paths. induction nodes as [|n ns IH]; intros w paths Hrun; cbn in Hrun; run_inv; [constructor|].
  eapply pc_cons; [|by apply IH]. by apply blinded_path_or_failure_Ok.
Qed.

(** C36: the reply paths of an offer.  LND's active public channels are gone
    through in order, and LND is asked about the peer of each; the search stops
    before the last channel only with at least three nodes found.  The nodes
    found are exactly those of the channels asked about whose peer is announced
    with onion message support and with another channel, each once; one path
    is created through each of them, and without any the only path leads
    straight to the node itself.  (A channel peer that qualifies and whose key
    does not parse makes the code panic, so it is not a successful run.) *)
Theorem offer_reply_paths_correct node_id ctx w paths w' :
  create_reply_path_for_offer_creation node_id ctx w = (Ret (Ok paths), w') →
  ∃ channels w1 asked rest keys w2 nodes,
    list_active_public_channels w = (Ret (Ok channels), w1) ∧
    channels = asked ++ rest ∧ surveyed asked w1 keys w2 ∧
    NoDup nodes ∧ (∀ pk, pk ∈ nodes ↔ pk ∈ keys) ∧ (rest ≠ [] → (3 ≤ length nodes)%nat) ∧
    match nodes with
    | [] => ∃ path, message_path_one_hop node_id ctx w2 = (Ret (Ok path), w') ∧ paths = [path]
    | _ => paths_created node_id ctx nodes w2 paths w'
    end.
Proof.
  intros Hrun. unfold create_reply_path_for_offer_creation in Hrun.
  apply try_bind_inv in Hrun as [(channels & w1 & Hl & Hrun)|(e & _ & [=])].
  apply bind_inv_Ret in Hrun as (s & w2 & Hs & Hrun).
  destruct (intro_channels_loop_spec _ _ _ _ _ Hs) as (asked & rest & keys & Hc & Hsv & Hset & Hr).
  exists channels, w1, asked, rest, keys, w2, (elements s).
  split_and!; [|done|done|apply NoDup_elements|set_solver|done|].
  { apply map_err_inv_Ok in Hl. done. }
  case_bool_decide as Hemp; [rewrite Hemp, elements_empty|].
  - run_inv. eexists. split; [by apply blinded_path_or_failure_Ok|done].
  - destruct (elements s) eqn:Ee; [|by apply paths_through_spec].
    apply elements_empty_inv in Ee. by apply leibniz_equiv in Ee.
Qed.

(** The peers of the list that were passed over, in turn: each one's key
    parses, and either it does not support onion messages (LND is not asked),
    or LND's answer about it lists no channel. *)
Inductive passed_over : list Peer → W → W → Prop :=
| po_nil w : passed_over [] w w
| po_no_onions p ps w w' :
    is_Some (pk_from_str (peer_pub_key p)) →
    features_support_onion_messages (peer_features p) = false →
    passed_over ps w w' → passed_over (p :: ps) w w'
| po_no_channel p ps w answer w1 w' :
    is_Some (pk_from_str (peer_pub_key p)) →
    features_support_onion_messages (peer_features p) = true →
    get_node_info (peer_pub_key p) true w = (Ret answer, w1) →
    (∀ info, answer = Ok info → info_channels info = []) →
    passed_over ps w1 w' → passed_over (p :: ps) w w'.

(** The peer supports onion messages and LND's answer lists a channel. *)
Definition introduces (p : Peer) (pk : PublicKey) w w' : Prop :=
  pk_from_str (peer_pub_key p) = Some pk ∧
  features_support_onion_messages (peer_features p) = true ∧
  ∃ info, get_node_info (peer_pub_key p) true w = (Ret (Ok info), w') ∧ info_channels info ≠ [].

(** The first peer that introduces us, those before it having been passed
    over; [None] when all were. *)
Definition first_introduction (peers : list Peer) w (r : option PublicKey) w' : Prop :=
  match r with
  | None => passed_over peers w w'
  | Some pk => ∃ before p after w1, peers = before ++ p :: after ∧
      passed_over before w w1 ∧ introduces p pk w1 w'
  end.

Lemma first_introduction_cons p ps w r w' :
  first_introduction (p :: ps) w r w' ↔
  (∃ pk, r = Some pk ∧ introduces p pk w w') ∨
  (∃ w1, passed_over [p] w w1 ∧ first_introduction ps w1 r w').
Proof.
  split.
  - destruct r as [pk|]; cbn.
    + intros ([|q before] & p' & after & w1 & E & Hb & Hi); cbn in E; simplify_eq.
      * left. inversion Hb; subst. by eexists.
      * right. inversion Hb; subst.
        -- eexists. split; [by eapply po_no_onions, po_nil|]. by eexists _, _, _, _.
        -- eexists. split; [by eapply po_no_channel, po_nil|]. by eexists _, _, _, _.
    + intros Hb. right. inversion Hb; subst.
      * eexists. split; [by eapply po_no_onions, po_nil|done].
      * eexists. split; [by eapply po_no_channel, po_nil|done].
  - intros [(pk & -> & Hi)|(w1 & Hp & Hr)].
    + exists [], p, ps, w. split_and!; [done|constructor|done].
    + assert (∀ qs w', passed_over qs w1 w' → passed_over (p :: qs) w w') as Hcons.
      { intros qs v Hq. inversion Hp; subst;
          match goal with H : passed_over [] _ _ |- _ => inversion H; subst end;
          [by eapply po_no_onions|by eapply po_no_channel]. }
      destruct r as [pk|]; cbn in *; [|by apply Hcons].
      destruct Hr as (before & p' & after & w2 & -> & Hb & Hi).
      exists (p :: before), p', after, w2. split_and!; [done|by apply Hcons|done].
Qed.

Lemma intro_node_loop_spec peers w r w' :
  intro_node_loop peers w = (Ret r, w') ↔ first_introduction peers w r w'.
Proof.
  revert w. induction peers as [|p ps IH]; intros w.
  { cbn. split; [intros; run_inv; constructor|].
    destruct r; cbn; [by intros ([] & ? & ? & ? & ? & _)|]. by inversion 1. }
  rewrite first_introduction_cons. setoid_rewrite <- IH. cbn [intro_node_loop]. split.
  - intros Hrun. apply bind_inv_Ret in Hrun as (pk & w0 & Hpk & Hrun).
    apply unwrap_inv in Hpk as [-> Epk].
    destruct (features_support_onion_messages (peer_features p)) eqn:Ef.
    + apply bind_inv_Ret in Hrun as (answer & w1 & Hask & Hrun).
      assert ((∀ info, answer = Ok info → info_channels info = []) →
              passed_over [p] w w1) as Hpass
        by (intros; eapply po_no_channel; [by rewrite Epk| | | |constructor]; done).
      destruct answer as [info|e]; [destruct (info_channels info) eqn:Ec|].
      * right. eexists. split; [apply Hpass; intros ? [= <-]; done|done].
      * left. run_inv. eexists. split; [done|]. split_and!; [done|done|].
        eexists. split; [done|]. by rewrite Ec.
      * right. eexists. split; [by apply Hpass|done].
    + right. eexists. split; [|done]. eapply po_no_onions; [by rewrite Epk|done|constructor].
  - intros [(pk & -> & Hpk & Hf & info & Hask & Hne)|(w1 & Hp & Hrun)].
    + rewrite Hpk, Hf. cbn. unfold bind. cbn. rewrite Hask. by destruct (info_channels info).
    + inversion Hp as [|? ? ? ? [pk Hpk] Hf Hnil|? ? ? answer ? ? [pk Hpk] Hf Hask Hno Hnil]; subst;
        inversion Hnil; subst; rewrite Hpk, Hf; unfold bind; cbn; [done|].
      rewrite Hask. destruct answer as [info|e]; [by rewrite (Hno info eq_refl)|done].
Qed.

(** C37: the reply path of an invoice request.  LND's peers are gone through in
    order, LND being asked about each one that supports onion messages; the
    path leads through the first for which the answer lists a channel, and
    straight to the node itself when there is none.  These are all the runs
    that return: a peer key that does not parse makes the code panic when it is
    reached, and a failure to list the peers or to create the path is the
    error. *)
Theorem payment_reply_path_correct node_id ctx w r w' :
  create_reply_path_for_outgoing_payments node_id ctx w = (Ret r, w') ↔
  (∃ e, list_peers w = (Ret (Err e), w') ∧ r = Err (ListPeersFailure (status_message e))) ∨
  (∃ peers w1 intro w2 made,
     list_peers w = (Ret (Ok peers), w1) ∧ first_introduction peers w1 intro w2 ∧
     match intro with
     | Some pk => message_path_new [{| fwd_node_id := pk; fwd_short_channel_id := None |}] node_id ctx
     | None => message_path_one_hop node_id ctx
     end w2 = (Ret made, w') ∧
     r = match made with Ok path => Ok path | Err _ => Err BuildBlindedPathFailure end).
Proof.
  setoid_rewrite <- intro_node_loop_spec.
  unfold create_reply_path_for_outgoing_payments, blinded_path_or_failure, map_err, try_bind, bind, ret.
  split.
  - destruct (list_peers w) as [[[peers|e]| |] w1] eqn:Hl; cbn; [|naive_solver..].
    destruct (intro_node_loop peers w1) as [[intro| |] w2] eqn:Hi; cbn; [|done..].
    intros Hrun. right. destruct intro as [pk|];
      [destruct (message_path_new _ _ _ w2) as [[made| |] w3] eqn:Hm
      |destruct (message_path_one_hop _ _ w2) as [[made| |] w3] eqn:Hm]; try done;
      (eexists _, _, _, _, made; split_and!; [done|done|cbn; naive_solver|]); by destruct made; simplify_eq/=.
  - intros [(e & -> & ->)|(peers & w1 & intro & w2 & made & -> & Hi & Hm & ->)]; cbn; [done|].
    rewrite Hi. destruct intro; rewrite Hm; by destruct made.
Qed.
End reply_paths.

(** ** Channel ids, invoice requests, payments, offers *)

Section request_facts.
Context `{Secp} `{!Ldk} {W : Type}.

Lemma node_pub_of_direction `{!ChanInfo W} scid dir (w : W) ci w' :
  get_chan_info scid w = (Ret (Ok ci), w') →
  get_node_id_from_scid scid dir w =
    (Ret (Ok match dir with NodeOne => node1_pub ci | NodeTwo => node2_pub ci end), w').
Proof.
  intros Hci. unfold get_node_id_from_scid, map_err, try_bind, bind, ret. rewrite Hci.
  by destruct dir.
Qed.

Lemma get_node_id_none `{!ChanInfo W} `{!SecpLaws} scid dir (w : W) ci w' pk1 pk2 :
  get_chan_info scid w = (Ret (Ok ci), w') →
  node1_pub ci = pk_to_string pk1 → node2_pub ci = pk_to_string pk2 →
  get_node_id scid dir w = (Ret (Err IntroductionNodeNotFound), w').
Proof.
  intros Hci E1 E2. unfold get_node_id, try_bind, bind.
  rewrite (node_pub_of_direction _ _ _ _ _ Hci). cbn.
  by destruct dir; rewrite ?E1, ?E2, pk_from_slice_of_text.
Qed.

(** [get_node_id] never finds the node: LND names the ends of a channel by
    the hexadecimal text of their keys, and the code hands the bytes of that
    text to [PublicKey::from_slice], which takes no 66-byte input. *)
Theorem get_node_id_always_fails `{!ChanInfo W} `{!SecpLaws} scid dir (w : W) ci w' pk1 pk2 :
  get_chan_info scid w = (Ret (Ok ci), w') →
  node1_pub ci = pk_to_string pk1 → node2_pub ci = pk_to_string pk2 →
  get_node_id scid dir w = (Ret (Err IntroductionNodeNotFound), w').
Proof. apply get_node_id_none. Qed.

(** C32: an invoice request asks for the validated amount on the given chain;
    its payment id is fresh entropy, and the context that will come back with
    the invoice carries that id and its HMAC under the nonce used to build the
    request.  An amount that is not valid is refused before any entropy is
    drawn. *)
Theorem create_invoice_request_correct `{!LdkEntropy W} offer net key msats note (w : W) r w' :
  create_invoice_request offer net key msats note w = (Ret r, w') →
  (∀ e, validate_amount (offer_amount offer) msats = Err e → r = Err e ∧ w' = w) ∧
  (∀ ir id amt ctx, r = Ok (ir, id, amt, ctx) →
     validate_amount (offer_amount offer) msats = Ok amt ∧
     ∃ nonce w1 b0 b1 b2,
       get_secure_random_bytes w = (Ret id, w1) ∧
       nonce_from_entropy_source w1 = (Ret nonce, w') ∧
       ctx = CtxOutboundPayment id nonce (Some (hmac_for_offer_payment id nonce key)) ∧
       request_invoice offer key nonce id = Ok b0 ∧ irb_chain b0 net = Ok b1 ∧
       irb_amount_msats b1 amt = Ok b2 ∧
       irb_build_and_sign match note with Some s => irb_payer_note b2 s | None => b2 end = Ok ir).
Proof.
  intros Hrun. unfold create_invoice_request in Hrun. split.
  - intros e He. rewrite He in Hrun. cbn in Hrun. by run_inv.
  - intros ir id amt ctx ->. run_inv.
    repeat match goal with
    | H : result_map_err _ ?r = Ok _ |- _ => destruct r eqn:?; simplify_eq/=
    | H : Ok _ = result_map_err _ ?r |- _ => destruct r eqn:?; simplify_eq/=
    end.
    split; [done|]. by eexists _, _, _, _, _.
Qed.

(** A payment is sent over the first route LND proposes and over no other;
    without a route in the answer the code panics on the index, rather than
    reporting a routing failure. *)
Theorem send_payment_uses_first_route `{!InvoicePayer W} params (w : W) :
  match query_routes (sp_path params) (sp_cltv_expiry_delta params) (sp_fee_base_msat params)
          (sp_fee_ppm params) (sp_msats params) (sp_fee_limit params) w with
  | (Ret (Ok (route :: _)), w1) =>
      send_payment params w =
        try_bind (map_err (λ e, RouteFailure (status_message e))
                    (send_to_route (sp_payment_hash params) route)) (λ _, ret (Ok tt)) w1
  | (Ret (Ok []), w1) => send_payment params w = (Panic, w1)
  | (Ret (Err e), w1) => send_payment params w = (Ret (Err (RouteFailure (status_message e))), w1)
  | (Panic, w1) => send_payment params w = (Panic, w1)
  | (Pending, w1) => send_payment params w = (Pending, w1)
  end.
Proof.
  unfold send_payment, map_err, try_bind, bind.
  by destruct (query_routes _ _ _ _ _ _ w) as [[[[|route rs]|e]| |] w1].
Qed.

(** The offers' builder calls that add a path. *)
Definition is_path_call (c : OfferBuilderCall) : bool :=
  match c with OBPath _ => true | _ => false end.

Lemma builder_call_elem {A} (f : A → OfferBuilderCall) o c :
  c ∈ builder_call f o ↔ ∃ a, o = Some a ∧ c = f a.
Proof. destruct o; cbn; set_solver. Qed.

Lemma builder_call_paths (o : option BlindedMessagePath) :
  filter (λ c, is_path_call c = true) (builder_call OBPath o) = builder_call OBPath o.
Proof. by destruct o. Qed.

Lemma builder_call_no_path {A} (f : A → OfferBuilderCall) o :
  (∀ a, is_path_call (f a) = false) → filter (λ c, is_path_call c = true) (builder_call f o) = [].
Proof. intros Hf. destruct o as [a|]; [|done]. cbn [builder_call]. by rewrite filter_cons_False by (by rewrite Hf). Qed.

Lemma offer_builder_paths args paths :
  filter (λ c, is_path_call c = true) (offer_builder_calls args paths) = map OBPath (take 3 paths).
Proof.
  unfold offer_builder_calls. rewrite !filter_app, !builder_call_paths.
  rewrite !builder_call_no_path, (filter_cons_False _ (OBChain _)), filter_nil by done.
  by destruct paths as [|p0 [|p1 [|p2 ?]]].
Qed.

Lemma offer_builder_elem args paths c :
  c ∈ offer_builder_calls args paths ↔
  match c with
  | OBChain n => n = args_chain args
  | OBAmountMsats a => args_amount_msats args = Some a
  | OBPath p => paths !! 0%nat = Some p ∨ paths !! 1%nat = Some p ∨ paths !! 2%nat = Some p
  | OBDescription d => args_description args = Some d
  | OBIssuer i => args_issuer args = Some i
  | OBSupportedQuantity q => args_quantity args = Some q
  | OBAbsoluteExpiry _ => False
  end.
Proof.
  unfold offer_builder_calls. rewrite !elem_of_app, !builder_call_elem, list_elem_of_singleton.
  destruct c; naive_solver.
Qed.

#[local] Opaque offer_builder_calls.

(** C35: an offer is built for the identity LND reports, with the nonce drawn
    for it, and the reply paths made for that identity and nonce: the builder is
    given exactly the first three of them, in order.  It is told the requested
    chain, and an amount, a description, an issuer and a quantity exactly when
    they were requested (what LDK's builder makes of an amount of zero is its
    own affair); an expiry exactly when one was requested, counted from the
    system clock and never before the epoch. *)
Theorem create_offer_correct `{!PeerConnector W, !LdkEntropy W, !OfferCreator W, !SystemClock W}
    `{!LdkBuild} args key (w : W) offer w' :
  create_offer args key w = (Ret (Ok offer), w') →
  ∃ info w1 node_id nonce w2 paths w3 calls,
    get_info w = (Ret (Ok info), w1) ∧ pk_from_str (identity_pubkey info) = Some node_id ∧
    nonce_from_entropy_source w1 = (Ret nonce, w2) ∧
    create_reply_path_for_offer_creation node_id (CtxOffers (CtxInvoiceRequest nonce)) w2
      = (Ret (Ok paths), w3) ∧
    offer_build node_id key nonce calls = Ok offer ∧
    filter (λ c, is_path_call c = true) calls = map OBPath (take 3 paths) ∧
    (∀ c, OBChain c ∈ calls ↔ c = args_chain args) ∧
    (∀ a, OBAmountMsats a ∈ calls ↔ args_amount_msats args = Some a) ∧
    (∀ d, OBDescription d ∈ calls ↔ args_description args = Some d) ∧
    (∀ i, OBIssuer i ∈ calls ↔ args_issuer args = Some i) ∧
    (∀ q, OBSupportedQuantity q ∈ calls ↔ args_quantity args = Some q) ∧
    match args_expiry args with
    | None => w' = w3 ∧ ∀ t, OBAbsoluteExpiry t ∉ calls
    | Some e => ∃ now, system_now w3 = (Ret now, w') ∧ 0 ≤ now + e ∧
                  ∀ t, OBAbsoluteExpiry t ∈ calls ↔ t = now + e
    end.
Proof.
  intros Hrun. unfold create_offer in Hrun.
  apply try_bind_inv in Hrun as [(info & w1 & Hi & Hrun)|(? & _ & [=])].
  apply try_bind_inv in Hrun as [(node_id & w1' & Hn & Hrun)|(? & _ & [=])].
  apply bind_inv_Ret in Hrun as (nonce & w2 & Hnonce & Hrun).
  apply try_bind_inv in Hrun as [(paths & w3 & Hp & Hrun)|(? & _ & [=])].
  apply try_bind_inv in Hrun as [(calls & w4 & He & Hrun)|(? & _ & [=])].
  apply map_err_inv_Ok in Hi. destruct (pk_from_str _) as [pk|] eqn:Hpk; run_inv.
  destruct (offer_build node_id key nonce calls) as [o|] eqn:Hb; simplify_eq/=.
  exists info, w1', node_id, nonce, w2, paths, w3, calls.
  split_and!; [done|done|done|done|done|..]; destruct (args_expiry args) as [e|]; run_inv.
  all: try match goal with H : system_time_add ?n ?e _ = _ |- _ =>
    unfold system_time_add in H; destruct (n + e <? _); run_inv;
    destruct (Z.ltb_spec (n + e) 0); run_inv end.
  all: rewrite ?filter_app, ?(filter_cons_False _ (OBAbsoluteExpiry _)), ?filter_nil, ?app_nil_r by done.
  all: try apply offer_builder_paths.
  all: try (intros; rewrite ?elem_of_app, offer_builder_elem; set_solver).
  - eexists. split_and!; [done|lia|]. intros t. rewrite elem_of_app, offer_builder_elem. set_solver.
  - split; [done|]. by intros t ?%offer_builder_elem.
Qed.

(** An expiry that takes the system time past the range of its seconds
    makes the creation of an offer panic: the [CreateOfferTimeFailure] it has
    for expiry times covers only times before the epoch. *)
Theorem create_offer_expiry_overflow
    `{!PeerConnector W, !LdkEntropy W, !OfferCreator W, !SystemClock W} `{!LdkBuild}
    args key (w w1 w2 w3 w4 : W) info node nonce paths now expiry :
  get_info w = (Ret (Ok info), w1) → pk_from_str (identity_pubkey info) = Some node →
  nonce_from_entropy_source w1 = (Ret nonce, w2) →
  create_reply_path_for_offer_creation node (CtxOffers (CtxInvoiceRequest nonce)) w2
    = (Ret (Ok paths), w3) →
  args_expiry args = Some expiry → system_now w3 = (Ret now, w4) →
  2 ^ 63 * 10 ^ 9 ≤ now + expiry →
  create_offer args key w = (Panic, w4).
Proof.
  intros Hi Hn Hnonce Hp He Hnow Hbig. unfold create_offer, try_bind, map_err, bind.
  rewrite Hi. cbn. rewrite Hn. cbn. rewrite Hnonce, Hp, He, Hnow.
  unfold system_time_add. by destruct (Z.ltb_spec (now + expiry) (2 ^ 63 * 10 ^ 9)); [lia|].
Qed.
End request_facts.
