(* ===== verification/Handler.v ===== *)
(** * The offer handler

    Models src/offers/handler.rs: the table of active payments and the queue of
    pending messages, fetching an invoice for an offer, paying an invoice over
    its paths, and the reaction to the offers messages that LDK delivers.

    The handler is shared between the gRPC server's tasks and the onion
    messenger.  It is a component of the world, reached through [HasHandler];
    each block the code runs under one lock is one atomic update of it, and
    everything awaited in between (calls to LND, sleeps) is a function of the
    world and may change the handler as other tasks do. *)

From S2P Require Import Prelude Grpc Ldk OfferError Parse Lnd LndRequests.
Open Scope Z_scope.

Definition DEFAULT_RESPONSE_INVOICE_TIMEOUT : Z := 15.

Inductive PaymentState := InvoiceRequestCreated | InvoiceReceived | PaymentDispatched.

#[export] Instance PaymentState_eq_dec : EqDecision PaymentState.
Proof. solve_decision. Defined.

(** Tokio's clock in milliseconds, and a sleep of so many milliseconds inside a
    future under [timeout] with a deadline: whether the deadline ended it. *)
Class Timer (W : Type) : Type := {
  instant_now : M W Z;
  timeout_sleep : Z → Z → M W bool;
}.

Section handler_data.
Context `{Ldk}.

Record PaymentInfo := { state : PaymentState; invoice : option Bolt12Invoice }.

(** [messenger_utils] is the entropy class of the world; the client the
    handler owns is the world's LND, [has_client] says whether it was given. *)
Record OfferHandler := {
  active_payments : gmap PaymentId PaymentInfo;
  pending_messages : list (OffersMessage * MessageSendInstructions);
  expanded_key : ExpandedKey;
  response_invoice_timeout : Z;
  has_client : bool;
}.

Record PayOfferParams := {
  cfg_offer : Offer;
  cfg_amount : option Z;
  cfg_payer_note : option string;
  cfg_network : Network;
  cfg_destination : Destination;
  cfg_reply_path : option BlindedMessagePath;
  cfg_response_invoice_timeout : option Z;
  cfg_fee_limit : option FeeLimit;
}.

Record CreateOfferParams := {
  cop_amount_msats : option Z;
  cop_chain : Network;
  cop_description : option string;
  cop_issuer : option string;
  cop_quantity : option Quantity;
  cop_expiry : option Z;
}.

Definition CreateOfferArgs_from_params (params : CreateOfferParams) : CreateOfferArgs :=
  {| args_amount_msats := cop_amount_msats params; args_chain := cop_chain params;
     args_description := cop_description params; args_issuer := cop_issuer params;
     args_quantity := cop_quantity params; args_expiry := cop_expiry params |}.

Definition OfferHandler_new `{!LdkEntropy W} (response_invoice_timeout : option Z)
    (seed : option bytes) (client : bool) : M W OfferHandler :=
  let* random_bytes := match seed with
                       | Some seed => ret seed
                       | None => get_secure_random_bytes
                       end in
  ret {| active_payments := ∅; pending_messages := [];
         expanded_key := expanded_key_new random_bytes;
         response_invoice_timeout :=
           default DEFAULT_RESPONSE_INVOICE_TIMEOUT response_invoice_timeout;
         has_client := client |}.

Definition with_payments (f : gmap PaymentId PaymentInfo → gmap PaymentId PaymentInfo)
    (h : OfferHandler) : OfferHandler :=
  {| active_payments := f (active_payments h); pending_messages := pending_messages h;
     expanded_key := expanded_key h; response_invoice_timeout := response_invoice_timeout h;
     has_client := has_client h |}.

Definition with_pending (l : list (OffersMessage * MessageSendInstructions)) (h : OfferHandler)
    : OfferHandler :=
  {| active_payments := active_payments h; pending_messages := l;
     expanded_key := expanded_key h; response_invoice_timeout := response_invoice_timeout h;
     has_client := has_client h |}.

(** The world contains the handler. *)
Class HasHandler (W : Type) : Type := {
  handler : W → OfferHandler;
  set_handler : OfferHandler → W → W;
  handler_set h w : handler (set_handler h w) = h;
}.
End handler_data.

Section handler_ops.
Context `{Ldk} {W : Type} `{!HasHandler W}.

(** An update of the handler under one lock. *)
Definition update_handler (f : OfferHandler → OfferHandler) : M W unit :=
  modify (λ w, set_handler (f (handler w)) w).

Definition remove_active_payment (payment_id : PaymentId) : M W unit :=
  update_handler (with_payments (delete payment_id)).

(** [entry(payment_id).and_modify(|entry| entry.state = st)]. *)
Definition set_payment_state (payment_id : PaymentId) (st : PaymentState) : M W unit :=
  update_handler (with_payments
    (alter (λ entry, {| state := st; invoice := invoice entry |}) payment_id)).

(** The entry of a new payment: refused when there is one already. *)
Definition register_payment (payment_id : PaymentId) : M W (result unit OfferError) :=
  let* h := get_world handler in
  match active_payments h !! payment_id with
  | Some _ => ret (Err (AlreadyProcessing payment_id))
  | None =>
      let* _ := update_handler (with_payments
        (insert payment_id {| state := InvoiceRequestCreated; invoice := None |})) in
      ret (Ok tt)
  end.

Definition push_pending_message (m : OffersMessage * MessageSendInstructions) : M W unit :=
  update_handler (λ h, with_pending (pending_messages h ++ [m]) h).

(** The check of the waiting loop: the invoice of the payment, if there. *)
Definition poll_invoice (payment_id : PaymentId) : M W (option Bolt12Invoice) :=
  get_world (λ w, active_payments (handler w) !! payment_id ≫= invoice).

(** [wait_for_invoice] under [timeout]: the table is checked, then the program
    sleeps for two seconds, and so on; [None] when the deadline ends one of the
    sleeps. *)
Fixpoint wait_for_invoice `{!Timer W} (fuel : nat) (deadline : Z) (payment_id : PaymentId)
    : M W (option Bolt12Invoice) :=
  match fuel with
  | O => pending
  | S fuel =>
      let* o := poll_invoice payment_id in
      match o with
      | Some invoice => ret (Some invoice)
      | None =>
          let* elapsed := timeout_sleep deadline 2000 in
          if elapsed : bool then ret None else wait_for_invoice fuel deadline payment_id
      end
  end.

(** Rounds that are enough for a timeout of so many seconds. *)
Definition wait_fuel (timeout : Z) : nat := S (S (Z.to_nat (timeout / 2))).

(** [Result::inspect_err] with an action. *)
Definition inspect_err {A E} (act : M W unit) (c : M W (result A E)) : M W (result A E) :=
  let* r := c in
  match r with
  | Ok a => ret (Ok a)
  | Err e => let* _ := act in ret (Err e)
  end.

Section get_invoice.
Context `{!PeerConnector W, !LdkEntropy W, !OfferCreator W, !ChanInfo W, !Timer W}.

Definition get_invoice (cfg : PayOfferParams)
    : M W (result (Bolt12Invoice * Z * PaymentId) OfferError) :=
  let* h := get_world handler in
  let? (invoice_request, payment_id, validated_amount, offer_context) :=
    create_invoice_request (cfg_offer cfg) (cfg_network cfg) (expanded_key h)
      (cfg_amount cfg) (cfg_payer_note cfg) in
  let? _ := register_payment payment_id in
  let? message := inspect_err (remove_active_payment payment_id)
    (send_invoice_request (cfg_destination cfg) invoice_request offer_context) in
  let* _ := push_pending_message message in
  let cfg_timeout :=
    default (response_invoice_timeout h) (cfg_response_invoice_timeout cfg) in
  let* start := instant_now in
  let* r := wait_for_invoice (wait_fuel cfg_timeout) (start + 1000 * cfg_timeout) payment_id in
  match r with
  | Some invoice =>
      let* _ := set_payment_state payment_id InvoiceReceived in
      ret (Ok (invoice, validated_amount, payment_id))
  | None =>
      let* _ := remove_active_payment payment_id in
      ret (Err (InvoiceTimeout cfg_timeout))
  end.
End get_invoice.

Section pay_invoice.
Context `{!InvoicePayer W, !ChanInfo W}.

(** The parameters of one attempt. *)
Definition payment_params (amount : Z) (payment_hash : PaymentHash) (payment_id : PaymentId)
    (fee_limit : option FeeLimit) (payment_path : BlindedPaymentPath) : SendPaymentParams :=
  {| sp_path := payment_path;
     sp_cltv_expiry_delta := payment_path_cltv_expiry_delta payment_path;
     sp_fee_base_msat := payment_path_fee_base_msat payment_path;
     sp_fee_ppm := payment_path_fee_proportional_millionths payment_path;
     sp_payment_hash := payment_hash; sp_msats := amount; sp_payment_id := payment_id;
     sp_fee_limit := fee_limit |}.

(** The loop over the invoice's paths; [last_error] as in the code. *)
Fixpoint pay_paths (amount : Z) (payment_hash : PaymentHash) (payment_id : PaymentId)
    (fee_limit : option FeeLimit) (payment_paths : list BlindedPaymentPath)
    (last_error : option OfferError) : M W (result Payment OfferError) :=
  match payment_paths with
  | [] =>
      let* _ := remove_active_payment payment_id in
      ret (Err (default PaymentFailure last_error))
  | payment_path :: payment_paths =>
      let params := payment_params amount payment_hash payment_id fee_limit payment_path in
      let? _ :=
        match payment_path_introduction_node (sp_path params) with
        | NodeId node_id => ret (Ok (Some (pk_to_string node_id)))
        | DirectedShortChannelId direction scid =>
            let? node_id_pub := get_node_id_from_scid scid direction in
            ret (Ok (Some node_id_pub))
        end in
      let* r := send_payment params in
      match r with
      | Err e => pay_paths amount payment_hash payment_id fee_limit payment_paths (Some e)
      | Ok _ =>
          let* _ := set_payment_state payment_id PaymentDispatched in
          let* r := track_payment payment_hash in
          match r with
          | Ok payment =>
              let* _ := remove_active_payment payment_id in
              ret (Ok payment)
          | Err e => pay_paths amount payment_hash payment_id fee_limit payment_paths (Some e)
          end
      end
  end.

Definition pay_invoice (amount : Z) (inv : Bolt12Invoice) (payment_id : PaymentId)
    (fee_limit : option FeeLimit) : M W (result Payment OfferError) :=
  pay_paths amount (invoice_payment_hash inv) payment_id fee_limit (invoice_payment_paths inv) None.
End pay_invoice.

Definition pay_offer
    `{!PeerConnector W, !LdkEntropy W, !OfferCreator W, !ChanInfo W, !Timer W, !InvoicePayer W}
    (cfg : PayOfferParams) : M W (result Payment OfferError) :=
  let fee_limit := cfg_fee_limit cfg in
  let? (invoice, validated_amount, payment_id) := get_invoice cfg in
  pay_invoice validated_amount invoice payment_id fee_limit.

Definition handle_invoice_error (payment_id : PaymentId) (nonce : Nonce) (hmac : Hmac) : M W unit :=
  let* h := get_world handler in
  match verify_for_offer_payment payment_id hmac nonce (expanded_key h) with
  | Ok _ => remove_active_payment payment_id
  | Err _ => ret tt
  end.

Definition handler_create_offer
    `{!PeerConnector W, !LdkEntropy W, !OfferCreator W, !SystemClock W, !LdkBuild}
    (params : CreateOfferParams) : M W (result Offer OfferError) :=
  let* h := get_world handler in
  create_offer (CreateOfferArgs_from_params params) (expanded_key h).

(** What a verified invoice does to the table. *)
Definition store_invoice (payment_id : PaymentId) (inv : Bolt12Invoice)
    (m : gmap PaymentId PaymentInfo) : gmap PaymentId PaymentInfo :=
  match m !! payment_id with
  | None => m
  | Some pay_info =>
      match invoice pay_info with
      | Some _ => m
      | None => <[payment_id := {| state := InvoiceReceived; invoice := Some inv |}]> m
      end
  end.

Section handle_message.
Context `{!Bolt12InvoiceCreator W, !LdkBuild}.
Variable hash_from_str : string → result PaymentHash string.

Definition handle_invoice_request (invoice_request : InvoiceRequest)
    (context : option OffersContext) (responder : option Responder)
    : M W (option (OffersMessage * ResponseInstruction)) :=
  let* h := get_world handler in
  match responder with
  | None => ret None
  | Some responder =>
  match context with
  | None => ret None
  | Some offer_context =>
  match offer_context with
  | CtxInvoiceRequest nonce =>
  match verify_using_recipient_data invoice_request nonce (expanded_key h) with
  | Err _ => ret None
  | Ok verified_invoice =>
  if negb (has_client h) then ret None
  else
    let* r := create_invoice_info_from_request hash_from_str invoice_request in
    match r with
    | Err _ => ret None
    | Ok invoice_info =>
    match respond_using_derived_keys verified_invoice (info_payment_paths invoice_info)
            (info_payment_hash invoice_info) with
    | Err _ => ret None
    | Ok invoice_builder =>
    match result_map_err invoice_error_from_semantic (invoice_build_and_sign invoice_builder) with
    | Ok invoice =>
        let* _ := push_pending_message
          (MsgInvoice invoice, IntoInstructions (responder_respond responder)) in
        ret None
    | Err error => ret (Some (MsgInvoiceError error, responder_respond responder))
    end end end
  end
  | _ => ret None
  end end end.

Definition handle_invoice (inv : Bolt12Invoice) (context : option OffersContext)
    (responder : option Responder) : M W (option (OffersMessage * ResponseInstruction)) :=
  let* h := get_world handler in
  match context with
  | None => ret None
  | Some (CtxOutboundPayment payment_id nonce _) =>
      match verify_using_payer_data inv payment_id nonce (expanded_key h) with
      | Ok payment_id =>
          let* _ := update_handler (with_payments (store_invoice payment_id inv)) in
          ret None
      | Err _ =>
          ret match responder with
              | Some r => Some (MsgInvoiceError
                                  (invoice_error_from_string "invoice verification failure"),
                                responder_respond r)
              | None => None
              end
      end
  | Some _ => ret None
  end.

Definition handle_message (message : OffersMessage) (context : option OffersContext)
    (responder : option Responder) : M W (option (OffersMessage * ResponseInstruction)) :=
  match message with
  | MsgInvoiceRequest invoice_request => handle_invoice_request invoice_request context responder
  | MsgInvoice inv => handle_invoice inv context responder
  | MsgInvoiceError _ =>
      let* _ := match context with
                | Some (CtxOutboundPayment payment_id nonce (Some hmac)) =>
                    handle_invoice_error payment_id nonce hmac
                | _ => ret tt
                end in
      ret None
  end.
End handle_message.

(** [mem::take] of the queue. *)
Definition release_pending_messages : M W (list (OffersMessage * MessageSendInstructions)) :=
  let* h := get_world handler in
  let* _ := update_handler (with_pending []) in
  ret (pending_messages h).
End handler_ops.
