(* ===== verification/HandlerFacts.v ===== *)
(** * Facts about the offer handler

    What each operation of src/offers/handler.rs does: every exit of
    [get_invoice], the attempts of [pay_invoice] path by path, the wait for an
    invoice against its deadline, and the reaction to messages.  Worlds are
    threaded through, so that other tasks may act at every await. *)

From S2P Require Import Prelude Grpc Ldk OfferError Parse Lnd LndRequests LndRequestsFacts Handler.
Open Scope Z_scope.

Section operations.
Context `{Secp} `{!Ldk} {W : Type} `{!HasHandler W}.

Lemma handler_update f (w : W) u w' :
  update_handler f w = (u, w') → u = Ret tt ∧ handler w' = f (handler w).
Proof. unfold update_handler, modify. intros [= <- <-]. by rewrite handler_set. Qed.

Lemma remove_active_payment_gone pid (w : W) u w' :
  remove_active_payment pid w = (u, w') → active_payments (handler w') !! pid = None.
Proof. intros [_ ->]%handler_update. apply lookup_delete_eq. Qed.

Lemma register_payment_inv pid (w : W) r w' :
  register_payment pid w = (Ret r, w') →
  (is_Some (active_payments (handler w) !! pid) ∧ w' = w ∧ r = Err (AlreadyProcessing pid)) ∨
  (active_payments (handler w) !! pid = None ∧ r = Ok tt ∧
   active_payments (handler w') !! pid = Some {| state := InvoiceRequestCreated; invoice := None |}).
Proof.
  unfold register_payment. intros Hrun. apply bind_inv_Ret in Hrun as (h & w1 & Hh & Hrun).
  unfold get_world in Hh. simplify_eq. destruct (_ !! pid) eqn:Hl; run_inv.
  { left. naive_solver. }
  right. split_and!; [done|done|]. match goal with H : update_handler _ _ = _ |- _ =>
    apply handler_update in H as [_ ->] end. apply lookup_insert_eq.
Qed.

Lemma inspect_err_inv {A E} act (c : M W (result A E)) w r w' :
  inspect_err act c w = (Ret r, w') →
  (∃ a, r = Ok a ∧ c w = (Ret (Ok a), w')) ∨
  (∃ e w1 u, r = Err e ∧ c w = (Ret (Err e), w1) ∧ act w1 = (Ret u, w')).
Proof.
  unfold inspect_err. intros (r1 & w1 & Hc & Hrun)%bind_inv_Ret. destruct r1; run_inv; [left|right];
    eauto 10.
Qed.

Lemma poll_invoice_inv pid (w : W) o w' :
  poll_invoice pid w = (Ret o, w') →
  w' = w ∧ o = active_payments (handler w) !! pid ≫= invoice.
Proof. unfold poll_invoice, get_world. naive_solver. Qed.

Lemma poll_invoice_run pid (w : W) :
  poll_invoice pid w = (Ret (active_payments (handler w) !! pid ≫= invoice), w).
Proof. reflexivity. Qed.

(** The invoice the loop returns was in the table when it returned. *)
Lemma wait_for_invoice_inv `{!Timer W} fuel deadline pid (w : W) inv w' :
  wait_for_invoice fuel deadline pid w = (Ret (Some inv), w') →
  active_payments (handler w') !! pid ≫= invoice = Some inv.
Proof.
  revert w. induction fuel as [|fuel IH]; intros w Hrun; cbn [wait_for_invoice] in Hrun; [done|].
  apply bind_inv_Ret in Hrun as (o & w1 & [-> Ho]%poll_invoice_inv & Hrun).
  destruct o; [by run_inv|]. apply bind_inv_Ret in Hrun as (b & w2 & _ & Hrun).
  destruct b; run_inv; eauto.
Qed.
End operations.

(** ** Fetching and paying an invoice *)

Section get_and_pay.
Context `{Secp} `{!Ldk} {W : Type} `{!HasHandler W}.
Context `{!PeerConnector W, !LdkEntropy W, !OfferCreator W, !ChanInfo W, !Timer W, !InvoicePayer W}.

(** How a run of [get_invoice] ends. *)
Definition get_invoice_outcome (cfg : PayOfferParams) (w : W)
    (r : result (Bolt12Invoice * Z * PaymentId) OfferError) (w' : W) : Prop :=
  (∃ e, r = Err e ∧
     create_invoice_request (cfg_offer cfg) (cfg_network cfg) (expanded_key (handler w))
       (cfg_amount cfg) (cfg_payer_note cfg) w = (Ret (Err e), w')) ∨
  ∃ request pid amount ctx w1,
    create_invoice_request (cfg_offer cfg) (cfg_network cfg) (expanded_key (handler w))
      (cfg_amount cfg) (cfg_payer_note cfg) w = (Ret (Ok (request, pid, amount, ctx)), w1) ∧
    ((is_Some (active_payments (handler w1) !! pid) ∧ w' = w1 ∧ r = Err (AlreadyProcessing pid)) ∨
     (active_payments (handler w1) !! pid = None ∧
      ((∃ e, r = Err e ∧ active_payments (handler w') !! pid = None) ∨
       (∃ inv w2, r = Ok (inv, amount, pid) ∧
          validate_amount (offer_amount (cfg_offer cfg)) (cfg_amount cfg) = Ok amount ∧
          active_payments (handler w2) !! pid ≫= invoice = Some inv ∧
          active_payments (handler w') !! pid =
            Some {| state := InvoiceReceived; invoice := Some inv |})))).

Lemma get_invoice_inv cfg (w : W) r w' :
  get_invoice cfg w = (Ret r, w') → get_invoice_outcome cfg w r w'.
Proof.
  unfold get_invoice. generalize wait_fuel as fuel. intros fuel Hrun. unfold get_invoice_outcome.
  apply bind_inv_Ret in Hrun as (h & w0 & Hh & Hrun). unfold get_world in Hh. simplify_eq.
  apply try_bind_inv in Hrun as [([[[request pid] amount] ctx] & w1 & Hreq & Hrun)|(e & He & ->)];
    [right|by left; eauto].
  exists request, pid, amount, ctx, w1. split; [done|].
  apply try_bind_inv in Hrun as [([] & w2 & Hreg & Hrun)|(e & Hreg & ->)];
    apply register_payment_inv in Hreg as [(?&?&?)|(Hn&?&_)]; simplify_eq/=; [right|by left].
  split; [done|].
  apply try_bind_inv in Hrun as [(msg & w3 & Hsend & Hrun)|(e & Hsend & ->)]; [|left].
  2:{ exists e. split; [done|]. apply inspect_err_inv in Hsend as [(?&?&?)|(?&?&?&?&?&Hact)];
      simplify_eq. by apply remove_active_payment_gone in Hact. }
  apply bind_inv_Ret in Hrun as (u & w4 & _ & Hrun). cbv zeta in Hrun.
  apply bind_inv_Ret in Hrun as (start & w4' & _ & Hrun).
  apply bind_inv_Ret in Hrun as (o & w5 & Hwait & Hrun). destruct o as [inv|].
  - right. exists inv, w5. apply wait_for_invoice_inv in Hwait as Hinv.
    apply bind_inv_Ret in Hrun as (u' & w6 & [_ Hset]%handler_update & Hrun). run_inv.
    split_and!; [done| |done|].
    + unfold create_invoice_request in Hreq. by run_inv.
    + rewrite Hset. cbn. rewrite lookup_alter_eq.
      destruct (active_payments (handler w5) !! pid) as [info|]; simplify_eq/=. by rewrite Hinv.
  - left. apply bind_inv_Ret in Hrun as (u' & w6 & Hrem & Hrun). run_inv.
    eexists. split; [done|]. by apply remove_active_payment_gone in Hrem.
Qed.

Lemma get_invoice_ok cfg (w : W) inv amount pid w' :
  get_invoice cfg w = (Ret (Ok (inv, amount, pid)), w') →
  validate_amount (offer_amount (cfg_offer cfg)) (cfg_amount cfg) = Ok amount ∧
  active_payments (handler w') !! pid = Some {| state := InvoiceReceived; invoice := Some inv |}.
Proof. intros Hrun%get_invoice_inv. unfold get_invoice_outcome in Hrun. naive_solver. Qed.

(** C5: [get_invoice] keeps its promise about the table.  It fails before it
    registers a payment, or because the id is already being processed (the
    entry of the other payment is then left alone), and after any later failure
    the id is not in the table; when it succeeds, the invoice it returns was
    stored in the table under its id, and the amount is the validated one. *)
Theorem get_invoice_outcomes cfg (w : W) r w' :
  get_invoice cfg w = (Ret r, w') → get_invoice_outcome cfg w r w'.
Proof. apply get_invoice_inv. Qed.

Section attempts.
Context (amount : Z) (hash : PaymentHash) (pid : PaymentId) (fee_limit : option FeeLimit).

(** The introduction node of a path is named, or found through its channel. *)
Definition introduced (path : BlindedPaymentPath) (w w' : W) : Prop :=
  match payment_path_introduction_node path with
  | NodeId _ => w' = w
  | DirectedShortChannelId direction scid =>
      ∃ s, get_node_id_from_scid scid direction w = (Ret (Ok s), w')
  end.

(** The channel that names the introduction node is not found. *)
Definition not_introduced (path : BlindedPaymentPath) (e : OfferError) (w w' : W) : Prop :=
  ∃ direction scid, payment_path_introduction_node path = DirectedShortChannelId direction scid ∧
    get_node_id_from_scid scid direction w = (Ret (Err e), w').

(** [attempted paths errors w w']: a run that tries all of the paths in order,
    each from the world the one before it left, and none settles: the payment
    over it cannot be sent, or is sent and tracked to a failure. *)
Inductive attempted : list BlindedPaymentPath → list OfferError → W → W → Prop :=
| attempted_none w : attempted [] [] w w
| attempted_unsent path paths e errors w w1 w2 w' :
    introduced path w w1 →
    send_payment (payment_params amount hash pid fee_limit path) w1 = (Ret (Err e), w2) →
    attempted paths errors w2 w' → attempted (path :: paths) (e :: errors) w w'
| attempted_unsettled path paths e errors w w1 w2 w3 w4 w' :
    introduced path w w1 →
    send_payment (payment_params amount hash pid fee_limit path) w1 = (Ret (Ok tt), w2) →
    set_payment_state pid PaymentDispatched w2 = (Ret tt, w3) →
    track_payment hash w3 = (Ret (Err e), w4) →
    attempted paths errors w4 w' → attempted (path :: paths) (e :: errors) w w'.

(** A run over one path that settles with a payment. *)
Definition settled (path : BlindedPaymentPath) (payment : Payment) (w w' : W) : Prop :=
  ∃ w1 w2 w3, introduced path w w1 ∧
    send_payment (payment_params amount hash pid fee_limit path) w1 = (Ret (Ok tt), w2) ∧
    set_payment_state pid PaymentDispatched w2 = (Ret tt, w3) ∧
    track_payment hash w3 = (Ret (Ok payment), w').

(** How a run over [paths] ends: a path settles after those before it were
    tried, or all were tried, or a channel is not found.  In the first two cases
    the last thing done is to remove the payment. *)
Definition pay_outcome (paths : list BlindedPaymentPath) (w : W) (r : result Payment OfferError)
    (w' : W) : Prop :=
  match r with
  | Ok payment =>
      ∃ failed errors path rest w1 w2, paths = failed ++ path :: rest ∧
        attempted failed errors w w1 ∧ settled path payment w1 w2 ∧
        remove_active_payment pid w2 = (Ret tt, w')
  | Err e =>
      (∃ errors w1, attempted paths errors w w1 ∧ e = default PaymentFailure (last errors) ∧
         remove_active_payment pid w1 = (Ret tt, w')) ∨
      (∃ failed errors path rest w1, paths = failed ++ path :: rest ∧
         attempted failed errors w w1 ∧ not_introduced path e w1 w')
  end.

(** The loop over the paths once the first of them is introduced. *)
Lemma pay_paths_introduced path paths last_error (w w1 : W) :
  introduced path w w1 →
  pay_paths amount hash pid fee_limit (path :: paths) last_error w =
  bind (send_payment (payment_params amount hash pid fee_limit path)) (λ r,
    match r with
    | Err e => pay_paths amount hash pid fee_limit paths (Some e)
    | Ok _ =>
        let* _ := set_payment_state pid PaymentDispatched in
        let* r := track_payment hash in
        match r with
        | Ok payment => let* _ := remove_active_payment pid in ret (Ok payment)
        | Err e => pay_paths amount hash pid fee_limit paths (Some e)
        end
    end) w1.
Proof.
  unfold introduced. intros Hi. cbn [pay_paths]. cbv zeta. cbn [payment_params sp_path].
  destruct (payment_path_introduction_node path) as [pk|dir scid]; [by subst|].
  destruct Hi as [s Hs]. unfold try_bind, bind. by rewrite Hs.
Qed.

(** The error to report after these and an earlier one. *)
Definition latest (errors : list OfferError) (last_error : option OfferError) : option OfferError :=
  match last errors with Some e => Some e | None => last_error end.

Lemma latest_cons e errors le : latest (e :: errors) le = latest errors (Some e).
Proof. unfold latest. rewrite last_cons. by destruct (last errors). Qed.

(** Paths that were tried are left behind. *)
Lemma pay_paths_attempted failed errors paths last_error (w w1 : W) :
  attempted failed errors w w1 →
  pay_paths amount hash pid fee_limit (failed ++ paths) last_error w =
  pay_paths amount hash pid fee_limit paths (latest errors last_error) w1.
Proof.
  intros Ha. revert last_error.
  induction Ha as [w|p ps e es w wi wa w1 Hi Hsend _ IH
                  |p ps e es w wi wa wb wc w1 Hi Hsend Hset Htrack _ IH];
    intros last_error; [done|rewrite latest_cons; cbn [app]..].
  - by rewrite (pay_paths_introduced _ _ _ _ _ Hi), (bind_Ret _ _ _ _ _ Hsend).
  - by rewrite (pay_paths_introduced _ _ _ _ _ Hi), (bind_Ret _ _ _ _ _ Hsend),
      (bind_Ret _ _ _ _ _ Hset), (bind_Ret _ _ _ _ _ Htrack).
Qed.

(** What a run over one more path does, and what that makes of the rest. *)
Lemma pay_paths_cases path paths last_error (w : W) r w' :
  pay_paths amount hash pid fee_limit (path :: paths) last_error w = (Ret r, w') →
  (∃ e, r = Err e ∧ not_introduced path e w w') ∨
  (∃ payment w1, r = Ok payment ∧ settled path payment w w1 ∧
     remove_active_payment pid w1 = (Ret tt, w')) ∨
  (∃ e w1, attempted [path] [e] w w1 ∧
     pay_paths amount hash pid fee_limit paths (Some e) w1 = (Ret r, w')).
Proof.
  intros Hrun. cbn [pay_paths] in Hrun. cbv zeta in Hrun.
  apply try_bind_inv in Hrun as [(nid & w1 & Hnode & Hrun)|(e & Hnode & ->)].
  2:{ left. exists e. split; [done|]. cbn in Hnode.
      destruct (payment_path_introduction_node path) as [|dir scid] eqn:Hi; run_inv.
      by exists dir, scid. }
  assert (introduced path w w1) as Hi.
  { unfold introduced. cbn in Hnode.
    destruct (payment_path_introduction_node path) as [|dir scid]; run_inv; eauto. }
  clear Hnode. right. apply bind_inv_Ret in Hrun as (r1 & w2 & Hsend & Hrun).
  destruct r1 as [[]|e]; [|right; eauto using attempted].
  apply bind_inv_Ret in Hrun as ([] & w3 & Hset & Hrun).
  apply bind_inv_Ret in Hrun as (r2 & w4 & Htrack & Hrun).
  destruct r2 as [payment|e]; [left|right; eauto 6 using attempted].
  apply bind_inv_Ret in Hrun as ([] & w5 & Hrem & Hrun). run_inv.
  exists payment, w4. split_and!; [done| |done]. by exists w1, w2, w3.
Qed.

Lemma attempted_cons path paths e errors (w w1 w' : W) :
  attempted [path] [e] w w1 → attempted paths errors w1 w' →
  attempted (path :: paths) (e :: errors) w w'.
Proof.
  intros Ha Hb. inversion Ha as [|? ? ? ? ? ? ? ? ? ? Hn|? ? ? ? ? ? ? ? ? ? ? ? ? ? Hn]; subst;
    inversion Hn; subst; eauto using attempted.
Qed.

Lemma pay_paths_outcome paths last_error (w : W) r w' :
  pay_paths amount hash pid fee_limit paths last_error w = (Ret r, w') →
  (r = Err (default PaymentFailure last_error) ∧ paths = [] ∧
   remove_active_payment pid w = (Ret tt, w')) ∨
  (paths ≠ [] ∧ pay_outcome paths w r w').
Proof.
  revert last_error w. induction paths as [|path paths IH]; intros le w Hrun.
  { cbn [pay_paths] in Hrun. apply bind_inv_Ret in Hrun as ([] & w1 & Hrem & Hrun). run_inv.
    by left. }
  right. split; [done|].
  apply pay_paths_cases in Hrun
    as [(e & -> & Hn)|[(payment & w1 & -> & Hs & Hrem)|(e & w1 & Ha & Hrun)]].
  - right. exists [], [], path, paths, w. eauto using attempted.
  - exists [], [], path, paths, w, w1. eauto using attempted.
  - apply IH in Hrun as [(-> & -> & Hrem)|[Hne Hout]]; [by left; exists [e], w1|].
    destruct r as [payment|e'].
    + destruct Hout as (failed & errors & p & rest & wa & wb & -> & Hf & Hs & Hrem).
      exists (path :: failed), (e :: errors), p, rest, wa, wb. eauto using attempted_cons.
    + destruct Hout as [(errors & wa & Hall & -> & Hrem)|(failed & errors & p & rest & wa & -> & Hf & Hn)].
      * left. exists (e :: errors), wa. split_and!; [by eapply attempted_cons| |done].
        destruct errors as [|e' errors]; [by inversion Hall; subst|].
        rewrite !last_cons. by destruct (last errors).
      * right. exists (path :: failed), (e :: errors), p, rest, wa. eauto using attempted_cons.
Qed.

(** Conversely, such a run is what the loop does. *)
Lemma outcome_pay_paths paths (w : W) r w' :
  pay_outcome paths w r w' →
  pay_paths amount hash pid fee_limit paths None w = (Ret r, w').
Proof.
  destruct r as [payment|e]; cbn [pay_outcome].
  - intros (failed & errors & path & rest & w1 & w2 & -> & Ha & (wi & wa & wb & Hi & Hsend & Hset & Htrack) & Hrem).
    by rewrite (pay_paths_attempted _ _ _ _ _ _ Ha), (pay_paths_introduced _ _ _ _ _ Hi),
      (bind_Ret _ _ _ _ _ Hsend), (bind_Ret _ _ _ _ _ Hset), (bind_Ret _ _ _ _ _ Htrack),
      (bind_Ret _ _ _ _ _ Hrem).
  - intros [(errors & w1 & Ha & -> & Hrem)|(failed & errors & path & rest & w1 & -> & Ha & dir & scid & Hi & Hs)].
    + rewrite <- (app_nil_r paths), (pay_paths_attempted _ _ _ _ _ _ Ha). cbn [pay_paths].
      rewrite (bind_Ret _ _ _ _ _ Hrem). unfold latest. by destruct (last errors).
    + rewrite (pay_paths_attempted _ _ _ _ _ _ Ha). cbn [pay_paths]. cbv zeta.
      cbn [payment_params sp_path]. rewrite Hi. unfold try_bind, bind. by rewrite Hs.
Qed.
End attempts.


(** When the introduction node of the first path is named by a channel that
    LND does not know, [pay_invoice] fails without removing the payment: the
    entry stays in the table, against the reminder in its documentation. *)
Theorem pay_invoice_scid_failure_leaks amount inv pid fee_limit path rest dir scid st info (w w1 : W) :
  invoice_payment_paths inv = path :: rest →
  payment_path_introduction_node path = DirectedShortChannelId dir scid →
  get_chan_info scid w = (Ret (Err st), w1) → handler w1 = handler w →
  active_payments (handler w) !! pid = Some info →
  pay_invoice amount inv pid fee_limit w = (Ret (Err (GetChannelInfo (status_message st))), w1) ∧
  active_payments (handler w1) !! pid = Some info.
Proof.
  intros Hp Hi Hc Hh Hl. split; [|by rewrite Hh]. unfold pay_invoice. rewrite Hp.
  cbn [pay_paths]. cbn. rewrite Hi.
  unfold get_node_id_from_scid, map_err, try_bind, bind, ret. by rewrite Hc.
Qed.
End get_and_pay.

(** ** Waiting for the invoice *)

(** What is relied on of Tokio's timers: the clock goes on while a sleep lasts,
    a sleep inside a [timeout] lasts its time or until the deadline, one that
    starts after the deadline is ended by it, and it always ends. *)
Class TimerLaws {W} `{!Timer W} : Type := {
  time : W → Z;
  instant_now_reads w t w' : instant_now w = (Ret t, w') → t = time w';
  sleep_lasts deadline d w w' :
    timeout_sleep deadline d w = (Ret false, w') → time w < deadline ∧ time w + d ≤ time w';
  deadline_ends_sleep deadline d w w' :
    timeout_sleep deadline d w = (Ret true, w') → deadline ≤ time w';
  sleep_ends deadline d w : ∃ b w', timeout_sleep deadline d w = (Ret b, w');
}.

Section waiting.
Context `{Secp} `{!Ldk} {W : Type} `{!HasHandler W, !Timer W}.

(** [idle pid deadline n w w']: [n] sleeps of two seconds, before each of which
    the table has no invoice for the payment. *)
Inductive idle (pid : PaymentId) (deadline : Z) : nat → W → W → Prop :=
| idle_done w : idle pid deadline 0 w w
| idle_wait n w w1 w' : active_payments (handler w) !! pid ≫= invoice = None →
    timeout_sleep deadline 2000 w = (Ret false, w1) → idle pid deadline n w1 w' →
    idle pid deadline (S n) w w'.

Lemma idle_snoc pid deadline n (w w1 w' : W) :
  idle pid deadline n w w1 → active_payments (handler w1) !! pid ≫= invoice = None →
  timeout_sleep deadline 2000 w1 = (Ret false, w') → idle pid deadline (S n) w w'.
Proof. induction 1; intros; eapply idle_wait; eauto using idle_done. Qed.

(** The loop after some idle rounds. *)
Lemma wait_idle pid deadline n fuel (w w' : W) :
  idle pid deadline n w w' →
  wait_for_invoice (n + fuel) deadline pid w = wait_for_invoice fuel deadline pid w'.
Proof.
  induction 1 as [w|n w w1 w' Hn Hs _ IH]; [done|]. cbn [Nat.add wait_for_invoice].
  by rewrite (bind_Ret _ _ _ _ _ (poll_invoice_run pid w)), Hn, (bind_Ret _ _ _ _ _ Hs).
Qed.

Lemma wait_finds pid deadline fuel (w : W) inv :
  active_payments (handler w) !! pid ≫= invoice = Some inv →
  wait_for_invoice (S fuel) deadline pid w = (Ret (Some inv), w).
Proof.
  intros Hinv. cbn [wait_for_invoice].
  by rewrite (bind_Ret _ _ _ _ _ (poll_invoice_run pid w)), Hinv.
Qed.

Lemma wait_expires pid deadline fuel (w w' : W) :
  active_payments (handler w) !! pid ≫= invoice = None →
  timeout_sleep deadline 2000 w = (Ret true, w') →
  wait_for_invoice (S fuel) deadline pid w = (Ret None, w').
Proof.
  intros Hn Hs. cbn [wait_for_invoice].
  by rewrite (bind_Ret _ _ _ _ _ (poll_invoice_run pid w)), Hn, (bind_Ret _ _ _ _ _ Hs).
Qed.

Context `{!TimerLaws (W := W)}.

(** Sleeps take their time, and the last of them started before the deadline. *)
Lemma idle_time pid deadline n (w w' : W) :
  idle pid deadline n w w' →
  time w + 2000 * Z.of_nat n ≤ time w' ∧
  (n ≠ 0%nat → time w + 2000 * (Z.of_nat n - 1) < deadline).
Proof.
  induction 1 as [w|n w w1 w' _ [Hlt Hle]%sleep_lasts _ [IH1 IH2]]; [by split; [lia|]|].
  split; [lia|]. intros _. destruct n as [|n]; [lia|]. specialize (IH2 ltac:(lia)). lia.
Qed.

(** So there are few of them. *)
Lemma idle_rounds pid timeout n (w w' : W) :
  0 ≤ timeout → idle pid (time w + 1000 * timeout) n w w' → (n < wait_fuel timeout)%nat.
Proof.
  intros Ht Hidle. apply idle_time in Hidle as [_ Hn]. unfold wait_fuel.
  destruct n as [|n]; [lia|]. specialize (Hn ltac:(lia)).
  apply Nat2Z.inj_lt. rewrite !Nat2Z.inj_succ, Z2Nat.id by (apply Z.div_pos; lia).
  pose proof (Z.div_mod timeout 2 ltac:(lia)). pose proof (Z.mod_pos_bound timeout 2 ltac:(lia)). lia.
Qed.

(** How the wait ends, with the fuel it is given in [get_invoice]. *)
Lemma wait_ends pid timeout (w : W) :
  0 ≤ timeout → ∃ n wn, idle pid (time w + 1000 * timeout) n w wn ∧
    ((∃ inv, active_payments (handler wn) !! pid ≫= invoice = Some inv) ∨
     (active_payments (handler wn) !! pid ≫= invoice = None ∧
      ∃ w', timeout_sleep (time w + 1000 * timeout) 2000 wn = (Ret true, w'))).
Proof.
  intros Ht. set (deadline := time w + 1000 * timeout).
  cut (∀ k, (∃ n wn, idle pid deadline n w wn ∧
    ((∃ inv, active_payments (handler wn) !! pid ≫= invoice = Some inv) ∨
     (active_payments (handler wn) !! pid ≫= invoice = None ∧
      ∃ w', timeout_sleep deadline 2000 wn = (Ret true, w')))) ∨ ∃ wk, idle pid deadline k w wk).
  { intros Hcut. destruct (Hcut (wait_fuel timeout)) as [?|[wk Hk]]; [done|].
    apply idle_rounds in Hk; [lia|done]. }
  induction k as [|k [?|[wk Hk]]]; [right; eauto using idle|by left|].
  destruct (active_payments (handler wk) !! pid ≫= invoice) as [inv|] eqn:Hp; [left; eauto 6|].
  destruct (sleep_ends deadline 2000 wk) as ([|] & w' & Hs); [left; eauto 8|right].
  eauto using idle_snoc.
Qed.
End waiting.

Section waiting_ends.
Context `{Secp} `{!Ldk} {W : Type} `{!HasHandler W}.
Context `{!PeerConnector W, !LdkEntropy W, !OfferCreator W, !ChanInfo W, !Timer W}.

(** [requested cfg w pid amount ctx w']: [get_invoice] up to the wait: the
    request is made for a fresh id, which enters the table, goes out and is
    queued. *)
Definition requested (cfg : PayOfferParams) (w : W) (pid : PaymentId) (amount : Z)
    (ctx : OffersContext) (w' : W) : Prop :=
  ∃ request w1 w2 msg w3,
    create_invoice_request (cfg_offer cfg) (cfg_network cfg) (expanded_key (handler w))
      (cfg_amount cfg) (cfg_payer_note cfg) w = (Ret (Ok (request, pid, amount, ctx)), w1) ∧
    register_payment pid w1 = (Ret (Ok tt), w2) ∧
    send_invoice_request (cfg_destination cfg) request ctx w2 = (Ret (Ok msg), w3) ∧
    push_pending_message msg w3 = (Ret tt, w').

(** The timeout in force: that of the request, or else the handler's. *)
Definition timeout_of (cfg : PayOfferParams) (w : W) : Z :=
  default (response_invoice_timeout (handler w)) (cfg_response_invoice_timeout cfg).

(** [get_invoice] from the wait on. *)
Lemma get_invoice_requested cfg (w : W) pid amount ctx wq start ws :
  requested cfg w pid amount ctx wq → instant_now wq = (Ret start, ws) →
  get_invoice cfg w =
  bind (wait_for_invoice (wait_fuel (timeout_of cfg w)) (start + 1000 * timeout_of cfg w) pid)
    (λ r, match r with
          | Some invoice =>
              let* _ := set_payment_state pid InvoiceReceived in ret (Ok (invoice, amount, pid))
          | None =>
              let* _ := remove_active_payment pid in ret (Err (InvoiceTimeout (timeout_of cfg w)))
          end) ws.
Proof.
  intros (request & w1 & w2 & msg & w3 & Hreq & Hreg & Hsend & Hpush) Hnow.
  unfold get_invoice, get_world, try_bind. unfold bind at 1.
  rewrite (bind_Ret _ _ _ _ _ Hreq). cbn beta iota.
  rewrite (bind_Ret _ _ _ _ _ Hreg). cbn beta iota. unfold inspect_err.
  erewrite bind_Ret by (erewrite bind_Ret by exact Hsend; reflexivity). cbn beta iota.
  rewrite (bind_Ret _ _ _ _ _ Hpush). cbv zeta. by rewrite (bind_Ret _ _ _ _ _ Hnow).
Qed.

(** C21: once its request is out, [get_invoice] always ends.  It looks at the
    table right away and after every sleep of two seconds, and returns the
    invoice the first time one is there.  It gives up with [InvoiceTimeout] only
    when the timeout in force, counted from the start of the wait, has passed;
    the payment is then not in the table. *)
Theorem get_invoice_wait_ends `{!TimerLaws (W := W)} cfg (w : W) pid amount ctx wq start ws :
  requested cfg w pid amount ctx wq → instant_now wq = (Ret start, ws) →
  0 ≤ timeout_of cfg w →
  ∃ n wn r w', get_invoice cfg w = (Ret r, w') ∧
    idle pid (start + 1000 * timeout_of cfg w) n ws wn ∧
    ((∃ inv, active_payments (handler wn) !! pid ≫= invoice = Some inv ∧ r = Ok (inv, amount, pid)) ∨
     (active_payments (handler wn) !! pid ≫= invoice = None ∧
      r = Err (InvoiceTimeout (timeout_of cfg w)) ∧
      (∃ we, timeout_sleep (start + 1000 * timeout_of cfg w) 2000 wn = (Ret true, we) ∧
             start + 1000 * timeout_of cfg w ≤ time we) ∧
      active_payments (handler w') !! pid = None)).
Proof.
  intros Hreq Hnow Ht. rewrite (get_invoice_requested _ _ _ _ _ _ _ _ Hreq Hnow).
  apply instant_now_reads in Hnow as ->.
  destruct (wait_ends pid _ ws Ht) as (n & wn & Hidle & Hend). exists n, wn.
  apply idle_rounds in Hidle as Hlt; [|done].
  replace (wait_fuel (timeout_of cfg w)) with (n + S (wait_fuel (timeout_of cfg w) - S n))%nat by lia.
  destruct Hend as [[inv Hinv]|(Hn & we & Hs)].
  - eexists _, _. split; [|split; [exact Hidle|left; by exists inv]].
    erewrite bind_Ret by (rewrite (wait_idle _ _ _ _ _ _ Hidle); by apply wait_finds). reflexivity.
  - eexists _, (set_handler (with_payments (delete pid) (handler we)) we).
    split; [|split; [exact Hidle|right; split_and!; [done|reflexivity| |]]].
    + erewrite bind_Ret by (rewrite (wait_idle _ _ _ _ _ _ Hidle); by apply wait_expires). reflexivity.
    + exists we. eauto using deadline_ends_sleep.
    + rewrite handler_set. apply lookup_delete_eq.
Qed.
End waiting_ends.

(** ** Messages *)

Section messages.
Context `{Secp} `{!Ldk} {W : Type} `{!HasHandler W, !Bolt12InvoiceCreator W, !LdkBuild}.
Variable hash_from_str : string → result PaymentHash string.

(** C19: an invoice is taken in only when its payer data verifies for an id that
    is in the table without an invoice; it is then stored and nothing else in
    the table or the queue changes.  An invoice that does not verify changes
    nothing and is answered with an invoice error if it can be answered; one
    that comes outside the context of a payment is ignored. *)
Theorem invoice_message_behaviour inv ctx responder (w : W) :
  match ctx with
  | Some (CtxOutboundPayment pid0 nonce _) =>
      match verify_using_payer_data inv pid0 nonce (expanded_key (handler w)) with
      | Ok pid =>
          ∃ w', handle_message hash_from_str (MsgInvoice inv) ctx responder w = (Ret None, w') ∧
            pending_messages (handler w') = pending_messages (handler w) ∧
            active_payments (handler w') =
              match active_payments (handler w) !! pid with
              | Some {| invoice := None |} =>
                  <[pid := {| state := InvoiceReceived; invoice := Some inv |}]>
                    (active_payments (handler w))
              | _ => active_payments (handler w)
              end
      | Err _ =>
          handle_message hash_from_str (MsgInvoice inv) ctx responder w =
            (Ret ((λ r, (MsgInvoiceError (invoice_error_from_string "invoice verification failure"),
                         responder_respond r)) <$> responder), w)
      end
  | _ => handle_message hash_from_str (MsgInvoice inv) ctx responder w = (Ret None, w)
  end.
Proof.
  destruct ctx as [[n|pid0 nonce hm|]|]; [done| |done|done].
  destruct (verify_using_payer_data _ _ _ _) as [pid|[]] eqn:Hv; cbn [handle_message];
    unfold handle_invoice, get_world, bind; rewrite Hv.
  - eexists. split; [reflexivity|]. rewrite handler_set. split; [done|]. cbn. unfold store_invoice.
    by destruct (active_payments (handler w) !! pid) as [[st [|]]|].
  - by destruct responder.
Qed.

(** An invoice error ends the payment it names exactly when it carries a
    valid authentication code for it; any other one changes nothing.  It is
    never answered. *)
Theorem invoice_error_behaviour err ctx responder (w : W) :
  (∀ pid nonce hmac,
     ctx = Some (CtxOutboundPayment pid nonce (Some hmac)) →
     verify_for_offer_payment pid hmac nonce (expanded_key (handler w)) = Ok tt →
     ∃ w', handle_message hash_from_str (MsgInvoiceError err) ctx responder w = (Ret None, w') ∧
       handler w' = with_payments (delete pid) (handler w)) ∧
  ((∀ pid nonce hmac,
     ctx = Some (CtxOutboundPayment pid nonce (Some hmac)) →
     verify_for_offer_payment pid hmac nonce (expanded_key (handler w)) ≠ Ok tt) →
   handle_message hash_from_str (MsgInvoiceError err) ctx responder w = (Ret None, w)).
Proof.
  split.
  - intros pid nonce hmac -> Hv. cbn [handle_message]. unfold handle_invoice_error, get_world, bind.
    rewrite Hv. eexists. split; [reflexivity|]. apply handler_set.
  - intros Hn. destruct ctx as [[n|pid nonce [hmac|]|]|]; try done.
    cbn [handle_message]. unfold handle_invoice_error, get_world, bind.
    specialize (Hn _ _ _ eq_refl). by destruct (verify_for_offer_payment _ _ _ _) as [[]|].
Qed.

(** An invoice request worth answering: it can be answered, it came over a path
    of one of our offers and verifies for it, and there is a node to make the
    invoice. *)
Definition answerable (req : InvoiceRequest) (ctx : option OffersContext)
    (responder : option Responder) (h : OfferHandler) : bool :=
  is_some responder && has_client h &&
  match ctx with
  | Some (CtxInvoiceRequest nonce) =>
      is_ok (verify_using_recipient_data req nonce (expanded_key h))
  | _ => false
  end.

(** C20: no invoice is made for an invoice request that cannot be answered or
    does not verify: the node is not asked for anything and nothing changes.
    For one that verifies, the answer is an invoice queued for sending, built
    from the hash and the paths that the node gave, or an invoice error when
    the invoice cannot be signed, or none at all. *)
Theorem invoice_request_behaviour req ctx responder (w : W) :
  (answerable req ctx responder (handler w) = false →
     handle_message hash_from_str (MsgInvoiceRequest req) ctx responder w = (Ret None, w)) ∧
  (∀ out w', handle_message hash_from_str (MsgInvoiceRequest req) ctx responder w = (Ret out, w') →
     answerable req ctx responder (handler w) = true →
     ∃ nonce verified r, ctx = Some (CtxInvoiceRequest nonce) ∧ responder = Some r ∧
       verify_using_recipient_data req nonce (expanded_key (handler w)) = Ok verified ∧
       ((∃ e, create_invoice_info_from_request hash_from_str req w = (Ret (Err e), w') ∧ out = None) ∨
        ∃ info w1, create_invoice_info_from_request hash_from_str req w = (Ret (Ok info), w1) ∧
          match respond_using_derived_keys verified (info_payment_paths info)
                  (info_payment_hash info) with
          | Err _ => out = None ∧ w' = w1
          | Ok builder =>
              match invoice_build_and_sign builder with
              | Ok inv => out = None ∧ handler w' =
                  with_pending (pending_messages (handler w1) ++
                    [(MsgInvoice inv, IntoInstructions (responder_respond r))]) (handler w1)
              | Err e => w' = w1 ∧
                  out = Some (MsgInvoiceError (invoice_error_from_semantic e), responder_respond r)
              end
          end)).
Proof.
  cbn [handle_message]. unfold handle_invoice_request, answerable, get_world.
  split.
  - unfold bind at 1. destruct responder as [r|]; [|done]. destruct ctx as [[nonce|pid nonce hm|]|]; try done.
    cbn. destruct (verify_using_recipient_data _ _ _); [|done]. cbn. by destruct (has_client _).
  - intros out w' Hrun Hans. unfold bind at 1 in Hrun.
    destruct responder as [r|]; [|done]. destruct ctx as [[nonce|pid nonce hm|]|];
      try by rewrite andb_false_r in Hans.
    destruct (verify_using_recipient_data _ _ _) as [vreq|] eqn:Hv; [|by rewrite andb_false_r in Hans].
    exists nonce, vreq, r. split_and!; [done..|].
    destruct (has_client _); [|done]. cbn [negb] in Hrun.
    apply bind_inv_Ret in Hrun as (ri & w1 & Hinfo & Hrun). destruct ri as [info|e]; [right|left].
    2:{ run_inv. eauto. }
    exists info, w1. split; [done|].
    destruct (respond_using_derived_keys _ _ _) as [b|]; [|by run_inv].
    destruct (invoice_build_and_sign b) as [inv|e]; cbn [result_map_err] in Hrun; [|by run_inv].
    apply bind_inv_Ret in Hrun as (u & w2 & [_ Hu]%handler_update & Hrun). run_inv.
    split; [done|]. done.
Qed.
End messages.
