(* ===== verification/HandlerSteps.v ===== *)
(** * The offer handler under interleaving

    The handler is shared by the tasks of the gRPC server and the onion
    messenger.  A [block] is a piece of the handler's code that runs under one
    lock; [run_block] runs that code.  Whatever tasks there are, the handler
    evolves by some sequence of blocks, [run_blocks]; the invariants are about
    these sequences.

    The second half is about one operation while others run.  What is awaited
    between two of its blocks may do anything that a relation [R] allows
    ([HandlerRely]).  An operation then makes its own steps in a fixed order
    ([performs]); the steps are specified independently of the code by [hstep]. *)

From S2P Require Import Prelude Grpc Ldk OfferError Parse Lnd.
From S2P Require Import LndRequests LndRequestsFacts Handler HandlerFacts.
Open Scope Z_scope.

(** ** Blocks *)

Section blocks.
Context `{Secp} `{!Ldk}.

Abbreviation Message := (OffersMessage * MessageSendInstructions)%type.

Inductive block :=
| BRegister (payment_id : PaymentId)
| BRemove (payment_id : PaymentId)
| BState (payment_id : PaymentId) (st : PaymentState)
| BInvoice (inv : Bolt12Invoice) (context : option OffersContext) (responder : option Responder)
| BInvoiceError (payment_id : PaymentId) (nonce : Nonce) (hmac : Hmac)
| BPush (m : Message)
| BRelease.

(** Running a block: the messages it releases. *)
Definition run_block {W} `{!HasHandler W} (b : block) : M W (list Message) :=
  match b with
  | BRegister pid => let* _ := register_payment pid in ret []
  | BRemove pid => let* _ := remove_active_payment pid in ret []
  | BState pid st => let* _ := set_payment_state pid st in ret []
  | BInvoice inv context responder => let* _ := handle_invoice inv context responder in ret []
  | BInvoiceError pid nonce hmac => let* _ := handle_invoice_error pid nonce hmac in ret []
  | BPush m => let* _ := push_pending_message m in ret []
  | BRelease => release_pending_messages
  end.

(** The handler as a world of its own. *)
#[local] Instance handler_itself : HasHandler OfferHandler := {
  handler := id;
  set_handler h _ := h;
  handler_set _ _ := eq_refl;
}.

(** A sequence of blocks: the messages released and the handler after it. *)
Fixpoint run_all (bs : list block) (h : OfferHandler) : list Message * OfferHandler :=
  match bs with
  | [] => ([], h)
  | b :: bs =>
      let '(o, h1) := run_block b h in
      let '(ms, h2) := run_all bs h1 in
      (match o with Ret ms1 => ms1 | _ => [] end ++ ms, h2)
  end.
Definition run_blocks (bs : list block) (h : OfferHandler) : OfferHandler := (run_all bs h).2.

Lemma run_blocks_cons b bs h : run_blocks (b :: bs) h = run_blocks bs (run_block b h).2.
Proof.
  unfold run_blocks. cbn [run_all]. destruct (run_block b h) as [o h1]. cbn [snd].
  by destruct (run_all bs h1).
Qed.

Lemma run_blocks_app bs1 bs2 h : run_blocks (bs1 ++ bs2) h = run_blocks bs2 (run_blocks bs1 h).
Proof.
  revert h. induction bs1 as [|b bs1 IH]; intros h; [done|]. cbn [app].
  by rewrite !run_blocks_cons, IH.
Qed.

(** An invariant of every block is one of every sequence. *)
Lemma run_blocks_invariant (P : OfferHandler → Prop) bs h :
  (∀ b h, b ∈ bs → P h → P (run_block b h).2) → P h → P (run_blocks bs h).
Proof.
  revert h. induction bs as [|b bs IH]; intros h Hb Hp; [done|]. rewrite run_blocks_cons.
  apply IH; [|apply Hb]; [|set_solver|done]. intros. apply Hb; [set_solver|done].
Qed.

(** A block does the same in any world that contains the handler. *)
Lemma run_block_handler {W} `{!HasHandler W} b (w : W) o w' :
  run_block b w = (o, w') → run_block b (handler w) = (o, handler w').
Proof.
  destruct b as [pid|pid|pid st|inv ctx responder|pid nonce hmac|m|]; cbn [run_block];
    unfold register_payment, remove_active_payment, set_payment_state, handle_invoice,
      handle_invoice_error, remove_active_payment, push_pending_message, release_pending_messages,
      update_handler, modify, get_world, bind, ret; cbn; repeat case_match;
    intros; simplify_eq; by rewrite ?handler_set.
Qed.

(** ** Invoices in the table *)

(** The payer data of an invoice verifies for the id. *)
Definition verified (key : ExpandedKey) (pid : PaymentId) (inv : Bolt12Invoice) : Prop :=
  ∃ pid0 nonce, verify_using_payer_data inv pid0 nonce key = Ok pid.

(** The invoice the table holds for an id. *)
Definition stored (h : OfferHandler) (pid : PaymentId) : option Bolt12Invoice :=
  active_payments h !! pid ≫= invoice.

Lemma run_block_key b h : expanded_key (run_block b h).2 = expanded_key h.
Proof.
  destruct b as [pid|pid|pid st|inv ctx responder|pid nonce hmac|m|]; cbn [run_block];
    unfold register_payment, handle_invoice, handle_invoice_error, remove_active_payment,
      update_handler, modify, get_world, bind, ret; cbn; by repeat case_match; simplify_eq/=.
Qed.

Lemma run_blocks_key bs h : expanded_key (run_blocks bs h) = expanded_key h.
Proof.
  apply (run_blocks_invariant (λ h', expanded_key h' = expanded_key h)); [|done].
  intros b h' _ <-. apply run_block_key.
Qed.

Lemma stored_store h pid inv q :
  stored (with_payments (store_invoice pid inv) h) q =
    if decide (q = pid ∧ is_Some (active_payments h !! pid) ∧ stored h pid = None)
    then Some inv else stored h q.
Proof.
  unfold stored, store_invoice. cbn. destruct (active_payments h !! pid) as [info|] eqn:Hl; cbn.
  2:{ rewrite decide_False; [done|]. by intros (_ & [? ?] & _). }
  destruct (invoice info) as [old|] eqn:Hi.
  { rewrite decide_False; [done|]. naive_solver. }
  destruct (decide (q = pid)) as [->|Hne].
  - rewrite lookup_insert_eq, decide_True by eauto. done.
  - by rewrite lookup_insert_ne, decide_False by naive_solver.
Qed.

(** The invoices of the table after each block. *)
Lemma stored_after b h q :
  stored (run_block b h).2 q =
    match b with
    | BRemove pid => if decide (q = pid) then None else stored h q
    | BInvoice inv (Some (CtxOutboundPayment pid0 nonce _)) _ =>
        match verify_using_payer_data inv pid0 nonce (expanded_key h) with
        | Ok pid => if decide (q = pid ∧ is_Some (active_payments h !! pid) ∧ stored h pid = None)
                    then Some inv else stored h q
        | Err _ => stored h q
        end
    | BInvoiceError pid nonce hmac =>
        match verify_for_offer_payment pid hmac nonce (expanded_key h) with
        | Ok _ => if decide (q = pid) then None else stored h q
        | Err _ => stored h q
        end
    | _ => stored h q
    end.
Proof.
  assert (∀ pid, stored (with_payments (delete pid) h) q =
                 if decide (q = pid) then None else stored h q) as Hdel.
  { intros pid. unfold stored; cbn. case_decide; subst; by simplify_map_eq. }
  destruct b as [pid|pid|pid st|inv ctx responder|pid nonce hmac|m|]; cbn [run_block];
    unfold register_payment, handle_invoice, handle_invoice_error, remove_active_payment,
      set_payment_state, update_handler, modify, get_world, bind, ret; cbn; try done.
  - destruct (active_payments h !! pid) eqn:Hl; cbn; [done|]. unfold stored; cbn.
    destruct (decide (q = pid)) as [->|]; [by rewrite lookup_insert_eq, Hl|by rewrite lookup_insert_ne].
  - unfold stored; cbn. destruct (decide (q = pid)) as [->|].
    + rewrite lookup_alter_eq. by destruct (_ !! pid).
    + by rewrite lookup_alter_ne.
  - destruct ctx as [[]|]; cbn; try done.
    destruct (verify_using_payer_data _ _ _ _); cbn; [apply stored_store|done].
  - destruct (verify_for_offer_payment _ _ _ _); cbn; [apply Hdel|done].
Qed.

Definition table_verified (h : OfferHandler) : Prop :=
  ∀ pid inv, stored h pid = Some inv → verified (expanded_key h) pid inv.

Lemma run_block_table_verified b h : table_verified h → table_verified (run_block b h).2.
Proof.
  intros Hv q inv. rewrite run_block_key, stored_after.
  destruct b as [pid|pid|pid st|inv' [[n|pid nonce hm|]|] responder|pid nonce hmac|m|]; auto.
  - by case_decide; auto.
  - destruct (verify_using_payer_data _ _ _ _) as [pid'|] eqn:Hv'; [|by auto].
    case_decide as Hd; [|by auto]. destruct Hd as (-> & _). intros [= ->]. by exists pid, nonce.
  - destruct (verify_for_offer_payment _ _ _ _); [by case_decide; auto|by auto].
Qed.

Lemma run_blocks_table_verified bs h : table_verified h → table_verified (run_blocks bs h).
Proof. apply run_blocks_invariant. intros. by apply run_block_table_verified. Qed.

Lemma empty_table_verified h : active_payments h = ∅ → table_verified h.
Proof. intros He pid inv. unfold stored. by rewrite He, lookup_empty. Qed.

(** From an empty table on, every invoice that the table holds has been verified
    for the payment id it is held under, with the handler's own key. *)
Lemma from_empty_verified h bs pid inv :
  active_payments h = ∅ → stored (run_blocks bs h) pid = Some inv →
  verified (expanded_key h) pid inv.
Proof.
  intros Hempty Hst. rewrite <- (run_blocks_key bs h).
  by eapply run_blocks_table_verified; [apply empty_table_verified|].
Qed.

(** C4: the invoice of a payment is write-once.  Whatever blocks of the
    handler's code run, in any order, the invoice that is stored for a payment
    stays the same until a block removes the payment (its removal, or an invoice
    error that came back for it): no registration, change of state, further
    invoice or message replaces or drops it. *)
Theorem stored_invoice_is_write_once bs h pid inv :
  stored h pid = Some inv → BRemove pid ∉ bs →
  (∀ nonce hmac, BInvoiceError pid nonce hmac ∉ bs) →
  stored (run_blocks bs h) pid = Some inv.
Proof.
  intros Hst Hrem Herr.
  apply (run_blocks_invariant (λ h, stored h pid = Some inv)); [|done]. intros b h' Hb Hst'.
  rewrite stored_after.
  destruct b as [q|q|q st|inv' [[]|] responder|q nonce hmac|m|];
    repeat case_match; simplify_eq/=; try done; try naive_solver.
Qed.

(** ** The queue *)

(** The messages that blocks push. *)
Definition pushed (bs : list block) : list Message :=
  bs ≫= λ b, match b with BPush m => [m] | _ => [] end.

Lemma pushed_cons b bs : pushed (b :: bs) = pushed [b] ++ pushed bs.
Proof. unfold pushed. cbn. by rewrite app_nil_r. Qed.

(** What one block does to the queue. *)
Lemma run_block_queue b h :
  ∃ ms, (run_block b h).1 = Ret ms ∧
    pending_messages h ++ pushed [b] = ms ++ pending_messages (run_block b h).2.
Proof.
  destruct b as [pid|pid|pid st|inv ctx responder|pid nonce hmac|m|]; cbn [run_block];
    unfold pushed, register_payment, handle_invoice, handle_invoice_error, remove_active_payment,
      update_handler, modify, get_world, bind, ret; cbn; repeat case_match; simplify_eq/=;
    eexists; (split; [reflexivity|]); cbn; by rewrite ?app_nil_r.
Qed.

(** C22: the queue of pending messages neither loses, duplicates nor reorders.
    Whatever blocks of the handler's code run, in any order: what was queued at
    first and what they push are, in this order, what the calls of
    [release_pending_messages] among them give out, followed by what is still
    queued. *)
Theorem pending_messages_fifo bs h :
  pending_messages h ++ pushed bs = (run_all bs h).1 ++ pending_messages (run_all bs h).2.
Proof.
  revert h. induction bs as [|b bs IH]; intros h; [by rewrite app_nil_r|].
  destruct (run_block_queue b h) as (ms & Ho & Hq). cbn [run_all].
  destruct (run_block b h) as [o h1]. specialize (IH h1). destruct (run_all bs h1) as [ms2 h2].
  cbn [fst snd] in *. subst o. rewrite pushed_cons, app_assoc, Hq, <- !app_assoc. by f_equal.
Qed.
End blocks.

(** ** Steps *)

Section steps.
Context `{Secp} `{!Ldk}.

Inductive hlabel :=
| LRegister (payment_id : PaymentId)
| LRefuse (payment_id : PaymentId)
| LRemove (payment_id : PaymentId)
| LState (payment_id : PaymentId) (st : PaymentState)
| LPush (m : OffersMessage * MessageSendInstructions)
| LRelease (ms : list (OffersMessage * MessageSendInstructions)).

(** The configuration of a handler never changes. *)
Definition same_config (h h' : OfferHandler) : Prop :=
  expanded_key h' = expanded_key h ∧ response_invoice_timeout h' = response_invoice_timeout h ∧
  has_client h' = has_client h.

(** Only the entry of one payment differs. *)
Definition same_but (pid : PaymentId) (h h' : OfferHandler) : Prop :=
  same_config h h' ∧ pending_messages h' = pending_messages h ∧
  ∀ q, q ≠ pid → active_payments h' !! q = active_payments h !! q.

(** What each step promises: a new payment is registered only if it is not there
    and refused otherwise; the state of an entry changes and its invoice does
    not; messages are queued at the end and released all at once. *)
Definition hstep (h : OfferHandler) (l : hlabel) (h' : OfferHandler) : Prop :=
  match l with
  | LRegister pid =>
      active_payments h !! pid = None ∧ same_but pid h h' ∧
      active_payments h' !! pid = Some {| state := InvoiceRequestCreated; invoice := None |}
  | LRefuse pid => is_Some (active_payments h !! pid) ∧ h' = h
  | LRemove pid => active_payments h' !! pid = None ∧ same_but pid h h'
  | LState pid st =>
      same_but pid h h' ∧
      match active_payments h !! pid with
      | Some info => active_payments h' !! pid = Some {| state := st; invoice := invoice info |}
      | None => active_payments h' !! pid = None
      end
  | LPush m =>
      same_config h h' ∧ active_payments h' = active_payments h ∧
      pending_messages h' = pending_messages h ++ [m]
  | LRelease ms =>
      same_config h h' ∧ active_payments h' = active_payments h ∧
      ms = pending_messages h ∧ pending_messages h' = []
  end.
End steps.

Section step_facts.
Context `{Secp} `{!Ldk} {W : Type} `{!HasHandler W}.
Implicit Types (w : W).

Lemma same_but_with pid f h :
  (∀ m q, q ≠ pid → f m !! q = m !! q) → same_but pid h (with_payments f h).
Proof. intros Hf. split_and!; [done|done|]. intros q Hq. by apply Hf. Qed.

Lemma register_step pid w r w' :
  register_payment pid w = (Ret r, w') →
  hstep (handler w) (match r with Ok _ => LRegister pid | Err _ => LRefuse pid end) (handler w') ∧
  match r with Ok _ => True | Err e => e = AlreadyProcessing pid end.
Proof.
  unfold register_payment, update_handler, modify, get_world, bind, ret.
  destruct (active_payments (handler w) !! pid) eqn:Hl; intros [= <- <-]; cbn; [by eauto|].
  rewrite handler_set. split; [|done]. split_and!; [done| |by apply lookup_insert_eq].
  apply same_but_with. intros m q Hq. by rewrite lookup_insert_ne.
Qed.

Lemma remove_step pid w o w' :
  remove_active_payment pid w = (o, w') → hstep (handler w) (LRemove pid) (handler w').
Proof.
  intros [_ ->]%handler_update. split; [by apply lookup_delete_eq|].
  apply same_but_with. intros m q Hq. by rewrite lookup_delete_ne.
Qed.

Lemma state_step pid st w o w' :
  set_payment_state pid st w = (o, w') → hstep (handler w) (LState pid st) (handler w').
Proof.
  intros [_ ->]%handler_update. split.
  - apply same_but_with. intros m q Hq. by rewrite lookup_alter_ne.
  - cbn. rewrite lookup_alter_eq. by destruct (_ !! pid).
Qed.

Lemma push_step m w o w' :
  push_pending_message m w = (o, w') → hstep (handler w) (LPush m) (handler w').
Proof. by intros [_ ->]%handler_update. Qed.

Lemma release_step w ms w' :
  release_pending_messages w = (Ret ms, w') → hstep (handler w) (LRelease ms) (handler w').
Proof.
  unfold release_pending_messages, update_handler, modify, get_world, bind, ret.
  intros [= <- <-]. cbn. by rewrite handler_set.
Qed.
End step_facts.

(** ** Operations while other tasks run *)

Section rely.
Context `{Secp} `{!Ldk} {W : Type}.
Context `{!PeerConnector W, !LdkEntropy W, !OfferCreator W, !ChanInfo W, !Timer W, !InvoicePayer W,
          !Bolt12InvoiceCreator W, !SystemClock W}.

(** While LND answers, while the program sleeps and while it draws randomness or
    reads a clock, other tasks may run; what they do is in [R]. *)
Class HandlerRely (R : relation W) : Prop := {
  rely_list_peers : respects R list_peers;
  rely_connect_peer pk addr : respects R (connect_peer pk addr);
  rely_get_node_info pk b : respects R (get_node_info pk b);
  rely_list_channels : respects R list_active_public_channels;
  rely_random_bytes : respects R get_secure_random_bytes;
  rely_nonce : respects R nonce_from_entropy_source;
  rely_one_hop pk ctx : respects R (message_path_one_hop pk ctx);
  rely_message_path nodes pk ctx : respects R (message_path_new nodes pk ctx);
  rely_get_info : respects R get_info;
  rely_get_chan_info scid : respects R (get_chan_info scid);
  rely_instant : respects R instant_now;
  rely_timeout_sleep deadline d : respects R (timeout_sleep deadline d);
  rely_query_routes p c b f m l : respects R (query_routes p c b f m l);
  rely_send_to_route hash route : respects R (send_to_route hash route);
  rely_track_payment hash : respects R (payer_track_payment hash);
  rely_add_invoice r : respects R (add_invoice r);
  rely_decode_payment_request s : respects R (decode_payment_request s);
  rely_system_now : respects R system_now;
}.
End rely.

#[export] Hint Resolve rely_list_peers rely_connect_peer rely_get_node_info rely_list_channels
  rely_random_bytes rely_nonce rely_one_hop rely_message_path rely_get_info rely_get_chan_info
  rely_instant rely_timeout_sleep rely_query_routes rely_send_to_route rely_track_payment
  rely_add_invoice rely_decode_payment_request rely_system_now : lndk.

Section operations.
Context `{Secp} `{!Ldk} {W : Type} `{!HasHandler W}.
Context `{!PeerConnector W, !LdkEntropy W, !OfferCreator W, !ChanInfo W, !Timer W, !InvoicePayer W,
          !Bolt12InvoiceCreator W, !SystemClock W, !LdkBuild}.
Context (R : relation W) `{!PreOrder R} `{Hrely : !HandlerRely R}.
Implicit Types (w : W).

(** *** What does not touch the handler *)

Lemma connect_to_peer_rely pk : respects R (connect_to_peer (W := W) pk).
Proof. unfold connect_to_peer. respect. Qed.

Lemma get_node_id_from_scid_rely scid dir : respects R (get_node_id_from_scid (W := W) scid dir).
Proof. unfold get_node_id_from_scid. respect. Qed.

Lemma get_node_id_rely scid dir : respects R (get_node_id (W := W) scid dir).
Proof.
  unfold get_node_id. apply respects_try_bind; [exact _| |];
    eauto using get_node_id_from_scid_rely with lndk typeclass_instances.
Qed.

Lemma intro_node_loop_rely peers : respects R (intro_node_loop (W := W) peers).
Proof. induction peers as [|p peers IH]; cbn [intro_node_loop]; respect. Qed.

Lemma intro_channels_loop_rely channels found :
  respects R (intro_channels_loop (W := W) channels found).
Proof.
  revert found. induction channels as [|c channels IH]; intros found; cbn [intro_channels_loop];
    respect.
Qed.

Lemma paths_through_rely nodes pk ctx : respects R (paths_through (W := W) nodes pk ctx).
Proof.
  induction nodes; cbn [paths_through]; unfold blinded_path_or_failure; respect.
Qed.

Lemma reply_path_rely pk ctx :
  respects R (create_reply_path_for_outgoing_payments (W := W) pk ctx).
Proof.
  pose proof intro_node_loop_rely.
  unfold create_reply_path_for_outgoing_payments, blinded_path_or_failure. respect.
Qed.

Lemma offer_reply_path_rely pk ctx :
  respects R (create_reply_path_for_offer_creation (W := W) pk ctx).
Proof.
  pose proof intro_channels_loop_rely. pose proof paths_through_rely.
  unfold create_reply_path_for_offer_creation, blinded_path_or_failure. respect.
Qed.

Hint Resolve connect_to_peer_rely get_node_id_from_scid_rely get_node_id_rely
  intro_node_loop_rely reply_path_rely offer_reply_path_rely : lndk.

Lemma create_invoice_request_rely offer net key amt note :
  respects R (create_invoice_request (W := W) offer net key amt note).
Proof. unfold create_invoice_request. respect. Qed.

Lemma send_invoice_request_rely dest req ctx :
  respects R (send_invoice_request (W := W) dest req ctx).
Proof. unfold send_invoice_request. respect. Qed.

Lemma wait_for_invoice_rely fuel deadline pid :
  respects R (wait_for_invoice (W := W) fuel deadline pid).
Proof. induction fuel; cbn [wait_for_invoice]; unfold poll_invoice; respect. Qed.

Lemma send_payment_rely params : respects R (send_payment (W := W) params).
Proof. unfold send_payment. respect. Qed.

Lemma track_payment_rely hash : respects R (track_payment (W := W) hash).
Proof. unfold track_payment. respect. Qed.

Lemma create_invoice_info_rely hash_from_str req :
  respects R (create_invoice_info_from_request (W := W) hash_from_str req).
Proof.
  unfold create_invoice_info_from_request, parse_blinded_paths, parse_blinded_hops. respect.
Qed.

Lemma create_offer_rely params : respects R (handler_create_offer (W := W) params).
Proof. unfold handler_create_offer, create_offer, system_time_add. respect. Qed.

Hint Resolve create_invoice_request_rely send_invoice_request_rely wait_for_invoice_rely
  send_payment_rely track_payment_rely create_invoice_info_rely create_offer_rely : lndk.

(** *** The protocol of an operation *)

(** [performs ls w w']: the operation makes the steps [ls] in this order; before,
    between and after them, other tasks run. *)
Inductive performs : list hlabel → W → W → Prop :=
| performs_wait w w' : R w w' → performs [] w w'
| performs_step l ls w w1 w2 w' :
    R w w1 → hstep (handler w1) l (handler w2) → performs ls w2 w' → performs (l :: ls) w w'.

Lemma performs_before ls w w1 w' : R w w1 → performs ls w1 w' → performs ls w w'.
Proof.
  intros Hw Hp. inversion Hp; subst; [constructor|eapply performs_step; [|done..]]; by etrans.
Qed.

Lemma performs_app ls1 ls2 w w1 w' :
  performs ls1 w w1 → performs ls2 w1 w' → performs (ls1 ++ ls2) w w'.
Proof.
  induction 1; cbn [app]; intros; [by eapply performs_before|eapply performs_step; eauto].
Qed.

Lemma performs_own l ls w w1 w' :
  hstep (handler w) l (handler w1) → performs ls w1 w' → performs (l :: ls) w w'.
Proof. intros. by eapply performs_step. Qed.

Lemma performs_last l w w' : hstep (handler w) l (handler w') → performs [l] w w'.
Proof. intros. eapply performs_own; [done|]. by constructor. Qed.

(** The steps of [get_invoice] by its result. *)
Definition fetch_protocol (r : result (Bolt12Invoice * Z * PaymentId) OfferError) (w w' : W) : Prop :=
  match r with
  | Ok (_, _, pid) => ∃ m, performs [LRegister pid; LPush m; LState pid InvoiceReceived] w w'
  | Err e =>
      performs [] w w' ∨
      (∃ pid, e = AlreadyProcessing pid ∧ performs [LRefuse pid] w w') ∨
      (∃ pid, performs [LRegister pid; LRemove pid] w w') ∨
      (∃ pid m t, e = InvoiceTimeout t ∧ performs [LRegister pid; LPush m; LRemove pid] w w')
  end.

Lemma get_invoice_protocol cfg w r w' :
  get_invoice cfg w = (Ret r, w') → fetch_protocol r w w'.
Proof.
  unfold get_invoice. generalize wait_fuel as fuel. intros fuel Hrun.
  apply bind_inv_Ret in Hrun as (h & w0 & Hh & Hrun). injection Hh as <- <-.
  apply try_bind_inv in Hrun as [([[[req pid] amount] ctx] & w1 & Hreq & Hrun)|(e & He & ->)].
  2:{ left. constructor. by eapply create_invoice_request_rely. }
  apply create_invoice_request_rely in Hreq.
  apply try_bind_inv in Hrun as [([] & w2 & [Hreg _]%register_step & Hrun)|(e & [Hreg ->]%register_step & ->)].
  2:{ right; left. exists pid. split; [done|]. eapply performs_before; [done|]. by apply performs_last. }
  apply try_bind_inv in Hrun as [(msg & w3 & Hsend & Hrun)|(e & Hsend & ->)].
  2:{ apply inspect_err_inv in Hsend as [(?&?&?)|(?&?&?&w3&Hs&Hact)]; simplify_eq.
      right; right; left. exists pid. eapply performs_before; [done|]. eapply performs_own; [done|].
      eapply performs_before; [by eapply send_invoice_request_rely|].
      apply performs_last. by eapply remove_step. }
  apply inspect_err_inv in Hsend as [(m&?&Hs)|(?&?&?&?&?&?)]; simplify_eq.
  apply send_invoice_request_rely in Hs.
  apply bind_inv_Ret in Hrun as (u & w4 & Hpush%push_step & Hrun). cbv zeta in Hrun.
  apply bind_inv_Ret in Hrun as (start & w5 & Hnow%rely_instant & Hrun).
  apply bind_inv_Ret in Hrun as (o & w6 & Hwait%wait_for_invoice_rely & Hrun).
  assert (∀ l, hstep (handler w6) l (handler w') →
               performs [LRegister pid; LPush m; l] w w') as Hall.
  { intros l Hl. eapply performs_before; [done|]. eapply performs_own; [done|].
    eapply performs_before; [done|]. eapply performs_own; [done|].
    eapply performs_before; [by etrans|]. by apply performs_last. }
  destruct o as [inv|]; apply bind_inv_Ret in Hrun as (u' & w7 & Hlast & Hrun); run_inv.
  - exists m. apply Hall. by eapply state_step.
  - right; right; right. exists pid, m, (default (response_invoice_timeout (handler w))
                                             (cfg_response_invoice_timeout cfg)).
    split; [done|]. apply Hall. by eapply remove_step.
Qed.

(** The steps of [pay_invoice]: one change of state for each payment that was
    sent, and the removal, unless a channel is not found. *)
Definition pay_protocol (pid : PaymentId) (r : result Payment OfferError) (w w' : W) : Prop :=
  match r with
  | Ok _ => ∃ sent, performs (replicate (S sent) (LState pid PaymentDispatched) ++ [LRemove pid]) w w'
  | Err _ => ∃ sent, performs (replicate sent (LState pid PaymentDispatched) ++ [LRemove pid]) w w' ∨
                     performs (replicate sent (LState pid PaymentDispatched)) w w'
  end.

Lemma introduced_rely path w w' : introduced path w w' → R w w'.
Proof.
  unfold introduced. destruct (payment_path_introduction_node path); [by intros ->|].
  intros [s Hs]. by eapply get_node_id_from_scid_rely.
Qed.

Lemma attempted_performs amount hash pid fee paths errors w w' :
  attempted amount hash pid fee paths errors w w' →
  ∃ sent, performs (replicate sent (LState pid PaymentDispatched)) w w'.
Proof.
  induction 1 as [w|p ps e es w w1 w2 w' Hi%introduced_rely Hs%send_payment_rely _ [n IH]
                 |p ps e es w w1 w2 w3 w4 w' Hi%introduced_rely Hs%send_payment_rely Hset%state_step
                   Ht%track_payment_rely _ [n IH]].
  - exists 0%nat. by constructor.
  - exists n. eapply performs_before; [by etrans|done].
  - exists (S n). cbn [replicate]. eapply performs_before; [by etrans|]. eapply performs_own; [done|].
    by eapply performs_before.
Qed.

Lemma replicate_snoc {A} n (x : A) : replicate (S n) x = replicate n x ++ [x].
Proof. change [x] with (replicate 1 x). rewrite <- replicate_add. f_equal. lia. Qed.

Lemma pay_invoice_protocol amount inv pid fee w r w' :
  pay_invoice amount inv pid fee w = (Ret r, w') → pay_protocol pid r w w'.
Proof.
  intros [(-> & _ & Hrem)|[_ Hout]]%pay_paths_outcome.
  { exists 0%nat. left. apply performs_last. by eapply remove_step. }
  destruct r as [payment|e].
  - destruct Hout as (failed & errors & path & rest & w1 & w2 & _ & [n Ha]%attempted_performs &
                      (wi & wa & wb & Hi & Hs & Hset & Ht) & Hrem).
    exists n. rewrite replicate_snoc, <- app_assoc. eapply performs_app; [done|]. cbn [app].
    eapply performs_before; [etrans; [by eapply introduced_rely|by eapply send_payment_rely]|].
    eapply performs_own; [by eapply state_step|].
    eapply performs_before; [by eapply track_payment_rely|]. apply performs_last. by eapply remove_step.
  - destruct Hout as [(errors & w1 & [n Ha]%attempted_performs & _ & Hrem)
                     |(failed & errors & path & rest & w1 & _ & [n Ha]%attempted_performs & dir & scid & _ & Hs)];
      exists n; [left|right].
    + eapply performs_app; [done|]. apply performs_last. by eapply remove_step.
    + rewrite <- (app_nil_r (replicate _ _)). eapply performs_app; [done|]. constructor.
      by eapply get_node_id_from_scid_rely.
Qed.


(** *** Other tasks run blocks *)

(** When [R] has the blocks of the handler's code, the operations stay in it. *)
Context (Hblock : ∀ b, respects R (run_block (W := W) b)).

Lemma block_discard {A} b (c : M W A) :
  run_block b = (let* _ := c in ret []) → respects R c.
Proof.
  intros Heq w o w' Hc. specialize (Hblock b w). rewrite Heq in Hblock.
  destruct o as [a| |]; eapply Hblock; unfold bind; by rewrite Hc.
Qed.

Lemma register_rely pid : respects R (register_payment (W := W) pid).
Proof. by apply (block_discard (BRegister pid)). Qed.
Lemma remove_rely pid : respects R (remove_active_payment (W := W) pid).
Proof. by apply (block_discard (BRemove pid)). Qed.
Lemma state_rely pid st : respects R (set_payment_state (W := W) pid st).
Proof. by apply (block_discard (BState pid st)). Qed.
Lemma push_rely m : respects R (push_pending_message (W := W) m).
Proof. by apply (block_discard (BPush m)). Qed.
Lemma handle_invoice_rely inv ctx responder :
  respects R (handle_invoice (W := W) inv ctx responder).
Proof. by apply (block_discard (BInvoice inv ctx responder)). Qed.
Lemma handle_invoice_error_rely pid nonce hmac :
  respects R (handle_invoice_error (W := W) pid nonce hmac).
Proof. by apply (block_discard (BInvoiceError pid nonce hmac)). Qed.

Hint Resolve register_rely remove_rely state_rely push_rely handle_invoice_rely
  handle_invoice_error_rely : lndk.

Lemma get_invoice_rely cfg : respects R (get_invoice (W := W) cfg).
Proof.
  unfold get_invoice, inspect_err. generalize wait_fuel as fuel. intros fuel. respect.
Qed.

Lemma pay_invoice_rely amount inv pid fee : respects R (pay_invoice (W := W) amount inv pid fee).
Proof.
  unfold pay_invoice. generalize (None (A := OfferError)).
  induction (invoice_payment_paths inv) as [|p paths IH]; intros le; cbn [pay_paths]; respect.
Qed.

Lemma handle_message_rely hash_from_str msg ctx responder :
  respects R (handle_message (W := W) hash_from_str msg ctx responder).
Proof. destruct msg; unfold handle_message, handle_invoice_request; respect. Qed.
End operations.

(** ** Payments under interference by the handler's own code *)

Section interference.
Context `{Secp} `{!Ldk} {W : Type} `{!HasHandler W}.

(** Other tasks have run blocks of the handler's code, and changed the handler
    in no other way. *)
Definition interfered (w w' : W) : Prop := ∃ bs, handler w' = run_blocks bs (handler w).

#[export] Instance interfered_preorder : PreOrder interfered.
Proof.
  split.
  - intros w. by exists [].
  - intros w1 w2 w3 [bs1 H1] [bs2 H2]. exists (bs1 ++ bs2). by rewrite run_blocks_app, H2, H1.
Qed.

Lemma block_interferes b : respects interfered (run_block (W := W) b).
Proof.
  intros w o w' Hrun%run_block_handler. exists [b]. by rewrite run_blocks_cons, Hrun.
Qed.

Context `{!PeerConnector W, !LdkEntropy W, !OfferCreator W, !ChanInfo W, !Timer W, !InvoicePayer W,
          !Bolt12InvoiceCreator W, !SystemClock W, !LdkBuild}.
Context `{Hrely : !HandlerRely interfered}.

(** The operations of the handler are such tasks. *)
Lemma operations_interfere hash_from_str cfg msg ctx responder amount inv pid fee_limit params :
  respects interfered (get_invoice (W := W) cfg) ∧
  respects interfered (pay_invoice (W := W) amount inv pid fee_limit) ∧
  respects interfered (handle_message (W := W) hash_from_str msg ctx responder) ∧
  respects interfered (release_pending_messages (W := W)) ∧
  respects interfered (handler_create_offer (W := W) params).
Proof.
  split_and!; eauto using get_invoice_rely, pay_invoice_rely, handle_message_rely,
    create_offer_rely, block_interferes with typeclass_instances.
  apply (block_interferes BRelease).
Qed.

(** C1: a payment that [pay_offer] reports as made settled an invoice that was
    verified for its payment id with the handler's key, over one of the
    invoice's own paths, for the amount validated against the offer; its id is
    then no longer in the table.  This holds for a handler that started with an
    empty table and since then, as well as while [pay_offer] waits, was changed
    only by the blocks of its own code (among them the handling of invoices that
    anyone may send), in any order. *)
Theorem pay_offer_pays_verified_invoice h0 bs cfg (w : W) payment w' :
  active_payments h0 = ∅ → handler w = run_blocks bs h0 →
  pay_offer cfg w = (Ret (Ok payment), w') →
  ∃ inv pid amount path w1 w2,
    verified (expanded_key h0) pid inv ∧
    validate_amount (offer_amount (cfg_offer cfg)) (cfg_amount cfg) = Ok amount ∧
    path ∈ invoice_payment_paths inv ∧
    settled amount (invoice_payment_hash inv) pid (cfg_fee_limit cfg) path payment w1 w2 ∧
    remove_active_payment pid w2 = (Ret tt, w') ∧
    active_payments (handler w') !! pid = None.
Proof.
  intros Hempty Hw Hrun. unfold pay_offer in Hrun. cbv zeta in Hrun.
  apply try_bind_inv in Hrun as [([[inv pid] amount] & w1 & Hget & Hpay)|(e & _ & ?)]; [|done].
  destruct (operations_interfere (λ _, Err ""%string) cfg (MsgInvoice inv) None None 0 inv [] None
              {| cop_amount_msats := None; cop_chain := Regtest; cop_description := None;
                 cop_issuer := None; cop_quantity := None; cop_expiry := None |}) as [Hint _].
  apply Hint in Hget as Hlater. destruct Hlater as [bs' Hbs].
  apply get_invoice_ok in Hget as (Hval & Hst).
  apply pay_paths_outcome in Hpay as [(? & _ & _)|(_ & failed & errors & path & rest & wa & wb & Hp & _ & Hs & Hrem)]; [done|].
  exists inv, amount, pid, path, wa, wb. split_and!; [|done| |done|done|by eapply remove_active_payment_gone].
  - apply (from_empty_verified h0 (bs ++ bs')); [done|].
    rewrite run_blocks_app, <- Hw, <- Hbs. unfold stored. by rewrite Hst.
  - rewrite Hp. set_solver.
Qed.
End interference.
