(* ===== verification/HandlerLiveness.v ===== *)
(** * Offers that are answered in time are paid

    [pay_offer] of src/offers/handler.rs from the invoice request to the settled
    payment, together with the reaction of [handle_message] to the invoice.  The
    relations below say how the surroundings cooperate: LND lets the request
    out, the invoice arrives under the context that the request was sent with,
    and a path of the invoice settles. *)

From S2P Require Import Prelude Grpc Ldk OfferError Parse Lnd LndRequests Handler HandlerFacts.
Open Scope Z_scope.

Section liveness.
Context `{Secp} `{!Ldk} {W : Type} `{!HasHandler W, !Bolt12InvoiceCreator W, !LdkBuild}.
Context `{!PeerConnector W, !LdkEntropy W, !OfferCreator W, !ChanInfo W, !Timer W, !InvoicePayer W}.
Context `{!TimerLaws (W := W)}.
Variable hash_from_str : string → result PaymentHash string.

(** A verified invoice for a waiting payment enters the table. *)
Lemma handled_invoice_is_stored inv pid nonce hmac responder (w : W) st out w' :
  active_payments (handler w) !! pid = Some {| state := st; invoice := None |} →
  verify_using_payer_data inv pid nonce (expanded_key (handler w)) = Ok pid →
  handle_message hash_from_str (MsgInvoice inv) (Some (CtxOutboundPayment pid nonce hmac))
    responder w = (Ret out, w') →
  active_payments (handler w') !! pid = Some {| state := InvoiceReceived; invoice := Some inv |}.
Proof.
  intros Hw Hv. cbn [handle_message]. unfold handle_invoice. intros Hrun.
  apply bind_inv_Ret in Hrun as (h & w1 & Hh & Hrun). unfold get_world in Hh. simplify_eq.
  rewrite Hv in Hrun. apply bind_inv_Ret in Hrun as (u & w2 & [_ Hset]%handler_update & Hrun).
  run_inv. rewrite Hset. cbn. unfold store_invoice. rewrite Hw. apply lookup_insert_eq.
Qed.

(** [answered cfg w inv amount pid w']: from [w], the request goes out, and
    during one of the sleeps before the deadline the messenger handles an
    invoice under the context of the request, which verifies for it.  [w'] is
    the world after that sleep; other tasks may have acted, but not on this
    payment. *)
Inductive answered (cfg : PayOfferParams) (w : W)
    : Bolt12Invoice → Z → PaymentId → W → Prop :=
| answered_in_time pid amount nonce hmac wq start ws n wa st inv responder out wb w' :
    requested cfg w pid amount (CtxOutboundPayment pid nonce hmac) wq →
    instant_now wq = (Ret start, ws) →
    idle pid (start + 1000 * timeout_of cfg w) n ws wa →
    active_payments (handler wa) !! pid = Some {| state := st; invoice := None |} →
    verify_using_payer_data inv pid nonce (expanded_key (handler wa)) = Ok pid →
    handle_message hash_from_str (MsgInvoice inv) (Some (CtxOutboundPayment pid nonce hmac))
      responder wa = (Ret out, wb) →
    timeout_sleep (start + 1000 * timeout_of cfg w) 2000 wa = (Ret false, w') →
    active_payments (handler w') !! pid = active_payments (handler wb) !! pid →
    answered cfg w inv amount pid w'.

Lemma answered_gives_invoice cfg (w : W) inv amount pid w1 u w2 :
  0 ≤ timeout_of cfg w → answered cfg w inv amount pid w1 →
  set_payment_state pid InvoiceReceived w1 = (Ret u, w2) →
  get_invoice cfg w = (Ret (Ok (inv, amount, pid)), w2).
Proof.
  intros Ht [p a nonce hmac wq start ws n wa st i responder out wb we
             Hreq Hnow Hidle Hentry Hv Hmsg Hsleep Hsame] Hset.
  rewrite (get_invoice_requested _ _ _ _ _ _ _ _ Hreq Hnow).
  assert (idle p (start + 1000 * timeout_of cfg w) (S n) ws we) as Hidle'.
  { eapply idle_snoc; [done| |done]. by rewrite Hentry. }
  apply instant_now_reads in Hnow as ->. apply idle_rounds in Hidle' as Hlt; [|done].
  replace (wait_fuel (timeout_of cfg w)) with (S n + S (wait_fuel (timeout_of cfg w) - S (S n)))%nat by lia.
  erewrite bind_Ret.
  2:{ rewrite (wait_idle _ _ _ _ _ _ Hidle'). apply wait_finds. rewrite Hsame.
      by erewrite handled_invoice_is_stored. }
  cbn beta iota. by rewrite (bind_Ret _ _ _ _ _ Hset).
Qed.

(** C2: an offer that is answered in time is paid.  When the request goes out,
    a verifying invoice for it is handled during one of the waits before the
    deadline, and some path of the invoice settles after those before it failed,
    [pay_offer] returns that payment and the payment is no longer in the
    table. *)
Theorem answered_offer_is_paid cfg (w : W) inv amount pid w1 w2 failed errors path rest w3 payment w4 :
  0 ≤ timeout_of cfg w →
  answered cfg w inv amount pid w1 →
  set_payment_state pid InvoiceReceived w1 = (Ret tt, w2) →
  invoice_payment_paths inv = failed ++ path :: rest →
  attempted amount (invoice_payment_hash inv) pid (cfg_fee_limit cfg) failed errors w2 w3 →
  settled amount (invoice_payment_hash inv) pid (cfg_fee_limit cfg) path payment w3 w4 →
  ∃ w', pay_offer cfg w = (Ret (Ok payment), w') ∧ active_payments (handler w') !! pid = None.
Proof.
  intros Ht Hans Hset Hpaths Hatt Hsettled.
  eexists (set_handler (with_payments (delete pid) (handler w4)) w4). split.
  - unfold pay_offer. cbv zeta. unfold try_bind.
    rewrite (bind_Ret _ _ _ _ _ (answered_gives_invoice _ _ _ _ _ _ _ _ Ht Hans Hset)).
    apply outcome_pay_paths. by exists failed, errors, path, rest, w3, w4.
  - rewrite handler_set. apply lookup_delete_eq.
Qed.
End liveness.
