(* ===== verification/OnionMessenger.v ===== *)
(** * The onion messenger

    Models src/onion_messenger.rs: the producers that turn LND's streams into
    messenger events, the consumer that drives LDK's [OnionMessenger] with them
    under a rate limiter, the relay of outgoing messages, the lookups of onion
    support, and [run_onion_messenger], which starts it all.

    LDK's messenger, the channel between producers and consumer, LND's streams
    and the task runtime are classes over the world.  An infinite loop takes
    fuel and is [Pending] when the fuel is used up before it ends. *)

From S2P Require Import Prelude RateLimit Grpc Ldk OfferError Lnd LndRequests.
Open Scope Z_scope.

Definition ONION_MESSAGE_TYPE : Z := 513.
Definition MSG_POLL_INTERVAL : Z := 100.

(** LDK's onion messages and features. *)
Class OnionMessages : Type := {
  OnionMessage : Type;
  InitFeatures : Type;
  ChainHash : Type;
  onion_message_read : bytes → result OnionMessage string;
  onion_message_write : OnionMessage → result bytes string;
  init_features_from_le_bytes : bytes → InitFeatures;
  init_features_empty : InitFeatures;
  using_genesis_block_const : Network → ChainHash;
}.

(** [Display] of tonic's [Status]. *)
Class StatusFmt : Type := status_fmt : Status → string.

Inductive ProducerError := SendError (s : string) | StreamError (s : string).

Definition ProducerError_fmt (self : ProducerError) : string :=
  match self with
  | SendError s => "error sending messenger event: " +:+ s
  | StreamError s => "LND stream " +:+ s +:+ " exited"
  end.

Inductive ConsumerError :=
| OnionMessengerFailure | PeerProducerExit | IncomingMessageProducerExit.

Definition ConsumerError_fmt (self : ConsumerError) : string :=
  match self with
  | OnionMessengerFailure => "consumer err: onion messenger failure"
  | PeerProducerExit => "consumer err: peer producer exit"
  | IncomingMessageProducerExit => "consumer err: incoming message producer exit"
  end.

(** [Box<dyn Error>] of the two producers that report one: a status, or a
    failed send. *)
Inductive BoxError := BoxStatus (s : Status) | BoxSend (s : string).

Inductive EventType := PeerOnline | PeerOffline.
Record PeerEvent := { pe_pub_key : string; pe_type : EventType }.
Record CustomMessage := { cm_peer : bytes; cm_type : Z; cm_data : bytes }.
Record SendCustomMessageRequest := { scm_peer : bytes; scm_type : Z; scm_data : bytes }.

Section messenger_data.
Context `{Secp} `{!OnionMessages}.

Inductive MessengerEvents :=
| PeerConnected (pk : PublicKey) (onion_support : bool)
| PeerDisconnected (pk : PublicKey)
| IncomingMessage (pk : PublicKey) (msg : OnionMessage)
| SendOutgoing
| ProducerExit (e : ConsumerError).

Definition MessengerEvents_fmt (self : MessengerEvents) : string :=
  match self with
  | PeerConnected p o =>
      "messenger event: " +:+ pk_to_string p +:+ " connected, onion message support: "
      +:+ (if o then "true" else "false")
  | PeerDisconnected p => "messenger event: " +:+ pk_to_string p +:+ " disconnected"
  | IncomingMessage p _ => "messenger event: " +:+ pk_to_string p +:+ " incoming onion message"
  | SendOutgoing => "messenger event: poll for new outgoing onion messages"
  | ProducerExit s => "messenger event: " +:+ ConsumerError_fmt s +:+ " exited"
  end.

Record Init := {
  init_features : InitFeatures;
  remote_network_address : option string;
  init_networks : option (list ChainHash);
}.

(** LDK's events; those the handler ignores are lumped. *)
Inductive Event :=
| ConnectionNeeded (node_id : PublicKey)
| OnionMessageIntercepted
| OnionMessagePeerConnected
| EventOther.
End messenger_data.

(** LDK's [OnionMessenger]; [true] is [inbound].  [process_pending_events]
    calls the event handler it is given. *)
Class LdkMessenger `{Secp} `{!OnionMessages} (W : Type) : Type := {
  om_peer_connected : PublicKey → Init → bool → M W (result unit unit);
  om_peer_disconnected : PublicKey → M W unit;
  om_handle_onion_message : PublicKey → OnionMessage → M W unit;
  om_process_pending_events : (Event → M W (result unit unit)) → M W unit;
  om_next_onion_message_for_peer : PublicKey → M W (option OnionMessage);
}.

(** The bounded channel of messenger events; the error of a failed send is its
    text. *)
Class EventChannel `{Secp} `{!OnionMessages} (W : Type) : Type := {
  channel_new : nat → M W unit;
  send_event : MessengerEvents → M W (result unit string);
  recv_event : M W (option MessengerEvents);
}.

(** One biased [select!] of the shutdown listener against another future:
    whether the listener's branch is taken. *)
Class Listener (W : Type) : Type := select_listener : M W bool.

(** The tasks that [run_onion_messenger] spawns, by their place in it. *)
Inductive MessengerTask := ReconnectionTask | PeersTask | MessagesTask | OutgoingTask.

#[export] Instance MessengerTask_eq_dec : EqDecision MessengerTask.
Proof. solve_decision. Defined.

(** Tasks, the shutdown trigger, and how many rounds of a loop end within so
    many seconds under [timeout].  [spawn] detaches a task, [set_spawn] adds it
    to the messenger's [JoinSet].  [join_next] is [Some true] for a task of the
    set that ended, [Some false] for one that panicked, [None] for an empty
    set. *)
Class Runtime (W : Type) : Type := {
  spawn : M W unit → M W unit;
  set_spawn : MessengerTask → M W unit → M W unit;
  join_next : M W (option bool);
  trigger_shutdown : M W unit;
  notify_waiters : M W unit;
  rounds_within : Z → M W nat;
}.

(** The calls made on the concrete [LightningClient]. *)
Class LightningClient (W : Type) : Type := {
  ln_list_peers : M W (result (list Peer) Status);
  ln_send_custom_message : SendCustomMessageRequest → M W (result unit Status);
  ln_subscribe_peer_events : M W (result unit Status);
  ln_subscribe_custom_messages : M W (result unit Status);
  (** [message] on the subscriptions; [None] at the end of the stream. *)
  peer_stream_message : M W (result (option PeerEvent) Status);
  message_stream_message : M W (result (option CustomMessage) Status);
}.

Class PeerEventProducer `{Secp} (W : Type) : Type := {
  pe_receive : M W (result PeerEvent Status);
  pe_onion_support : PublicKey → M W bool;
}.

Class IncomingMessageProducer (W : Type) : Type :=
  im_receive : M W (result CustomMessage Status).

Class SendCustomMessage (W : Type) : Type :=
  send_custom_message : SendCustomMessageRequest → M W (result unit Status).

Class ReconnectionClient (W : Type) : Type := {
  list_peers_with_retries : M W (result (list Peer) Status);
  reconnection_notified : M W unit;
}.

(** ** Utilities of LDK's messenger *)

(** LDK's [RandomBytes], a generator made from a seed that counts its calls, and
    the 32 bytes a [ChaCha20Rng] seeded by the operating system gives. *)
Class RandomSource (W : Type) : Type := {
  RandomBytes : Type;
  RandomBytes_new : bytes → M W RandomBytes;
  RandomBytes_get : RandomBytes → M W bytes;
  chacha_bytes_from_os_rng : M W bytes;
}.

(** The levels of LDK's log records and of the [log] crate. *)
Inductive Level := Gossip | Trace | Debug | Info | Warn | Error.
Inductive log_level := LogTrace | LogDebug | LogInfo | LogWarn | LogError.
Record LogRecord := { record_level : Level; record_args : string }.

Definition LDK_LOGGER_NAME : string := "ldk".

Section utilities.
Context {W : Type} `{!RandomSource W}.

Record MessengerUtilities := { entropy_source : RandomBytes }.

Definition MessengerUtilities_new (seed : bytes) : M W MessengerUtilities :=
  let* source := RandomBytes_new seed in
  ret {| entropy_source := source |}.

Definition MessengerUtilities_default : M W MessengerUtilities :=
  let* chacha_bytes := chacha_bytes_from_os_rng in
  MessengerUtilities_new chacha_bytes.

Definition MessengerUtilities_random (self : MessengerUtilities) : M W bytes :=
  RandomBytes_get (entropy_source self).

(** [log_line] writes a line of a level for a target. *)
Definition MessengerUtilities_log (log_line : log_level → string → string → M W unit)
    (record : LogRecord) : M W unit :=
  let args_str := record_args record in
  match record_level record with
  | Gossip => ret tt
  | Trace => log_line LogTrace LDK_LOGGER_NAME args_str
  | Debug => log_line LogDebug LDK_LOGGER_NAME args_str
  | Info => log_line LogInfo LDK_LOGGER_NAME args_str
  | Warn => log_line LogWarn LDK_LOGGER_NAME args_str
  | Error => log_line LogError LDK_LOGGER_NAME args_str
  end.
End utilities.

(** ** Lookups *)

Section lookups.
Context `{Secp} {W : Type}.

Record LndkNodeIdLookUp := { our_node_id : PublicKey }.

Definition next_node_id `{!ChanInfo W} (self : LndkNodeIdLookUp) (short_channel_id : Z)
    : M W (option PublicKey) :=
  let* r := get_chan_info short_channel_id in
  match r with
  | Ok channel_info =>
      let pubkey := if (node1_pub channel_info =? pk_to_string (our_node_id self))%string
                    then node2_pub channel_info else node1_pub channel_info in
      ret (pk_from_slice (as_bytes pubkey))
  | Err _ => ret None
  end.

(** The loop of [build_peer_support_from_response]. *)
Fixpoint build_peer_support_loop (peers : list Peer) (peer_support : gmap PublicKey bool)
    : M W (gmap PublicKey bool) :=
  match peers with
  | [] => ret peer_support
  | peer :: peers =>
      let* pubkey := unwrap (pk_from_str (peer_pub_key peer)) in
      let onion_support := features_support_onion_messages (peer_features peer) in
      build_peer_support_loop peers (<[pubkey := onion_support]> peer_support)
  end.

Definition build_peer_support_from_response (peers : list Peer) : M W (gmap PublicKey bool) :=
  build_peer_support_loop peers ∅.

Context `{!LightningClient W, !Sleep W, !Runtime W}.

Definition get_current_peers : M W (result (gmap PublicKey bool) unit) :=
  let? current_peers := map_err (λ _, tt) ln_list_peers in
  let* peer_support := build_peer_support_from_response current_peers in
  ret (Ok peer_support).

(** The features of the first listed peer with this key that has any. *)
Fixpoint nonempty_features (pubkey : string) (peers : list Peer) : option (gmap Z Feature) :=
  match peers with
  | [] => None
  | peer :: peers =>
      if negb (peer_pub_key peer =? pubkey)%string then nonempty_features pubkey peers
      else if bool_decide (peer_features peer = ∅) then nonempty_features pubkey peers
      else Some (peer_features peer)
  end.

(** [check_empty_features] under [timeout]: [None] when the time is up after so
    many rounds. *)
Fixpoint check_empty_features (rounds : nat) (pubkey : PublicKey)
    : M W (option (gmap Z Feature)) :=
  match rounds with
  | O => ret None
  | S rounds =>
      let* r := ln_list_peers in
      match r with
      | Ok peers =>
          match nonempty_features (pk_to_string pubkey) peers with
          | Some features => ret (Some features)
          | None => let* _ := sleep 500 in check_empty_features rounds pubkey
          end
      | Err _ => check_empty_features rounds pubkey
      end
  end.

(** The first listed peer with this key. *)
Definition find_peer (pubkey : string) (peers : list Peer) : option Peer :=
  head (filter (λ peer, peer_pub_key peer = pubkey) peers).

Definition lookup_onion_support (pubkey : PublicKey) : M W bool :=
  let* r := ln_list_peers in
  match r with
  | Ok peers =>
      match find_peer (pk_to_string pubkey) peers with
      | Some peer =>
          let* rounds := rounds_within 5 in
          let* o := check_empty_features rounds pubkey in
          let features := default (peer_features peer) o in
          ret (features_support_onion_messages features)
      | None => ret false
      end
  | Err _ => ret false
  end.

(** [PeerStream] and [MessageStream]. *)
Definition PeerStream_receive : M W (result PeerEvent Status) :=
  let? o := peer_stream_message in
  match o with
  | Some peer_event => ret (Ok peer_event)
  | None => ret (Err (Status_new Unknown "no event provided"))
  end.

#[local] Instance PeerStream : PeerEventProducer W := {
  pe_receive := PeerStream_receive;
  pe_onion_support := lookup_onion_support;
}.

#[local] Instance MessageStream : IncomingMessageProducer W :=
  let? o := message_stream_message in
  match o with
  | Some msg => ret (Ok msg)
  | None => ret (Err (Status_new Unknown "no message provided"))
  end.

#[local] Instance CustomMessenger : SendCustomMessage W := λ request,
  with_max_attempts ln_send_custom_message request (Some 3).

Definition client_list_peers_with_retries (fuel : nat) : M W (result (list Peer) Status) :=
  with_infinite_retries fuel (λ _ : unit, ln_list_peers) tt None.
End lookups.

(** ** Producers *)

Section producers.
Context `{Secp} `{!OnionMessages} `{!StatusFmt} {W : Type} `{!EventChannel W, !Listener W}.

(** Sending [PeerConnected] for every peer of a map. *)
Fixpoint send_peers (peers : list (PublicKey * bool)) : M W (result unit string) :=
  match peers with
  | [] => ret (Ok tt)
  | (peer, onion_support) :: peers =>
      let? _ := send_event (PeerConnected peer onion_support) in send_peers peers
  end.

Fixpoint receive_reconnection_event `{!ReconnectionClient W} (fuel : nat)
    : M W (result unit BoxError) :=
  match fuel with
  | O => pending
  | S fuel =>
      let* shutdown := select_listener in
      if shutdown : bool then ret (Ok tt)
      else
        let* _ := reconnection_notified in
        let? list_peer_response := map_err BoxStatus list_peers_with_retries in
        let* current_peers := build_peer_support_from_response list_peer_response in
        let? _ := map_err BoxSend (send_peers (map_to_list current_peers)) in
        receive_reconnection_event fuel
  end.

Fixpoint produce_peer_events `{!PeerEventProducer W} (fuel : nat)
    : M W (result unit ProducerError) :=
  match fuel with
  | O => pending
  | S fuel =>
      let* shutdown := select_listener in
      if shutdown : bool then ret (Ok tt)
      else
        let* peer_event := pe_receive in
        match peer_event with
        | Ok peer_event =>
            match pe_type peer_event with
            | PeerOnline =>
                let* pubkey := unwrap (pk_from_str (pe_pub_key peer_event)) in
                let* onion_support := pe_onion_support pubkey in
                let? _ := map_err SendError (send_event (PeerConnected pubkey onion_support)) in
                produce_peer_events fuel
            | PeerOffline =>
                let* pubkey := unwrap (pk_from_str (pe_pub_key peer_event)) in
                let? _ := map_err SendError (send_event (PeerDisconnected pubkey)) in
                produce_peer_events fuel
            end
        | Err s =>
            let* _ := send_event (ProducerExit PeerProducerExit) in
            ret (Err (StreamError (status_fmt s)))
        end
  end.

Fixpoint produce_incoming_message_events `{!IncomingMessageProducer W} (fuel : nat)
    : M W (result unit ProducerError) :=
  match fuel with
  | O => pending
  | S fuel =>
      let* shutdown := select_listener in
      if shutdown : bool then ret (Ok tt)
      else
        let* onion_message := im_receive in
        match onion_message with
        | Ok incoming_message =>
            if negb (cm_type incoming_message =? ONION_MESSAGE_TYPE) then
              produce_incoming_message_events fuel
            else
              let* pubkey := unwrap (pk_from_slice (cm_peer incoming_message)) in
              match onion_message_read (cm_data incoming_message) with
              | Ok onion_message =>
                  let? _ := map_err SendError
                              (send_event (IncomingMessage pubkey onion_message)) in
                  produce_incoming_message_events fuel
              | Err _ => produce_incoming_message_events fuel
              end
        | Err s =>
            let* _ := send_event (ProducerExit IncomingMessageProducerExit) in
            ret (Err (StreamError (status_fmt s)))
        end
  end.

(** [interval] is the tick of the ticker. *)
Fixpoint produce_outgoing_message_events (interval : M W unit) (fuel : nat)
    : M W (result unit ProducerError) :=
  match fuel with
  | O => pending
  | S fuel =>
      let* shutdown := select_listener in
      if shutdown : bool then ret (Ok tt)
      else
        let* _ := interval in
        let? _ := map_err SendError (send_event SendOutgoing) in
        produce_outgoing_message_events interval fuel
  end.

Fixpoint subscribe_custom_messages_with_retry `{!LightningClient W, !Sleep W} (fuel : nat)
    : M W (result unit BoxError) :=
  match fuel with
  | O => pending
  | S fuel =>
      let* shutdown := select_listener in
      if shutdown : bool then ret (Ok tt)
      else
        let* r := with_infinite_retries fuel (λ _ : unit, ln_subscribe_custom_messages) tt None in
        match r with
        | Err _ => ret (Ok tt)
        | Ok _ =>
            let* r := produce_incoming_message_events (IncomingMessageProducer0 := MessageStream) fuel in
            match r with
            | Ok _ => ret (Ok tt)
            | Err _ => subscribe_custom_messages_with_retry fuel
            end
        end
  end.
End producers.

(** ** The consumer *)

Section consumer.
Context `{Secp} `{!OnionMessages} {W : Type} `{!LdkMessenger W, !EventChannel W}.
Context {R : Type} `{!RateLimiter PublicKey R} `{!SendCustomMessage W}.

Definition relay_outgoing_msg_event (peer : PublicKey) (msg : OnionMessage) : M W unit :=
  match onion_message_write msg with
  | Err _ => ret tt
  | Ok buf =>
      let req := {| scm_peer := pk_serialize peer; scm_type := ONION_MESSAGE_TYPE;
                    scm_data := buf |} in
      let* _ := send_custom_message req in
      ret tt
  end.

(** The loop over the online peers: one message each, if there is one. *)
Fixpoint send_outgoing_to (peers : list PublicKey) : M W unit :=
  match peers with
  | [] => ret tt
  | peer :: peers =>
      let* o := om_next_onion_message_for_peer peer in
      let* _ := match o with
                | Some msg => relay_outgoing_msg_event peer msg
                | None => ret tt
                end in
      send_outgoing_to peers
  end.

(** The features announced for a peer. *)
Definition peer_init_features (onion_support : bool) : InitFeatures :=
  if onion_support then
    let onion_message_optional := wrap_u 64 (Z.shiftl 1 ONION_MESSAGES_OPTIONAL) in
    init_features_from_le_bytes (to_le_bytes 8 onion_message_optional)
  else init_features_empty.

Variable event_handler : Event → M W (result unit unit).
Variable network : Network.

(** The body of the consumer's loop. *)
Definition consume_event (onion_event : MessengerEvents) (rate_limiter : R)
    : M W (result R ConsumerError) :=
  match onion_event with
  | PeerConnected pubkey onion_support =>
      let? _ := map_err (λ _, OnionMessengerFailure)
        (om_peer_connected pubkey
           {| init_features := peer_init_features onion_support;
              remote_network_address := None;
              init_networks := Some [using_genesis_block_const network] |} false) in
      ret (Ok (rl_peer_connected pubkey rate_limiter))
  | PeerDisconnected pubkey =>
      let* _ := om_peer_disconnected pubkey in
      ret (Ok (rl_peer_disconnected pubkey rate_limiter))
  | IncomingMessage pubkey onion_message =>
      let '(granted, rate_limiter) := rl_query_peer pubkey rate_limiter in
      if negb granted then ret (Ok rate_limiter)
      else
        let* _ := om_handle_onion_message pubkey onion_message in
        ret (Ok rate_limiter)
  | SendOutgoing =>
      let* _ := om_process_pending_events event_handler in
      let* _ := send_outgoing_to (rl_peers rate_limiter) in
      ret (Ok rate_limiter)
  | ProducerExit _ => ret (Ok rate_limiter)
  end.

Fixpoint consume_messenger_events (fuel : nat) (rate_limiter : R)
    : M W (result unit ConsumerError) :=
  match fuel with
  | O => pending
  | S fuel =>
      let* o := recv_event in
      match o with
      | None => ret (Ok tt)
      | Some onion_event =>
          let? rate_limiter := consume_event onion_event rate_limiter in
          consume_messenger_events fuel rate_limiter
      end
  end.
End consumer.

Section event_handler.
Context `{Secp} `{!Ldk} `{!OnionMessages} {W : Type} `{!PeerConnector W, !Shutdown W, !Runtime W}.

Definition LndkEventHandler_handle_event (event : Event) : M W (result unit unit) :=
  match event with
  | ConnectionNeeded node_id =>
      let* _ := spawn (let* _ := connect_to_peer_with_retry node_id in ret tt) in
      ret (Ok tt)
  | OnionMessageIntercepted => ret (Ok tt)
  | OnionMessagePeerConnected => ret (Ok tt)
  | EventOther => ret (Ok tt)
  end.
End event_handler.

(** ** Putting it together *)

Record RateLimiterCfg := { cfg_call_count : Z; cfg_call_period : Z }.

Section run.
Context `{Secp} `{!Ldk} `{!OnionMessages} `{!StatusFmt} {W : Type}.
Context `{!LdkMessenger W, !EventChannel W, !Listener W, !Runtime W, !LightningClient W, !Sleep W,
          !PeerConnector W, !Shutdown W}.
Context {C : Type} `{!Clock C}.

(** The fuel of every loop. *)
Variable fuel : nat.
(** The tick of the ticker, [Notify::notified], and the clock given to the
    limiter. *)
Variable interval notified : M W unit.
Variable clock : C.

#[local] Instance Retryable_reconnection : ReconnectionClient W := {
  list_peers_with_retries := client_list_peers_with_retries fuel;
  reconnection_notified := notified;
}.

(** A task that triggers the shutdown when its producer fails. *)
Definition supervise {E} (producer : M W (result unit E)) : M W unit :=
  let* r := producer in
  match r with
  | Ok _ => ret tt
  | Err _ => trigger_shutdown
  end.

Definition reconnection_task : M W unit := supervise (receive_reconnection_event fuel).

Definition peers_task : M W unit :=
  let* r := with_infinite_retries fuel (λ _ : unit, ln_subscribe_peer_events) tt
              (Some notify_waiters) in
  match r with
  | Err _ => trigger_shutdown
  | Ok _ => supervise (produce_peer_events (PeerEventProducer0 := PeerStream) fuel)
  end.

Definition messages_task : M W unit := supervise (subscribe_custom_messages_with_retry fuel).

Definition outgoing_task : M W unit := supervise (produce_outgoing_message_events interval fuel).

(** Waiting for the tasks: whether one of them panicked. *)
Fixpoint join_all (n : nat) (task_err : bool) : M W bool :=
  match n with
  | O => pending
  | S n =>
      let* o := join_next in
      match o with
      | None => ret task_err
      | Some true => join_all n task_err
      | Some false => join_all n true
      end
  end.

(** The first part of [run_onion_messenger]: the current peers are announced on
    a channel that nobody reads yet. *)
Definition announce_current_peers : M W (result (gmap PublicKey bool) unit) :=
  let? current_peers := get_current_peers in
  let* _ := channel_new (size current_peers + 1) in
  let? _ := map_err (λ _, tt) (send_peers (map_to_list current_peers)) in
  ret (Ok current_peers).

Definition run_onion_messenger (network : Network) (rate_limiter_cfg : RateLimiterCfg)
    : M W (result unit unit) :=
  let? current_peers := announce_current_peers in
  let* _ := set_spawn ReconnectionTask reconnection_task in
  let* _ := set_spawn PeersTask peers_task in
  let* _ := set_spawn MessagesTask messages_task in
  let* _ := set_spawn OutgoingTask outgoing_task in
  let rate_limiter :=
    TokenLimiter_new ((map_to_list current_peers).*1) (cfg_call_count rate_limiter_cfg)
      (cfg_call_period rate_limiter_cfg) clock in
  let* consume_result :=
    consume_messenger_events (SendCustomMessage0 := CustomMessenger)
      LndkEventHandler_handle_event network fuel rate_limiter in
  let* task_err := join_all fuel false in
  if negb (is_ok consume_result) || task_err then ret (Err tt) else ret (Ok tt).
End run.
