(* ===== verification/OnionMessengerFacts.v ===== *)
(** * Facts about the onion messenger

    The consumer is proved against the interface of a rate limiter and against a
    history of the calls it makes on LDK's messenger; with the token limiter this
    gives the bound on what a peer can push into LDK.  The producers are proved
    to forward their streams, the startup not to block. *)

From S2P Require Import Prelude RateLimit Grpc Ldk OfferError Lnd LndRequests OnionMessenger.
Open Scope Z_scope.

(** ** The consumer against its plan *)

Section consumer_history.
Context `{Secp} `{!OnionMessages} {W : Type} `{!LdkMessenger W, !EventChannel W, !SendCustomMessage W}.

(** What the consumer does: events received, calls on LDK's messenger. *)
Inductive hist_entry :=
| HRecv (ev : MessengerEvents)
| HConnected (pk : PublicKey) (features : InitFeatures)
| HDisconnected (pk : PublicKey)
| HHandle (pk : PublicKey) (msg : OnionMessage)
| HProcess
| HNext (pk : PublicKey).

(** A history variable of the world: the calls record themselves in it.  LDK's
    messenger belongs to the consumer, nobody else calls it. *)
Class MessengerHistory : Type := {
  history : W → list hist_entry;
  grows (l : list hist_entry) (w w' : W) := history w' = history w ++ l;
  hist_recv w o w' : recv_event w = (o, w') →
    grows match o with Ret (Some ev) => [HRecv ev] | _ => [] end w w';
  hist_connected pk i b : respects (grows [HConnected pk (init_features i)]) (om_peer_connected pk i b);
  hist_disconnected pk : respects (grows [HDisconnected pk]) (om_peer_disconnected pk);
  hist_handle pk msg : respects (grows [HHandle pk msg]) (om_handle_onion_message pk msg);
  hist_process f : (∀ e, respects (grows []) (f e)) →
    respects (grows [HProcess]) (om_process_pending_events f);
  hist_next pk : respects (grows [HNext pk]) (om_next_onion_message_for_peer pk);
  hist_send req : respects (grows []) (send_custom_message req);
}.

Context `{!MessengerHistory}.

Lemma grows_nil w : grows [] w w.
Proof. unfold grows. by rewrite app_nil_r. Qed.

Lemma grows_app l1 l2 w1 w2 w3 : grows l1 w1 w2 → grows l2 w2 w3 → grows (l1 ++ l2) w1 w3.
Proof. unfold grows. intros Ha Hb. by rewrite Hb, Ha, app_assoc. Qed.

#[export] Instance grows_preorder : PreOrder (grows []).
Proof.
  split; [intros w; apply grows_nil|]. intros w1 w2 w3 Ha Hb.
  by apply (grows_app [] [] _ _ _ Ha Hb).
Qed.

(** Running a computation that grows the history by [l1], then another. *)
Lemma bind_grows {A B} l1 (P : outcome B → list hist_entry → Prop) (c : M W A) (k : A → M W B) w o w' :
  respects (grows l1) c → bind c k w = (o, w') →
  (∀ a w1 , k a w1 = (o, w') → ∃ l2, grows l2 w1 w' ∧ P o (l1 ++ l2)) →
  (∀ o', (∀ b, o' ≠ Ret b) → P o' l1) →
  ∃ l, grows l w w' ∧ P o l.
Proof.
  intros Hc Hrun Hk Hend. unfold bind in Hrun. destruct (c w) as [oa w1] eqn:E.
  specialize (Hc _ _ _ E). destruct oa as [a| |].
  - destruct (Hk a w1 Hrun) as (l2 & Hl2 & HP). exists (l1 ++ l2). split; [|done].
    by eapply grows_app.
  - simplify_eq. exists l1. split; [done|]. by apply Hend.
  - simplify_eq. exists l1. split; [done|]. by apply Hend.
Qed.

Lemma relay_quiet pk msg : respects (grows []) (relay_outgoing_msg_event pk msg).
Proof. unfold relay_outgoing_msg_event. pose proof hist_send. respect. Qed.

(** However the loop over the peers ends, it asked LDK for messages in their
    order, for all of them if it returned. *)
Lemma send_outgoing_history peers w o w' :
  send_outgoing_to peers w = (o, w') →
  ∃ l, grows l w w' ∧ l `prefix_of` (HNext <$> peers) ∧ (∀ u, o = Ret u → l = HNext <$> peers).
Proof.
  revert w. induction peers as [|pk peers IH]; intros w Hrun; cbn [send_outgoing_to] in Hrun.
  { exists []. unfold ret in Hrun. simplify_eq. split_and!; [apply grows_nil|done|done]. }
  eapply (bind_grows [HNext pk] (λ o l, l `prefix_of` (HNext <$> pk :: peers) ∧
    (∀ u, o = Ret u → l = HNext <$> pk :: peers))); [apply hist_next|exact Hrun| |].
  2:{ intros o' Ho. split; [|naive_solver]. exists (HNext <$> peers). by rewrite fmap_cons. }
  intros om w1 Hk. cbn beta in Hk.
  assert (respects (grows []) match om with
            | Some msg => relay_outgoing_msg_event pk msg | None => ret tt end) as Hq
    by (destruct om; [apply relay_quiet|apply respects_ret; exact _]).
  eapply (bind_grows [] (λ o l, [HNext pk] ++ l `prefix_of` (HNext <$> pk :: peers) ∧
    (∀ u, o = Ret u → [HNext pk] ++ l = HNext <$> pk :: peers))); [exact Hq|exact Hk| |].
  - intros u w2 Hrest. destruct (IH _ Hrest) as (l & Hg & Hpre & Heq). exists l.
    rewrite fmap_cons. split_and!; [done|by apply prefix_cons|]. intros u' Hu. cbn. by rewrite (Heq u' Hu).
  - intros o' Ho. split; [|naive_solver]. rewrite fmap_cons. apply prefix_cons, prefix_nil.
Qed.

Context {R : Type} `{!RateLimiter PublicKey R}.
Variable event_handler : Event → M W (result unit unit).
Hypothesis event_handler_quiet : ∀ e, respects (grows []) (event_handler e).
Variable network : Network.

(** The calls one event asks for, and the limiter after it. *)
Definition plan_event (ev : MessengerEvents) (rl : R) : list hist_entry * R :=
  match ev with
  | PeerConnected pk s => ([HConnected pk (peer_init_features s)], rl_peer_connected pk rl)
  | PeerDisconnected pk => ([HDisconnected pk], rl_peer_disconnected pk rl)
  | IncomingMessage pk msg =>
      (if (rl_query_peer pk rl).1 then [HHandle pk msg] else [], (rl_query_peer pk rl).2)
  | SendOutgoing => (HProcess :: (HNext <$> rl_peers rl), rl)
  | ProducerExit _ => ([], rl)
  end.

Fixpoint plan (evs : list MessengerEvents) (rl : R) : list hist_entry * R :=
  match evs with
  | [] => ([], rl)
  | ev :: evs =>
      (HRecv ev :: (plan_event ev rl).1 ++ (plan evs (plan_event ev rl).2).1,
       (plan evs (plan_event ev rl).2).2)
  end.

(** LDK refuses the connection of a peer. *)
Definition refuses (pk : PublicKey) (s : bool) (w' : W) : Prop :=
  ∃ w0, om_peer_connected pk
          {| init_features := peer_init_features s; remote_network_address := None;
             init_networks := Some [using_genesis_block_const network] |} false w0 = (Ret (Err tt), w').

(** What the outcome of one iteration says. *)
Definition event_result (ev : MessengerEvents) (rl : R) (w' : W)
    (o : outcome (result R ConsumerError)) (l : list hist_entry) : Prop :=
  l `prefix_of` (plan_event ev rl).1 ∧
  match o with
  | Ret (Ok rl') => l = (plan_event ev rl).1 ∧ rl' = (plan_event ev rl).2
  | Ret (Err e) => l = (plan_event ev rl).1 ∧ e = OnionMessengerFailure ∧
                   ∃ pk s, ev = PeerConnected pk s ∧ refuses pk s w'
  | _ => True
  end.

Lemma event_result_stopped ev rl w' l o :
  l `prefix_of` (plan_event ev rl).1 → (∀ r, o ≠ Ret r) → event_result ev rl w' o l.
Proof. intros Hp Ho. split; [done|]. destruct o; naive_solver. Qed.

Lemma consume_event_history ev rl w o w' :
  consume_event event_handler network ev rl w = (o, w') →
  ∃ l, grows l w w' ∧ event_result ev rl w' o l.
Proof.
  destruct ev as [pk s|pk|pk msg| |e]; cbn [consume_event]; intros Hrun.
  - unfold try_bind, map_err, bind, ret in Hrun.
    destruct (om_peer_connected _ _ _ w) as [[[[]|[]]| |] w1] eqn:Hc; simplify_eq;
      (eexists; split; [by eapply hist_connected|]);
      [done| |by apply event_result_stopped..].
    split; [done|]. split_and!; [done..|]. exists pk, s. split; [done|]. by exists w.
  - eapply (bind_grows _ (event_result (PeerDisconnected pk) rl w'));
      [eapply hist_disconnected|exact Hrun| |].
    + intros [] w1 Hk. unfold ret in Hk. simplify_eq. exists []. split; [apply grows_nil|]. done.
    + intros o' Ho. by apply event_result_stopped.
  - destruct (rl_query_peer pk rl) as [granted rl'] eqn:Hq. destruct granted; cbn [negb] in Hrun.
    + eapply (bind_grows _ (event_result (IncomingMessage pk msg) rl w'));
        [eapply hist_handle|exact Hrun| |].
      * intros [] w1 Hk. unfold ret in Hk. simplify_eq. exists []. split; [apply grows_nil|].
        unfold event_result; cbn. rewrite Hq. done.
      * intros o' Ho. apply event_result_stopped; [|done]. cbn. by rewrite Hq.
    + unfold ret in Hrun. simplify_eq. exists []. split; [apply grows_nil|].
      unfold event_result; cbn. by rewrite Hq.
  - eapply (bind_grows _ (event_result SendOutgoing rl w'));
      [by apply hist_process|exact Hrun| |].
    + intros [] w1 Hk. unfold bind in Hk.
      destruct (send_outgoing_to (rl_peers rl) w1) as [o2 w2] eqn:Es.
      destruct (send_outgoing_history _ _ _ _ Es) as (l & Hg & Hpre & Heq). exists l.
      destruct o2 as [[]| |]; unfold ret in Hk; simplify_eq; (split; [done|]).
      * rewrite (Heq tt eq_refl). done.
      * apply event_result_stopped; [|done]. by apply prefix_cons.
      * apply event_result_stopped; [|done]. by apply prefix_cons.
    + intros o' Ho. apply event_result_stopped; [|done]. apply prefix_cons, prefix_nil.
  - unfold ret in Hrun. simplify_eq. exists []. split; [apply grows_nil|done].
Qed.

(** What the outcome of the loop says. *)
Definition consume_result (evs : list MessengerEvents) (rl : R) (w' : W)
    (o : outcome (result unit ConsumerError)) (l : list hist_entry) : Prop :=
  l `prefix_of` (plan evs rl).1 ∧
  match o with
  | Ret (Ok _) => l = (plan evs rl).1 ∧ ∃ w0, history w' = history w0 ∧ recv_event w0 = (Ret None, w')
  | Ret (Err e) => l = (plan evs rl).1 ∧ e = OnionMessengerFailure ∧
                   ∃ pk s, last evs = Some (PeerConnected pk s) ∧ refuses pk s w'
  | _ => True
  end.

Lemma consume_history fuel rl w o w' :
  consume_messenger_events event_handler network fuel rl w = (o, w') →
  ∃ evs l, (length evs ≤ fuel)%nat ∧ grows l w w' ∧ consume_result evs rl w' o l.
Proof.
  revert rl w. induction fuel as [|fuel IH]; intros rl w Hrun; cbn [consume_messenger_events] in Hrun.
  { unfold pending in Hrun. simplify_eq. exists [], []. split_and!; [done|apply grows_nil|done]. }
  unfold bind in Hrun. destruct (recv_event w) as [orecv w1] eqn:Er. apply hist_recv in Er as Hr.
  destruct orecv as [[ev|]| |]; try (unfold ret in Hrun; simplify_eq; exists [], [];
    split_and!; [cbn; lia|done|done]).
  2:{ unfold ret in Hrun. simplify_eq. exists [], []. split_and!; [cbn; lia|done|].
      split; [done|]. split; [done|]. exists w. split; [|done]. unfold grows in Hr. by rewrite Hr, app_nil_r. }
  unfold try_bind, bind in Hrun.
  destruct (consume_event event_handler network ev rl w1) as [oe w2] eqn:Ee.
  destruct (consume_event_history _ _ _ _ _ Ee) as (l1 & Hg1 & Hpre1 & Hres1).
  pose proof (grows_app _ _ _ _ _ Hr Hg1) as Hg. cbn [app] in Hg.
  destruct oe as [[rl'|e]| |].
  - destruct Hres1 as [-> ->]. destruct (IH _ _ Hrun) as (evs & l & Hlen & Hgl & Hpre & Hres).
    exists (ev :: evs), ((HRecv ev :: (plan_event ev rl).1) ++ l).
    split_and!; [cbn; lia|by eapply grows_app|].
    split; [cbn; by apply prefix_cons, prefix_app|].
    destruct o as [[[]|e]| |]; [by destruct Hres as [-> Hclosed]| |done|done].
    destruct Hres as (-> & -> & pk & s & Hl & Href). split_and!; [done..|]. exists pk, s.
    by rewrite last_cons, Hl.
  - destruct Hres1 as (-> & -> & pk & s & -> & Href). unfold ret in Hrun. simplify_eq.
    exists [PeerConnected pk s], (HRecv (PeerConnected pk s) :: (plan_event (PeerConnected pk s) rl).1).
    split_and!; [cbn; lia|done|]. split; [done|]. split_and!; [done..|]. by exists pk, s.
  - simplify_eq. exists [ev], (HRecv ev :: l1). split_and!; [cbn; lia|done|]. split; [|done].
    cbn. rewrite app_nil_r. by apply prefix_cons.
  - simplify_eq. exists [ev], (HRecv ev :: l1). split_and!; [cbn; lia|done|]. split; [|done].
    cbn. rewrite app_nil_r. by apply prefix_cons.
Qed.

End consumer_history.

(** ** With the interface of the limiter: who is polled *)

Section polled.
Context `{Secp} `{!OnionMessages} {R : Type} `{!RateLimiter PublicKey R}
  `{!RateLimiterLaws PublicKey R}.

(** The peers that are online after an event. *)
Definition online_after (s : gset PublicKey) (ev : MessengerEvents) : gset PublicKey :=
  match ev with
  | PeerConnected pk _ => {[pk]} ∪ s
  | PeerDisconnected pk => s ∖ {[pk]}
  | _ => s
  end.

Lemma plan_event_online ev (rl : R) :
  rl_online (plan_event ev rl).2 = online_after (rl_online rl) ev.
Proof.
  destruct ev; cbn; [apply rl_online_connected|apply rl_online_disconnected|apply rl_online_query|done..].
Qed.

Lemma plan_online evs (rl : R) :
  rl_online (plan evs rl).2 = foldl online_after (rl_online rl) evs.
Proof.
  revert rl. induction evs as [|ev evs IH]; intros rl; [done|]. cbn [plan foldl snd].
  by rewrite IH, plan_event_online.
Qed.

Lemma plan_app evs1 evs2 (rl : R) :
  plan (evs1 ++ evs2) rl =
    ((plan evs1 rl).1 ++ (plan evs2 (plan evs1 rl).2).1, (plan evs2 (plan evs1 rl).2).2).
Proof.
  revert rl. induction evs1 as [|ev evs1 IH]; intros rl; cbn [app plan fst snd].
  - by destruct (plan evs2 rl).
  - rewrite IH. cbn [fst snd]. by rewrite app_assoc.
Qed.

(** The events received in a history. *)
Definition received (e : hist_entry) : option MessengerEvents :=
  match e with HRecv ev => Some ev | _ => None end.

Lemma plan_event_receives ev (rl : R) : omap received (plan_event ev rl).1 = [].
Proof.
  destruct ev as [pk s|pk|pk msg| |e]; cbn; [done|done|by destruct (rl_query_peer pk rl) as [[] ?]| |done].
  by induction (rl_peers rl).
Qed.

Lemma received_none l e : omap received l = [] → e ∈ l → received e = None.
Proof.
  intros Hl He. destruct (received e) as [ev|] eqn:Hr; [|done]. exfalso.
  enough (ev ∈ omap received l) as Hin by (rewrite Hl in Hin; by apply elem_of_nil in Hin).
  apply list_elem_of_omap. eauto.
Qed.

(** An event received in the history of a plan is one of its events, and what
    comes before it is the plan of the events before it. *)
Lemma plan_split evs (rl : R) pre ev post :
  (plan evs rl).1 = pre ++ HRecv ev :: post →
  ∃ evs1 evs2, omap received pre = evs1 ∧ (plan evs1 rl).1 = pre ∧
    post = (plan_event ev (plan evs1 rl).2).1 ++ (plan evs2 (plan_event ev (plan evs1 rl).2).2).1.
Proof.
  revert rl pre. induction evs as [|ev0 evs IH]; intros rl pre Heq; cbn [plan fst snd] in Heq.
  { by destruct pre. }
  destruct pre as [|e pre]; cbn in Heq; [simplify_eq; by exists [], evs|]. injection Heq as <- Heq.
  pose proof (plan_event_receives ev0 rl) as Hn.
  apply app_eq_inv in Heq as [(k & Hpre & Hrest)|(k & Hpre & Hrest)].
  - destruct k as [|e k]; [cbn in Hrest|].
    + destruct (IH _ [] (eq_sym Hrest)) as (evs1 & evs2 & Hrec & Hp & Hpost). cbn in Hrec. subst evs1.
      exists [ev0], evs2. rewrite app_nil_r in Hpre. rewrite Hpre in Hn. cbn.
      rewrite Hn, app_nil_r. by split_and!; [|f_equal|].
    + injection Hrest as <- _. exfalso. cut (received (HRecv ev) = None); [done|].
      eapply received_none; [exact Hn|]. rewrite Hpre. apply elem_of_app. right. by left.
  - destruct (IH _ _ Hrest) as (evs1 & evs2 & Hrec & Hp & Hpost). exists (ev0 :: evs1), evs2.
    subst pre. cbn. rewrite omap_app, Hn, Hp. split_and!; [by rewrite Hrec|done|done].
Qed.

Lemma plan_starts evs (rl : R) :
  (plan evs rl).1 = [] ∨ ∃ ev l, (plan evs rl).1 = HRecv ev :: l.
Proof. destruct evs; cbn; eauto. Qed.

Lemma plan_polls evs (rl : R) pre post :
  (plan evs rl).1 = pre ++ HRecv SendOutgoing :: post →
  ∃ ps rest, post = HProcess :: (HNext <$> ps) ++ rest ∧
    (rest = [] ∨ ∃ ev l, rest = HRecv ev :: l) ∧ NoDup ps ∧
    ∀ pk, pk ∈ ps ↔ pk ∈ foldl online_after (rl_online rl) (omap received pre).
Proof.
  intros (evs1 & evs2 & Hrec & Hp & ->)%plan_split. cbn [plan_event fst snd].
  exists (rl_peers (plan evs1 rl).2), (plan evs2 (plan evs1 rl).2).1.
  split_and!; [done|apply plan_starts|apply rl_peers_NoDup|].
  intros pk. by rewrite rl_peers_online, plan_online, Hrec.
Qed.

Context {W : Type} `{!LdkMessenger W, !EventChannel W, !SendCustomMessage W}
  `{!MessengerHistory (W := W)}.

(** C23: in every finished run of the consumer, each time outgoing messages are
    due, LDK processes its events and is then asked for a message for every peer
    that is online by the events received so far, each exactly once, and for no
    other peer, before the next event is taken. *)
Theorem outgoing_poll_is_exact event_handler network fuel (rl : R) (w : W) r w' :
  (∀ e, respects (grows []) (event_handler e)) →
  consume_messenger_events event_handler network fuel rl w = (Ret r, w') →
  ∃ l, history w' = history w ++ l ∧
    ∀ pre post, l = pre ++ HRecv SendOutgoing :: post →
      ∃ ps rest, post = HProcess :: (HNext <$> ps) ++ rest ∧
        (rest = [] ∨ ∃ ev l', rest = HRecv ev :: l') ∧ NoDup ps ∧
        ∀ pk, pk ∈ ps ↔ pk ∈ foldl online_after (rl_online rl) (omap received pre).
Proof.
  intros Hq Hrun. destruct (consume_history _ Hq _ _ _ _ _ _ Hrun) as (evs & l & _ & Hg & _ & Hres).
  exists l. split; [exact Hg|]. intros pre post Hl. apply (plan_polls evs).
  destruct r; destruct Hres as [Hres _]; by rewrite <- Hres.
Qed.
End polled.

(** ** With the token limiter: how much a peer can push *)

Section rate_bound.
Context `{Secp} `{!OnionMessages} {C : Type} `{!Clock C}.
Implicit Types tl : TokenLimiter PublicKey C.

(** The calls on the limiter that events make. *)
Definition event_op (ev : MessengerEvents) : option (rl_op PublicKey) :=
  match ev with
  | PeerConnected pk _ => Some (OpConnected pk)
  | PeerDisconnected pk => Some (OpDisconnected pk)
  | IncomingMessage pk _ => Some (OpQuery pk)
  | _ => None
  end.

(** The messages of a peer that were handed to LDK. *)
Definition handled_from (pk : PublicKey) (e : hist_entry) : bool :=
  match e with HHandle pk' _ => bool_decide (pk = pk') | _ => false end.
Definition handled (pk : PublicKey) (l : list hist_entry) : nat :=
  length (filter (λ e, handled_from pk e = true) l).

Lemma handled_app pk l1 l2 : handled pk (l1 ++ l2) = (handled pk l1 + handled pk l2)%nat.
Proof. unfold handled. by rewrite filter_app, length_app. Qed.

Lemma handled_cons pk e l :
  handled pk (e :: l) = ((if handled_from pk e then 1 else 0) + handled pk l)%nat.
Proof. unfold handled. rewrite filter_cons. by destruct (handled_from pk e). Qed.

Lemma handled_next pk (ps : list PublicKey) : handled pk (HNext <$> ps) = 0%nat.
Proof. induction ps as [|p ps IH]; [done|]. by rewrite fmap_cons, handled_cons. Qed.

Lemma handled_prefix pk l1 l2 : l1 `prefix_of` l2 → (handled pk l1 ≤ handled pk l2)%nat.
Proof. intros [l ->]. rewrite handled_app. lia. Qed.

Lemma run_event_ops ev evs tl :
  (run_ops (omap event_op (ev :: evs)) tl).1 =
    match event_op ev with
    | Some op => (run_op op tl).1 ++ (run_ops (omap event_op evs) (run_op op tl).2).1
    | None => (run_ops (omap event_op evs) tl).1
    end.
Proof.
  change (omap event_op (ev :: evs)) with
    (match event_op ev with Some op => op :: omap event_op evs | None => omap event_op evs end).
  destruct (event_op ev); [by rewrite run_ops_cons|done].
Qed.

Lemma plan_grants evs tl pk :
  handled pk (plan evs tl).1 = occurrences pk (run_ops (omap event_op evs) tl).1.
Proof.
  revert tl. induction evs as [|ev evs IH]; intros tl; [done|]. cbn [plan fst].
  rewrite run_event_ops, handled_cons, handled_app, IH. cbn [handled_from]. rewrite Nat.add_0_l.
  destruct ev as [k s|k|k msg| |e]; cbn [plan_event fst snd event_op]; try done.
  - rewrite occurrences_app. cbn [run_op rl_query_peer TokenLimiter_RateLimiter].
    destruct (query_peer k tl) as [b tl'] eqn:Hq. cbn [fst snd]. f_equal. destruct b; [|done].
    rewrite handled_cons, occurrences_cons, occurrences_nil. cbn [handled_from].
    unfold handled; rewrite filter_nil. by case_decide; case_bool_decide.
  - by rewrite handled_cons, handled_next.
Qed.

Lemma omap_length {A B} (f : A → option B) l : (length (omap f l) ≤ length l)%nat.
Proof. induction l as [|a l IH]; [done|]. cbn. destruct (f a); cbn in *; lia. Qed.

Context {W : Type} `{!LdkMessenger W, !EventChannel W, !SendCustomMessage W, !MessengerHistory}.

(** C7: a peer cannot flood the node: however many events the consumer works
    off while the clock shows times within one period, at most twice the
    configured number of messages of any one peer reach LDK, and all other
    messages of that peer are dropped. *)
Theorem incoming_rate_bound event_handler network fuel w o w' ps cc cf (c : C) before t0 pk :
  (∀ e, respects (grows []) (event_handler e)) →
  0 ≤ cc ≤ u8_max → 0 < cf →
  let tl := (run_ops before (TokenLimiter_new ps cc cf c)).2 in
  Forall (λ t, t0 ≤ t < t0 + cf) (readings (2 * fuel) (clock tl)) →
  consume_messenger_events event_handler network fuel tl w = (o, w') →
  ∃ l, history w' = history w ++ l ∧ Z.of_nat (handled pk l) ≤ 2 * cc.
Proof.
  intros Hq Hcc Hcf tl HF Hrun.
  destruct (consume_history event_handler Hq network _ _ _ _ _ Hrun) as (evs & l & Hlen & Hg & Hpre & _).
  exists l. split; [done|]. apply (handled_prefix pk) in Hpre. rewrite plan_grants in Hpre.
  pose proof (omap_length event_op evs) as Hol.
  enough (Z.of_nat (occurrences pk (run_ops (omap event_op evs) tl).1) ≤ 2 * cc) by lia.
  apply (rate_bound ps cc cf c before _ t0); [done..|].
  eapply readings_Forall_le; [|exact HF]. fold tl. lia.
Qed.
End rate_bound.

(** ** Producers *)

(** Unfolds one iteration of a producer's loop that has returned. *)
Ltac loop_inv Hrun w1 Hsel :=
  let sd := fresh "sd" in
  apply bind_inv_Ret in Hrun as (sd & w1 & Hsel & Hrun); destruct sd.

Section producer_facts.
Context `{Secp} `{!OnionMessages} `{!StatusFmt} {W A : Type} `{!EventChannel W, !Listener W}.

(** History variables of a producer: what its stream [receive] gave it, and the
    events it tried to send. *)
Class ProducerHistory (receive : M W (result A Status)) : Type := {
  got : W → list (result A Status);
  sent : W → list MessengerEvents;
  ph_steps (g : list (result A Status)) (s : list MessengerEvents) (w w' : W) :=
    got w' = got w ++ g ∧ sent w' = sent w ++ s;
  ph_listener : respects (ph_steps [] []) select_listener;
  ph_receive w r w' : receive w = (Ret r, w') → ph_steps [r] [] w w';
  ph_send ev : respects (ph_steps [] [ev]) (send_event ev);
}.

Context (receive : M W (result A Status)) `{!ProducerHistory receive}.

Lemma ph_nil w : ph_steps [] [] w w.
Proof. split; by rewrite app_nil_r. Qed.

Lemma ph_app g1 s1 g2 s2 w1 w2 w3 :
  ph_steps g1 s1 w1 w2 → ph_steps g2 s2 w2 w3 → ph_steps (g1 ++ g2) (s1 ++ s2) w1 w3.
Proof. intros [G1 S1] [G2 S2]. split; by rewrite ?G2, ?S2, ?G1, ?S1, app_assoc. Qed.

(** [forwarded P exit g s r]: how a producer that ended with [r] has forwarded
    its stream.  The items it received and the events it sent correspond by
    [P]; when its stream failed it sent [exit] last, on a shutdown it sent
    nothing but possibly [exit] after them. *)
Definition forwarded (P : list A → list MessengerEvents → Prop) (exit : MessengerEvents)
    (g : list (result A Status)) (s : list MessengerEvents) (r : result unit ProducerError) : Prop :=
  ∃ items sends, P items sends ∧
    match r with
    | Ok _ => g = Ok <$> items ∧ (s = sends ∨ s = sends ++ [exit])
    | Err (SendError _) => g = Ok <$> items ∧ s = sends
    | Err (StreamError m) =>
        ∃ st, g = (Ok <$> items) ++ [Err st] ∧ s = sends ++ [exit] ∧ m = status_fmt st
    end.

Lemma forwarded_cons (P : list A → list MessengerEvents → Prop) exit item ss g s r :
  (∀ items sends, P items sends → P (item :: items) (ss ++ sends)) →
  forwarded P exit g s r → forwarded P exit (Ok item :: g) (ss ++ s) r.
Proof.
  intros HP (items & sends & Hp & Hr). exists (item :: items), (ss ++ sends).
  split; [by apply HP|]. destruct r as [|[m|m]]; [|naive_solver|].
  { destruct Hr as [-> [->| ->]]; (split; [done|]); [by left|right; by rewrite app_assoc]. }
  destruct Hr as (st & -> & -> & ->). exists st. by rewrite app_assoc.
Qed.
End producer_facts.

(** The peers producer. *)
Section peers_producer.
Context `{Secp} `{!OnionMessages} `{!StatusFmt} {W : Type} `{!EventChannel W, !Listener W}.
Context `{!PeerEventProducer W} `{!ProducerHistory (W := W) pe_receive}.
Hypothesis support_quiet : ∀ pk, respects (ph_steps (receive := pe_receive) [] []) (pe_onion_support pk).

(** The messenger event for an event of LND's; the onion message support of a
    peer that comes online is what its lookup answered, which was made when this
    event was the last one received. *)
Definition peer_event_matches (pe : PeerEvent) (ev : MessengerEvents) : Prop :=
  match pe_type pe with
  | PeerOnline => ∃ pk s wa wb, pk_from_str (pe_pub_key pe) = Some pk ∧
      last (got wa) = Some (Ok pe) ∧ pe_onion_support pk wa = (Ret s, wb) ∧ ev = PeerConnected pk s
  | PeerOffline => ∃ pk, pk_from_str (pe_pub_key pe) = Some pk ∧ ev = PeerDisconnected pk
  end.

(** C24: the peers producer forwards LND's stream: while it runs, every online or
    offline event it receives becomes one messenger event for the same peer, in
    the same order, an online one with the onion message support that was looked
    up for it.  It reports a stream error exactly when the stream failed, and
    has then sent the exit event last. *)
Theorem peer_events_are_forwarded fuel w r w' :
  produce_peer_events fuel w = (Ret r, w') →
  ∃ g s, got w' = got w ++ g ∧ sent w' = sent w ++ s ∧
    forwarded (Forall2 peer_event_matches) (ProducerExit PeerProducerExit) g s r.
Proof.
  revert w. induction fuel as [|fuel IH]; intros w Hrun; [done|]. cbn [produce_peer_events] in Hrun.
  loop_inv Hrun w1 Hsel; apply ph_listener in Hsel.
  { run_inv. exists [], []. split_and!; [apply Hsel..|]. exists [], []. naive_solver. }
  apply bind_inv_Ret in Hrun as (item & w2 & Hrecv%ph_receive & Hrun).
  pose proof (ph_app _ _ _ _ _ _ _ _ Hsel Hrecv) as Hstep. cbn [app] in Hstep.
  assert (last (got w2) = Some item) as Hlast by (destruct Hrecv as [-> _]; apply last_snoc).
  destruct item as [pe|st].
  2:{ apply bind_inv_Ret in Hrun as (u & w3 & Hsend%ph_send & Hrun). run_inv.
      destruct (ph_app _ _ _ _ _ _ _ _ Hstep Hsend) as [Hg Hs].
      eexists _, _. split_and!; [exact Hg|exact Hs|]. exists [], []. split; [constructor|]. naive_solver. }
  assert (∀ w2' w3 ev, ph_steps [] [] w2 w2' → send_event ev w2' = (Ret (Ok tt), w3) →
      peer_event_matches pe ev → produce_peer_events fuel w3 = (Ret r, w') →
      ∃ g s, got w' = got w ++ g ∧ sent w' = sent w ++ s ∧
        forwarded (Forall2 peer_event_matches) (ProducerExit PeerProducerExit) g s r) as Hnext.
  { intros w2' w3 ev Hq Hsend%ph_send Hm Hrest. destruct (IH _ Hrest) as (g & s & Hg & Hs & Hf).
    pose proof (ph_app _ _ _ _ _ _ _ _ (ph_app _ _ _ _ _ _ _ _ (ph_app _ _ _ _ _ _ _ _ Hstep Hq) Hsend)
      (conj Hg Hs)) as [Hg' Hs']. eexists _, _. split_and!; [exact Hg'|exact Hs'|].
    apply (forwarded_cons _ _ pe [ev]); [|done]. intros. by constructor. }
  assert (∀ w2' ev m, ph_steps [] [] w2 w2' → send_event ev w2' = (Ret (Err m), w') →
      peer_event_matches pe ev →
      ∃ g s, got w' = got w ++ g ∧ sent w' = sent w ++ s ∧
        forwarded (Forall2 peer_event_matches) (ProducerExit PeerProducerExit) g s (Err (SendError m))) as Hfail.
  { intros w2' ev m Hq Hsend%ph_send Hm.
    destruct (ph_app _ _ _ _ _ _ _ _ (ph_app _ _ _ _ _ _ _ _ Hstep Hq) Hsend) as [Hg Hs].
    eexists _, _. split_and!; [exact Hg|exact Hs|]. exists [pe], [ev]. split; [by repeat constructor|done]. }
  unfold peer_event_matches in Hnext, Hfail. destruct (pe_type pe).
  - apply bind_inv_Ret in Hrun as (pk & w2' & Hu & Hrun). apply unwrap_inv in Hu as [-> Hpk].
    apply bind_inv_Ret in Hrun as (s & w3 & Hask & Hrun). pose proof (support_quiet _ _ _ _ Hask) as Hsup.
    apply try_bind_inv in Hrun as [([] & w4 & Hsend & Hrun)|(e & Hsend & ->)].
    + apply map_err_inv_Ok in Hsend. eapply Hnext; eauto 10.
    + apply map_err_inv_Err in Hsend as (m & Hsend & ->). eapply Hfail; eauto 10.
  - apply bind_inv_Ret in Hrun as (pk & w2' & Hu & Hrun). apply unwrap_inv in Hu as [-> Hpk].
    apply try_bind_inv in Hrun as [([] & w4 & Hsend & Hrun)|(e & Hsend & ->)].
    + apply map_err_inv_Ok in Hsend. eapply Hnext; eauto using ph_nil.
    + apply map_err_inv_Err in Hsend as (m & Hsend & ->). eapply Hfail; eauto using ph_nil.
Qed.
End peers_producer.

(** The incoming messages producer. *)
Section messages_producer.
Context `{Secp} `{!OnionMessages} `{!StatusFmt} {W : Type} `{!EventChannel W, !Listener W}.
Context `{!IncomingMessageProducer W} `{!ProducerHistory (W := W) im_receive}.

(** The messenger event for a custom message: only for onion messages that can
    be read. *)
Definition message_event (cm : CustomMessage) : option MessengerEvents :=
  if cm_type cm =? ONION_MESSAGE_TYPE then
    match pk_from_slice (cm_peer cm), onion_message_read (cm_data cm) with
    | Some pk, Ok msg => Some (IncomingMessage pk msg)
    | _, _ => None
    end
  else None.

Lemma message_skipped cm g s r :
  message_event cm = None →
  forwarded (λ cms evs, evs = omap message_event cms) (ProducerExit IncomingMessageProducerExit) g s r →
  forwarded (λ cms evs, evs = omap message_event cms) (ProducerExit IncomingMessageProducerExit)
    (Ok cm :: g) s r.
Proof.
  intros Hn. apply (forwarded_cons _ _ cm []). intros items sends ->. cbn. by rewrite Hn.
Qed.

(** C25: the incoming producer forwards exactly the onion messages of LND's
    stream that can be read, in order and with the peer they came from; other
    custom messages and unreadable ones are skipped without ending it.  It
    reports a stream error exactly when the stream failed, and has then sent the
    exit event last. *)
Theorem incoming_messages_are_forwarded fuel w r w' :
  produce_incoming_message_events fuel w = (Ret r, w') →
  ∃ g s, got w' = got w ++ g ∧ sent w' = sent w ++ s ∧
    forwarded (λ cms evs, evs = omap message_event cms) (ProducerExit IncomingMessageProducerExit) g s r.
Proof.
  revert w. induction fuel as [|fuel IH]; intros w Hrun; [done|].
  cbn [produce_incoming_message_events] in Hrun. loop_inv Hrun w1 Hsel; apply ph_listener in Hsel.
  { run_inv. exists [], []. split_and!; [apply Hsel..|]. exists [], []. naive_solver. }
  apply bind_inv_Ret in Hrun as (item & w2 & Hrecv%ph_receive & Hrun).
  pose proof (ph_app _ _ _ _ _ _ _ _ Hsel Hrecv) as Hstep. cbn [app] in Hstep.
  destruct item as [cm|st].
  2:{ apply bind_inv_Ret in Hrun as (u & w3 & Hsend%ph_send & Hrun). run_inv.
      destruct (ph_app _ _ _ _ _ _ _ _ Hstep Hsend) as [Hg Hs].
      eexists _, _. split_and!; [exact Hg|exact Hs|]. exists [], []. split; [done|]. naive_solver. }
  assert (message_event cm = None → produce_incoming_message_events fuel w2 = (Ret r, w') →
      ∃ g s, got w' = got w ++ g ∧ sent w' = sent w ++ s ∧
        forwarded (λ cms evs, evs = omap message_event cms) (ProducerExit IncomingMessageProducerExit) g s r)
    as Hskip.
  { intros Hn Hrest. destruct (IH _ Hrest) as (g & s & Hg & Hs & Hf).
    pose proof (ph_app _ _ _ _ _ _ _ _ Hstep (conj Hg Hs)) as [Hg' Hs'].
    eexists _, _. split_and!; [exact Hg'|exact Hs'|]. by apply message_skipped. }
  unfold message_event in Hskip at 1. destruct (cm_type cm =? ONION_MESSAGE_TYPE) eqn:Ht; [|by apply Hskip].
  cbn [negb] in Hrun. apply bind_inv_Ret in Hrun as (pk & w2' & Hu & Hrun).
  apply unwrap_inv in Hu as [-> Hpk]. rewrite Hpk in Hskip.
  destruct (onion_message_read (cm_data cm)) as [msg|] eqn:Hr; [|by apply Hskip]. clear Hskip.
  assert (message_event cm = Some (IncomingMessage pk msg)) as Hev
    by (unfold message_event; by rewrite Ht, Hpk, Hr).
  apply try_bind_inv in Hrun as [([] & w4 & Hsend & Hrun)|(e & Hsend & ->)].
  - apply map_err_inv_Ok, ph_send in Hsend. destruct (IH _ Hrun) as (g & s & Hg & Hs & Hf).
    pose proof (ph_app _ _ _ _ _ _ _ _ (ph_app _ _ _ _ _ _ _ _ Hstep Hsend) (conj Hg Hs)) as [Hg' Hs'].
    eexists _, _. split_and!; [exact Hg'|exact Hs'|].
    apply (forwarded_cons _ _ cm [IncomingMessage pk msg]); [|done].
    intros items sends ->. cbn. by rewrite Hev.
  - apply map_err_inv_Err in Hsend as (m & Hsend%ph_send & ->).
    destruct (ph_app _ _ _ _ _ _ _ _ Hstep Hsend) as [Hg Hs].
    eexists _, _. split_and!; [exact Hg|exact Hs|]. exists [cm], [IncomingMessage pk msg].
    split; [cbn; by rewrite Hev|done].
Qed.
End messages_producer.

(** ** Startup *)

Section startup.
Context `{Secp} `{!OnionMessages} {W : Type} `{!EventChannel W, !LightningClient W}.

(** The channel before its reader runs: a send goes through while there is
    room, as documented for a bounded channel. *)
Class BoundedChannel : Type := {
  ch_len : W → nat;
  ch_capacity : W → nat;
  ch_new n w : ∃ w', channel_new n w = (Ret tt, w') ∧ ch_len w' = 0%nat ∧ ch_capacity w' = n;
  ch_send ev w : (ch_len w < ch_capacity w)%nat →
    ∃ w', send_event ev w = (Ret (Ok tt), w') ∧ ch_len w' = S (ch_len w) ∧
          ch_capacity w' = ch_capacity w;
}.

Context `{!BoundedChannel}.

Lemma send_peers_fits ps w :
  (ch_len w + length ps ≤ ch_capacity w)%nat →
  ∃ w', send_peers ps w = (Ret (Ok tt), w') ∧ ch_len w' = (ch_len w + length ps)%nat ∧
        ch_capacity w' = ch_capacity w.
Proof.
  revert w. induction ps as [|[pk s] ps IH]; intros w Hfit; cbn [length] in Hfit.
  { exists w. split_and!; [done|cbn; lia|done]. }
  destruct (ch_send (PeerConnected pk s) w ltac:(lia)) as (w1 & E1 & Hl1 & Hc1).
  destruct (IH w1 ltac:(lia)) as (w2 & E2 & Hl2 & Hc2).
  exists w2. split_and!; [|cbn [length]; lia|congruence].
  cbn [send_peers]. unfold try_bind. by rewrite (bind_Ret _ _ _ _ _ E1).
Qed.

(** C26: announcing the current peers before the consumer runs never blocks: the
    channel is made with room for all of them and one more. *)
Theorem startup_does_not_block w peers w1 :
  get_current_peers w = (Ret (Ok peers), w1) →
  ∃ w2, announce_current_peers w = (Ret (Ok peers), w2) ∧
    ch_len w2 = size peers ∧ (ch_len w2 < ch_capacity w2)%nat.
Proof.
  intros Hp. destruct (ch_new (size peers + 1) w1) as (w2 & E2 & Hl2 & Hc2).
  destruct (send_peers_fits (map_to_list peers) w2) as (w3 & E3 & Hl3 & Hc3).
  { rewrite length_map_to_list. lia. }
  rewrite length_map_to_list in Hl3. exists w3. split_and!; [|lia|lia].
  unfold announce_current_peers, try_bind. rewrite (bind_Ret _ _ _ _ _ Hp), (bind_Ret _ _ _ _ _ E2).
  unfold map_err. rewrite bind_assoc, (bind_Ret _ _ _ _ _ E3). done.
Qed.
End startup.

(** ** Lookups and relaying *)

Section relay.
Context `{Secp} `{!OnionMessages} {W : Type}.

(** The peer map of a response is that of its last entry for each peer. *)
Lemma build_peer_support_spec peers acc (w : W) m w' :
  build_peer_support_loop peers acc w = (Ret m, w') →
  w' = w ∧ ∀ pk, m !! pk =
    match last (filter (λ p, pk_from_str (peer_pub_key p) = Some pk) peers) with
    | Some p => Some (features_support_onion_messages (peer_features p))
    | None => acc !! pk
    end.
Proof.
  revert acc. induction peers as [|p peers IH]; intros acc Hrun; cbn [build_peer_support_loop] in Hrun.
  { run_inv. done. }
  apply bind_inv_Ret in Hrun as (k & w1 & Hu & Hrun). apply unwrap_inv in Hu as [-> Hk].
  apply IH in Hrun as [-> Hm]. split; [done|]. intros pk. rewrite Hm, filter_cons.
  destruct (decide (k = pk)) as [->|Hne].
  - rewrite decide_True by done. rewrite last_cons, lookup_insert_eq. by destruct (last _).
  - rewrite decide_False by congruence. rewrite lookup_insert_ne by done. done.
Qed.

(** What is relayed can be received: the request that passes a message on
    to LND names the peer by its serialized key and has the onion message type,
    and the same content arriving as a custom message becomes the event for the
    same message and key. *)
Theorem relay_roundtrip `{!SendCustomMessage W} `{!SecpLaws} peer msg buf (w : W) :
  (∀ m b, onion_message_write m = Ok b → onion_message_read b = Ok m) →
  onion_message_write msg = Ok buf →
  ∃ req, relay_outgoing_msg_event peer msg w = bind (send_custom_message req) (λ _, ret tt) w ∧
    message_event {| cm_peer := scm_peer req; cm_type := scm_type req; cm_data := scm_data req |} =
      Some (IncomingMessage peer msg).
Proof.
  intros Hrt Hw. unfold relay_outgoing_msg_event. rewrite Hw. cbv zeta. eexists. split; [reflexivity|].
  unfold message_event. cbn [cm_type cm_peer cm_data scm_type scm_peer scm_data].
  by rewrite Z.eqb_refl, pk_from_slice_serialize, (Hrt _ _ Hw).
Qed.

(** The next hop of a forwarded message is never found by its channel: LND
    names the ends of a channel by the hexadecimal text of their keys, and the
    lookup hands the bytes of that text to [PublicKey::from_slice]. *)
Theorem next_node_id_always_none `{!ChanInfo W} `{!SecpLaws} self scid (w : W) ci w' pk1 pk2 :
  get_chan_info scid w = (Ret (Ok ci), w') →
  node1_pub ci = pk_to_string pk1 → node2_pub ci = pk_to_string pk2 →
  next_node_id self scid w = (Ret None, w').
Proof.
  intros Hci E1 E2. unfold next_node_id. rewrite (bind_Ret _ _ _ _ _ Hci). cbv zeta. unfold ret.
  case_match; by rewrite ?E1, ?E2, pk_from_slice_of_text.
Qed.

Lemma nonempty_features_spec pk peers fs :
  nonempty_features pk peers = Some fs →
  ∃ p, p ∈ peers ∧ peer_pub_key p = pk ∧ peer_features p = fs.
Proof.
  induction peers as [|p peers IH]; [done|]. cbn.
  destruct (String.eqb_spec (peer_pub_key p) pk); cbn; [case_bool_decide|]; intros; set_solver.
Qed.

Context `{!LightningClient W, !Sleep W, !Runtime W}.

Lemma check_empty_features_spec rounds pk (w : W) fs w' :
  check_empty_features rounds pk w = (Ret (Some fs), w') →
  ∃ wa wb peers p, ln_list_peers wa = (Ret (Ok peers), wb) ∧ p ∈ peers ∧
    peer_pub_key p = pk_to_string pk ∧ peer_features p = fs.
Proof.
  revert w. induction rounds as [|rounds IH]; intros w Hrun; cbn [check_empty_features] in Hrun.
  { by run_inv. }
  apply bind_inv_Ret in Hrun as (r & w1 & Hl & Hrun). destruct r as [peers|]; [|by eapply IH].
  destruct (nonempty_features _ peers) as [fs'|] eqn:Hn.
  - run_inv. apply nonempty_features_spec in Hn as (p & ? & ? & ?). eauto 10.
  - apply bind_inv_Ret in Hrun as (u & w2 & _ & Hrun). by eapply IH.
Qed.

(** A peer is reported to support onion messages only when LND listed it,
    then or in a later answer, with a feature set that says so. *)
Theorem onion_support_is_announced pk (w w' : W) :
  lookup_onion_support pk w = (Ret true, w') →
  ∃ wa wb peers p, ln_list_peers wa = (Ret (Ok peers), wb) ∧ p ∈ peers ∧
    peer_pub_key p = pk_to_string pk ∧ features_support_onion_messages (peer_features p) = true.
Proof.
  unfold lookup_onion_support. intros Hrun. apply bind_inv_Ret in Hrun as (r & w1 & Hl & Hrun).
  destruct r as [peers|]; [|by run_inv]. destruct (find_peer _ peers) as [p|] eqn:Hf; [|by run_inv].
  apply bind_inv_Ret in Hrun as (n & w2 & _ & Hrun).
  apply bind_inv_Ret in Hrun as (o & w3 & Hc & Hrun). unfold ret in Hrun. simplify_eq.
  destruct o as [fs|]; cbn in *.
  - apply check_empty_features_spec in Hc as (wa & wb & ps & q & ? & ? & ? & ?). subst fs.
    by exists wa, wb, ps, q.
  - exists w, w1, peers, p. unfold find_peer in Hf.
    assert (p ∈ filter (λ q : Peer, peer_pub_key q = pk_to_string pk) peers) as [? ?]%list_elem_of_filter; [|done].
    destruct (filter _ peers); simplify_eq/=. set_solver.
Qed.
End relay.
