(* ===== verification/Shutdown.v ===== *)
(** * How the onion messenger stops

    [run_onion_messenger] of src/onion_messenger.rs runs four tasks beside its
    consumer.  What its result says about them: it returns normally only after
    the shutdown was triggered and all tasks ended without a panic, and every
    error has a cause. *)

From S2P Require Import Prelude RateLimit Grpc Ldk OfferError Lnd.
From S2P Require Import LndRequests OnionMessenger.
Open Scope Z_scope.

Section stop.
Context `{Secp} `{!Ldk} `{!OnionMessages} `{!StatusFmt} {W : Type}.
Context `{!LdkMessenger W, !EventChannel W, !Listener W, !Runtime W, !LightningClient W, !Sleep W,
          !PeerConnector W, !Shutdown W}.

(** What the messenger relies on: the flag of the shutdown and the tasks of its
    set.  The listener's branch is taken only when the flag is set, and a set
    flag stays.  The set is the messenger's own: only [set_spawn] adds to it and
    only [join_next] takes from it, a task whose code ended or panicked in a run
    of its own. *)
Class TaskLaws (code : MessengerTask → M W unit) : Type := {
  triggered : W → Prop;
  tasks : W → list MessengerTask;
  own_set (w w' : W) := tasks w' = tasks w;
  listener_seen w w' : select_listener w = (Ret true, w') → triggered w';
  trigger_sets w u w' : trigger_shutdown w = (Ret u, w') → triggered w';
  set_spawn_adds t w u w' : set_spawn t (code t) w = (Ret u, w') → tasks w' = tasks w ++ [t];
  join_takes w r w' : join_next w = (Ret r, w') →
    (triggered w → triggered w') ∧
    match r with
    | None => tasks w = [] ∧ tasks w' = []
    | Some ok => ∃ t l1 l2 wa wb, tasks w = l1 ++ t :: l2 ∧ tasks w' = l1 ++ l2 ∧
        code t wa = (if ok then Ret tt else Panic, wb) ∧ (triggered wb → triggered w')
    end;
  own_list_peers : respects own_set ln_list_peers;
  own_channel_new n : respects own_set (channel_new n);
  own_send ev : respects own_set (send_event ev);
  own_recv : respects own_set recv_event;
  own_connected pk i b : respects own_set (om_peer_connected pk i b);
  own_disconnected pk : respects own_set (om_peer_disconnected pk);
  own_handle pk msg : respects own_set (om_handle_onion_message pk msg);
  own_process f : (∀ e, respects own_set (f e)) → respects own_set (om_process_pending_events f);
  own_next pk : respects own_set (om_next_onion_message_for_peer pk);
  own_send_custom req : respects own_set (ln_send_custom_message req);
  own_sleep ms : respects own_set (sleep ms);
  own_spawn c : respects own_set (spawn c);
}.

Context {code : MessengerTask → M W unit} `{!TaskLaws code}.

#[local] Instance own_set_preorder : PreOrder own_set.
Proof. split; [done|]. intros w1 w2 w3 Ha Hb. unfold own_set in *. congruence. Qed.

(** ** The tasks *)

Lemma supervised_ends {E} (producer : M W (result unit E)) (w w' : W) :
  (∀ w1 u w2, producer w1 = (Ret (Ok u), w2) → triggered w2) →
  supervise producer w = (Ret tt, w') → triggered w'.
Proof.
  intros Hok. unfold supervise. intros (r & w1 & Hp & Hrun)%bind_inv_Ret. destruct r as [u|e].
  - run_inv. by eapply Hok.
  - by eapply trigger_sets.
Qed.

Lemma reconnection_ends `{!ReconnectionClient W} fuel (w : W) u w' :
  receive_reconnection_event fuel w = (Ret (Ok u), w') → triggered w'.
Proof.
  revert w. induction fuel as [|fuel IH]; intros w Hrun; [done|]. cbn [receive_reconnection_event] in Hrun.
  apply bind_inv_Ret in Hrun as (b & w1 & Hl & Hrun). destruct b; [run_inv; by eapply listener_seen|].
  run_inv. by eapply IH.
Qed.

Lemma peer_producer_ends `{!PeerEventProducer W} fuel (w : W) u w' :
  produce_peer_events fuel w = (Ret (Ok u), w') → triggered w'.
Proof.
  revert w. induction fuel as [|fuel IH]; intros w Hrun; [done|]. cbn [produce_peer_events] in Hrun.
  apply bind_inv_Ret in Hrun as (b & w1 & Hl & Hrun). destruct b; [run_inv; by eapply listener_seen|].
  apply bind_inv_Ret in Hrun as (r & w2 & _ & Hrun). destruct r as [pe|e]; [|by run_inv].
  destruct (pe_type pe); run_inv; by eapply IH.
Qed.

Lemma outgoing_producer_ends interval fuel (w : W) u w' :
  produce_outgoing_message_events interval fuel w = (Ret (Ok u), w') → triggered w'.
Proof.
  revert w. induction fuel as [|fuel IH]; intros w Hrun; [done|].
  cbn [produce_outgoing_message_events] in Hrun.
  apply bind_inv_Ret in Hrun as (b & w1 & Hl & Hrun). destruct b; [run_inv; by eapply listener_seen|].
  run_inv. by eapply IH.
Qed.

(** ** The messenger leaves its set alone while it consumes *)

Hint Resolve own_list_peers own_channel_new own_send own_recv own_connected own_disconnected
  own_handle own_next own_send_custom own_sleep own_spawn : lndk.
Hint Resolve respects_ret respects_panic respects_pending respects_unwrap : lndk.

Lemma own_max_attempts {Req A} fuel (f : Req → M W (result A Status)) req max n :
  (∀ r, respects own_set (f r)) → respects own_set (with_max_attempts_loop fuel f req max n).
Proof.
  intros Hf. revert n. induction fuel as [|fuel IH]; intros n; cbn [with_max_attempts_loop]; respect.
Qed.

Lemma own_relay pk msg :
  respects own_set (relay_outgoing_msg_event (SendCustomMessage0 := CustomMessenger) pk msg).
Proof.
  unfold relay_outgoing_msg_event. destruct (onion_message_write msg); [|respect].
  apply respects_bind; [exact _| |intros ?; respect].
  apply own_max_attempts. intros ?. apply own_send_custom.
Qed.

Lemma own_send_outgoing ps :
  respects own_set (send_outgoing_to (SendCustomMessage0 := CustomMessenger) ps).
Proof.
  pose proof own_relay. induction ps as [|pk ps IH]; cbn [send_outgoing_to]; respect.
Qed.

Lemma own_event_handler e : respects own_set (LndkEventHandler_handle_event (W := W) e).
Proof. destruct e; cbn [LndkEventHandler_handle_event]; respect. Qed.

Lemma own_consume {R} `{!RateLimiter PublicKey R} network fuel (rl : R) :
  respects own_set (consume_messenger_events (SendCustomMessage0 := CustomMessenger)
                      LndkEventHandler_handle_event network fuel rl).
Proof.
  pose proof own_send_outgoing. pose proof (own_process _ own_event_handler).
  revert rl. induction fuel as [|fuel IH]; intros rl; cbn [consume_messenger_events]; [respect|].
  apply respects_bind; [exact _|apply own_recv|]. intros [ev|]; [|respect].
  apply respects_try_bind; [exact _| |done].
  destruct ev; cbn [consume_event]; respect.
Qed.

Lemma own_announce : respects own_set (announce_current_peers (W := W)).
Proof.
  assert (∀ ps acc, respects own_set (build_peer_support_loop (W := W) ps acc)) as Hb.
  { induction ps as [|p ps IH]; intros acc; cbn [build_peer_support_loop]; respect. }
  assert (∀ ps, respects own_set (send_peers (W := W) ps)) as Hs.
  { induction ps as [|[pk b] ps IH]; cbn [send_peers]; respect. }
  unfold announce_current_peers, get_current_peers, build_peer_support_from_response. respect.
Qed.

(** ** Joining *)

(** A task that ended; what was triggered when it ended still is. *)
Definition ended (t : MessengerTask) (w : W) : Prop :=
  ∃ wa wb, code t wa = (Ret tt, wb) ∧ (triggered wb → triggered w).

Definition panicked (t : MessengerTask) : Prop := ∃ wa wb, code t wa = (Panic, wb).

Lemma join_all_spec n e (w : W) r w' :
  join_all n e w = (Ret r, w') →
  (triggered w → triggered w') ∧
  (r = false → e = false ∧ ∀ c, c ∈ tasks w → ended c w') ∧
  (r = true → e = true ∨ ∃ c, c ∈ tasks w ∧ panicked c).
Proof.
  revert e w. induction n as [|n IH]; intros e w Hrun; [done|]. cbn [join_all] in Hrun.
  apply bind_inv_Ret in Hrun as (o & w1 & [Ht Hj]%join_takes & Hrun). destruct o as [ok|].
  2:{ destruct Hj as [Hnil _]. run_inv. rewrite Hnil. split_and!; [done| |auto].
      intros ->. split; [done|]. intros c Hc. by apply elem_of_nil in Hc. }
  destruct Hj as (c & l1 & l2 & wa & wb & Hw & Hw1 & Hc & Hwb).
  assert (∃ e', join_all n e' w1 = (Ret r, w') ∧ e' = (if ok then e else true)) as (e' & Hrun' & ->)
    by (destruct ok; eauto).
  destruct (IH _ _ Hrun') as (Hm & Hf & Hp). split; [auto|]. split.
  - intros Hr. destruct (Hf Hr) as [He Hall]. destruct ok; [|done]. split; [done|].
    intros d. rewrite Hw, elem_of_app, elem_of_cons. rewrite Hw1 in Hall.
    intros [Hd|[->|Hd]]; [apply Hall; set_solver| |apply Hall; set_solver].
    exists wa, wb. auto.
  - intros Hr. destruct (Hp Hr) as [He|(d & Hd & Hdp)].
    + destruct ok; [by left|]. right. exists c. split; [rewrite Hw; set_solver|by exists wa, wb].
    + right. exists d. split; [|done]. rewrite Hw1 in Hd. rewrite Hw. set_solver.
Qed.

End stop.

(** ** The result of the messenger *)

Section run.
Context `{Secp} `{!Ldk} `{!OnionMessages} `{!StatusFmt} {W : Type}.
Context `{!LdkMessenger W, !EventChannel W, !Listener W, !Runtime W, !LightningClient W, !Sleep W,
          !PeerConnector W, !Shutdown W}.
Context {C : Type} `{!Clock C}.
Variable fuel : nat.
Variable interval notified : M W unit.
Variable clock : C.

Definition task_code (t : MessengerTask) : M W unit :=
  match t with
  | ReconnectionTask => reconnection_task fuel notified
  | PeersTask => peers_task fuel
  | MessagesTask => messages_task fuel
  | OutgoingTask => outgoing_task fuel interval
  end.

Context `{!TaskLaws task_code}.

(** Three of the tasks end only with the shutdown; the one that receives
    messages also ends when LND refuses the subscription for good. *)
Lemma task_ends t (w w' : W) :
  t ≠ MessagesTask → task_code t w = (Ret tt, w') → triggered w'.
Proof.
  destruct t; cbn [task_code]; intros Ht.
  - apply supervised_ends. intros ???. apply reconnection_ends.
  - unfold peers_task. intros (r & w1 & _ & Hrun)%bind_inv_Ret. destruct r; [|by eapply trigger_sets].
    revert Hrun. apply supervised_ends. intros ???. apply peer_producer_ends.
  - done.
  - apply supervised_ends. intros ???. apply outgoing_producer_ends.
Qed.

(** The consumer's run within the messenger: once all tasks are spawned, with the
    limiter for the announced peers. *)
Definition consumed network cfg (w wa : W) (cr : result unit ConsumerError) (wb : W) : Prop :=
  ∃ peers w1,
    announce_current_peers w = (Ret (Ok peers), w1) ∧
    tasks wa = [ReconnectionTask; PeersTask; MessagesTask; OutgoingTask] ∧
    consume_messenger_events (SendCustomMessage0 := CustomMessenger)
      LndkEventHandler_handle_event network fuel
      (TokenLimiter_new (map_to_list peers).*1 (cfg_call_count cfg) (cfg_call_period cfg) clock) wa
      = (Ret cr, wb).

(** C14: the messenger returns normally only after its consumer ended normally,
    the shutdown was triggered, and all four tasks ended without a panic.  When
    it returns an error, the current peers could not be announced, or the
    consumer failed, or one of the tasks panicked. *)
Theorem messenger_stops_cleanly network cfg (w : W) r w' :
  tasks w = [] →
  run_onion_messenger fuel interval notified clock network cfg w = (Ret r, w') →
  (r = Ok tt → triggered w' ∧ (∀ t, ended t w') ∧ ∃ wa wb, consumed network cfg w wa (Ok tt) wb) ∧
  (r = Err tt → (∃ e, announce_current_peers w = (Ret (Err e), w')) ∨
     (∃ wa e wb, consumed network cfg w wa (Err e) wb) ∨
     ∃ t, panicked (code := task_code) t).
Proof.
  intros Hw Hrun. unfold run_onion_messenger in Hrun.
  apply try_bind_inv in Hrun as [(peers & w1 & Hann & Hrun)|(e & Ha & ->)];
    [|split; [done|]; intros _; left; by exists e].
  pose proof (own_announce _ _ _ Hann) as Ha.
  apply bind_inv_Ret in Hrun as (u1 & w2 & Hs1%(set_spawn_adds (code := task_code) ReconnectionTask) & Hrun).
  apply bind_inv_Ret in Hrun as (u2 & w3 & Hs2%(set_spawn_adds (code := task_code) PeersTask) & Hrun).
  apply bind_inv_Ret in Hrun as (u3 & w4 & Hs3%(set_spawn_adds (code := task_code) MessagesTask) & Hrun).
  apply bind_inv_Ret in Hrun as (u4 & w5 & Hs4%(set_spawn_adds (code := task_code) OutgoingTask) & Hrun). cbv zeta in Hrun.
  apply bind_inv_Ret in Hrun as (cr & w6 & Hc & Hrun). pose proof (own_consume _ _ _ _ _ _ Hc) as Hc'.
  apply bind_inv_Ret in Hrun as (te & w7 & Hj & Hrun). unfold own_set in *.
  assert (tasks w5 = [ReconnectionTask; PeersTask; MessagesTask; OutgoingTask]) as Ht5
    by (rewrite Hs4, Hs3, Hs2, Hs1, Ha, Hw; done).
  assert (tasks w6 = [ReconnectionTask; PeersTask; MessagesTask; OutgoingTask]) as Ht by congruence.
  assert (consumed network cfg w w5 cr w6) as Hcons by (by exists peers, w1).
  apply join_all_spec in Hj as (_ & Hf & Hp). rewrite Ht in Hf, Hp.
  assert (w' = w7) as -> by (destruct cr, te; cbn in Hrun; by run_inv).
  split; intros ->.
  - destruct cr as [[]|], te; cbn in Hrun; try by run_inv. destruct (Hf eq_refl) as [_ Hall].
    assert (∀ t, ended t w7) as Hend by (intros []; apply Hall; set_solver).
    split_and!; [|done|by exists w5, w6]. destruct (Hend OutgoingTask) as (wa & wb & He & Htr).
    by eapply Htr, (task_ends OutgoingTask).
  - right. destruct cr as [|e]; [|left; by eexists _, _, _]. destruct te; cbn in Hrun; [|by run_inv].
    right. destruct (Hp eq_refl) as [?|(tk & _ & ?)]; [done|by exists tk].
Qed.
End run.
