(* ===== verification/MessageRouter.v ===== *)
(** * Routing of onion messages

    Models src/message_router.rs: [MessageRouter], which answers LDK's requests
    for a path to the first node of a destination, and hands the creation of
    blinded paths to LDK's own router. *)

From S2P Require Import Prelude Grpc Ldk OfferError Lnd.
Open Scope Z_scope.

(** LDK's socket addresses and its default message router. *)
Class InnerRouter `{Ldk} (W : Type) : Type := {
  SocketAddress : Type;
  socket_address_from_str : string → option SocketAddress;
  inner_create_blinded_paths :
    PublicKey → MessageContext → list PublicKey → M W (result (list BlindedMessagePath) unit);
}.

Section router.
Context `{Ldk} {W : Type} `{!PeerConnector W, !InnerRouter W}.

Record OnionMessagePath := {
  intermediate_nodes : list PublicKey;
  path_destination : Destination;
  first_node_addresses : option (list SocketAddress);
}.

Definition get_first_node (destination : Destination) : option PublicKey :=
  match destination with
  | DestNode node_id => Some node_id
  | DestBlindedPath path =>
      match message_path_introduction_node path with
      | NodeId pubkey => Some pubkey
      | DirectedShortChannelId _ _ => None
      end
  end.

Definition find_path (sender : PublicKey) (peers : list PublicKey) (destination : Destination)
    : M W (result OnionMessagePath unit) :=
  match get_first_node destination with
  | None => ret (Err tt)
  | Some first_node =>
      if bool_decide (first_node ∈ peers) || bool_decide (sender = first_node) then
        ret (Ok {| intermediate_nodes := []; path_destination := destination;
                   first_node_addresses := None |})
      else
        let? node_info := map_err (λ _, tt) (get_node_info (pk_to_string first_node) false) in
        match info_node node_info with
        | Some node =>
            if negb (bool_decide (node_addresses node = []))
               && features_support_onion_messages (node_features node) then
              let addresses :=
                omap (λ addr, socket_address_from_str (addr_addr addr)) (node_addresses node) in
              match addresses with
              | [] => ret (Err tt)
              | _ => ret (Ok {| intermediate_nodes := []; path_destination := destination;
                                first_node_addresses := Some addresses |})
              end
            else ret (Err tt)
        | None => ret (Err tt)
        end
  end.

Definition create_blinded_paths (recipient : PublicKey) (context : MessageContext)
    (peers : list PublicKey) : M W (result (list BlindedMessagePath) unit) :=
  inner_create_blinded_paths recipient context peers.

Definition create_compact_blinded_paths (recipient : PublicKey) (context : MessageContext)
    (peers : list MessageForwardNode) : M W (result (list BlindedMessagePath) unit) :=
  let peers := map fwd_node_id peers in
  create_blinded_paths recipient context peers.

(** The node that a destination names itself or as its introduction node. *)
Definition leads_to (destination : Destination) (node : PublicKey) : Prop :=
  destination = DestNode node ∨
  ∃ path, destination = DestBlindedPath path ∧ message_path_introduction_node path = NodeId node.

Lemma get_first_node_leads destination node :
  get_first_node destination = Some node ↔ leads_to destination node.
Proof.
  unfold get_first_node, leads_to. destruct destination as [pk|path].
  - split; [intros [= ->]; by left|]. by intros [[= ->]|(path & ? & _)].
  - destruct (message_path_introduction_node path) as [pk|dir scid] eqn:E.
    + split; [intros [= ->]; right; eauto|]. intros [?|(p & [= <-] & Hp)]; [done|]. congruence.
    + split; [done|]. intros [?|(p & [= <-] & Hp)]; [done|]. congruence.
Qed.

(** C38: a path found leads straight to the destination and can be taken: its
    first node, the one the destination names itself or as its introduction node,
    is ourselves or a connected peer, and then LND is not asked, or it is a node
    that LND knows with onion message support, and then the path has all of its
    addresses that can be parsed, at least one.  There always is a path to
    ourselves and to a connected peer; a destination that names its first node
    by a channel has no path, and LND is not asked. *)
Theorem found_path_is_usable sender peers destination w :
  (∀ path w', find_path sender peers destination w = (Ret (Ok path), w') →
     intermediate_nodes path = [] ∧ path_destination path = destination ∧
     ∃ first_node, leads_to destination first_node ∧
       (((first_node ∈ peers ∨ first_node = sender) ∧ first_node_addresses path = None ∧ w' = w) ∨
        (¬ first_node ∈ peers ∧ first_node ≠ sender ∧
         ∃ info node addresses,
           get_node_info (pk_to_string first_node) false w = (Ret (Ok info), w') ∧
           info_node info = Some node ∧
           features_support_onion_messages (node_features node) = true ∧
           first_node_addresses path = Some addresses ∧ addresses ≠ [] ∧
           addresses = omap (λ a, socket_address_from_str (addr_addr a)) (node_addresses node)))) ∧
  (∀ first_node, leads_to destination first_node → first_node ∈ peers ∨ first_node = sender →
     find_path sender peers destination w =
       (Ret (Ok {| intermediate_nodes := []; path_destination := destination;
                   first_node_addresses := None |}), w)) ∧
  (∀ path direction scid, destination = DestBlindedPath path →
     message_path_introduction_node path = DirectedShortChannelId direction scid →
     find_path sender peers destination w = (Ret (Err tt), w)).
Proof.
  split_and!.
  - intros path w' Hrun. unfold find_path in Hrun.
    destruct (get_first_node destination) as [fn|] eqn:Hfn; [|by run_inv].
    apply get_first_node_leads in Hfn.
    destruct (bool_decide (fn ∈ peers) || bool_decide (sender = fn)) eqn:Hb.
    { run_inv. split_and!; [done..|]. exists fn. split; [done|]. left. split; [|done].
      apply orb_true_iff in Hb as [Hb|Hb]; apply bool_decide_eq_true in Hb; auto. }
    apply orb_false_iff in Hb as [Hb1%bool_decide_eq_false Hb2%bool_decide_eq_false].
    apply try_bind_inv in Hrun as [(info & w1 & Hinfo & Hrun)|(e & _ & ?)]; [|done].
    apply map_err_inv_Ok in Hinfo. destruct (info_node info) as [node|] eqn:Hn; [|by run_inv].
    destruct (features_support_onion_messages _) eqn:Hf; [|by rewrite andb_false_r in Hrun; run_inv].
    rewrite andb_true_r in Hrun. destruct (negb _); [|by run_inv]. cbv zeta in Hrun.
    destruct (omap _ (node_addresses node)) as [|a addrs] eqn:Ho; run_inv.
    split_and!; [done..|]. exists fn. split; [done|]. right. split_and!; [done|auto|].
    exists info, node, (a :: addrs). by rewrite Ho.
  - intros fn Hfn%get_first_node_leads Hin. unfold find_path. rewrite Hfn.
    assert (bool_decide (fn ∈ peers) || bool_decide (sender = fn) = true) as ->; [|done].
    apply orb_true_iff. rewrite !bool_decide_eq_true. naive_solver.
  - intros path dir scid -> Hi. unfold find_path, get_first_node. by rewrite Hi.
Qed.
End router.
