(* ===== verification/ClientImpls.v ===== *)
(** * The clients of LND

    Models src/offers/client_impls.rs: how the traits over LND are implemented
    by requests to its gRPC services.  The services are a class over the world;
    the records carry the request fields that the code sets. *)

From S2P Require Import Prelude Grpc Ldk OfferError Lnd LndRequests LndRequestsFacts.
Open Scope Z_scope.

Record LightningAddress := { la_pubkey : string; la_host : string }.
Record ConnectPeerRequest := { cp_addr : option LightningAddress; cp_timeout : Z }.
Record NodeInfoRequest := { ni_pub_key : string; ni_include_channels : bool }.
Record ListChannelsRequest := {
  lc_active_only : bool; lc_inactive_only : bool; lc_public_only : bool; lc_private_only : bool;
}.
Record SignMessageReq := {
  sm_msg : bytes; sm_key_loc : option KeyLocator; sm_double_hash : bool; sm_schnorr_sig : bool;
}.
Record QueryRoutesRequest := {
  qr_amt_msat : Z;
  qr_blinded_payment_paths : list LndBlindedPaymentPath;
  qr_fee_limit : option FeeLimit;
}.
Record SendToRouteRequest (Route : Type) := { sr_payment_hash : bytes; sr_route : option Route }.
Arguments Build_SendToRouteRequest {Route}.
Record TrackPaymentRequest := { tp_payment_hash : bytes; tp_no_inflight_updates : bool }.
Record Invoice := {
  inv_memo : string; inv_value_msat : Z; inv_expiry : Z; inv_is_blinded : bool;
}.

(** LND's services. *)
Class LndRpc (W : Type) : Type := {
  RpcRoute : Type;
  RpcHtlcAttempt : Type;
  rpc_list_peers : M W (result (list Peer) Status);
  rpc_connect_peer : ConnectPeerRequest → M W (result unit Status);
  rpc_get_node_info : NodeInfoRequest → M W (result NodeInfo Status);
  rpc_list_channels : ListChannelsRequest → M W (result (list Channel) Status);
  rpc_sign_message : SignMessageReq → M W (result bytes Status);
  rpc_query_routes : QueryRoutesRequest → M W (result (list RpcRoute) Status);
  rpc_send_to_route_v2 : SendToRouteRequest RpcRoute → M W (result RpcHtlcAttempt Status);
  rpc_track_payment_v2 : TrackPaymentRequest → M W (result unit Status);
  (** [message] on the stream of payment updates. *)
  rpc_payment_update : M W (result (option Payment) Status);
  rpc_get_info : M W (result GetInfoResponse Status);
  rpc_add_invoice : Invoice → M W (result string Status);
  rpc_decode_pay_req : string → M W (result PayReq Status);
}.

Section clients.
Context `{Ldk} {W : Type} `{!LndRpc W, !ChanInfo W}.

Definition client_connect_peer (node_id addr : string) : M W (result unit Status) :=
  let ln_addr := {| la_pubkey := node_id; la_host := addr |} in
  let connect_req := {| cp_addr := Some ln_addr; cp_timeout := 20 |} in
  rpc_connect_peer connect_req.

Definition client_get_node_info (pub_key : string) (include_channels : bool)
    : M W (result NodeInfo Status) :=
  rpc_get_node_info {| ni_pub_key := pub_key; ni_include_channels := include_channels |}.

Definition client_list_active_public_channels : M W (result (list Channel) Status) :=
  rpc_list_channels {| lc_active_only := true; lc_inactive_only := false;
                       lc_public_only := true; lc_private_only := false |}.

#[local] Instance LightningClient_PeerConnector : PeerConnector W := {
  list_peers := rpc_list_peers;
  connect_peer := client_connect_peer;
  get_node_info := client_get_node_info;
  list_active_public_channels := client_list_active_public_channels;
}.

Definition client_sign_message (msg : bytes) (key_loc : KeyLocator) (double_hash schnorr_sig : bool)
    : M W (result bytes unit) :=
  let req := {| sm_msg := msg; sm_key_loc := Some key_loc; sm_double_hash := double_hash;
                sm_schnorr_sig := schnorr_sig |} in
  let* resp := rpc_sign_message req in
  let* signature := unwrap (result_ok resp) in
  ret (Ok signature).

(** A hop as LND has it. *)
Definition to_lnd_hop (hop : BlindedHop) : LndBlindedHop :=
  {| lnd_blinded_node := pk_serialize (blinded_node_id hop);
     lnd_encrypted_data := encrypted_payload hop |}.

Definition client_query_routes (path : BlindedPaymentPath)
    (cltv_expiry_delta fee_base_msat fee_ppm msats : Z) (fee_limit : option FeeLimit)
    : M W (result (list RpcRoute) Status) :=
  let blinded_hops := map to_lnd_hop (payment_path_blinded_hops path) in
  let? introduction_node :=
    match payment_path_introduction_node path with
    | NodeId pubkey => ret (Ok pubkey)
    | DirectedShortChannelId direction scid =>
        map_err (λ _, Status_new Unknown "Could not get node id.") (get_node_id scid direction)
    end in
  let blinded_path :=
    Some {| lnd_introduction_node := pk_serialize introduction_node;
            lnd_blinding_point := pk_serialize (payment_path_blinding_point path);
            lnd_blinded_hops := blinded_hops |} in
  let blinded_payment_paths :=
    {| lnd_blinded_path := blinded_path;
       lnd_base_fee_msat := fee_base_msat;
       lnd_proportional_fee_rate := fee_ppm;
       lnd_total_cltv_delta := cltv_expiry_delta + 120;
       lnd_htlc_min_msat := 0; lnd_htlc_max_msat := 0; lnd_features := [] |} in
  rpc_query_routes {| qr_amt_msat := wrap_i 64 msats;
                      qr_blinded_payment_paths := [blinded_payment_paths];
                      qr_fee_limit := fee_limit |}.

Definition client_send_to_route (payment_hash : PaymentHash) (route : RpcRoute)
    : M W (result RpcHtlcAttempt Status) :=
  rpc_send_to_route_v2 {| sr_payment_hash := payment_hash; sr_route := Some route |}.

(** The loop over the stream of updates. *)
Fixpoint track_payment_loop (fuel : nat) : M W (result Payment OfferError) :=
  match fuel with
  | O => pending
  | S fuel =>
      let? o := map_err (λ e, TrackFailure (status_message e)) rpc_payment_update in
      match o with
      | None => ret (Err PaymentFailure)
      | Some payment =>
          if bool_decide (payment_status payment = PaymentSucceeded) then ret (Ok payment)
          else if bool_decide (payment_status payment = PaymentFailed) then
            ret (Err PaymentFailure)
          else track_payment_loop fuel
      end
  end.

Definition client_track_payment (fuel : nat) (payment_hash : PaymentHash)
    : M W (result Payment OfferError) :=
  let req := {| tp_payment_hash := payment_hash; tp_no_inflight_updates := true |} in
  let? _ := map_err (λ e, TrackFailure (status_message e)) (rpc_track_payment_v2 req) in
  track_payment_loop fuel.

#[local] Instance Client_InvoicePayer (fuel : nat) : InvoicePayer W := {
  Route := RpcRoute;
  HtlcAttempt := RpcHtlcAttempt;
  query_routes := client_query_routes;
  send_to_route := client_send_to_route;
  payer_track_payment := client_track_payment fuel;
}.

Definition client_add_invoice (invoice_request : InvoiceRequest) : M W (result string Status) :=
  let amount := match invoice_request_amount invoice_request with
                | Some (AmountBitcoin amount_msats) => wrap_i 64 amount_msats
                | _ => 0
                end in
  let description := default "" (invoice_request_description invoice_request) in
  rpc_add_invoice {| inv_memo := description; inv_value_msat := amount;
                     inv_expiry := 60 * 60 * 24; inv_is_blinded := true |}.

#[local] Instance Client_Bolt12InvoiceCreator : Bolt12InvoiceCreator W := {
  add_invoice := client_add_invoice;
  decode_payment_request := rpc_decode_pay_req;
}.

(** ** Facts *)

Lemma wrap_i_id z : 0 ≤ z < 2 ^ 64 → (wrap_i 64 z = z ↔ z < 2 ^ 63).
Proof.
  intros Hz. unfold wrap_i. rewrite Z.mod_small by done. replace (64 - 1) with 63 by lia.
  destruct (Z.ltb_spec z (2 ^ 63)); lia.
Qed.

Lemma wrap_i_negative z : 2 ^ 63 ≤ z < 2 ^ 64 → wrap_i 64 z < 0.
Proof.
  intros Hz. unfold wrap_i. rewrite Z.mod_small by lia. replace (64 - 1) with 63 by lia.
  destruct (Z.ltb_spec z (2 ^ 63)); lia.
Qed.

Lemma hops_roundtrip `{!SecpLaws} hops (w : W) :
  parse_blinded_hops (map to_lnd_hop hops) w = (Ret hops, w).
Proof.
  apply map_m_roundtrip. intros [k d]. cbn. by rewrite pk_from_slice_serialize.
Qed.

(** The node a path starts at: given with the path, or looked up by the channel
    that the path names. *)
Definition starts_at (path : BlindedPaymentPath) (w : W) (r : result PublicKey OfferError) (w' : W)
    : Prop :=
  match payment_path_introduction_node path with
  | NodeId node => r = Ok node ∧ w' = w
  | DirectedShortChannelId dir scid => get_node_id scid dir w = (Ret r, w')
  end.

(** C33: one request for routes is made, and it describes the path it is given:
    reading its one path back as LNDK reads LND's paths gives the path's blinding
    point and hops, and as its introduction node the one that the path names or,
    when the path names a channel instead, the one [get_node_id] found for it; when
    it found none nothing is requested.  The fees are the ones given, the CLTV
    delta is the one given with a margin of 120 blocks and stays a [u32].  The
    amount is the one to pay as long as it fits LND's signed type, and a negative
    number otherwise. *)
Theorem query_routes_request_faithful `{!SecpLaws} path cltv base ppm msats fee_limit (w : W) r w1 :
  starts_at path w r w1 → in_u 16 cltv → in_u 64 msats →
  match r with
  | Err _ => client_query_routes path cltv base ppm msats fee_limit w =
               (Ret (Err (Status_new Unknown "Could not get node id.")), w1)
  | Ok node => ∃ req lpath,
      client_query_routes path cltv base ppm msats fee_limit w = rpc_query_routes req w1 ∧
      qr_fee_limit req = fee_limit ∧
      (qr_amt_msat req = msats ↔ msats < 2 ^ 63) ∧ (2 ^ 63 ≤ msats → qr_amt_msat req < 0) ∧
      (∃ p, qr_blinded_payment_paths req = [p] ∧ lnd_blinded_path p = Some lpath ∧
         lnd_base_fee_msat p = base ∧ lnd_proportional_fee_rate p = ppm ∧
         lnd_total_cltv_delta p = cltv + 120 ∧ in_u 32 (lnd_total_cltv_delta p)) ∧
      pk_from_slice (lnd_introduction_node lpath) = Some node ∧
      pk_from_slice (lnd_blinding_point lpath) = Some (payment_path_blinding_point path) ∧
      ∀ w2 : W, parse_blinded_hops (lnd_blinded_hops lpath) w2 = (Ret (payment_path_blinded_hops path), w2)
  end.
Proof.
  unfold in_u. intros Hn Hc Hm. unfold starts_at in Hn. unfold client_query_routes. cbv zeta.
  destruct (payment_path_introduction_node path) as [node|dir scid];
    [destruct Hn as [-> ->]
    |destruct r as [node|e]; unfold try_bind, map_err; rewrite bind_assoc, (bind_Ret _ _ _ _ _ Hn);
       [|done]].
  all: eexists _, _; split; [reflexivity|]; cbn [qr_fee_limit qr_amt_msat qr_blinded_payment_paths].
  all: split_and!; [done|by apply wrap_i_id|intros; apply wrap_i_negative; lia
    |eexists; split; [reflexivity|]; cbn; split_and!; [done..|lia|lia]
    |apply pk_from_slice_serialize|apply pk_from_slice_serialize|intros; apply hops_roundtrip].
Qed.

(** No routes are ever asked for when a path names its introduction node by
    a channel that LND knows: the key of the node is not recovered and the
    query fails, so that such a path cannot be paid over. *)
Theorem query_routes_scid_fails `{!SecpLaws} path dir scid cltv base ppm msats fee_limit (w : W) ci w' pk1 pk2 :
  payment_path_introduction_node path = DirectedShortChannelId dir scid →
  get_chan_info scid w = (Ret (Ok ci), w') →
  node1_pub ci = pk_to_string pk1 → node2_pub ci = pk_to_string pk2 →
  client_query_routes path cltv base ppm msats fee_limit w =
    (Ret (Err (Status_new Unknown "Could not get node id.")), w').
Proof.
  intros Hn Hci E1 E2. unfold client_query_routes. rewrite Hn. cbv zeta.
  unfold try_bind at 1, map_err. rewrite bind_assoc.
  by rewrite (bind_Ret _ _ _ _ _ (get_node_id_none scid dir w ci w' pk1 pk2 Hci E1 E2)).
Qed.

(** [updates ps w r w']: the stream gives the updates [ps] and then, if there is
    one, the answer that ends the tracking. *)
Inductive updates : list Payment → W → result Payment OfferError → W → Prop :=
| up_failed w e w' : rpc_payment_update w = (Ret (Err e), w') →
    updates [] w (Err (TrackFailure (status_message e))) w'
| up_ended w w' : rpc_payment_update w = (Ret (Ok None), w') → updates [] w (Err PaymentFailure) w'
| up_settled w p w' : rpc_payment_update w = (Ret (Ok (Some p)), w') →
    payment_status p = PaymentSucceeded → updates [p] w (Ok p) w'
| up_gave_up w p w' : rpc_payment_update w = (Ret (Ok (Some p)), w') →
    payment_status p = PaymentFailed → updates [p] w (Err PaymentFailure) w'
| up_next w p w1 ps r w' : rpc_payment_update w = (Ret (Ok (Some p)), w1) →
    payment_status p ≠ PaymentSucceeded → payment_status p ≠ PaymentFailed →
    updates ps w1 r w' → updates (p :: ps) w r w'.

Lemma track_payment_loop_sound fuel w r w' :
  track_payment_loop fuel w = (Ret r, w') → ∃ ps, updates ps w r w' ∧ (length ps ≤ fuel)%nat.
Proof.
  revert w. induction fuel as [|fuel IH]; intros w Hrun; [done|]. cbn [track_payment_loop] in Hrun.
  apply try_bind_inv in Hrun as [(o & w1 & Hu & Hrun)|(e & Hu & ->)].
  2:{ apply map_err_inv_Err in Hu as (e0 & Hu & ->). exists []. split; [by constructor|cbn; lia]. }
  apply map_err_inv_Ok in Hu. destruct o as [p|].
  2:{ run_inv. exists []. split; [by constructor|cbn; lia]. }
  repeat case_bool_decide; run_inv.
  - eexists [_]. split; [by constructor|cbn; lia].
  - eexists [_]. split; [by apply (up_gave_up _ _ _ Hu)|cbn; lia].
  - destruct (IH _ Hrun) as (ps & Hps & Hlen). exists (p :: ps). split; [by eapply up_next|cbn; lia].
Qed.

Lemma track_payment_loop_complete ps w r w' fuel :
  updates ps w r w' → (length ps < fuel)%nat → track_payment_loop fuel w = (Ret r, w').
Proof.
  intros Hu. revert fuel. induction Hu as [w e w' E|w w' E|w p w' E Hs|w p w' E Hs|w p w1 ps r w' E Hs Hf _ IH];
    intros [|fuel] Hlen; try (cbn in Hlen; lia); cbn [track_payment_loop];
    unfold try_bind, map_err; rewrite bind_assoc, (bind_Ret _ _ _ _ _ E); cbn; try done.
  - by rewrite bool_decide_true.
  - rewrite bool_decide_false by congruence. by rewrite bool_decide_true.
  - rewrite !bool_decide_false by done. apply IH. cbn in Hlen. lia.
Qed.

(** C34: tracking a payment asks LND for the settled updates of its hash.  It
    returns a payment exactly when the stream reaches it as succeeded, all
    updates before it being unsettled; a refused request, a failed payment, a
    stream that ends and a stream that breaks are errors.  It ends as soon as
    the stream gives one of these. *)
Theorem track_payment_behaviour fuel hash w r w' :
  let req := {| tp_payment_hash := hash; tp_no_inflight_updates := true |} in
  (client_track_payment fuel hash w = (Ret r, w') →
     (∃ st, rpc_track_payment_v2 req w = (Ret (Err st), w') ∧ r = Err (TrackFailure (status_message st))) ∨
     ∃ w1 ps, rpc_track_payment_v2 req w = (Ret (Ok tt), w1) ∧ updates ps w1 r w') ∧
  (∀ w1 ps, rpc_track_payment_v2 req w = (Ret (Ok tt), w1) → updates ps w1 r w' →
     (length ps < fuel)%nat → client_track_payment fuel hash w = (Ret r, w')).
Proof.
  cbv zeta. unfold client_track_payment. cbv zeta. split.
  - intros [([] & w1 & Ht%map_err_inv_Ok & Hrun)|(e & Ht & ->)]%try_bind_inv.
    + right. destruct (track_payment_loop_sound _ _ _ _ Hrun) as (ps & ? & _). eauto.
    + left. apply map_err_inv_Err in Ht as (st & ? & ->). eauto.
  - intros w1 ps Ht Hu Hlen. unfold try_bind, map_err. rewrite bind_assoc.
    rewrite (bind_Ret _ _ _ _ _ Ht). by eapply track_payment_loop_complete.
Qed.
End clients.
