(* ===== verification/Server.v ===== *)
(** * The gRPC server

    Models src/server.rs: the five requests of the Offers service, the
    conversions of its messages and the authentication of its clients; with it
    [get_lnd_client] of src/lnd.rs and [Bolt12InvoiceString] of src/lib.rs. *)

From S2P Require Import Prelude Grpc Ldk OfferError Parse Lnd LndRequests Handler HandlerFacts.
Open Scope Z_scope.

(** ** Authentication *)

Inductive AuthError := InvalidMacaroon (e : string) | MissingMacaroon.

Definition AuthError_fmt (self : AuthError) : string :=
  match self with
  | InvalidMacaroon e => "Invalid macaroon string provided: " +:+ e
  | MissingMacaroon =>
      "No LND macaroon provided: Make sure to provide macaroon in request metadata"
  end.

Definition AuthError_code (self : AuthError) : string :=
  match self with
  | InvalidMacaroon _ => "INVALID_MACAROON"
  | MissingMacaroon => "MISSING_MACAROON"
  end.

Definition AuthError_grpc_code (self : AuthError) : Code :=
  match self with
  | InvalidMacaroon _ => InvalidArgument
  | MissingMacaroon => Unauthenticated
  end.

Definition AuthError_to_status (self : AuthError) : Status :=
  with_error_details (AuthError_grpc_code self) (AuthError_fmt self)
    {| error_reason := AuthError_code self; error_domain := "lndk" |}.

(** The metadata of a request: the value under a key, as [to_str] gives it. *)
Abbreviation MetadataMap := (string → option (result string string)).

Definition check_auth_metadata (metadata : MetadataMap) : result string Status :=
  match metadata "macaroon"%string with
  | Some macaroon_hex =>
      result_map_err (λ e, AuthError_to_status (InvalidMacaroon e)) macaroon_hex
  | None => Err (AuthError_to_status MissingMacaroon)
  end.

(** Connecting to LND, with credentials from files or from memory. *)
Class LndConnect (W : Type) : Type := {
  tonic_connect : string → string → string → M W (result unit string);
  tonic_connect_from_memory : string → string → string → M W (result unit string);
}.

Definition get_lnd_client {W} `{LndConnect W} (cfg : LndCfg) : M W (result unit LndError) :=
  match lnd_creds cfg with
  | CredsPath macaroon cert =>
      map_err LndConnectError (tonic_connect (lnd_address cfg) cert macaroon)
  | CredsString macaroon cert =>
      map_err LndConnectError (tonic_connect_from_memory (lnd_address cfg) cert macaroon)
  end.

(** ** Messages of the service *)

Record PayOfferRequest := {
  po_offer : string;
  po_amount : option Z;
  po_payer_note : option string;
  po_response_invoice_timeout : option Z;
  po_fee_limit : option Z;
  po_fee_limit_percent : option Z;
}.
Record GetInvoiceRequest := {
  gi_offer : string;
  gi_amount : option Z;
  gi_payer_note : option string;
  gi_response_invoice_timeout : option Z;
}.
Record PayInvoiceRequest := {
  pi_invoice : string;
  pi_amount : option Z;
  pi_fee_limit : option Z;
  pi_fee_limit_percent : option Z;
}.
Record CreateOfferRequest := {
  co_amount : option Z;
  co_description : option string;
  co_issuer : option string;
  co_expiry : option Z;
  co_quantity : option Z;
}.

Record RpcDirectedShortChannelId := { rpc_direction : Z; rpc_scid : Z }.
Record RpcIntroductionNode := {
  rpc_intro_node_id : option bytes;
  rpc_intro_scid : option RpcDirectedShortChannelId;
}.
Record RpcBlindedHop := { rpc_hop_node_id : option bytes; rpc_hop_payload : bytes }.
Record RpcBlindedPath := {
  rpc_path_introduction_node : option RpcIntroductionNode;
  rpc_path_blinding_point : option bytes;
  rpc_path_blinded_hops : list RpcBlindedHop;
}.
Record RpcBlindedPayInfo := {
  rpc_fee_base_msat : Z;
  rpc_fee_proportional_millionths : Z;
  rpc_cltv_expiry_delta : Z;
  rpc_htlc_minimum_msat : Z;
  rpc_htlc_maximum_msat : Z;
  rpc_payinfo_features : list Z;
}.
Record PaymentPaths := {
  pp_blinded_pay_info : option RpcBlindedPayInfo;
  pp_blinded_path : option RpcBlindedPath;
}.
Record Bolt12InvoiceContents := {
  bic_chain : string;
  bic_quantity : option Z;
  bic_amount_msats : Z;
  bic_description : option string;
  bic_payment_hash : option bytes;
  bic_payment_paths : list PaymentPaths;
  bic_created_at : Z;
  bic_relative_expiry : Z;
  bic_node_id : option bytes;
  bic_signature : string;
  bic_features : list Z;
  bic_payer_note : option string;
}.
Record GetInvoiceResponse := {
  gir_invoice_hex_str : string;
  gir_invoice_contents : option Bolt12InvoiceContents;
}.

(** ** Conversions *)

Definition parse_quantity (rpc_quantity : option Z) : option Quantity :=
  match rpc_quantity with
  | None => None
  | Some n => if n =? 0 then Some QUnbounded else if n =? 1 then Some QOne else Some (QBounded n)
  end.

Definition create_fee_limit (fee_limit fee_limit_percent : option Z) : option FeeLimit :=
  match fee_limit, fee_limit_percent with
  | Some fixed, None => Some (FixedMsat fixed)
  | None, Some percent => Some (Percent percent)
  | _, _ => None
  end.

(** The number of [FeatureBit::MppOpt]. *)
Definition MppOpt : Z := 17.

(** LDK's accessors and serialization of invoices; instants and durations in
    seconds. *)
Class InvoiceFields `{Ldk} : Type := {
  invoice_chain : Bolt12Invoice → string;
  invoice_quantity : Bolt12Invoice → option Z;
  invoice_amount_msats : Bolt12Invoice → Z;
  invoice_description : Bolt12Invoice → option string;
  invoice_created_at : Bolt12Invoice → Z;
  invoice_relative_expiry : Bolt12Invoice → Z;
  invoice_signing_pubkey : Bolt12Invoice → PublicKey;
  invoice_signature : Bolt12Invoice → string;
  invoice_payer_note : Bolt12Invoice → option string;
  payment_path_payinfo : BlindedPaymentPath → BlindedPayInfo;
  invoice_write : Bolt12Invoice → result bytes BitcoinIoError;
  invoice_try_from : bytes → option Bolt12Invoice;
  decode_error_invalid_value : DecodeError;
}.

Section conversions.
Context `{Ldk} `{!InvoiceFields}.

Definition convert_public_key (native_pub_key : PublicKey) : bytes := pk_serialize native_pub_key.

Definition convert_invoice_features : list Z := [MppOpt].

Definition convert_blinded_pay_info (native_info : BlindedPayInfo) : RpcBlindedPayInfo :=
  {| rpc_fee_base_msat := fee_base_msat native_info;
     rpc_fee_proportional_millionths := fee_proportional_millionths native_info;
     rpc_cltv_expiry_delta := cltv_expiry_delta native_info;
     rpc_htlc_minimum_msat := htlc_minimum_msat native_info;
     rpc_htlc_maximum_msat := htlc_maximum_msat native_info;
     rpc_payinfo_features := [] |}.

Definition convert_blinded_path (native_info : BlindedPaymentPath) : RpcBlindedPath :=
  let introduction_node :=
    match payment_path_introduction_node native_info with
    | NodeId pubkey =>
        {| rpc_intro_node_id := Some (convert_public_key pubkey); rpc_intro_scid := None |}
    | DirectedShortChannelId direction scid =>
        let rpc_direction := match direction with NodeOne => 0 | NodeTwo => 1 end in
        {| rpc_intro_node_id := None;
           rpc_intro_scid := Some {| rpc_direction := rpc_direction; rpc_scid := scid |} |}
    end in
  {| rpc_path_introduction_node := Some introduction_node;
     rpc_path_blinding_point := Some (convert_public_key (payment_path_blinding_point native_info));
     rpc_path_blinded_hops :=
       map (λ hop, {| rpc_hop_node_id := Some (convert_public_key (blinded_node_id hop));
                      rpc_hop_payload := encrypted_payload hop |})
         (payment_path_blinded_hops native_info) |}.

Definition extract_payment_paths (inv : Bolt12Invoice) : list PaymentPaths :=
  map (λ path, {| pp_blinded_pay_info := Some (convert_blinded_pay_info (payment_path_payinfo path));
                  pp_blinded_path := Some (convert_blinded_path path) |})
    (invoice_payment_paths inv).

Definition generate_bolt12_invoice_contents (inv : Bolt12Invoice) : Bolt12InvoiceContents :=
  {| bic_chain := invoice_chain inv;
     bic_quantity := invoice_quantity inv;
     bic_amount_msats := invoice_amount_msats inv;
     bic_description := invoice_description inv;
     bic_payment_hash := Some (invoice_payment_hash inv);
     bic_payment_paths := extract_payment_paths inv;
     bic_created_at := wrap_i 64 (invoice_created_at inv);
     bic_relative_expiry := invoice_relative_expiry inv;
     bic_node_id := Some (convert_public_key (invoice_signing_pubkey inv));
     bic_signature := invoice_signature inv;
     bic_features := convert_invoice_features;
     bic_payer_note := invoice_payer_note inv |}.

Definition encode_invoice_as_hex (inv : Bolt12Invoice) : result string OfferError :=
  match result_map_err EncodeInvoiceFailure (invoice_write inv) with
  | Ok buffer => Ok (hex_encode buffer)
  | Err e => Err e
  end.

(** [Bolt12Invoice::try_from] on a [Bolt12InvoiceString]. *)
Definition invoice_from_hex (s : string) : result Bolt12Invoice OfferError :=
  match ok_or (ParseInvoiceFailure decode_error_invalid_value) (hex_decode s) with
  | Ok bytes => ok_or (ParseInvoiceFailure decode_error_invalid_value) (invoice_try_from bytes)
  | Err e => Err e
  end.
End conversions.

(** ** The requests *)

(** The handler is part of the world; [node_id] is parsed and never read. *)
Record LNDKServer := { srv_lnd_cert : string; srv_address : string }.

Definition LNDKServer_new `{Secp} {W} (node_id lnd_cert address : string) : M W LNDKServer :=
  let* _ := unwrap (pk_from_str node_id) in
  ret {| srv_lnd_cert := lnd_cert; srv_address := address |}.

Section requests.
Context `{Ldk} `{!LdkFmt} `{!InvoiceFields} {W : Type} `{!HasHandler W, !LndConnect W}.
Context `{!PeerConnector W, !LdkEntropy W, !OfferCreator W, !ChanInfo W, !Timer W, !InvoicePayer W}.
Context `{!SystemClock W, !LdkBuild}.
Variable self : LNDKServer.

(** [?] on the offers component's and on LND's errors: converted to a status. *)
Abbreviation offer_status := (map_err OfferError_to_status).
Abbreviation lnd_status := (map_err LndError_to_status).

(** The client the request's macaroon gives access to. *)
Definition authenticated_client (metadata : MetadataMap) : M W (result unit Status) :=
  let? macaroon := ret (check_auth_metadata metadata) in
  let creds := CredsString macaroon (srv_lnd_cert self) in
  lnd_status (get_lnd_client {| lnd_address := srv_address self; lnd_creds := creds |}).

Definition node_network : M W (result Network Status) :=
  let? info := map_err (λ e, LndError_to_status (ServiceUnavailable (status_message e))) get_info in
  ret (result_map_err LndError_to_status (get_network info)).

Definition server_pay_offer (metadata : MetadataMap) (inner_request : PayOfferRequest)
    : M W (result string Status) :=
  let? _ := authenticated_client metadata in
  let? offer := offer_status (ret (decode (po_offer inner_request))) in
  let? destination := offer_status (ret (get_destination offer)) in
  let? network := node_network in
  let fee_limit :=
    create_fee_limit (po_fee_limit inner_request) (po_fee_limit_percent inner_request) in
  let cfg := {| cfg_offer := offer; cfg_amount := po_amount inner_request;
                cfg_payer_note := po_payer_note inner_request; cfg_network := network;
                cfg_destination := destination; cfg_reply_path := None;
                cfg_response_invoice_timeout := po_response_invoice_timeout inner_request;
                cfg_fee_limit := fee_limit |} in
  let? payment := offer_status (pay_offer cfg) in
  ret (Ok (payment_preimage payment)).

Definition server_decode_invoice (invoice : string) : M W (result Bolt12InvoiceContents Status) :=
  let? inv := offer_status (ret (invoice_from_hex invoice)) in
  ret (Ok (generate_bolt12_invoice_contents inv)).

Definition server_get_invoice (metadata : MetadataMap) (inner_request : GetInvoiceRequest)
    : M W (result GetInvoiceResponse Status) :=
  let? _ := authenticated_client metadata in
  let? offer := offer_status (ret (decode (gi_offer inner_request))) in
  let? destination := offer_status (ret (get_destination offer)) in
  let? network := node_network in
  let cfg := {| cfg_offer := offer; cfg_amount := gi_amount inner_request;
                cfg_payer_note := gi_payer_note inner_request; cfg_network := network;
                cfg_destination := destination; cfg_reply_path := None;
                cfg_response_invoice_timeout := gi_response_invoice_timeout inner_request;
                cfg_fee_limit := None |} in
  let? (inv, _, payment_id) := offer_status (get_invoice cfg) in
  let* _ := remove_active_payment payment_id in
  let? invoice_hex_str := offer_status (ret (encode_invoice_as_hex inv)) in
  ret (Ok {| gir_invoice_hex_str := invoice_hex_str;
             gir_invoice_contents := Some (generate_bolt12_invoice_contents inv) |}).

Definition server_pay_invoice (metadata : MetadataMap) (inner_request : PayInvoiceRequest)
    : M W (result string Status) :=
  let? _ := authenticated_client metadata in
  let? inv := offer_status (ret (invoice_from_hex (pi_invoice inner_request))) in
  let? amount := offer_status (ret (validate_amount (invoice_amount inv) (pi_amount inner_request))) in
  let* payment_id := get_secure_random_bytes in
  let fee_limit :=
    create_fee_limit (pi_fee_limit inner_request) (pi_fee_limit_percent inner_request) in
  let? payment := offer_status (pay_invoice amount inv payment_id fee_limit) in
  ret (Ok (payment_preimage payment)).

(** [Duration::from_secs], in nanoseconds. *)
Definition server_create_offer (metadata : MetadataMap) (inner_request : CreateOfferRequest)
    : M W (result string Status) :=
  let? _ := authenticated_client metadata in
  let? network := node_network in
  let quantity := parse_quantity (co_quantity inner_request) in
  let params := {| cop_amount_msats := co_amount inner_request; cop_chain := network;
                   cop_description := co_description inner_request;
                   cop_issuer := co_issuer inner_request; cop_quantity := quantity;
                   cop_expiry := (λ secs, secs * 10 ^ 9) <$> co_expiry inner_request |} in
  let? offer := offer_status (handler_create_offer params) in
  ret (Ok (offer_to_string offer)).
End requests.
