(* ===== verification/ServerFacts.v ===== *)
(** * Facts about the gRPC server

    The contract of its errors, authentication before anything else, the
    invoices it hands out and takes back, and what becomes of fee limits. *)

From S2P Require Import Prelude Grpc Ldk OfferError Parse Lnd LndRequests Handler HandlerFacts Server.
Open Scope Z_scope.

(** ** Every error carries a reason *)

(** The status has the error detail by which clients recognise LNDK's errors. *)
Definition branded (st : Status) : Prop :=
  ∃ reason, status_details st = Some {| error_reason := reason; error_domain := "lndk" |}.

(** Every error that the computation returns is branded. *)
Definition errors_branded {W A} (c : M W (result A Status)) : Prop :=
  ∀ w st w', c w = (Ret (Err st), w') → branded st.

Section branded.
Context {W : Type}.

Lemma branded_ok {A} (a : A) : errors_branded (ret (Ok a) : M W (result A Status)).
Proof. intros w st w' [=]. Qed.

Lemma branded_ret {A} (r : result A Status) :
  (∀ st, r = Err st → branded st) → errors_branded (ret r : M W (result A Status)).
Proof. intros Hr w st w' [= -> _]. by apply Hr. Qed.

Lemma branded_map_err {A E} (f : E → Status) (c : M W (result A E)) :
  (∀ e, branded (f e)) → errors_branded (map_err f c).
Proof. intros Hf w st w' (e & _ & ->)%map_err_inv_Err. apply Hf. Qed.

Lemma branded_bind {A B} (c : M W A) (k : A → M W (result B Status)) :
  (∀ a, errors_branded (k a)) → errors_branded (bind c k).
Proof. intros Hk w st w' (a & w1 & _ & Hrun)%bind_inv_Ret. by eapply Hk. Qed.

Lemma branded_try_bind {A B} (c : M W (result A Status)) (k : A → M W (result B Status)) :
  errors_branded c → (∀ a, errors_branded (k a)) → errors_branded (try_bind c k).
Proof.
  intros Hc Hk w st w' Hrun.
  apply try_bind_inv in Hrun as [(a & w1 & _ & Hrun)|(e & Hrun & ?)]; simplify_eq;
    [by eapply Hk|by eapply Hc].
Qed.

Lemma offer_error_branded `{LdkFmt} (e : OfferError) : branded (OfferError_to_status e).
Proof. by eexists. Qed.

Lemma lnd_error_branded e : branded (LndError_to_status e).
Proof. by eexists. Qed.

Lemma auth_branded md st : check_auth_metadata md = Err st → branded st.
Proof.
  unfold check_auth_metadata. destruct (md _) as [[|]|]; cbn; intros [= <-]; by eexists.
Qed.
End branded.

#[export] Hint Resolve branded_ok branded_ret offer_error_branded lnd_error_branded auth_branded : lndk.

(** Proves [errors_branded] of a composed request. *)
Ltac brand :=
  repeat first
    [ solve [eauto with lndk]
    | apply branded_try_bind; [|intros ?]
    | apply branded_map_err; intros ?
    | apply branded_bind; intros ?
    | progress cbv zeta
    | match goal with |- errors_branded (match ?x with _ => _ end) => destruct x end ].

Section facts.
Context `{Secp} `{!Ldk} `{!LdkFmt} `{!InvoiceFields} {W : Type} `{!HasHandler W, !LndConnect W}.
Context `{!PeerConnector W, !LdkEntropy W, !OfferCreator W, !ChanInfo W, !Timer W, !InvoicePayer W}.
Context `{!SystemClock W, !LdkBuild}.
Variable self : LNDKServer.

Lemma authenticated_client_branded md : errors_branded (authenticated_client (W := W) self md).
Proof. unfold authenticated_client. brand. Qed.

Lemma node_network_branded : errors_branded (node_network (W := W)).
Proof.
  unfold node_network. apply branded_try_bind; [apply branded_map_err; eauto with lndk|].
  intros info. apply branded_ret. destruct (get_network info); cbn; intros st [= <-].
  apply lnd_error_branded.
Qed.

Hint Resolve authenticated_client_branded node_network_branded : lndk.

(** C27: whatever goes wrong in a request, its error has a machine readable
    reason in LNDK's domain; no bare status of LND or of the transport gets out. *)
Theorem server_errors_have_reasons md po gi pi co s :
  errors_branded (server_pay_offer (W := W) self md po) ∧
  errors_branded (server_get_invoice (W := W) self md gi) ∧
  errors_branded (server_pay_invoice (W := W) self md pi) ∧
  errors_branded (server_create_offer (W := W) self md co) ∧
  errors_branded (server_decode_invoice (W := W) s).
Proof.
  unfold server_pay_offer, server_get_invoice, server_pay_invoice, server_create_offer,
    server_decode_invoice. split_and!; brand.
Qed.

(** The request gets no client for LND: it has no macaroon, or one that is not
    text, or connecting to the server's LND with its macaroon fails. *)
Inductive refused (md : MetadataMap) (w : W) : Status → W → Prop :=
| ref_missing : md "macaroon"%string = None → refused md w (AuthError_to_status MissingMacaroon) w
| ref_unreadable s : md "macaroon"%string = Some (Err s) →
    refused md w (AuthError_to_status (InvalidMacaroon s)) w
| ref_connect m e w' : md "macaroon"%string = Some (Ok m) →
    tonic_connect_from_memory (srv_address self) (srv_lnd_cert self) m w = (Ret (Err e), w') →
    refused md w (LndError_to_status (LndConnectError e)) w'.

Lemma refused_client md w st w' :
  refused md w st w' → authenticated_client self md w = (Ret (Err st), w').
Proof.
  unfold authenticated_client, check_auth_metadata.
  destruct 1 as [Hm|s Hm|m e w' Hm Hc]; rewrite Hm; [done..|]. cbn.
  unfold try_bind, map_err, bind, ret. cbn. by rewrite Hc.
Qed.

(** C28: the four requests that use LND look at the macaroon before anything
    else.  Without one, or with one that is not text, the request is refused with
    the reason and the world is as it was; with a readable one the first thing
    done is to connect to the server's LND with that very macaroon, and when this
    fails the request is refused and nothing further is done.  (Whether a
    readable macaroon is any good is for LND to say; decoding an invoice needs
    none.) *)
Theorem unauthenticated_requests_do_nothing md po gi pi co (w : W) st w' :
  refused md w st w' →
  server_pay_offer self md po w = (Ret (Err st), w') ∧
  server_get_invoice self md gi w = (Ret (Err st), w') ∧
  server_pay_invoice self md pi w = (Ret (Err st), w') ∧
  server_create_offer self md co w = (Ret (Err st), w').
Proof.
  intros Ha%refused_client.
  unfold server_pay_offer, server_get_invoice, server_pay_invoice, server_create_offer, try_bind.
  by rewrite !(bind_Ret _ _ _ _ _ Ha).
Qed.

Lemma hex_roundtrip inv buf :
  invoice_write inv = Ok buf → Forall (in_u 8) buf → invoice_try_from buf = Some inv →
  ∃ s, encode_invoice_as_hex inv = Ok s ∧ invoice_from_hex s = Ok inv.
Proof.
  intros Hw Hb Hr. exists (hex_encode buf). unfold encode_invoice_as_hex, invoice_from_hex.
  rewrite Hw. cbn. rewrite hex_decode_encode by done. cbn. by rewrite Hr.
Qed.

(** LDK reads the invoices it writes. *)
Definition invoices_readable : Prop := ∀ inv buf,
  invoice_write inv = Ok buf → Forall (in_u 8) buf ∧ invoice_try_from buf = Some inv.

Lemma server_get_invoice_ok md gi (w : W) reply w' :
  invoices_readable → server_get_invoice self md gi w = (Ret (Ok reply), w') →
  ∃ inv amount pid cfg wa wb,
    get_invoice cfg wa = (Ret (Ok (inv, amount, pid)), wb) ∧
    cfg_amount cfg = gi_amount gi ∧ decode (gi_offer gi) = Ok (cfg_offer cfg) ∧
    active_payments (handler w') !! pid = None ∧
    gir_invoice_contents reply = Some (generate_bolt12_invoice_contents inv) ∧
    invoice_from_hex (gir_invoice_hex_str reply) = Ok inv.
Proof.
  intros Hldk Hrun. unfold server_get_invoice in Hrun.
  apply try_bind_inv in Hrun as [(u & w1 & _ & Hrun)|(e & _ & ?)]; [|done].
  apply try_bind_inv in Hrun as [(offer & w2 & Hdec & Hrun)|(e & _ & ?)]; [|done].
  apply try_bind_inv in Hrun as [(dest & w3 & _ & Hrun)|(e & _ & ?)]; [|done].
  apply try_bind_inv in Hrun as [(net & w4 & _ & Hrun)|(e & _ & ?)]; [|done]. cbv zeta in Hrun.
  apply try_bind_inv in Hrun as [([[inv amount] pid] & w5 & Hget & Hrun)|(e & _ & ?)]; [|done].
  apply map_err_inv_Ok in Hget, Hdec. unfold ret in Hdec. simplify_eq.
  apply bind_inv_Ret in Hrun as (u' & w6 & Hrem%remove_active_payment_gone & Hrun).
  apply try_bind_inv in Hrun as [(s & w7 & Henc & Hrun)|(e & _ & ?)]; [|done].
  apply map_err_inv_Ok in Henc. unfold ret in Henc, Hrun. simplify_eq. cbn.
  assert (invoice_from_hex s = Ok inv) as Hs.
  { match goal with H : encode_invoice_as_hex inv = Ok s |- _ => rename H into Henc end.
    unfold encode_invoice_as_hex in Henc. destruct (invoice_write inv) as [buf|] eqn:Hw; [|done].
    destruct (Hldk _ _ Hw) as [Hb Hr]. destruct (hex_roundtrip _ _ Hw Hb Hr) as (s' & E & ?).
    unfold encode_invoice_as_hex in E. rewrite Hw in E. cbn in *. by simplify_eq. }
  eexists inv, amount, pid, _, _, _. split_and!; [exact Hget|done..].
Qed.

(** An invoice that the server hands out can be given back to it: when LDK
    reads the bytes it writes, the reply's text decodes to the invoice that was
    fetched, and the contents in the reply are those of that invoice; fetching
    it leaves no entry for its payment in the table. *)
Theorem fetched_invoice_roundtrip md gi (w : W) reply w' :
  invoices_readable →
  server_get_invoice self md gi w = (Ret (Ok reply), w') →
  ∃ inv amount pid cfg wa wb,
    get_invoice cfg wa = (Ret (Ok (inv, amount, pid)), wb) ∧
    cfg_amount cfg = gi_amount gi ∧ decode (gi_offer gi) = Ok (cfg_offer cfg) ∧
    active_payments (handler w') !! pid = None ∧
    gir_invoice_contents reply = Some (generate_bolt12_invoice_contents inv) ∧
    invoice_from_hex (gir_invoice_hex_str reply) = Ok inv ∧
    ∀ w0 : W, server_decode_invoice (gir_invoice_hex_str reply) w0 =
      (Ret (Ok (generate_bolt12_invoice_contents inv)), w0).
Proof.
  intros Hldk Hrun. destruct (server_get_invoice_ok _ _ _ _ _ Hldk Hrun)
    as (inv & amount & pid & cfg & wa & wb & Hget & Ha & Hdec & Hgone & Hc & Hs).
  exists inv, amount, pid, cfg, wa, wb. split_and!; [done..|].
  intros w0. unfold server_decode_invoice. by rewrite Hs.
Qed.

(** A request to pay with one of the two fee limits is paid under that
    limit; with both it is paid under none, exactly as if neither had been
    given, instead of being refused or paid under the smaller. *)
Theorem fee_limits_cancel_out offer amount note timeout fixed percent md :
  (∀ f, create_fee_limit fixed percent = Some f ↔
     (∃ a, fixed = Some a ∧ percent = None ∧ f = FixedMsat a) ∨
     (∃ p, fixed = None ∧ percent = Some p ∧ f = Percent p)) ∧
  ∀ a p, server_pay_offer (W := W) self md
    {| po_offer := offer; po_amount := amount; po_payer_note := note;
       po_response_invoice_timeout := timeout;
       po_fee_limit := Some a; po_fee_limit_percent := Some p |} =
    server_pay_offer self md
    {| po_offer := offer; po_amount := amount; po_payer_note := note;
       po_response_invoice_timeout := timeout;
       po_fee_limit := None; po_fee_limit_percent := None |}.
Proof. split; [|done]. intros f. destruct fixed, percent; cbn; naive_solver. Qed.
End facts.
