(* ===== verification/Daemon.v ===== *)
(** * The daemon

    Models src/main.rs (TLS credentials, directories, the setup of the daemon)
    and [LndkOnionMessenger::run] of src/lib.rs, which checks LND before the
    onion messenger starts.  The file system is a class over the world; paths
    are strings. *)

From S2P Require Import Prelude RateLimit Grpc Ldk OfferError Lnd.
From S2P Require Import LndRequests Handler HandlerFacts HandlerSteps OnionMessenger Server.
Open Scope Z_scope.

Definition DEFAULT_SERVER_HOST : string := "127.0.0.1".
Definition DEFAULT_SERVER_PORT : Z := 7000.
Definition DEFAULT_DATA_DIR : string := "data".
Definition DEFAULT_LNDK_DIR : string := ".lndk".
Definition DEFAULT_LOG_FILE : string := "lndk.log".
Definition DEFAULT_CONFIG_FILE_NAME : string := "lndk.conf".
Definition TLS_CERT_FILENAME : string := "tls-cert.pem".
Definition TLS_KEY_FILENAME : string := "tls-key.pem".

(** [Path::join] with a relative name. *)
Fixpoint ends_with_slash (s : string) : bool :=
  match s with
  | EmptyString => false
  | String c EmptyString => Ascii.eqb c (Ascii.ascii_of_nat 47)
  | String _ s => ends_with_slash s
  end.

Definition path_join (dir name : string) : string :=
  if (dir =? "")%string || ends_with_slash dir then dir +:+ name else dir +:+ "/" +:+ name.

(** [str::split] on a character: the pieces between its occurrences. *)
Fixpoint split_on (sep : Ascii.ascii) (s : string) : list string :=
  match s with
  | EmptyString => [""%string]
  | String c s =>
      if Ascii.eqb c sep then ""%string :: split_on sep s
      else match split_on sep s with
           | [] => [String c ""]
           | piece :: pieces => String c piece :: pieces
           end
  end.

Definition comma : Ascii.ascii := Ascii.ascii_of_nat 44.

Definition collect_tls_ips (tls_ips_str : option string) : option (list string) :=
  split_on comma <$> tls_ips_str.

(** ** TLS credentials *)

(** The file system; errors are their texts.  [generate_simple_self_signed]
    gives the PEM texts of a certificate and its key for the names. *)
Class FileSystem (W : Type) : Type := {
  path_exists : string → M W bool;
  file_create : string → M W (result unit string);
  file_metadata : string → M W (result unit string);
  set_permissions : string → Z → M W (result unit string);
  file_write_all : string → string → M W (result unit string);
  fs_write : string → string → M W (result unit string);
  create_dir_all : string → M W (result unit string);
  home_dir : M W (option string);
  generate_simple_self_signed : list string → M W (result (string * string) string);
}.

Inductive CertificateGenFailure := RcgenError (e : string) | IoError (e : string).

Definition CertificateGenFailure_fmt (self : CertificateGenFailure) : string :=
  match self with
  | RcgenError e => "Error generating TLS certificate: " +:+ e
  | IoError e => "IO error: " +:+ e
  end.

Section tls.
Context {W : Type} `{!FileSystem W, !ReadFile W}.

(** [0o600]. *)
Definition owner_only : Z := 384.

Definition generate_tls_creds (data_dir : string) (tls_ips_string : option string)
    : M W (result unit CertificateGenFailure) :=
  let cert_path := path_join data_dir TLS_CERT_FILENAME in
  let key_path := path_join data_dir TLS_KEY_FILENAME in
  let tls_ips := collect_tls_ips tls_ips_string in
  let* key_exists := path_exists key_path in
  let* fresh := if negb key_exists then ret true
                else let* cert_exists := path_exists cert_path in ret (negb cert_exists) in
  if fresh : bool then
    let subject_alt_names := "localhost"%string :: default [] tls_ips in
    let? (cert, key_pair) :=
      map_err RcgenError (generate_simple_self_signed subject_alt_names) in
    let? _ := map_err IoError (file_create key_path) in
    let? _ := map_err IoError (file_metadata key_path) in
    let? _ := map_err IoError (set_permissions key_path owner_only) in
    let? _ := map_err IoError (file_write_all key_path key_pair) in
    map_err IoError (fs_write cert_path cert)
  else ret (Ok tt).

(** The texts of certificate and key. *)
Definition read_tls (data_dir : string) : M W (result (string * string) string) :=
  let? cert := read_to_string (path_join data_dir TLS_CERT_FILENAME) in
  let? key := read_to_string (path_join data_dir TLS_KEY_FILENAME) in
  ret (Ok (cert, key)).

Definition get_default_lnkd_dir_path : M W string :=
  let* o := home_dir in
  let* home := unwrap o in
  ret (path_join home DEFAULT_LNDK_DIR).

Definition create_data_dir (data_dir : option string) : M W (result string string) :=
  let* path := match data_dir with
               | Some dir => ret dir
               | None => let* lndk_dir := get_default_lnkd_dir_path in
                         ret (path_join lndk_dir DEFAULT_DATA_DIR)
               end in
  let? _ := create_dir_all path in
  ret (Ok path).

Definition get_conf_file_paths : M W (list string) :=
  let* lndk_dir := get_default_lnkd_dir_path in
  let default_lndk_config_path := path_join lndk_dir DEFAULT_CONFIG_FILE_NAME in
  let current_dir_conf_file := path_join "./" DEFAULT_CONFIG_FILE_NAME in
  ret [current_dir_conf_file; default_lndk_config_path].
End tls.

(** ** Logger and signals *)

(** The logging library: levels, and a logger that writes to the console and to
    a file at a level; installing it panics if the file cannot be opened. *)
Class Logging (W : Type) : Type := {
  LevelFilter : Type;
  LevelTrace : LevelFilter;
  level_filter_from_str : string → option LevelFilter;
  init_logger : LevelFilter → string → M W unit;
}.

(** Streams of the two signals that trigger the shutdown; [select_signal] waits
    for the first on either. *)
Inductive Signal := SigInt | SigTerm.
Class Signals (W : Type) : Type := {
  signal_terminate : M W (result unit string);
  signal_interrupt : M W (result unit string);
  select_signal : M W Signal;
}.

(** The task that waits for a signal. *)
Definition signal_task {W} `{!Signals W, !Runtime W} : M W unit :=
  let* s := select_signal in
  match s with
  | SigInt => trigger_shutdown
  | SigTerm => trigger_shutdown
  end.

Definition setup_logger {W} `{!FileSystem W, !Logging W} (log_level log_file : option string)
    : M W (result unit unit) :=
  let? log_level := ret (match log_level with
                         | Some level_str => ok_or tt (level_filter_from_str level_str)
                         | None => Ok LevelTrace
                         end) in
  let* log_file := match log_file with
                   | Some file => ret file
                   | None =>
                       let* o := home_dir in
                       let* home := unwrap o in
                       ret (path_join (path_join (path_join home DEFAULT_LNDK_DIR) DEFAULT_DATA_DIR)
                              DEFAULT_LOG_FILE)
                   end in
  let* _ := init_logger log_level log_file in
  ret (Ok tt).

(** ** Checks before the messenger starts *)

(** LND's [GetVersion]. *)
Class Versioner (W : Type) : Type := get_version : M W (result Version Status).

Record Cfg := {
  cfg_lnd : LndCfg;
  skip_version_check : bool;
  rate_limit_count : Z;
  rate_limit_period_secs : Z;
}.

Section run.
Context `{Secp} `{!Ldk} `{!OnionMessages} `{!StatusFmt} {W : Type}.
Context `{!LdkMessenger W, !EventChannel W, !Listener W, !Runtime W, !LightningClient W, !Sleep W,
          !PeerConnector W, !Shutdown W, !LndConnect W, !OfferCreator W, !Versioner W}.
Context {C : Type} `{!Clock C}.
Variable fuel : nat.
Variable interval notified : M W unit.
Variable clock : C.

Definition run (args : Cfg) : M W (result unit unit) :=
  let* client := get_lnd_client (cfg_lnd args) in
  let* _ := unwrap (result_ok client) in
  let* r := get_info in
  let* info := unwrap (result_ok r) in
  let* network := unwrap (result_ok (get_network info)) in
  let* _ := unwrap (pk_from_str (identity_pubkey info)) in
  if negb (features_support_onion_messages (info_features info)) then ret (Err tt)
  else
    let* r := get_version in
    let* version := unwrap (result_ok r) in
    if negb (has_build_tags version None) then ret (Err tt)
    else if negb (skip_version_check args) && negb (has_version version None) then ret (Err tt)
    else
      run_onion_messenger fuel interval notified clock network
        {| cfg_call_count := rate_limit_count args;
           cfg_call_period := rate_limit_period_secs args * 10 ^ 9 |}.
End run.

(** ** Setup *)

(** The options of the configuration file and the command line. *)
Record Config := {
  conf_data_dir : option string;
  conf_log_file : option string;
  conf_log_level : option string;
  conf_cert_path : option string;
  conf_cert_pem : option string;
  conf_macaroon_path : option string;
  conf_macaroon_hex : option string;
  conf_address : string;
  conf_skip_version_check : bool;
  conf_rate_limit_count : Z;
  conf_rate_limit_period_secs : Z;
  conf_response_invoice_timeout : option Z;
  conf_grpc_host : option string;
  conf_grpc_port : option Z;
  conf_tls_ip : option string;
}.

(** What [main] has when it starts serving: the arguments of the messenger, the
    handler, the server, the address to listen at and the TLS identity. *)
Record Prepared `{Ldk} := {
  prep_args : Cfg;
  prep_handler : OfferHandler;
  prep_server : LNDKServer;
  prep_addr : string;
  prep_identity : string * string;
}.

(** How the setup ends: the daemon serves, returns an error, or exits with a
    code. *)
Inductive setup_end (A : Type) := Serves (a : A) | Fails | Exits (code : Z).
Arguments Serves {A} _.
Arguments Fails {A}.
Arguments Exits {A} _.

Section setup.
Context `{Ldk} {W : Type} `{!FileSystem W, !ReadFile W, !LndConnect W, !OfferCreator W,
          !MessageSigner W, !LdkEntropy W, !Logging W, !Signals W, !Runtime W}.
Variable sha256 : bytes → bytes.
(** Parsing of a socket address. *)
Variable socket_addr_from_str : string → option string.

(** A step whose error ends the setup. *)
Definition or_fail {A B E} (c : M W (result A E)) (k : A → M W (setup_end B)) : M W (setup_end B) :=
  let* r := c in
  match r with Ok a => k a | Err _ => ret Fails end.

(** The part of [main] up to the start of the server and the messenger. *)
Definition main_setup (config : Config) : M W (setup_end Prepared) :=
  or_fail (create_data_dir (conf_data_dir config)) (λ data_dir,
  let log_file := match conf_log_file config with
                  | Some file => Some file
                  | None => (λ dir, path_join dir DEFAULT_LOG_FILE) <$> conf_data_dir config
                  end in
  or_fail (setup_logger (conf_log_level config) log_file) (λ _,
  or_fail (λ w, (validate_lnd_creds (conf_cert_path config) (conf_cert_pem config)
                   (conf_macaroon_path config) (conf_macaroon_hex config), w)) (λ creds,
  let args := {| cfg_lnd := {| lnd_address := conf_address config; lnd_creds := creds |};
                 skip_version_check := conf_skip_version_check config;
                 rate_limit_count := conf_rate_limit_count config;
                 rate_limit_period_secs := conf_rate_limit_period_secs config |} in
  or_fail signal_terminate (λ _,
  or_fail signal_interrupt (λ _,
  let* _ := spawn signal_task in
  if bool_decide (conf_response_invoice_timeout config = Some 0) then ret (Exits 1)
  else
    let* client := get_lnd_client (cfg_lnd args) in
    let* _ := unwrap (result_ok client) in
    let* r := get_info in
    let* info := unwrap (result_ok r) in
    let grpc_host := default DEFAULT_SERVER_HOST (conf_grpc_host config) in
    let grpc_port := default DEFAULT_SERVER_PORT (conf_grpc_port config) in
    or_fail (ret (ok_or tt (socket_addr_from_str
                              (grpc_host +:+ ":" +:+ string_of_Z grpc_port)))) (λ addr,
    or_fail (get_certificate_string creds) (λ lnd_tls_str,
    or_fail (generate_tls_creds data_dir (conf_tls_ip config)) (λ _,
    or_fail (read_tls data_dir) (λ identity,
    or_fail (build_seed_from_lnd_node sha256) (λ seed,
    let* h := OfferHandler_new (conf_response_invoice_timeout config) (Some seed) true in
    let* server := LNDKServer_new (identity_pubkey info) lnd_tls_str (conf_address config) in
    ret (Serves {| prep_args := args; prep_handler := h; prep_server := server;
                   prep_addr := addr; prep_identity := identity |}))))))))))).
End setup.

(** ** The daemon *)

(** What [main] needs beyond its setup: the configuration (with the code of the
    exit when it cannot be read), the server, and [select!] of messenger and
    server: the first to end decides, the other is dropped. *)
Class DaemonRuntime (W : Type) : Type := {
  including_optional_config_files : list string → M W (result Config Z);
  server_tls_config : string * string → M W (option unit);
  serve_with_shutdown : LNDKServer → string → M W (result unit string);
  select_first : ∀ {A B : Type}, M W A → M W B → M W (A + B);
}.

Section daemon.
Context `{Secp} `{!Ldk} `{!OnionMessages} `{!StatusFmt} {W : Type} `{!HasHandler W}.
Context `{!FileSystem W, !ReadFile W, !LndConnect W, !OfferCreator W,
          !MessageSigner W, !LdkEntropy W, !Logging W, !Signals W, !DaemonRuntime W}.
Context `{!LdkMessenger W, !EventChannel W, !Listener W, !Runtime W, !LightningClient W, !Sleep W,
          !PeerConnector W, !Shutdown W, !Versioner W}.
Context {C : Type} `{!Clock C}.
Variable sha256 : bytes → bytes.
Variable socket_addr_from_str : string → option string.
Variable fuel : nat.
Variable interval notified : M W unit.
Variable clock : C.

(** Server and messenger share the handler. *)
Definition daemon_main : M W (setup_end unit) :=
  let* paths := get_conf_file_paths in
  let* config := including_optional_config_files paths in
  match config with
  | Err code => ret (Exits code)
  | Ok config =>
      let* e := main_setup sha256 socket_addr_from_str config in
      match e with
      | Fails => ret Fails
      | Exits code => ret (Exits code)
      | Serves p =>
          let* _ := modify (set_handler (prep_handler p)) in
          let* o := server_tls_config (prep_identity p) in
          let* _ := unwrap o in
          let* _ := select_first (run fuel interval notified clock (prep_args p))
                                 (serve_with_shutdown (prep_server p) (prep_addr p)) in
          ret (Serves tt)
      end
  end.
End daemon.

(** ** Facts *)

(** Joining with a separator. *)
Fixpoint join_with (sep : Ascii.ascii) (l : list string) : string :=
  match l with
  | [] => ""
  | [s] => s
  | s :: l => s +:+ String sep (join_with sep l)
  end.

Fixpoint occurs (c : Ascii.ascii) (s : string) : bool :=
  match s with EmptyString => false | String d s => Ascii.eqb d c || occurs c s end.

Lemma split_on_nonempty sep s : split_on sep s ≠ [].
Proof. destruct s as [|c s]; cbn; [done|]. destruct (Ascii.eqb c sep); [done|]. by case_match. Qed.

Lemma join_split sep s : join_with sep (split_on sep s) = s.
Proof.
  induction s as [|c s IH]; [done|]. cbn [split_on]. destruct (Ascii.eqb_spec c sep) as [->|].
  - pose proof (split_on_nonempty sep s). destruct (split_on sep s) as [|p ps]; [done|].
    cbn [join_with] in *. cbn. by rewrite <- IH.
  - pose proof (split_on_nonempty sep s). destruct (split_on sep s) as [|p ps]; [done|].
    cbn [join_with] in *. destruct ps; by rewrite <- IH.
Qed.

Lemma split_pieces sep s : Forall (λ p, occurs sep p = false) (split_on sep s).
Proof.
  induction s as [|c s IH]; [by repeat constructor|]. cbn [split_on].
  destruct (Ascii.eqb_spec c sep) as [->|Hne]; [by constructor|].
  pose proof (split_on_nonempty sep s). destruct (split_on sep s) as [|p ps]; [done|].
  inversion IH as [|?? Hp Hps]; subst. constructor; [|done]. cbn.
  by rewrite (proj2 (Ascii.eqb_neq _ _) Hne).
Qed.

(** The names given for the TLS certificate are the pieces of the option: none
    has a comma, and put together they are the option. *)
Theorem collect_tls_ips_correct s :
  ∃ ips, collect_tls_ips (Some s) = Some ips ∧ join_with comma ips = s ∧
    Forall (λ ip, occurs comma ip = false) ips.
Proof. exists (split_on comma s). split_and!; [done|apply join_split|apply split_pieces]. Qed.

(** ** Contents of the credential files *)

Lemma path_join_inj dir n1 n2 : path_join dir n1 = path_join dir n2 → n1 = n2.
Proof. unfold path_join. case_match; intros Heq; by simplify_eq. Qed.

Record file := { file_content : string; file_mode : Z }.

Section tls_facts.
Context {W : Type} `{!FileSystem W, !ReadFile W}.

(** The files of the world, and what the operations do to them.  Writing may
    leave anything in the file when it fails, but neither its mode nor other
    files change; a mode that cannot be set stays. *)
Class FsLaws : Type := {
  fs_files : W → gmap string file;
  same_files (w w' : W) := fs_files w' = fs_files w;
  fs_exists p w b w' : path_exists p w = (Ret b, w') →
    same_files w w' ∧ b = bool_decide (is_Some (fs_files w !! p));
  fs_generate names : respects same_files (generate_simple_self_signed names);
  fs_metadata p : respects same_files (file_metadata p);
  fs_create p w r w' : file_create p w = (Ret r, w') →
    match r with
    | Ok _ => ∃ mode, fs_files w' = <[p := {| file_content := ""; file_mode := mode |}]> (fs_files w)
    | Err _ => same_files w w'
    end;
  fs_set_mode p m w r w' : set_permissions p m w = (Ret r, w') →
    match r with
    | Ok _ => ∃ f, fs_files w !! p = Some f ∧
        fs_files w' = <[p := {| file_content := file_content f; file_mode := m |}]> (fs_files w)
    | Err _ => same_files w w'
    end;
  fs_write_open p s w r w' f : file_write_all p s w = (Ret r, w') → fs_files w !! p = Some f →
    ∃ s', fs_files w' = <[p := {| file_content := s'; file_mode := file_mode f |}]> (fs_files w) ∧
          (r = Ok tt → s' = s);
  fs_write_path p s w r w' : fs_write p s w = (Ret r, w') →
    same_files w w' ∧ r ≠ Ok tt ∨
    ∃ f, fs_files w' = <[p := f]> (fs_files w) ∧ (r = Ok tt → file_content f = s);
  fs_read p w r w' : read_to_string p w = (Ret r, w') →
    same_files w w' ∧ ∀ s, r = Ok s → file_content <$> fs_files w !! p = Some s;
}.

Context `{!FsLaws}.

Definition key_file (dir : string) (w : W) : option file :=
  fs_files w !! path_join dir TLS_KEY_FILENAME.
Definition cert_file (dir : string) (w : W) : option file :=
  fs_files w !! path_join dir TLS_CERT_FILENAME.

(** Both credentials are there. *)
Definition creds_exist (dir : string) (w : W) : bool :=
  bool_decide (is_Some (key_file dir w)) && bool_decide (is_Some (cert_file dir w)).

(** The key file has nothing that others may read. *)
Definition key_protected (dir : string) (w : W) : Prop :=
  ∃ f, key_file dir w = Some f ∧ (file_content f = ""%string ∨ file_mode f = owner_only).

(** Writing a fresh pair of credentials. *)
Definition write_creds (dir cert key : string) : M W (result unit CertificateGenFailure) :=
  let key_path := path_join dir TLS_KEY_FILENAME in
  let? _ := map_err IoError (file_create key_path) in
  let? _ := map_err IoError (file_metadata key_path) in
  let? _ := map_err IoError (set_permissions key_path owner_only) in
  let? _ := map_err IoError (file_write_all key_path key) in
  map_err IoError (fs_write (path_join dir TLS_CERT_FILENAME) cert).

(** [generate_tls_creds] in two cases. *)
Lemma generate_cases dir ips w r w' :
  generate_tls_creds dir ips w = (Ret r, w') →
  if creds_exist dir w then r = Ok tt ∧ same_files w w'
  else ∃ w1 g w2, same_files w w1 ∧
    generate_simple_self_signed ("localhost"%string :: default [] (collect_tls_ips ips)) w1
      = (Ret g, w2) ∧ same_files w w2 ∧
    match g with
    | Ok (cert, key) => write_creds dir cert key w2 = (Ret r, w')
    | Err e => r = Err (RcgenError e) ∧ w' = w2
    end.
Proof.
  unfold generate_tls_creds, creds_exist, key_file, cert_file. intros Hrun.
  apply bind_inv_Ret in Hrun as (ke & w1 & [Hs1 ->]%fs_exists & Hrun).
  apply bind_inv_Ret in Hrun as (fresh & w2 & Hf & Hrun).
  assert (same_files w w2 ∧ fresh = negb (bool_decide (is_Some (fs_files w !! path_join dir TLS_KEY_FILENAME)) &&
            bool_decide (is_Some (fs_files w !! path_join dir TLS_CERT_FILENAME)))) as [Hs2 ->].
  { case_bool_decide; cbn [negb] in Hf; [|injection Hf as <- <-; done].
    apply bind_inv_Ret in Hf as (ce & w2' & [Hs2 ->]%fs_exists & Hf). injection Hf as <- <-.
    unfold same_files in *. by rewrite Hs2, Hs1. }
  destruct (_ && _); cbn [negb] in Hrun; [by injection Hrun as <- <-|].
  cbv zeta in Hrun. unfold try_bind at 1 in Hrun.
  apply bind_inv_Ret in Hrun as (g & w3 & Hg & Hrun).
  apply map_err_inv in Hg as (g0 & Hg & ->). exists w2, g0, w3.
  pose proof (fs_generate _ _ _ _ Hg) as Hs3. unfold same_files in *.
  split_and!; [done|done|congruence|]. destruct g0 as [[cert key]|e]; [exact Hrun|by injection Hrun as <- <-].
Qed.

Lemma io_cases {A B} (c : M W (result A string)) (k : A → M W (result B CertificateGenFailure)) w r w' :
  try_bind (map_err IoError c) k w = (Ret r, w') →
  (∃ a w1, c w = (Ret (Ok a), w1) ∧ k a w1 = (Ret r, w')) ∨
  (∃ e, c w = (Ret (Err e), w') ∧ r = Err (IoError e)).
Proof.
  intros [(a & w1 & Ha & Hrun)|(e & He & ->)]%try_bind_inv; [left|right].
  - apply map_err_inv_Ok in Ha. eauto.
  - apply map_err_inv_Err in He as (e0 & He & ->). eauto.
Qed.

(** What writing credentials leaves, however it ends. *)
Lemma write_creds_files dir cert key w r w' :
  write_creds dir cert key w = (Ret r, w') →
  (same_files w w' ∧ r ≠ Ok tt ∨ key_protected dir w') ∧
  (r = Ok tt → (∃ f, key_file dir w' = Some f ∧ file_content f = key ∧ file_mode f = owner_only) ∧
               file_content <$> cert_file dir w' = Some cert).
Proof.
  unfold write_creds, key_protected, key_file, cert_file. cbv zeta. intros Hrun.
  apply io_cases in Hrun as [([] & w1 & [mode H1]%fs_create & Hrun)|(e & H1%fs_create & ->)];
    [|split; [by left|done]].
  apply io_cases in Hrun as [([] & w2 & H2%fs_metadata & Hrun)|(e & H2%fs_metadata & ->)];
    unfold same_files in H2.
  2:{ split; [right|done]. rewrite H2, H1, lookup_insert_eq. eauto. }
  rewrite H1 in H2. clear H1 w1.
  apply io_cases in Hrun as [([] & w3 & (f & Hf & H3)%fs_set_mode & Hrun)|(e & H3%fs_set_mode & ->)].
  2:{ split; [right|done]. unfold same_files in H3. rewrite H3, H2, lookup_insert_eq. eauto. }
  assert (fs_files w3 !! path_join dir TLS_KEY_FILENAME =
          Some {| file_content := file_content f; file_mode := owner_only |}) as Hk
    by (by rewrite H3, lookup_insert_eq).
  apply io_cases in Hrun as [([] & w4 & Hw & Hrun)|(e & Hw & ->)];
    destruct (fs_write_open _ _ _ _ _ _ Hw Hk) as (s' & H4 & Hs).
  2:{ split; [right|done]. rewrite H4, lookup_insert_eq. eauto. }
  specialize (Hs eq_refl) as ->. apply map_err_inv in Hrun as (r0 & Hw5 & ->).
  assert (path_join dir TLS_CERT_FILENAME ≠ path_join dir TLS_KEY_FILENAME) as Hne
    by (by intros ?%path_join_inj).
  apply fs_write_path in Hw5 as [[H5 Hr]|(f5 & H5 & Hr)].
  - split; [right|by destruct r0 as [[]|]]. unfold same_files in H5. rewrite H5, H4, lookup_insert_eq. eauto.
  - rewrite H5, lookup_insert_ne, H4, !lookup_insert_eq by done. split; [right; eauto|].
    destruct r0 as [[]|]; [|done]. intros _. cbn. rewrite Hr by done. eauto.
Qed.

(** C16: the private key of the server is never written to a file that others may
    read.  When both credential files exist nothing is touched.  Otherwise,
    however the creation of new ones ends, the key file is as it was before, or
    empty, or readable by its owner only; and when it succeeds, the key file has
    that mode. *)
Theorem tls_key_is_protected dir ips w r w' :
  generate_tls_creds dir ips w = (Ret r, w') →
  if creds_exist dir w then r = Ok tt ∧ fs_files w' = fs_files w
  else (key_file dir w' = key_file dir w ∨ key_protected dir w') ∧
       (r = Ok tt → file_mode <$> key_file dir w' = Some owner_only).
Proof.
  intros Hrun%generate_cases. destruct (creds_exist dir w); [done|].
  destruct Hrun as (w1 & g & w2 & _ & _ & Hs & Hrun). destruct g as [[cert key]|e].
  - apply write_creds_files in Hrun as [Hk Hok]. split.
    + destruct Hk as [[Hsame _]|]; [left|by right]. unfold key_file, same_files in *. congruence.
    + intros Hr. destruct (Hok Hr) as ((f & -> & _ & Hm) & _). cbn. by rewrite Hm.
  - destruct Hrun as [-> ->]. split; [left|done]. unfold key_file. by rewrite Hs.
Qed.

(** The texts of the credential files. *)
Definition creds_files (dir : string) (w : W) : option (string * string) :=
  cert ← file_content <$> cert_file dir w;
  key ← file_content <$> key_file dir w;
  Some (cert, key).

Lemma read_tls_files dir w identity w' :
  read_tls dir w = (Ret (Ok identity), w') → creds_files dir w = Some identity.
Proof.
  unfold read_tls, creds_files, cert_file, key_file. intros Hrun.
  apply try_bind_inv in Hrun as [(cert & w1 & [Hsame Hc]%fs_read & Hrun)|(e & _ & ?)]; [|done].
  apply try_bind_inv in Hrun as [(key & w2 & [_ Hk]%fs_read & Hrun)|(e & _ & ?)]; [|done].
  rewrite (Hc _ eq_refl). specialize (Hk _ eq_refl). rewrite Hsame in Hk. cbn. rewrite Hk. by run_inv.
Qed.

Lemma creds_exist_files dir w : creds_exist dir w = bool_decide (is_Some (creds_files dir w)).
Proof.
  unfold creds_exist, creds_files. destruct (key_file dir w), (cert_file dir w); cbn;
    by repeat case_bool_decide; try done; naive_solver.
Qed.

(** C17: the TLS identity the server reads after credentials were prepared is the
    pair that the files held, when both existed; when one of them was missing it
    is the pair of certificate and key made for localhost and the configured
    names, and never a new key beside an old certificate. *)
Theorem tls_identity_roundtrip dir ips w w1 identity w2 :
  generate_tls_creds dir ips w = (Ret (Ok tt), w1) → read_tls dir w1 = (Ret (Ok identity), w2) →
  match creds_files dir w with
  | Some old => identity = old
  | None => ∃ wa wb,
      generate_simple_self_signed ("localhost"%string :: default [] (collect_tls_ips ips)) wa
        = (Ret (Ok identity), wb)
  end.
Proof.
  intros Hrun%generate_cases Hread%read_tls_files. rewrite creds_exist_files in Hrun.
  destruct (creds_files dir w) as [old|] eqn:Hold; case_bool_decide as Hb; try by naive_solver.
  - destruct Hrun as [_ Hs]. unfold creds_files, cert_file, key_file in *. rewrite Hs in Hread. congruence.
  - destruct Hrun as (wa & g & wb & _ & Hg & _ & Hrun). destruct g as [[cert key]|e]; [|by destruct Hrun].
    apply write_creds_files in Hrun as [_ Hok]. destruct (Hok eq_refl) as ((f & Hk & Hc & _) & Hcert).
    exists wa, wb. rewrite Hg. unfold creds_files in Hread. rewrite Hcert, Hk in Hread. cbn in Hread.
    rewrite Hc in Hread. congruence.
Qed.
End tls_facts.

Section run_facts.
Context `{Secp} `{!Ldk} `{!OnionMessages} `{!StatusFmt} {W : Type}.
Context `{!LdkMessenger W, !EventChannel W, !Listener W, !Runtime W, !LightningClient W, !Sleep W,
          !PeerConnector W, !Shutdown W, !LndConnect W, !OfferCreator W, !Versioner W}.
Context {C : Type} `{!Clock C}.
Implicit Types w : W.

(** LND is fit for LNDK: it announces onion messages, was built with the tags
    needed, and is recent enough unless the check is skipped. *)
Definition lnd_fit (args : Cfg) (info : GetInfoResponse) (version : Version) : bool :=
  features_support_onion_messages (info_features info) && has_build_tags version None &&
  (skip_version_check args || has_version version None).

(** C15: the onion messenger starts only on a node that is fit for it, with the
    network LND reports and the configured limits; on a node that is not, [run]
    returns an error without starting it. *)
Theorem messenger_starts_on_fit_node fuel interval notified (clock : C) args w r w' :
  run fuel interval notified clock args w = (Ret r, w') →
  ∃ info w1 w2, get_info w1 = (Ret (Ok info), w2) ∧
    ((r = Err tt ∧ w' = w2 ∧ features_support_onion_messages (info_features info) = false) ∨
     ∃ version w3, get_version w2 = (Ret (Ok version), w3) ∧
       ((r = Err tt ∧ w' = w3 ∧ lnd_fit args info version = false) ∨
        ∃ network, lnd_fit args info version = true ∧ get_network info = Ok network ∧
          run_onion_messenger fuel interval notified clock network
            {| cfg_call_count := rate_limit_count args;
               cfg_call_period := rate_limit_period_secs args * 10 ^ 9 |} w3 = (Ret r, w'))).
Proof.
  unfold run. intros Hrun. apply bind_inv_Ret in Hrun as (client & w0 & _ & Hrun).
  apply bind_inv_Ret in Hrun as (u & w1 & Hu & Hrun). apply unwrap_inv in Hu as [-> _].
  apply bind_inv_Ret in Hrun as (ri & w2 & Hi & Hrun).
  apply bind_inv_Ret in Hrun as (info & w2' & Hu & Hrun). apply unwrap_inv in Hu as [-> Hri].
  destruct ri as [i|]; simplify_eq/=. exists info, w0, w2. split; [done|].
  apply bind_inv_Ret in Hrun as (net & w2' & Hu & Hrun). apply unwrap_inv in Hu as [-> Hnet].
  apply bind_inv_Ret in Hrun as (pk & w2' & Hu & Hrun). apply unwrap_inv in Hu as [-> _].
  unfold lnd_fit. destruct (features_support_onion_messages (info_features info)) eqn:Hf;
    cbn [negb] in Hrun; [right|left; run_inv; done].
  apply bind_inv_Ret in Hrun as (rv & w3 & Hv & Hrun).
  apply bind_inv_Ret in Hrun as (v & w3' & Hu & Hrun). apply unwrap_inv in Hu as [-> Hrv].
  destruct rv as [v'|]; simplify_eq/=. exists v, w3. split; [done|].
  destruct (has_build_tags v None); cbn [negb andb] in *; [|left; run_inv; done].
  destruct (skip_version_check args), (has_version v None); cbn [negb andb orb] in *;
    try (left; run_inv; done); right; exists net; (split_and!; [done| |done]);
    destruct (get_network info); by simplify_eq/=.
Qed.
End run_facts.

Section setup_facts.
Context `{Ldk} {W : Type} `{!FileSystem W, !ReadFile W, !LndConnect W, !OfferCreator W,
          !MessageSigner W, !LdkEntropy W, !Logging W, !Signals W, !Runtime W}.
Variable sha256 : bytes → bytes.
Variable socket_addr_from_str : string → option string.

Lemma or_fail_inv {A B E} (c : M W (result A E)) (k : A → M W (setup_end B)) w b w' :
  or_fail c k w = (Ret (Serves b), w') →
  ∃ a w1, c w = (Ret (Ok a), w1) ∧ k a w1 = (Ret (Serves b), w').
Proof.
  unfold or_fail. intros (r & w1 & Hc & Hk)%bind_inv_Ret. destruct r; [eauto|by run_inv].
Qed.

(** C18: the daemon serves only with consistent credentials for LND and a
    positive timeout; its handler starts with no payments and no messages, and
    its key comes from the hash of LND's signature of the seed message under the
    fixed key locator; the messenger gets the configured limits and the server
    the certificate of LND; and whatever blocks of the handler's code run on this
    handler, its table only ever holds invoices verified with that key. *)
Theorem setup_gives_fresh_handler config w p w' :
  main_setup sha256 socket_addr_from_str config w = (Ret (Serves p), w') →
  (∃ creds, validate_lnd_creds (conf_cert_path config) (conf_cert_pem config)
              (conf_macaroon_path config) (conf_macaroon_hex config) = Ret (Ok creds) ∧
            cfg_lnd (prep_args p) = {| lnd_address := conf_address config; lnd_creds := creds |}) ∧
  conf_response_invoice_timeout config ≠ Some 0 ∧
  response_invoice_timeout (prep_handler p) = default 15 (conf_response_invoice_timeout config) ∧
  active_payments (prep_handler p) = ∅ ∧ pending_messages (prep_handler p) = [] ∧
  (∃ signature wa wb,
     sign_message (as_bytes seed_message)
       {| key_family := SEED_KEY_FAMILY; key_index := SEED_KEY_INDEX |} false true wa
       = (Ret (Ok signature), wb) ∧
     expanded_key (prep_handler p) = expanded_key_new (sha256 signature)) ∧
  rate_limit_count (prep_args p) = conf_rate_limit_count config ∧
  rate_limit_period_secs (prep_args p) = conf_rate_limit_period_secs config ∧
  (∃ wa wb, get_certificate_string (lnd_creds (cfg_lnd (prep_args p))) wa
              = (Ret (Ok (srv_lnd_cert (prep_server p))), wb)) ∧
  ∀ bs pid inv, stored (run_blocks bs (prep_handler p)) pid = Some inv →
    verified (expanded_key (prep_handler p)) pid inv.
Proof.
  unfold main_setup. intros Hrun.
  apply or_fail_inv in Hrun as (dir & w1 & _ & Hrun).
  cbv zeta in Hrun. apply or_fail_inv in Hrun as ([] & w1' & _ & Hrun).
  apply or_fail_inv in Hrun as (creds & w2 & Hcreds & Hrun). injection Hcreds as Hcreds _.
  cbv zeta in Hrun. do 2 apply or_fail_inv in Hrun as ([] & ? & _ & Hrun).
  apply bind_inv_Ret in Hrun as ([] & ? & _ & Hrun).
  case_bool_decide as Ht; [by run_inv|].
  apply bind_inv_Ret in Hrun as (client & w3 & _ & Hrun).
  apply bind_inv_Ret in Hrun as (u & w4 & _ & Hrun).
  apply bind_inv_Ret in Hrun as (r & w5 & _ & Hrun).
  apply bind_inv_Ret in Hrun as (info & w6 & _ & Hrun).
  apply or_fail_inv in Hrun as (addr & w6' & _ & Hrun).
  apply or_fail_inv in Hrun as (cert & w7 & Hcert & Hrun).
  apply or_fail_inv in Hrun as ([] & w8 & _ & Hrun).
  apply or_fail_inv in Hrun as (identity & w9 & _ & Hrun).
  apply or_fail_inv in Hrun as (seed & w10 & Hseed & Hrun).
  unfold build_seed_from_lnd_node in Hseed. cbv zeta in Hseed.
  apply try_bind_inv in Hseed as [(sig & w10' & Hsig & Hseed)|(e & _ & ?)]; [|done].
  unfold ret in Hseed. simplify_eq.
  apply bind_inv_Ret in Hrun as (h & w11 & Hh & Hrun). unfold OfferHandler_new in Hh.
  apply bind_inv_Ret in Hrun as (server & w12 & Hserver & Hrun). unfold LNDKServer_new in Hserver.
  run_inv. cbn [prep_handler prep_args prep_server cfg_lnd lnd_creds srv_lnd_cert].
  split_and!; eauto; []. intros bs pid inv. by apply from_empty_verified.
Qed.
End setup_facts.
