(* ===== verification/Cli.v ===== *)
(** * The command line client

    Models src/cli.rs: where the client takes its certificate and macaroon from,
    its commands, and the texts it ends with.  A computation that exits
    gracefully is an [Err] with the text printed before [exit(1)].  The parsed
    arguments are the input; the progress messages of the commands are not
    modelled.  The last part composes the client with the server. *)

From S2P Require Import Prelude RateLimit Grpc Ldk OfferError Parse.
From S2P Require Import Lnd LndRequests Handler HandlerFacts OnionMessenger Server.
From S2P Require Import ServerFacts Daemon.
Open Scope Z_scope.

(** ** Arguments *)

Inductive Commands :=
| DecodeOffer (offer_string : string)
| DecodeInvoice (invoice_string : string)
| PayOffer (offer_string : string) (amount : option Z) (payer_note : option string)
    (response_invoice_timeout fee_limit fee_limit_percent : option Z)
| GetInvoice (offer_string : string) (amount : option Z) (payer_note : option string)
    (response_invoice_timeout : option Z)
| PayInvoice (invoice_string : string) (amount fee_limit fee_limit_percent : option Z)
| CreateOffer (amount : option Z) (description issuer : option string) (expiry quantity : option Z).

Record Cli := {
  cli_network : string;
  cli_macaroon_path : option string;
  cli_macaroon_hex : option string;
  cli_cert_pem : option string;
  cli_cert_path : option string;
  cli_grpc_host : string;
  cli_grpc_port : Z;
  cli_command : Commands;
}.

(** The arguments clap accepts: [conflicts_with] of the two fee limits. *)
Definition fee_args_accepted (c : Commands) : bool :=
  match c with
  | PayOffer _ _ _ _ fixed percent | PayInvoice _ _ fixed percent =>
      negb (is_some fixed && is_some percent)
  | _ => true
  end.

(** ** Ends *)

Definition Status_exit_text (self : Status) : string :=
  match status_details self with
  | Some error_info =>
      "ERROR (" +:+ error_reason error_info +:+ "): " +:+ status_message self
  | None => "ERROR: " +:+ status_message self
  end.

Definition OfferError_exit_text `{LdkFmt} (self : OfferError) : string :=
  "ERROR (" +:+ OfferError_code self +:+ "): " +:+ OfferError_fmt self.

(** What a command prints in the end when it succeeds. *)
Inductive CliOutput `{Ldk} :=
| DecodedOffer (offer : Offer)
| DecodedInvoice (inv : Bolt12Invoice)
| SuccessfullyPaid
| FetchedInvoice (response : GetInvoiceResponse)
| CreatedOffer (offer : string).

(** ** Interfaces *)

Record ClientTlsConfig := { ca_certificate : string; domain_name : string }.

(** Reading a file as bytes. *)
Class ReadBytes (W : Type) : Type := read_to_end : string → M W (result bytes string).

(** The transport: metadata values are parsed from text on the client's side
    and read as text on the server's; channels are made in three steps. *)
Class Tonic (W : Type) : Type := {
  MetadataValue : Type;
  metadata_value_from_str : string → result MetadataValue string;
  metadata_value_to_str : MetadataValue → result string string;
  Endpoint : Type;
  endpoint_from_shared : string → result Endpoint string;
  endpoint_tls_config : Endpoint → ClientTlsConfig → result Endpoint string;
  endpoint_connect : Endpoint → M W (result unit string);
}.

(** LNDK's service, as its clients see it. *)
Class OffersClient (W : Type) : Type := {
  offers_pay_offer : MetadataMap → PayOfferRequest → M W (result string Status);
  offers_get_invoice : MetadataMap → GetInvoiceRequest → M W (result GetInvoiceResponse Status);
  offers_pay_invoice : MetadataMap → PayInvoiceRequest → M W (result string Status);
  offers_create_offer : MetadataMap → CreateOfferRequest → M W (result string Status);
}.

(** ** Credentials *)

Section credentials.
Context {W : Type} `{!FileSystem W, !ReadFile W, !ReadBytes W, !Tonic W}.

Definition get_macaroon_path_default (network : string) : M W string :=
  let* o := home_dir in
  let* home := unwrap o in
  ret (path_join home (".lnd/data/chain/bitcoin/" +:+ network +:+ "/admin.macaroon")).

Definition read_macaroon_from_file (path : string) : M W (result string string) :=
  let? buffer := read_to_end path in
  ret (Ok (hex_encode buffer)).

Definition read_cert_from_args (cert_pem cert_path : option string)
    : M W (result ClientTlsConfig string) :=
  if is_some cert_path && is_some cert_pem then
    ret (Err "ERROR: Only one of `cert_path` or `cert_pem` should be set."%string)
  else
    let cert_error e := "ERROR: failed to read cert: " +:+ e in
    let? pem := match cert_pem, cert_path with
                | Some pem, _ => ret (Ok pem)
                | None, Some cert_path => map_err cert_error (read_to_string cert_path)
                | None, None =>
                    let* o := home_dir in
                    let* home := unwrap o in
                    let data_dir := path_join (path_join home DEFAULT_LNDK_DIR) DEFAULT_DATA_DIR in
                    map_err cert_error (read_to_string (path_join data_dir TLS_CERT_FILENAME))
                end in
    ret (Ok {| ca_certificate := pem; domain_name := "localhost" |}).

Definition read_macaroon_from_args (macaroon_path macaroon_hex : option string) (network : string)
    : M W (result string string) :=
  if is_some macaroon_path && is_some macaroon_hex then
    ret (Err "ERROR: Only one of `macaroon_path` or `macaroon_hex` should be set."%string)
  else
    let file_error e := "ERROR: failed to read macaroon from file " +:+ e in
    match macaroon_path with
    | Some path => map_err file_error (read_macaroon_from_file path)
    | None =>
        match macaroon_hex with
        | Some macaroon => ret (Ok macaroon)
        | None =>
            let* path := get_macaroon_path_default network in
            map_err file_error (read_macaroon_from_file path)
        end
    end.

Definition create_grpc_channel (grpc_host : string) (grpc_port : Z) (tls : ClientTlsConfig)
    : M W (result unit string) :=
  let? endpoint := map_err (λ e, "ERROR: failed to create endpoint " +:+ e)
                     (ret (endpoint_from_shared (grpc_host +:+ ":" +:+ string_of_Z grpc_port))) in
  let? endpoint := map_err (λ e, "ERROR: failed to configure tls " +:+ e)
                     (ret (endpoint_tls_config endpoint tls)) in
  map_err (λ e, "ERROR: failed to connect " +:+ e) (endpoint_connect endpoint).

(** The metadata of a new request with the macaroon inserted. *)
Definition add_metadata (macaroon : string) : result MetadataMap string :=
  match metadata_value_from_str macaroon with
  | Ok value =>
      Ok (λ key, if (key =? "macaroon")%string then Some (metadata_value_to_str value) else None)
  | Err e => Err ("ERROR: failed to parse provided macaroon string into tonic metadata " +:+ e)
  end.

(** The macaroon; the client is the channel. *)
Definition create_authenticated_client (macaroon_path macaroon_hex : option string)
    (network : string) : M W (result string string) :=
  read_macaroon_from_args macaroon_path macaroon_hex network.

(** What each command that calls the server begins with. *)
Definition connect_to_server (args : Cli) : M W (result string string) :=
  let? tls := read_cert_from_args (cli_cert_pem args) (cli_cert_path args) in
  let? _ := create_grpc_channel (cli_grpc_host args) (cli_grpc_port args) tls in
  create_authenticated_client (cli_macaroon_path args) (cli_macaroon_hex args) (cli_network args).
End credentials.

(** ** The commands *)

Section cli_main.
Context `{Ldk} `{!LdkFmt} `{!InvoiceFields} {W : Type}.
Context `{!FileSystem W, !ReadFile W, !ReadBytes W, !Tonic W, !OffersClient W}.

Definition cli_main (args : Cli) : M W (result CliOutput string) :=
  match cli_command args with
  | DecodeOffer offer_string =>
      let? offer := map_err OfferError_exit_text (ret (decode offer_string)) in
      ret (Ok (DecodedOffer offer))
  | DecodeInvoice invoice_string =>
      let? inv := map_err OfferError_exit_text (ret (invoice_from_hex invoice_string)) in
      ret (Ok (DecodedInvoice inv))
  | PayOffer offer_string amount payer_note response_invoice_timeout fee_limit fee_limit_percent =>
      let? macaroon := connect_to_server args in
      let? offer := map_err OfferError_exit_text (ret (decode offer_string)) in
      let request := {| po_offer := offer_to_string offer; po_amount := amount;
                        po_payer_note := payer_note;
                        po_response_invoice_timeout := response_invoice_timeout;
                        po_fee_limit := fee_limit; po_fee_limit_percent := fee_limit_percent |} in
      let? metadata := ret (add_metadata macaroon) in
      let? _ := map_err Status_exit_text (offers_pay_offer metadata request) in
      ret (Ok SuccessfullyPaid)
  | GetInvoice offer_string amount payer_note response_invoice_timeout =>
      let? macaroon := connect_to_server args in
      let? offer := map_err OfferError_exit_text (ret (decode offer_string)) in
      let request := {| gi_offer := offer_to_string offer; gi_amount := amount;
                        gi_payer_note := payer_note;
                        gi_response_invoice_timeout := response_invoice_timeout |} in
      let? metadata := ret (add_metadata macaroon) in
      let? response := map_err Status_exit_text (offers_get_invoice metadata request) in
      ret (Ok (FetchedInvoice response))
  | PayInvoice invoice_string amount fee_limit fee_limit_percent =>
      let? macaroon := connect_to_server args in
      let request := {| pi_invoice := invoice_string; pi_amount := amount;
                        pi_fee_limit := fee_limit; pi_fee_limit_percent := fee_limit_percent |} in
      let? metadata := ret (add_metadata macaroon) in
      let? _ := map_err Status_exit_text (offers_pay_invoice metadata request) in
      ret (Ok SuccessfullyPaid)
  | CreateOffer amount description issuer expiry quantity =>
      let? macaroon := connect_to_server args in
      let request := {| co_amount := amount; co_description := description; co_issuer := issuer;
                        co_expiry := expiry; co_quantity := quantity |} in
      let? metadata := ret (add_metadata macaroon) in
      let? response := map_err Status_exit_text (offers_create_offer metadata request) in
      ret (Ok (CreatedOffer response))
  end.
End cli_main.

(** ** Facts about the client *)

(** The texts a computation may exit with. *)
Definition exits_with {W A} (P : string → Prop) (c : M W (result A string)) : Prop :=
  ∀ w e w', c w = (Ret (Err e), w') → P e.

Definition marked (e : string) : Prop := String.prefix "ERROR" e = true.

Section exits.
Context {W : Type} (P : string → Prop).

Lemma exits_ret {A} (r : result A string) : (∀ e, r = Err e → P e) → exits_with P (ret r : M W _).
Proof. intros Hr w e w' [= -> _]. by apply Hr. Qed.

Lemma exits_map_err {A E} (f : E → string) (c : M W (result A E)) :
  (∀ e, P (f e)) → exits_with P (map_err f c).
Proof. intros Hf w e w' (e0 & _ & ->)%map_err_inv_Err. apply Hf. Qed.

Lemma exits_bind {A B} (c : M W A) (k : A → M W (result B string)) :
  (∀ a, exits_with P (k a)) → exits_with P (bind c k).
Proof. intros Hk w e w' (a & w1 & _ & Hrun)%bind_inv_Ret. by eapply Hk. Qed.

Lemma exits_try_bind {A B} (c : M W (result A string)) (k : A → M W (result B string)) :
  exits_with P c → (∀ a, exits_with P (k a)) → exits_with P (try_bind c k).
Proof.
  intros Hc Hk w e w' Hrun.
  apply try_bind_inv in Hrun as [(a & w1 & _ & Hrun)|(e' & Hrun & ?)]; simplify_eq;
    [by eapply Hk|by eapply Hc].
Qed.
End exits.

(** Follows the structure of a command. *)
Ltac exits :=
  repeat first
    [ done | solve [eauto with lndk]
    | apply exits_try_bind; [|intros ?]
    | apply exits_map_err; intros ?
    | apply exits_bind; intros ?
    | apply exits_ret; intros ? [=]; subst
    | progress cbv zeta
    | match goal with |- exits_with _ (match ?x with _ => _ end) => destruct x end
    | match goal with |- exits_with _ (if ?x then _ else _) => destruct x end ].

Section facts.
Context `{Ldk} `{!LdkFmt} `{!InvoiceFields} {W : Type}.
Context `{!FileSystem W, !ReadFile W, !ReadBytes W, !Tonic W, !OffersClient W}.

Lemma marked_status st : marked (Status_exit_text st).
Proof. unfold marked, Status_exit_text. by destruct (status_details st). Qed.

Lemma marked_offer_error (e : OfferError) : marked (OfferError_exit_text e).
Proof. done. Qed.

Lemma marked_metadata m e : add_metadata (W := W) m = Err e → marked e.
Proof. unfold add_metadata. destruct (metadata_value_from_str m); by intros [= <-]. Qed.

Hint Resolve marked_status marked_offer_error marked_metadata exits_ret : lndk.

Lemma connect_to_server_marked args : exits_with marked (connect_to_server (W := W) args).
Proof.
  unfold connect_to_server, read_cert_from_args, create_grpc_channel, create_authenticated_client,
    read_macaroon_from_args. exits.
Qed.

Hint Resolve connect_to_server_marked : lndk.

(** Whatever text a command exits with says that it is an error. *)
Theorem cli_errors_are_marked args : exits_with marked (cli_main (W := W) args).
Proof. unfold cli_main. destruct (cli_command args); exits. Qed.

(** Where the client's macaroon comes from. *)
Definition macaroon_from (path hex : option string) (network macaroon : string) : Prop :=
  (path = None ∧ hex = Some macaroon) ∨
  ∃ file buffer (wa wb : W), hex = None ∧ read_to_end file wa = (Ret (Ok buffer), wb) ∧
    macaroon = hex_encode buffer ∧
    (path = Some file ∨
     ∃ home wc wd, path = None ∧ home_dir (W := W) wc = (Ret (Some home), wd) ∧
       file = path_join home (".lnd/data/chain/bitcoin/" +:+ network +:+ "/admin.macaroon")).

Lemma read_macaroon_from_file_ok path (w : W) m w' :
  read_macaroon_from_file path w = (Ret (Ok m), w') →
  ∃ buffer, read_to_end path w = (Ret (Ok buffer), w') ∧ m = hex_encode buffer.
Proof.
  unfold read_macaroon_from_file. intros [(b & w1 & Hb & Hrun)|(e & _ & ?)]%try_bind_inv; [|done].
  run_inv. eauto.
Qed.

Lemma read_macaroon_from_args_ok path hex network (w : W) m w' :
  read_macaroon_from_args path hex network w = (Ret (Ok m), w') → macaroon_from path hex network m.
Proof.
  unfold read_macaroon_from_args, macaroon_from.
  destruct path as [p|], hex as [h|]; cbn; intros Hrun; [by run_inv| |run_inv; eauto|].
  - apply map_err_inv_Ok, read_macaroon_from_file_ok in Hrun as (b & ? & ?). right. eauto 10.
  - apply bind_inv_Ret in Hrun as (file & w1 & Hf & Hrun).
    apply map_err_inv_Ok, read_macaroon_from_file_ok in Hrun as (b & ? & ?).
    unfold get_macaroon_path_default in Hf. apply bind_inv_Ret in Hf as (o & w2 & Ho & Hf).
    apply bind_inv_Ret in Hf as (home & w3 & Hu & Hf). apply unwrap_inv in Hu as [-> ->].
    run_inv. right. eauto 20.
Qed.

Lemma connect_to_server_ok args (w : W) m w' :
  connect_to_server args w = (Ret (Ok m), w') →
  macaroon_from (cli_macaroon_path args) (cli_macaroon_hex args) (cli_network args) m.
Proof.
  unfold connect_to_server. intros Hrun.
  do 2 (apply try_bind_inv in Hrun as [(? & ? & _ & Hrun)|(? & _ & ?)]; [|done]).
  by apply read_macaroon_from_args_ok in Hrun.
Qed.
End facts.

(** ** The client and the server *)

(** The limit the user asked for. *)
Definition requested_limit (fee_limit fee_limit_percent : option Z) : option FeeLimit :=
  match fee_limit, fee_limit_percent with
  | Some fixed, _ => Some (FixedMsat fixed)
  | None, Some percent => Some (Percent percent)
  | None, None => None
  end.

Section end_to_end.
Context `{Secp} `{!Ldk} `{!LdkFmt} `{!InvoiceFields} {W : Type} `{!HasHandler W, !LndConnect W}.
Context `{!PeerConnector W, !LdkEntropy W, !OfferCreator W, !ChanInfo W, !Timer W, !InvoicePayer W}.
Context `{!SystemClock W, !LdkBuild}.
Context `{!FileSystem W, !ReadFile W, !ReadBytes W, !Tonic W}.
Variable self : LNDKServer.

(** A client whose channel leads to the server. *)
#[local] Instance offers_server : OffersClient W := {
  offers_pay_offer := server_pay_offer self;
  offers_get_invoice := server_get_invoice self;
  offers_pay_invoice := server_pay_invoice self;
  offers_create_offer := server_create_offer self;
}.

(** Metadata values carry the text they were parsed from. *)
Hypothesis metadata_faithful : ∀ s v,
  metadata_value_from_str (W := W) s = Ok v → metadata_value_to_str v = Ok s.
(** An offer that LDK parsed is printed so that LDK parses it again. *)
Hypothesis offer_printable : ∀ s o,
  offer_from_str s = Ok o → offer_from_str (offer_to_string o) = Ok o.

Lemma added_macaroon m md : add_metadata (W := W) m = Ok md → check_auth_metadata md = Ok m.
Proof.
  unfold add_metadata. destruct (metadata_value_from_str m) as [v|] eqn:Hv; [|done].
  intros [= <-]. unfold check_auth_metadata. cbn. by rewrite (metadata_faithful _ _ Hv).
Qed.

Lemma accepted_limit fixed percent :
  negb (is_some fixed && is_some percent) = true →
  create_fee_limit fixed percent = requested_limit fixed percent.
Proof. by destruct fixed, percent. Qed.

(** LND is reached with this macaroon. *)
Definition lnd_reached_with (macaroon : string) : Prop :=
  ∃ wa wb : W, get_lnd_client {| lnd_address := srv_address self;
                                 lnd_creds := CredsString macaroon (srv_lnd_cert self) |} wa
                 = (Ret (Ok tt), wb).

Lemma authenticated_with m md (w : W) u w' :
  add_metadata (W := W) m = Ok md → authenticated_client self md w = (Ret (Ok u), w') →
  lnd_reached_with m.
Proof.
  intros Hm%added_macaroon. unfold authenticated_client. rewrite Hm. intros Hrun.
  apply try_bind_inv in Hrun as [(m' & w1 & Hm' & Hrun)|(e & _ & ?)]; [|done].
  unfold ret in Hm'. simplify_eq. apply map_err_inv_Ok in Hrun. destruct u. by eexists _, _.
Qed.

Lemma decode_printed s o : decode s = Ok o → decode (offer_to_string o) = Ok o.
Proof.
  unfold decode. destruct (offer_from_str s) as [o'|] eqn:Hs; cbn; [|done].
  intros [= ->]. by rewrite (offer_printable _ _ Hs).
Qed.

(** C12: [lndk-cli pay-offer] pays what was asked for: when it reports success,
    the server was given the macaroon of the user's choice and reached LND with
    it, and its handler paid the offer of the command line, for the amount, note,
    timeout and fee limit of the command line. *)
Theorem cli_pay_offer_end_to_end args s amount note timeout fixed percent (w : W) out w' :
  cli_command args = PayOffer s amount note timeout fixed percent →
  fee_args_accepted (cli_command args) = true →
  cli_main args w = (Ret (Ok out), w') →
  ∃ offer destination network macaroon payment wa,
    out = SuccessfullyPaid ∧ decode s = Ok offer ∧ get_destination offer = Ok destination ∧
    macaroon_from (W := W) (cli_macaroon_path args) (cli_macaroon_hex args) (cli_network args) macaroon ∧
    lnd_reached_with macaroon ∧
    pay_offer {| cfg_offer := offer; cfg_amount := amount; cfg_payer_note := note;
                 cfg_network := network; cfg_destination := destination; cfg_reply_path := None;
                 cfg_response_invoice_timeout := timeout;
                 cfg_fee_limit := requested_limit fixed percent |} wa = (Ret (Ok payment), w').
Proof.
  intros Hcmd Hfee Hrun. unfold cli_main in Hrun. rewrite Hcmd in Hrun, Hfee. cbn in Hfee.
  apply try_bind_inv in Hrun as [(m & w1 & Hm%connect_to_server_ok & Hrun)|(e & _ & ?)]; [|done].
  apply try_bind_inv in Hrun as [(offer & w2 & Hdec%map_err_inv_Ok & Hrun)|(e & _ & ?)]; [|done].
  apply try_bind_inv in Hrun as [(md & w3 & Hmd & Hrun)|(e & _ & ?)]; [|done].
  apply try_bind_inv in Hrun as [(pre & w4 & Hpay%map_err_inv_Ok & Hrun)|(e & _ & ?)]; [|done].
  unfold ret in Hdec, Hmd, Hrun. simplify_eq. cbn in Hpay. unfold server_pay_offer in Hpay. cbn in Hpay.
  apply try_bind_inv in Hpay as [(u & w5 & Hauth & Hpay)|(e & _ & ?)]; [|done].
  apply try_bind_inv in Hpay as [(offer' & w6 & Hdec'%map_err_inv_Ok & Hpay)|(e & _ & ?)]; [|done].
  apply try_bind_inv in Hpay as [(dest & w7 & Hdest%map_err_inv_Ok & Hpay)|(e & _ & ?)]; [|done].
  apply try_bind_inv in Hpay as [(net & w8 & _ & Hpay)|(e & _ & ?)]; [|done].
  apply try_bind_inv in Hpay as [(payment & w9 & Hpay%map_err_inv_Ok & Hret)|(e & _ & ?)]; [|done].
  rewrite (accepted_limit _ _ Hfee) in Hpay. unfold ret in *. simplify_eq.
  assert (offer' = offer) as -> by (rewrite (decode_printed s offer) in * by done; congruence).
  eexists offer, dest, net, m, payment, _. split_and!; eauto using authenticated_with.
Qed.

(** C13: an invoice that [lndk-cli get-invoice] fetched and printed is an invoice
    for the offer and amount of the command line, and [lndk-cli decode-invoice]
    on the text printed gives that invoice, whatever the other arguments. *)
Theorem cli_invoice_roundtrip args s amount note timeout (w : W) out w' :
  invoices_readable → cli_command args = GetInvoice s amount note timeout →
  cli_main args w = (Ret (Ok out), w') →
  ∃ response inv amount' pid cfg wa wb,
    out = FetchedInvoice response ∧ get_invoice cfg wa = (Ret (Ok (inv, amount', pid)), wb) ∧
    decode s = Ok (cfg_offer cfg) ∧ cfg_amount cfg = amount ∧
    ∀ args' (w1 : W), cli_command args' = DecodeInvoice (gir_invoice_hex_str response) →
      cli_main args' w1 = (Ret (Ok (DecodedInvoice inv)), w1).
Proof.
  intros Hldk Hcmd Hrun. unfold cli_main in Hrun. rewrite Hcmd in Hrun.
  apply try_bind_inv in Hrun as [(m & w1 & _ & Hrun)|(e & _ & ?)]; [|done].
  apply try_bind_inv in Hrun as [(offer & w2 & Hdec%map_err_inv_Ok & Hrun)|(e & _ & ?)]; [|done].
  apply try_bind_inv in Hrun as [(md & w3 & _ & Hrun)|(e & _ & ?)]; [|done].
  apply try_bind_inv in Hrun as [(response & w4 & Hget%map_err_inv_Ok & Hrun)|(e & _ & ?)]; [|done].
  unfold ret in Hdec, Hrun. simplify_eq. cbn in Hget.
  destruct (server_get_invoice_ok _ _ _ _ _ _ Hldk Hget)
    as (inv & amount' & pid & cfg & wa & wb & Hrun & Ha & Hdec' & _ & _ & Hs). cbn in Ha, Hdec'.
  exists response, inv, amount', pid, cfg, wa, wb.
  split_and!; [done|done| |done|]; [rewrite (decode_printed s offer) in Hdec' by done; congruence|].
  intros args' w5 Hc. unfold cli_main. rewrite Hc, Hs. reflexivity.
Qed.
End end_to_end.
