(* ===== verification/Mock.v ===== *)
(** * A concrete world

    Small executable instances of everything that the development takes as a
    parameter: keys that are characters, an LDK whose offers, invoices and paths
    are the data they were built from, and a node with scripted answers.  They
    satisfy the laws that theorems assume, and evaluate. *)

From S2P Require Import Prelude RateLimit Grpc Ldk OfferError Parse.
From S2P Require Import Lnd LndRequests Handler HandlerFacts HandlerSteps OnionMessenger.
From S2P Require Import OnionMessengerFacts MessageRouter.
From S2P Require Import ClientImpls Server Daemon Cli.
Open Scope Z_scope.

(** ** Keys *)

Fixpoint zeros (n : nat) : string := match n with O => "" | S n => String (Ascii.ascii_of_nat 48) (zeros n) end.

#[export] Instance mock_secp : Secp := {
  PublicKey := Ascii.ascii;
  pk_from_str s := match s with
                   | String c rest => if (rest =? zeros 65)%string then Some c else None
                   | EmptyString => None
                   end;
  pk_to_string c := String c (zeros 65);
  pk_from_slice b := match b with
                     | z :: rest => if bool_decide (rest = replicate 32 0)
                                    then Some (Ascii.ascii_of_nat (Z.to_nat z)) else None
                     | [] => None
                     end;
  pk_serialize c := Z.of_nat (Ascii.nat_of_ascii c) :: replicate 32 0;
}.

#[export] Instance mock_secp_laws : SecpLaws.
Proof.
  split.
  - intros pk. vm_compute. done.
  - intros pk. cbn. rewrite bool_decide_true by done. by rewrite Nat2Z.id, Ascii.ascii_nat_embedding.
  - intros pk. done.
  - intros [|z rest] pk; cbn; [done|]. case_bool_decide as Hr; [|done]. intros _. left. by rewrite Hr.
Qed.

Definition kA : PublicKey := Ascii.ascii_of_nat 65.
Definition kB : PublicKey := Ascii.ascii_of_nat 66.
Definition kC : PublicKey := Ascii.ascii_of_nat 67.
Definition kD : PublicKey := Ascii.ascii_of_nat 68.
Definition kE : PublicKey := Ascii.ascii_of_nat 69.

(** ** LDK *)

(** Offers are an amount and paths; paths are their introduction nodes; an
    invoice is a hash and paths; a nonce verifies when it is 7. *)
#[export] Instance mock_ldk : Ldk := {
  Offer := option Amount * list IntroductionNode;
  InvoiceRequest := Z;
  VerifiedInvoiceRequest := Z;
  InvoiceRequestBuilder := Z;
  InvoiceBuilder := PaymentHash * list IntroductionNode;
  Bolt12Invoice := PaymentHash * list IntroductionNode;
  BlindedMessagePath := IntroductionNode;
  BlindedPaymentPath := IntroductionNode;
  BlindedHopFeatures := bytes;
  Nonce := Z;
  ExpandedKey := bytes;
  Hmac := Z;
  InvoiceError := string;
  Responder := Z;
  ResponseInstruction := Z;
  Bolt12SemanticError := string;
  Bolt12ParseError := string;
  DecodeError := string;
  SignError := string;
  BitcoinIoError := string;
  offer_from_str s := if (s =? "lno1")%string then Ok (Some (AmountBitcoin 1000), []) else Err "bech32"%string;
  offer_to_string _ := "lno1"%string;
  offer_amount := fst;
  offer_paths := snd;
  offer_issuer_signing_pubkey _ := Some kB;
  message_path_introduction_node n := n;
  request_invoice _ _ _ _ := Ok 0;
  irb_chain b _ := Ok b;
  irb_amount_msats _ a := Ok a;
  irb_payer_note b _ := b;
  irb_build_and_sign b := Ok b;
  invoice_request_amount a := Some (AmountBitcoin a);
  invoice_request_description _ := None;
  verify_using_recipient_data r nonce _ := if nonce =? 7 then Ok r else Err tt;
  respond_using_derived_keys _ paths hash := Ok (hash, paths);
  invoice_build_and_sign b := Ok b;
  invoice_payment_hash := fst;
  invoice_payment_paths := snd;
  invoice_amount _ := Some (AmountBitcoin 1000);
  verify_using_payer_data _ pid nonce _ := if nonce =? 7 then Ok pid else Err tt;
  hmac_for_offer_payment _ nonce _ := nonce;
  verify_for_offer_payment _ hmac nonce _ := if hmac =? nonce then Ok tt else Err tt;
  invoice_error_from_semantic e := e;
  invoice_error_from_string s := s;
  responder_respond r := r;
  expanded_key_new b := b;
  blinded_hop_features_from_le_bytes b := b;
  payment_path_introduction_node n := n;
  payment_path_blinding_point _ := kA;
  payment_path_blinded_hops _ := [{| blinded_node_id := kB; encrypted_payload := [1; 2; 3] |}];
  payment_path_cltv_expiry_delta _ := 40;
  payment_path_fee_base_msat _ := 1;
  payment_path_fee_proportional_millionths _ := 10;
}.

(** Some offers and invoices. *)
Definition open_offer : Offer := (None, []).
Definition key12 : ExpandedKey := [1; 2].
Definition invoice1 : Bolt12Invoice := ([1], [NodeId kB]).
Definition invoice2 : Bolt12Invoice := ([2], []).
Definition scid_invoice : Bolt12Invoice := ([1], [DirectedShortChannelId NodeOne 6]).
Definition scid_path : BlindedPaymentPath := DirectedShortChannelId NodeOne 6.

#[export] Instance mock_ldk_build : LdkBuild := {
  offer_build _ _ _ _ := Ok (None, []);
  from_blinded_path_and_payinfo node _ _ _ := NodeId node;
}.

#[export] Instance mock_fmt : LdkFmt := {
  fmt_semantic_error s := s; fmt_parse_error s := s; fmt_decode_error s := s;
  fmt_sign_error s := s; fmt_io_error s := s;
}.

#[export] Instance mock_invoice_fields : InvoiceFields := {
  invoice_chain _ := "chain"%string;
  invoice_quantity _ := None;
  invoice_amount_msats _ := 1000;
  invoice_description _ := None;
  invoice_created_at _ := 0;
  invoice_relative_expiry _ := 7200;
  invoice_signing_pubkey _ := kB;
  invoice_signature _ := "signature"%string;
  invoice_payer_note _ := None;
  payment_path_payinfo _ :=
    {| fee_base_msat := 1; fee_proportional_millionths := 10; cltv_expiry_delta := 40;
       htlc_minimum_msat := 0; htlc_maximum_msat := 0; payinfo_features := [] |};
  invoice_write inv :=
    match inv.2 with
    | [NodeId k] =>
        if forallb (λ z, (0 <=? z) && (z <? 256)) inv.1
        then Ok (Z.of_nat (Ascii.nat_of_ascii k) :: inv.1) else Err "io"%string
    | _ => Err "io"%string
    end;
  invoice_try_from b :=
    match b with
    | z :: hash => Some (hash, [NodeId (Ascii.ascii_of_nat (Z.to_nat z))])
    | [] => None
    end;
  decode_error_invalid_value := "InvalidValue"%string;
}.

#[export] Instance mock_onion_messages : OnionMessages := {
  OnionMessage := bytes;
  InitFeatures := bytes;
  ChainHash := Network;
  onion_message_read b := Ok b;
  onion_message_write b := Ok b;
  init_features_from_le_bytes b := b;
  init_features_empty := [];
  using_genesis_block_const n := n;
}.

#[export] Instance mock_status_fmt : StatusFmt := status_message.

(** ** The world *)

Record World := {
  w_handler : OfferHandler;
  w_peers : list Peer;
  w_channels : list Channel;
  w_edges : list (Z * ChannelEdge);
  w_identity : string;
  w_now : Z;
  w_random : bytes;
  (* invoices on their way, one arrives during each sleep of a wait *)
  w_inbox : list (Bolt12Invoice * OffersContext);
  w_updates : list Payment;
  (* the channel of messenger events *)
  w_queue : list MessengerEvents;
  w_capacity : nat;
  (* what the producers' streams still give *)
  w_peer_stream : list PeerEvent;
  w_message_stream : list CustomMessage;
  (* histories *)
  w_history : list hist_entry;
  w_got_peers : list (result PeerEvent Status);
  w_got_messages : list (result CustomMessage Status);
  w_sent : list MessengerEvents;
  (* whether the shutdown is triggered, and the tasks not yet joined *)
  w_shutdown : bool;
  w_tasks : list MessengerTask;
}.

Definition upd_handler (h : OfferHandler) (w : World) : World :=
  {| w_handler := h; w_peers := w_peers w; w_channels := w_channels w;
     w_edges := w_edges w; w_identity := w_identity w; w_now := w_now w; w_random := w_random w;
     w_inbox := w_inbox w; w_updates := w_updates w; w_queue := w_queue w;
     w_capacity := w_capacity w; w_peer_stream := w_peer_stream w;
     w_message_stream := w_message_stream w; w_history := w_history w;
     w_got_peers := w_got_peers w; w_got_messages := w_got_messages w; w_sent := w_sent w;
     w_shutdown := w_shutdown w; w_tasks := w_tasks w |}.

Definition upd_inbox (l : list (Bolt12Invoice * OffersContext)) (w : World) : World :=
  {| w_handler := w_handler w; w_peers := w_peers w; w_channels := w_channels w;
     w_edges := w_edges w; w_identity := w_identity w; w_now := w_now w; w_random := w_random w;
     w_inbox := l; w_updates := w_updates w; w_queue := w_queue w;
     w_capacity := w_capacity w; w_peer_stream := w_peer_stream w;
     w_message_stream := w_message_stream w; w_history := w_history w;
     w_got_peers := w_got_peers w; w_got_messages := w_got_messages w; w_sent := w_sent w;
     w_shutdown := w_shutdown w; w_tasks := w_tasks w |}.

Definition upd_now (t : Z) (w : World) : World :=
  {| w_handler := w_handler w; w_peers := w_peers w; w_channels := w_channels w;
     w_edges := w_edges w; w_identity := w_identity w; w_now := t; w_random := w_random w;
     w_inbox := w_inbox w; w_updates := w_updates w; w_queue := w_queue w;
     w_capacity := w_capacity w; w_peer_stream := w_peer_stream w;
     w_message_stream := w_message_stream w; w_history := w_history w;
     w_got_peers := w_got_peers w; w_got_messages := w_got_messages w; w_sent := w_sent w;
     w_shutdown := w_shutdown w; w_tasks := w_tasks w |}.

Definition upd_updates (l : list Payment) (w : World) : World :=
  {| w_handler := w_handler w; w_peers := w_peers w; w_channels := w_channels w;
     w_edges := w_edges w; w_identity := w_identity w; w_now := w_now w; w_random := w_random w;
     w_inbox := w_inbox w; w_updates := l; w_queue := w_queue w;
     w_capacity := w_capacity w; w_peer_stream := w_peer_stream w;
     w_message_stream := w_message_stream w; w_history := w_history w;
     w_got_peers := w_got_peers w; w_got_messages := w_got_messages w; w_sent := w_sent w;
     w_shutdown := w_shutdown w; w_tasks := w_tasks w |}.

(** A step of the messenger: queue, capacity, streams and histories. *)
Definition upd_messenger (queue : list MessengerEvents) (cap : nat) (ps : list PeerEvent)
    (ms : list CustomMessage) (h : list hist_entry) (gp : list (result PeerEvent Status))
    (gm : list (result CustomMessage Status)) (s : list MessengerEvents) (w : World) : World :=
  {| w_handler := w_handler w; w_peers := w_peers w; w_channels := w_channels w;
     w_edges := w_edges w; w_identity := w_identity w; w_now := w_now w; w_random := w_random w;
     w_inbox := w_inbox w; w_updates := w_updates w; w_queue := queue; w_capacity := cap;
     w_peer_stream := ps; w_message_stream := ms; w_history := h; w_got_peers := gp;
     w_got_messages := gm; w_sent := s; w_shutdown := w_shutdown w; w_tasks := w_tasks w |}.

(** The shutdown flag and the tasks. *)
Definition upd_tasks (b : bool) (ts : list MessengerTask) (w : World) : World :=
  {| w_handler := w_handler w; w_peers := w_peers w; w_channels := w_channels w;
     w_edges := w_edges w; w_identity := w_identity w; w_now := w_now w; w_random := w_random w;
     w_inbox := w_inbox w; w_updates := w_updates w; w_queue := w_queue w;
     w_capacity := w_capacity w; w_peer_stream := w_peer_stream w;
     w_message_stream := w_message_stream w; w_history := w_history w;
     w_got_peers := w_got_peers w; w_got_messages := w_got_messages w; w_sent := w_sent w;
     w_shutdown := b; w_tasks := ts |}.

Definition upd_history (h : list hist_entry) (w : World) : World :=
  upd_messenger (w_queue w) (w_capacity w) (w_peer_stream w) (w_message_stream w) h
    (w_got_peers w) (w_got_messages w) (w_sent w) w.

Definition not_found : Status := Status_new NotFound "not found".

(** The value of a key in a list of pairs. *)
Fixpoint assoc {A B} `{EqDecision A} (k : A) (l : list (A * B)) : option B :=
  match l with
  | [] => None
  | (k', b) :: l => if decide (k = k') then Some b else assoc k l
  end.

(** The feature of onion messages. *)
Definition onion_features : gmap Z Feature :=
  {[ 39 := {| feature_name := "onion"; feature_is_required := false; feature_is_known := true |} ]}.

(** The graph: every node but [kE] is announced, with onion message support and
    the channel 100. *)
Definition known_node (pk : string) : result NodeInfo Status :=
  if (pk =? pk_to_string kE)%string then Err not_found
  else Ok {| info_node := Some {| node_addresses := [{| addr_network := "tcp"; addr_addr := "host" |}];
                                  node_features := onion_features |};
             info_channels := [{| channel_id := 100; node1_pub := pk; node2_pub := pk |}] |}.

#[export] Instance mock_handler : HasHandler World := {
  handler := w_handler;
  set_handler := upd_handler;
  handler_set h w := eq_refl;
}.

#[export] Instance mock_peer_connector : PeerConnector World := {
  list_peers := λ w, (Ret (Ok (w_peers w)), w);
  connect_peer _ _ := ret (Ok tt);
  get_node_info pk _ := ret (known_node pk);
  list_active_public_channels := λ w, (Ret (Ok (w_channels w)), w);
}.

#[export] Instance mock_offer_creator : OfferCreator World := λ w,
  (Ret (Ok {| identity_pubkey := w_identity w; info_features := onion_features;
              info_chains := [{| chain_chain := "bitcoin"; chain_network := "regtest" |}] |}), w).

#[export] Instance mock_chan_info : ChanInfo World := λ scid w,
  (Ret (ok_or not_found (assoc scid (w_edges w))), w).

#[export] Instance mock_clock : SystemClock World := λ w, (Ret (w_now w), w).

#[export] Instance mock_shutdown : Shutdown World := λ _, ret false.

#[export] Instance mock_entropy : LdkEntropy World := {
  get_secure_random_bytes := λ w, (Ret (w_random w), w);
  nonce_from_entropy_source := ret 7;
  message_path_one_hop pk _ := ret (Ok (NodeId pk));
  message_path_new nodes pk _ :=
    ret (Ok (NodeId (default pk (fwd_node_id <$> head nodes))));
}.

#[export] Instance mock_sleep : Sleep World := λ _, ret tt.

(** The next invoice on its way is handled. *)
Definition deliver (w : World) : World :=
  match w_inbox w with
  | [] => w
  | (inv, ctx) :: rest => (handle_invoice inv (Some ctx) None (upd_inbox rest w)).2
  end.

(** Sleeps last exactly as long as they should. *)
#[export] Instance mock_timer : Timer World := {
  instant_now := λ w, (Ret (w_now w), w);
  timeout_sleep deadline d := λ w,
    if deadline <=? w_now w then (Ret true, w)
    else if w_now w + d <=? deadline then (Ret false, deliver (upd_now (w_now w + d) w))
    else (Ret true, upd_now deadline w);
}.

#[export] Instance mock_lnd_connect : LndConnect World := {
  tonic_connect _ _ _ := ret (Ok tt);
  tonic_connect_from_memory _ _ _ := ret (Ok tt);
}.

Definition paid : Payment := {| payment_preimage := "preimage"; payment_status := PaymentSucceeded |}.

#[export] Instance mock_payer : InvoicePayer World := {
  Route := nat;
  HtlcAttempt := unit;
  query_routes _ _ _ _ _ _ := ret (Ok [1%nat]);
  send_to_route _ _ := ret (Ok tt);
  payer_track_payment _ := ret (Ok paid);
}.

#[export] Instance mock_invoice_creator : Bolt12InvoiceCreator World := {
  add_invoice _ := ret (Ok "request"%string);
  decode_payment_request _ :=
    ret (Ok {| payreq_payment_hash := "hash"; payreq_blinded_paths := [] |});
}.

#[export] Instance mock_rpc : LndRpc World := {
  RpcRoute := nat;
  RpcHtlcAttempt := unit;
  rpc_list_peers := list_peers;
  rpc_connect_peer _ := ret (Ok tt);
  rpc_get_node_info req := get_node_info (ni_pub_key req) (ni_include_channels req);
  rpc_list_channels _ := list_active_public_channels;
  rpc_sign_message req := ret (Ok (sm_msg req));
  rpc_query_routes _ := ret (Ok [1%nat]);
  rpc_send_to_route_v2 _ := ret (Ok tt);
  rpc_track_payment_v2 _ := ret (Ok tt);
  rpc_payment_update := λ w, match w_updates w with
                             | [] => (Ret (Ok None), w)
                             | p :: ps => (Ret (Ok (Some p)), upd_updates ps w)
                             end;
  rpc_get_info := get_info;
  rpc_add_invoice _ := ret (Ok "request"%string);
  rpc_decode_pay_req := decode_payment_request;
}.

#[export] Instance mock_inner_router : InnerRouter World := {
  SocketAddress := string;
  socket_address_from_str s := if (s =? "")%string then None else Some s;
  inner_create_blinded_paths _ _ _ := ret (Ok []);
}.

(** ** The messenger of the world *)

(** Appends to the history. *)
Definition log_entry (e : hist_entry) {A} (a : A) : M World A := λ w,
  (Ret a, upd_history (w_history w ++ [e]) w).

#[export] Instance mock_messenger : LdkMessenger World := {
  om_peer_connected pk i _ := log_entry (HConnected pk (init_features i)) (Ok tt);
  om_peer_disconnected pk := log_entry (HDisconnected pk) tt;
  om_handle_onion_message pk msg := log_entry (HHandle pk msg) tt;
  om_process_pending_events _ := log_entry HProcess tt;
  om_next_onion_message_for_peer pk := log_entry (HNext pk) None;
}.

#[export] Instance mock_channel : EventChannel World := {
  channel_new n := λ w,
    (Ret tt, upd_messenger [] n (w_peer_stream w) (w_message_stream w) (w_history w)
               (w_got_peers w) (w_got_messages w) (w_sent w) w);
  send_event ev := λ w,
    let w' q := upd_messenger q (w_capacity w) (w_peer_stream w) (w_message_stream w)
                  (w_history w) (w_got_peers w) (w_got_messages w) (w_sent w ++ [ev]) w in
    if (length (w_queue w) <? w_capacity w)%nat then (Ret (Ok tt), w' (w_queue w ++ [ev]))
    else (Ret (Err "channel closed"%string), w' (w_queue w));
  recv_event := λ w,
    match w_queue w with
    | [] => (Ret None, w)
    | ev :: q =>
        (Ret (Some ev),
         upd_messenger q (w_capacity w) (w_peer_stream w) (w_message_stream w)
           (w_history w ++ [HRecv ev]) (w_got_peers w) (w_got_messages w) (w_sent w) w)
    end;
}.

#[export] Instance mock_send : SendCustomMessage World := λ _, ret (Ok tt).
#[export] Instance mock_listener : Listener World := λ w, (Ret (w_shutdown w), w).
(** The shutdown comes, at the latest, while the tasks are joined. *)
#[export] Instance mock_runtime : Runtime World := {
  spawn _ := ret tt;
  set_spawn t _ := λ w, (Ret tt, upd_tasks (w_shutdown w) (w_tasks w ++ [t]) w);
  join_next := λ w, match w_tasks w with
                    | [] => (Ret None, w)
                    | _ :: ts => (Ret (Some true), upd_tasks true ts w)
                    end;
  trigger_shutdown := λ w, (Ret tt, upd_tasks true (w_tasks w) w);
  notify_waiters := ret tt;
  rounds_within _ := ret 3%nat;
}.

Definition stream_ended : Status := Status_new Unknown "no event provided".

#[export] Instance mock_peer_producer : PeerEventProducer World := {
  pe_receive := λ w,
    let next ps r := (Ret r, upd_messenger (w_queue w) (w_capacity w) ps (w_message_stream w)
                        (w_history w) (w_got_peers w ++ [r]) (w_got_messages w) (w_sent w) w) in
    match w_peer_stream w with
    | [] => next [] (Err stream_ended)
    | pe :: ps => next ps (Ok pe)
    end;
  pe_onion_support _ := ret true;
}.

#[export] Instance mock_message_producer : IncomingMessageProducer World := λ w,
  let next ms r := (Ret r, upd_messenger (w_queue w) (w_capacity w) (w_peer_stream w) ms
                      (w_history w) (w_got_peers w) (w_got_messages w ++ [r]) (w_sent w) w) in
  match w_message_stream w with
  | [] => next [] (Err stream_ended)
  | cm :: ms => next ms (Ok cm)
  end.

#[export] Instance mock_lightning_client : LightningClient World := {
  ln_list_peers := list_peers;
  ln_send_custom_message _ := ret (Ok tt);
  ln_subscribe_peer_events := ret (Ok tt);
  ln_subscribe_custom_messages := ret (Ok tt);
  peer_stream_message := ret (Ok None);
  message_stream_message := ret (Ok None);
}.

(** ** Files *)

(** The files of the world are fixed: every path holds a text. *)
#[export] Instance mock_read_file : ReadFile World := λ p, ret (Ok ("text of " +:+ p)).

#[export] Instance mock_file_system : FileSystem World := {
  path_exists _ := ret true;
  file_create _ := ret (Ok tt);
  file_metadata _ := ret (Ok tt);
  set_permissions _ _ := ret (Ok tt);
  file_write_all _ _ := ret (Ok tt);
  fs_write _ _ := ret (Ok tt);
  create_dir_all _ := ret (Ok tt);
  home_dir := ret (Some "/home/lndk"%string);
  generate_simple_self_signed _ := ret (Ok ("cert", "key")%string);
}.

#[export] Instance mock_signer : MessageSigner World := λ msg _ _ _, ret (Ok msg).
#[export] Instance mock_versioner : Versioner World :=
  ret (Ok {| app_major := 0; app_minor := 18; app_patch := 3;
             app_pre_release := "beta"; build_tags := BUILD_TAGS_REQUIRED |}).
#[export] Instance mock_logging : Logging World := {
  LevelFilter := string;
  LevelTrace := "trace"%string;
  level_filter_from_str s := if (s =? "info")%string then Some s else None;
  init_logger _ _ := ret tt;
}.
#[export] Instance mock_signals : Signals World := {
  signal_terminate := ret (Ok tt);
  select_signal := pending;
  signal_interrupt := ret (Ok tt);
}.

#[export] Instance mock_read_bytes : ReadBytes World := λ _, ret (Ok [2; 171]).
#[export] Instance mock_tonic : Tonic World := {
  MetadataValue := string;
  metadata_value_from_str s := if (s =? "")%string then Err "empty"%string else Ok s;
  metadata_value_to_str s := Ok s;
  Endpoint := string;
  endpoint_from_shared s := Ok s;
  endpoint_tls_config e _ := Ok e;
  endpoint_connect _ := ret (Ok tt);
}.

(** A disk whose files change. *)
Record Disk := { disk_files : gmap string file }.

Definition disk_update (f : gmap string file → gmap string file) : M Disk (result unit string) := λ d,
  (Ret (Ok tt), {| disk_files := f (disk_files d) |}).

#[export] Instance disk_read : ReadFile Disk := λ p d,
  (Ret (ok_or "not found"%string (file_content <$> disk_files d !! p)), d).

(** The mode of a file; that of a new one lets others read. *)
Definition disk_mode (p : string) (d : gmap string file) : Z :=
  match d !! p with Some f => file_mode f | None => 420 end.

Definition disk_write (p s : string) : M Disk (result unit string) :=
  disk_update (λ d, <[p := {| file_content := s; file_mode := disk_mode p d |}]> d).

#[export] Instance disk_file_system : FileSystem Disk := {
  path_exists p := λ d, (Ret (bool_decide (is_Some (disk_files d !! p))), d);
  file_create p := disk_write p "";
  file_metadata _ := ret (Ok tt);
  set_permissions p m := λ d,
    match disk_files d !! p with
    | Some f => disk_update (insert p {| file_content := file_content f; file_mode := m |}) d
    | None => (Ret (Err "not found"%string), d)
    end;
  file_write_all := disk_write;
  fs_write := disk_write;
  create_dir_all _ := ret (Ok tt);
  home_dir := ret (Some "/home/lndk"%string);
  generate_simple_self_signed names := ret (Ok ("cert for " +:+ join_with comma names, "key"%string));
}.

#[export] Instance disk_laws : FsLaws (W := Disk).
Proof.
  refine {| fs_files := disk_files |}.
  - by intros p w b w' [= <- <-].
  - by intros; intros w o w' [= _ <-].
  - by intros; intros w o w' [= _ <-].
  - intros p w r w' [= <- <-]. by eexists.
  - intros p m w r w'. cbn. destruct (disk_files w !! p) as [f|] eqn:Hf; intros [= <- <-]; [|done]. by exists f.
  - intros p s w r w' f [= <- <-] Hf. exists s. split; [|done]. cbn. unfold disk_mode. by rewrite Hf.
  - intros p s w r w' [= <- <-]. right. by eexists.
  - intros p w r w'. unfold read_to_string, disk_read. intros [= <- <-]. split; [done|]. intros s.
    by destruct (disk_files w !! p); intros [= <-].
Defined.

(** ** The laws *)

#[export] Instance mock_history : MessengerHistory (W := World).
Proof.
  refine {| history := w_history |}.
  - intros w o w'. cbn. destruct (w_queue w) as [|ev q]; intros [= <- <-]; cbn; by rewrite ?app_nil_r.
  - intros pk i b w o w' [= _ <-]. done.
  - intros pk w o w' [= _ <-]. done.
  - intros pk msg w o w' [= _ <-]. done.
  - intros f _ w o w' [= _ <-]. done.
  - intros pk w o w' [= _ <-]. done.
  - intros req w o w' [= _ <-]. by rewrite app_nil_r.
Defined.

Lemma deliver_frame (w : World) :
  w_now (deliver w) = w_now w ∧ w_tasks (deliver w) = w_tasks w ∧ w_shutdown (deliver w) = w_shutdown w.
Proof.
  unfold deliver. destruct (w_inbox w) as [|[inv ctx] rest]; [done|].
  unfold handle_invoice, bind, get_world. destruct ctx as [n|pid n h|]; [done| |done].
  by destruct (verify_using_payer_data _ _ _ _).
Qed.

#[export] Instance mock_timer_laws : TimerLaws (W := World).
Proof.
  refine {| time := w_now |}.
  - by intros w t w' [= <- <-].
  - intros deadline d w w'. cbn. destruct (Z.leb_spec deadline (w_now w)); [done|].
    destruct (Z.leb_spec (w_now w + d) deadline); [|done]. intros [= <-].
    destruct (deliver_frame (upd_now (w_now w + d) w)) as (-> & _). cbn. lia.
  - intros deadline d w w'. cbn. destruct (Z.leb_spec deadline (w_now w)); [by intros [= <-]|].
    destruct (Z.leb_spec (w_now w + d) deadline); [done|]. intros [= <-]. cbn. lia.
  - intros deadline d w. cbn. repeat case_match; by eexists _, _.
Defined.

(** Nothing but the invoices that come in during waits touches the handler. *)
#[export] Instance mock_rely : HandlerRely (W := World) interfered.
Proof.
  split; try by (intros; intros w o w' [= _ <-]; exists []).
  intros deadline d w o w'. cbn. repeat case_match; intros [= _ <-]; [by exists []| |by exists []].
  unfold deliver. cbn [w_inbox upd_now]. destruct (w_inbox w) as [|[inv ctx] rest]; [by exists []|].
  pose (w1 := upd_inbox rest (upd_now (w_now w + d) w)).
  destruct (block_interferes (BInvoice inv (Some ctx) None) w1 _ _ (surjective_pairing _)) as [bs Hbs].
  exists bs. refine (eq_trans _ Hbs). fold w1. cbn [run_block]. unfold bind, ret.
  by destruct (handle_invoice _ _ _ _) as [[] ?].
Qed.

#[export] Instance mock_bounded_channel : BoundedChannel (W := World).
Proof.
  refine {| ch_len w := length (w_queue w); ch_capacity := w_capacity |}.
  - intros n w. by eexists.
  - intros ev w Hlt. cbn [send_event mock_channel]. cbv zeta. rewrite (proj2 (Nat.ltb_lt _ _) Hlt). eexists. split; [reflexivity|]. cbn.
    rewrite length_app. cbn. split; [lia|done].
Defined.

#[export] Instance mock_peer_history : ProducerHistory (W := World) pe_receive.
Proof.
  refine {| got := w_got_peers; sent := w_sent |}.
  - intros w o w' [= _ <-]. by rewrite !app_nil_r.
  - intros w r w'. cbn. destruct (w_peer_stream w); intros [= <- <-]; cbn; by rewrite app_nil_r.
  - intros ev w o w'. cbn. case_match; intros [= _ <-]; cbn; by rewrite app_nil_r.
Defined.

#[export] Instance mock_message_history : ProducerHistory (W := World) im_receive.
Proof.
  refine {| got := w_got_messages; sent := w_sent |}.
  - intros w o w' [= _ <-]. by rewrite !app_nil_r.
  - intros w r w'. unfold im_receive, mock_message_producer. cbn.
    destruct (w_message_stream w); intros [= <- <-]; cbn; by rewrite app_nil_r.
  - intros ev w o w'. cbn. case_match; intros [= _ <-]; cbn; by rewrite app_nil_r.
Defined.

(** ** A world *)

Definition w0 : World := {|
  w_handler := {| active_payments := ∅; pending_messages := []; expanded_key := [1; 2];
                  response_invoice_timeout := 15; has_client := true |};
  w_peers := [{| peer_pub_key := pk_to_string kC; peer_features := onion_features |};
              {| peer_pub_key := pk_to_string kB; peer_features := ∅ |}];
  w_channels := [{| remote_pubkey := pk_to_string kB; chan_id := 1 |};
                 {| remote_pubkey := pk_to_string kE; chan_id := 2 |};
                 {| remote_pubkey := pk_to_string kC; chan_id := 3 |}];
  w_edges := [(5, {| channel_id := 5; node1_pub := pk_to_string kA; node2_pub := pk_to_string kB |})];
  w_identity := pk_to_string kA;
  w_now := 1000;
  w_random := [42];
  w_inbox := [(([1], [NodeId kB]), CtxOutboundPayment [42] 7 None)];
  w_updates := [];
  w_queue := [PeerConnected kB true; IncomingMessage kB [1]; IncomingMessage kB [2];
              IncomingMessage kB [3]; SendOutgoing; PeerDisconnected kB; SendOutgoing];
  w_capacity := 20;
  w_peer_stream := [{| pe_pub_key := pk_to_string kB; pe_type := PeerOnline |};
                    {| pe_pub_key := pk_to_string kB; pe_type := PeerOffline |}];
  w_message_stream := [{| cm_peer := pk_serialize kB; cm_type := 1; cm_data := [] |};
                       {| cm_peer := pk_serialize kB; cm_type := 513; cm_data := [9] |}];
  w_history := [];
  w_got_peers := [];
  w_got_messages := [];
  w_sent := [];
  w_shutdown := false;
  w_tasks := [];
|}.

(** Paying an offer of 1000 millisatoshis. *)
Definition pay_cfg : PayOfferParams := {|
  cfg_offer := (Some (AmountBitcoin 1000), []);
  cfg_amount := None;
  cfg_payer_note := None;
  cfg_network := Regtest;
  cfg_destination := DestNode kB;
  cfg_reply_path := None;
  cfg_response_invoice_timeout := Some 4;
  cfg_fee_limit := None;
|}.
