(* ===== verification/UnitTests.v ===== *)
(** * The unit tests of the program, run on the model

    Each [test_...] translates the test of that name in the source and is
    evaluated.  Mocked clients are instances over the number of calls made to
    them, so that the expectations on the number of calls are checked as well;
    keys are those of [Mock]. *)

From S2P Require Import Prelude RateLimit Grpc Ldk OfferError Parse.
From S2P Require Import Lnd LndRequests Handler OnionMessenger MessageRouter Server.
From S2P Require Import Daemon Cli Mock.
Open Scope Z_scope.

(** Whether the tests of a group pass. *)
Definition all_pass (tests : list bool) : bool := forallb id tests.

Definition pubkey (byte : nat) : PublicKey := Ascii.ascii_of_nat (42 + byte).

(** ** src/rate_limit.rs *)

Module RateLimitTests.

Definition TEST_COUNT : Z := 2.
Definition TEST_FREQUENCY : Z := 10 ^ 9.

(** The paused clock of a test stands still until it is advanced. *)
Definition paused (t : Z) : TokioClock := TokioClock_new (λ _, t).

(** A test is a sequence of calls and assertions on a limiter. *)
Definition state : Type := bool * TokenLimiter PublicKey TokioClock.
Definition call (f : TokenLimiter PublicKey TokioClock → TokenLimiter PublicKey TokioClock)
    (s : state) : state := (s.1, f s.2).
Definition assert_query (expected : bool) (pk : PublicKey) (s : state) : state :=
  let '(granted, tl) := query_peer pk s.2 in (s.1 && Bool.eqb granted expected, tl).
Definition assert_peers (expected : list PublicKey) (s : state) : state :=
  (s.1 && bool_decide (list_to_set (C := gset PublicKey) (peers s.2) = list_to_set expected)
   && bool_decide (length (peers s.2) = length expected), s.2).
Definition run_test (initial : list PublicKey) (steps : list (state → state)) : bool :=
  (foldl (λ s f, f s) (true, TokenLimiter_new initial TEST_COUNT TEST_FREQUENCY (paused 0)) steps).1.

Definition pk_0 : PublicKey := pubkey 0.
Definition pk_1 : PublicKey := pubkey 1.

Definition test_peer_connection : bool :=
  run_test [pk_0]
    [assert_peers [pk_0];
     call (peer_connected pk_1); assert_peers [pk_0; pk_1];
     call (peer_disconnected pk_0); assert_peers [pk_1]].

Definition test_rate_limiting : bool :=
  run_test [pk_0]
    ([assert_peers [pk_0]]
     ++ replicate 2 (assert_query true pk_0) ++ [assert_query false pk_0]
     ++ [call (peer_connected pk_1); assert_query true pk_1;
         call (peer_disconnected pk_1); call (peer_connected pk_1);
         assert_query true pk_1; assert_query false pk_1;
         call (peer_disconnected pk_1);
         call (with_clock (paused TEST_FREQUENCY));
         assert_query false pk_1]
     ++ replicate 2 (assert_query true pk_0) ++ [assert_query false pk_0]
     ++ [call (peer_connected pk_1)]
     ++ replicate 2 (assert_query true pk_1) ++ [assert_query false pk_1]).

Definition test_query_peer_unknown_peer : bool := run_test [] [assert_query false pk_0].

Example rate_limit_tests_pass :
  all_pass [test_peer_connection; test_rate_limiting; test_query_peer_unknown_peer] = true.
Proof. vm_compute. reflexivity. Qed.
End RateLimitTests.

(** ** src/grpc.rs *)

Module GrpcTests.

(** The client's method answers by the number of the call; the world counts
    the calls.  Any other request makes it panic, as an unmet expectation. *)
Definition some_method (answers : list (result string Status)) (req : string)
    : M nat (result string Status) := λ calls,
  match (req =? "test_request")%string, answers !! calls with
  | true, Some r => (Ret r, S calls)
  | _, _ => (Panic, S calls)
  end.

#[local] Instance no_sleep : Sleep nat := λ _, ret tt.

Definition create_status (code : Code) (message : string) : Status := Status_new code message.

Definition unavailable : result string Status := Err (create_status Unavailable "temp unavailable").
Definition success : result string Status := Ok "success"%string.

Definition infinite (answers : list (result string Status)) : outcome (result string Status) * nat :=
  with_infinite_retries 10 (some_method answers) "test_request"%string None 0%nat.
Definition bounded (answers : list (result string Status)) : outcome (result string Status) * nat :=
  with_max_attempts (some_method answers) "test_request"%string (Some 2) 0%nat.

Definition succeeds_after (n : nat) (run : outcome (result string Status) * nat) : bool :=
  match run with
  | (Ret (Ok s), calls) => (s =? "success")%string && Nat.eqb calls n
  | _ => false
  end.
Definition fails_after (n : nat) (code : Code) (run : outcome (result string Status) * nat) : bool :=
  match run with
  | (Ret (Err e), calls) => bool_decide (status_code e = code) && Nat.eqb calls n
  | _ => false
  end.

Definition test_successful_first_attempt : bool := succeeds_after 1 (infinite [success]).
Definition test_retry_success_after_failures : bool :=
  succeeds_after 3 (infinite [unavailable; unavailable; success]).
Definition test_non_retryable_error : bool :=
  fails_after 1 InvalidArgument (infinite [Err (create_status InvalidArgument "temp unavailable")]).
Definition test_retry_with_max_attempts_ends_with_error : bool :=
  fails_after 2 Unavailable (bounded [unavailable; unavailable; success]).
Definition test_retry_with_max_attempts_ends_with_success : bool :=
  succeeds_after 2 (bounded [unavailable; success]).
Definition test_retry_with_max_attempts_non_retryable_error : bool :=
  fails_after 1 InvalidArgument (bounded [Err (create_status InvalidArgument "invalid argument")]).

Example grpc_tests_pass :
  all_pass [test_successful_first_attempt; test_retry_success_after_failures;
            test_non_retryable_error; test_retry_with_max_attempts_ends_with_error;
            test_retry_with_max_attempts_ends_with_success;
            test_retry_with_max_attempts_non_retryable_error] = true.
Proof. vm_compute. reflexivity. Qed.
End GrpcTests.

(** ** src/offers/parse.rs *)

Module ParseTests.

(** Offers of [Mock] are an amount and paths; LDK's builder drops an amount of
    zero. *)
Definition build_custom_offer (amount_msats : Z) : Offer :=
  ((if amount_msats =? 0 then None else Some (AmountBitcoin amount_msats)), []).

Definition test_validate_amount : bool :=
  is_ok (validate_amount (offer_amount (build_custom_offer 20000)) (Some 20000)).

Definition test_validate_amount_is_invalid : bool :=
  negb (is_ok (validate_amount (offer_amount (build_custom_offer 20000)) (Some 1000))).

Definition test_reject_offer_with_zero_amount : bool :=
  is_none (offer_amount (build_custom_offer 0))
  && negb (is_ok (validate_amount (Some (AmountBitcoin 0)) (Some 20000)))
  && negb (is_ok (validate_amount (Some (AmountBitcoin 0)) None)).

Example parse_tests_pass :
  all_pass [test_validate_amount; test_validate_amount_is_invalid;
            test_reject_offer_with_zero_amount] = true.
Proof. vm_compute. reflexivity. Qed.
End ParseTests.

(** ** src/lnd.rs *)

Module LndTests.

Definition get_tls_cert_string : string := "-----BEGIN CERTIFICATE-----".
Definition get_macaroon_string : string := "0201036c6e64".

Definition creds_ok (r : outcome (result Creds ValidationError)) : bool :=
  match r with Ret (Ok _) => true | _ => false end.
#[local] Instance ValidationError_eq_dec : EqDecision ValidationError.
Proof. solve_decision. Defined.
Definition creds_error (e : ValidationError) (r : outcome (result Creds ValidationError)) : bool :=
  match r with Ret (Err e') => bool_decide (e' = e) | _ => false end.

(** [PathBuf::new()]. *)
Definition empty_path : option string := Some ""%string.
Definition cert_pem : option string := Some get_tls_cert_string.
Definition macaroon_hex : option string := Some get_macaroon_string.

Definition test_validate_lnd_creds_path_option : bool :=
  creds_ok (validate_lnd_creds empty_path None empty_path None).
Definition test_validate_lnd_creds_directly_option : bool :=
  creds_ok (validate_lnd_creds None cert_pem None macaroon_hex).
Definition test_validate_lnd_creds_mismatch : bool :=
  creds_error CredMismatch (validate_lnd_creds None cert_pem empty_path None)
  && creds_error CredMismatch (validate_lnd_creds empty_path None None macaroon_hex).
Definition test_validate_lnd_creds_required_error : bool :=
  creds_error MacaroonRequired (validate_lnd_creds None cert_pem None None)
  && creds_error CertRequired (validate_lnd_creds None None None macaroon_hex).
Definition test_validate_lnd_creds_only_one : bool :=
  creds_error CertOnlyOne (validate_lnd_creds empty_path cert_pem empty_path None)
  && creds_error MacaroonOnlyOne (validate_lnd_creds empty_path None empty_path macaroon_hex).

Definition get_version_requirement : VersionRequirement :=
  {| req_major := 1; req_minor := 1; req_patch := 1; req_pre_release := "beta" |}.
Definition version (major minor patch : Z) (pre_release : string) : Version :=
  {| app_major := major; app_minor := minor; app_patch := patch; app_pre_release := pre_release;
     build_tags := [] |}.
Definition fits (v : Version) : bool := has_version v (Some get_version_requirement).

Definition test_has_version_same_version : bool := fits (version 1 1 1 "beta").
Definition test_has_version_major_is_greater : bool := fits (version 2 1 1 "beta").
Definition test_has_version_minor_is_greater : bool := fits (version 1 2 1 "beta").
Definition test_has_version_patch_is_greater : bool := fits (version 1 1 2 "beta").
Definition test_has_version_pre_release_is_greater : bool := fits (version 1 1 1 "rc").
Definition test_has_version_major_is_less : bool := negb (fits (version 0 1 1 "beta")).
Definition test_has_version_minor_is_less : bool := negb (fits (version 1 0 1 "beta")).
Definition test_has_version_patch_is_less : bool := negb (fits (version 1 1 0 "beta")).
Definition test_has_version_pre_release_is_less : bool := negb (fits (version 1 1 1 "alpha")).

Definition get_build_tags_requirement : BuildTagsRequirement :=
  {| tags := ["peersrpc"; "signrpc"]%string |}.
Definition tagged (l : list string) : bool :=
  has_build_tags {| app_major := 0; app_minor := 0; app_patch := 0; app_pre_release := "";
                    build_tags := l |} (Some get_build_tags_requirement).

Definition test_has_build_tags_same_tags : bool := tagged ["peersrpc"; "signrpc"]%string.
Definition test_has_build_tags_missing_tags : bool := negb (tagged ["peersrpc"]%string).
Definition test_has_build_tags_unnecessary_tags_are_ok : bool :=
  tagged ["peersrpc"; "signrpc"; "additional"]%string.

(** The hash is a parameter of the model; here it marks its argument. *)
Definition test_sha256 (b : bytes) : bytes := 256 :: b.

Definition test_build_seed_from_lnd_node : bool :=
  let signer : MessageSigner unit := λ _ _ _ _, ret (Ok (replicate 64 0)) in
  match build_seed_from_lnd_node (H := signer) test_sha256 tt with
  | (Ret (Ok seed), _) => bool_decide (seed = test_sha256 (replicate 64 0))
  | _ => false
  end.
Definition test_build_seed_from_lnd_node_error : bool :=
  let signer : MessageSigner unit := λ _ _ _ _, ret (Err tt) in
  match build_seed_from_lnd_node (H := signer) test_sha256 tt with
  | (Ret (Err _), _) => true
  | _ => false
  end.

Example lnd_tests_pass :
  all_pass [test_validate_lnd_creds_path_option; test_validate_lnd_creds_directly_option;
            test_validate_lnd_creds_mismatch; test_validate_lnd_creds_required_error;
            test_validate_lnd_creds_only_one; test_has_version_same_version;
            test_has_version_major_is_greater; test_has_version_minor_is_greater;
            test_has_version_patch_is_greater; test_has_version_pre_release_is_greater;
            test_has_version_major_is_less; test_has_version_minor_is_less;
            test_has_version_patch_is_less; test_has_version_pre_release_is_less;
            test_has_build_tags_same_tags; test_has_build_tags_missing_tags;
            test_has_build_tags_unnecessary_tags_are_ok; test_build_seed_from_lnd_node;
            test_build_seed_from_lnd_node_error] = true.
Proof. vm_compute. reflexivity. Qed.
End LndTests.

(** ** src/message_router.rs *)

Module RouterTests.

(** The world counts the calls of the mocked client and of the inner router. *)
Definition counted {A} (a : A) : M nat A := λ calls, (Ret a, S calls).

Definition node_client (info : result NodeInfo Status) : PeerConnector nat := {|
  list_peers := panic;
  connect_peer _ _ := panic;
  get_node_info _ _ := counted info;
  list_active_public_channels := panic;
|}.
(** A client of which no call is expected. *)
Definition no_client : PeerConnector nat := {|
  list_peers := panic;
  connect_peer _ _ := panic;
  get_node_info _ _ := panic;
  list_active_public_channels := panic;
|}.
(** Addresses are accepted by their form. *)
Definition mock_message_router (r : result (list BlindedMessagePath) unit) : InnerRouter nat := {|
  SocketAddress := string;
  socket_address_from_str s := if (s =? "invalid-address")%string then None else Some s;
  inner_create_blinded_paths _ _ _ := counted r;
|}.

Definition sender : PublicKey := pubkey 3.
Definition destination_node : PublicKey := pubkey 4.
Definition router : InnerRouter nat := mock_message_router (Ok []).

Definition test_create_blinded_paths_calls_inner_router : bool :=
  match create_blinded_paths (W := nat) (InnerRouter0 := mock_message_router (Ok []))
          (pubkey 1) (CtxOffers CtxOther) [pubkey 2] 0%nat with
  | (Ret (Ok _), calls) => Nat.eqb calls 1
  | _ => false
  end.
Definition test_create_blinded_paths_forwards_error : bool :=
  match create_blinded_paths (W := nat) (InnerRouter0 := mock_message_router (Err tt))
          (pubkey 1) (CtxOffers CtxOther) [] 0%nat with
  | (Ret (Err _), calls) => Nat.eqb calls 1
  | _ => false
  end.
Definition test_get_first_node_with_node_destination : bool :=
  bool_decide (get_first_node (DestNode (pubkey 1)) = Some (pubkey 1)).

(** The path to [dest], and the number of calls made for it. *)
Definition path_to (client : PeerConnector nat) (peers : list PublicKey) (dest : PublicKey) :=
  find_path (W := nat) (PeerConnector0 := client) (InnerRouter0 := router)
    sender peers (DestNode dest) 0%nat.

Definition direct_path (client : PeerConnector nat) (peers : list PublicKey) (dest : PublicKey) : bool :=
  match path_to client peers dest with
  | (Ret (Ok path), calls) =>
      bool_decide (intermediate_nodes path = []) && is_none (first_node_addresses path)
      && Nat.eqb calls 0
  | _ => false
  end.
Definition test_find_path_sender_equals_first_node : bool := direct_path no_client [] sender.
Definition test_find_path_peers_contains_first_node : bool :=
  direct_path no_client [destination_node] destination_node.

(** No path, after one call. *)
Definition no_path (info : result NodeInfo Status) : bool :=
  match path_to (node_client info) [] destination_node with
  | (Ret (Err _), calls) => Nat.eqb calls 1
  | _ => false
  end.
Definition address (s : string) : NodeAddress := {| addr_network := "tcp"; addr_addr := s |}.
Definition node (l : list NodeAddress) (features : gmap Z Feature) : result NodeInfo Status :=
  Ok {| info_node := Some {| node_addresses := l; node_features := features |};
        info_channels := [] |}.
Definition onion_feature_38 : gmap Z Feature :=
  {[ 38 := {| feature_name := "onion_messages_optional"; feature_is_required := false;
              feature_is_known := true |} ]}.

Definition test_find_path_get_node_info_returns_error : bool :=
  no_path (Err (Status_new NotFound "Node not found")).
Definition test_find_path_node_info_returns_none_for_node : bool :=
  no_path (Ok {| info_node := None; info_channels := [] |}).
Definition test_find_path_node_without_addresses : bool := no_path (node [] ∅).
Definition test_find_path_node_without_onion_message_features : bool :=
  no_path (node [address "127.0.0.1:9735"] ∅).
Definition test_find_path_node_with_unparseable_addresses : bool :=
  no_path (node [address "invalid-address"] onion_feature_38).
Definition test_find_path_happy_path : bool :=
  match path_to (node_client (node [address "127.0.0.1:9735"; address "[::1]:9735"] onion_feature_38))
          [] destination_node with
  | (Ret (Ok path), calls) =>
      bool_decide (intermediate_nodes path = []) && Nat.eqb calls 1
      && match first_node_addresses path with
         | Some addresses => bool_decide (addresses = ["127.0.0.1:9735"; "[::1]:9735"]%string)
         | None => false
         end
  | _ => false
  end.

Example router_tests_pass :
  all_pass [test_create_blinded_paths_calls_inner_router; test_create_blinded_paths_forwards_error;
            test_get_first_node_with_node_destination; test_find_path_sender_equals_first_node;
            test_find_path_peers_contains_first_node; test_find_path_get_node_info_returns_error;
            test_find_path_node_info_returns_none_for_node; test_find_path_node_without_addresses;
            test_find_path_node_without_onion_message_features;
            test_find_path_node_with_unparseable_addresses; test_find_path_happy_path] = true.
Proof. vm_compute. reflexivity. Qed.
End RouterTests.

(** ** src/offers/handler.rs *)

Module HandlerTests.

(** The world is the handler; [Nonce::try_from] gives the nonce of [Mock] that
    verifies. *)
#[local] Instance handler_world : HasHandler OfferHandler := {
  handler := id;
  set_handler h _ := h;
  handler_set _ _ := eq_refl;
}.

Definition payment_id : PaymentId := replicate 32 42.
Definition test_nonce : Nonce := 7.

Definition default_handler : OfferHandler := {|
  active_payments := ∅; pending_messages := []; expanded_key := expanded_key_new (replicate 32 42);
  response_invoice_timeout := DEFAULT_RESPONSE_INVOICE_TIMEOUT; has_client := false |}.

Definition after_invoice_error (h : OfferHandler) : outcome unit * OfferHandler :=
  handle_invoice_error payment_id test_nonce
    (hmac_for_offer_payment payment_id test_nonce (expanded_key h)) h.

Definition test_handle_invoice_error_existing_payment : bool :=
  let h := with_payments
             (insert payment_id {| state := InvoiceRequestCreated; invoice := None |})
             default_handler in
  match after_invoice_error h with
  | (Ret _, h') => bool_decide (is_Some (active_payments h !! payment_id))
                   && bool_decide (active_payments h' !! payment_id = None)
  | _ => false
  end.

Definition test_handle_invoice_error_nonexistent_payment : bool :=
  match after_invoice_error default_handler with
  | (Ret _, h') => bool_decide (size (active_payments h') = 0%nat)
  | _ => false
  end.

Example handler_tests_pass :
  all_pass [test_handle_invoice_error_existing_payment;
            test_handle_invoice_error_nonexistent_payment] = true.
Proof. vm_compute. reflexivity. Qed.
End HandlerTests.

(** ** src/main.rs *)

Module MainTests.

Definition test_collect_tls_ips : bool :=
  bool_decide (length <$> collect_tls_ips (Some "192.168.0.1"%string) = Some 1%nat)
  && is_none (collect_tls_ips None)
  && bool_decide (length <$> collect_tls_ips (Some "192.168.0.1,192.168.0.3"%string) = Some 2%nat).

Example main_tests_pass : all_pass [test_collect_tls_ips] = true.
Proof. vm_compute. reflexivity. Qed.
End MainTests.

(** ** src/cli.rs *)

Module CliTests.

(** The files of the test's directory and of the home directory. *)
Definition cert_content : string := "-----BEGIN CERTIFICATE-----".
Definition temp_path : string := "/tmp/test_cert.pem".
Definition test_disk : Disk := {|
  disk_files :=
    {[ temp_path := {| file_content := cert_content; file_mode := 420 |};
       "/home/lndk/.lndk/data/tls-cert.pem"%string := {| file_content := cert_content; file_mode := 420 |} ]};
|}.

Definition read_cert (cert_pem cert_path : option string) : outcome (result ClientTlsConfig string) :=
  (read_cert_from_args (W := Disk) cert_pem cert_path test_disk).1.
Definition reads (r : outcome (result ClientTlsConfig string)) : bool :=
  match r with Ret (Ok _) => true | _ => false end.

Definition test_read_cert_from_args_both_options : bool :=
  match read_cert (Some cert_content) (Some temp_path) with
  | Ret (Err e) => (e =? "ERROR: Only one of `cert_path` or `cert_pem` should be set.")%string
  | _ => false
  end.
Definition test_read_cert_from_args_cert_pem_only : bool := reads (read_cert (Some cert_content) None).
Definition test_read_cert_from_args_cert_path_only : bool := reads (read_cert None (Some temp_path)).
Definition test_read_cert_from_args_invalid_path : bool :=
  match read_cert None (Some "/path/does/not/exist.pem"%string) with
  | Ret (Err e) => String.prefix "ERROR: failed to read cert:" e
  | _ => false
  end.
Definition test_read_cert_from_args_neither_option : bool := reads (read_cert None None).

Definition test_fee_args_conflict_validation : bool :=
  negb (fee_args_accepted (PayOffer "lno1qcp4256ypq" None None None (Some 1000) (Some 1))).
(** That clap refuses the text 1.0 for a number is not part of the model. *)
Definition test_fee_args_single_validation : bool :=
  fee_args_accepted (PayOffer "lno1qcp4256ypq" None None None (Some 1000) None).

Example cli_tests_pass :
  all_pass [test_read_cert_from_args_both_options; test_read_cert_from_args_cert_pem_only;
            test_read_cert_from_args_cert_path_only; test_read_cert_from_args_invalid_path;
            test_read_cert_from_args_neither_option; test_fee_args_conflict_validation;
            test_fee_args_single_validation] = true.
Proof. vm_compute. reflexivity. Qed.
End CliTests.
