(* ===== verification/UnitTestsOffers.v ===== *)
(** * The unit tests of src/offers/lnd_requests.rs, run on the model

    LDK is replaced by records of what the builders were told: an offer is its
    fields, a blinded path its hops, and keys that LDK derives are made from
    the nonce.  The entropy source of the world counts what was drawn from it.
    Calls that a test does not expect make its client panic. *)

From S2P Require Import Prelude Grpc Ldk OfferError Parse Lnd LndRequests.
From S2P Require Import RateLimit Handler OnionMessenger Mock UnitTests.
Open Scope Z_scope.

(** ** A transparent LDK *)

Record TestOffer := {
  t_amount : option Amount;
  t_description : option string;
  t_issuer : option string;
  t_quantity : Quantity;
  t_absolute_expiry : option Z;
  t_signing_pubkey : option PublicKey;
  t_paths : list (list PublicKey);
}.

Record TestRequest := { t_payer : PublicKey; t_request_amount : option Z; t_note : option string }.

Definition derived_key (nonce : Z) : PublicKey := Ascii.ascii_of_nat (Z.to_nat nonce).

(** The offer of [get_offer]. *)
Definition get_offer : string :=
  "lno1qgsqvgnwgcg35z6ee2h3yczraddm72xrfua9uve2rlrm9deu7xyfzrcgqgn3qzsyvfkx26qkyypvr5hfx60h9w9k934lt8s2n6zc0wwtgqlulw7dythr83dqx8tzumg".
Definition decoded_offer : TestOffer := {|
  t_amount := Some (AmountBitcoin 10000); t_description := Some "hello"%string; t_issuer := None;
  t_quantity := QOne; t_absolute_expiry := None; t_signing_pubkey := Some kD; t_paths := [];
|}.

#[local] Instance test_ldk : Ldk := {
  Offer := TestOffer;
  InvoiceRequest := TestRequest;
  VerifiedInvoiceRequest := TestRequest;
  InvoiceRequestBuilder := TestRequest;
  InvoiceBuilder := unit;
  Bolt12Invoice := unit;
  BlindedMessagePath := list PublicKey;
  BlindedPaymentPath := list PublicKey;
  BlindedHopFeatures := bytes;
  Nonce := Z;
  ExpandedKey := bytes;
  Hmac := Z;
  InvoiceError := string;
  Responder := unit;
  ResponseInstruction := unit;
  Bolt12SemanticError := string;
  Bolt12ParseError := string;
  DecodeError := string;
  SignError := string;
  BitcoinIoError := string;
  offer_from_str s := if (s =? get_offer)%string then Ok decoded_offer else Err "bech32"%string;
  offer_to_string _ := get_offer;
  offer_amount := t_amount;
  offer_paths := t_paths;
  offer_issuer_signing_pubkey := t_signing_pubkey;
  message_path_introduction_node hops := NodeId (default kA (head hops));
  request_invoice _ _ nonce _ :=
    Ok {| t_payer := derived_key nonce; t_request_amount := None; t_note := None |};
  irb_chain b _ := Ok b;
  irb_amount_msats b a := Ok {| t_payer := t_payer b; t_request_amount := Some a; t_note := t_note b |};
  irb_payer_note b s := {| t_payer := t_payer b; t_request_amount := t_request_amount b; t_note := Some s |};
  irb_build_and_sign b := Ok b;
  invoice_request_amount r := AmountBitcoin <$> t_request_amount r;
  invoice_request_description _ := None;
  verify_using_recipient_data r _ _ := Ok r;
  respond_using_derived_keys _ _ _ := Ok tt;
  invoice_build_and_sign b := Ok b;
  invoice_payment_hash _ := [];
  invoice_payment_paths _ := [];
  invoice_amount _ := None;
  verify_using_payer_data _ pid _ _ := Ok pid;
  hmac_for_offer_payment _ nonce _ := nonce;
  verify_for_offer_payment _ _ _ _ := Ok tt;
  invoice_error_from_semantic e := e;
  invoice_error_from_string s := s;
  responder_respond r := r;
  expanded_key_new b := b;
  blinded_hop_features_from_le_bytes b := b;
  payment_path_introduction_node hops := NodeId (default kA (head hops));
  payment_path_blinding_point _ := kA;
  payment_path_blinded_hops _ := [];
  payment_path_cltv_expiry_delta _ := 40;
  payment_path_fee_base_msat _ := 1;
  payment_path_fee_proportional_millionths _ := 0;
}.

(** One call on the builder of an offer; an amount of zero is dropped. *)
Definition builder_step (o : TestOffer) (c : OfferBuilderCall) : TestOffer :=
  match c with
  | OBChain _ => o
  | OBAmountMsats a =>
      {| t_amount := if a =? 0 then None else Some (AmountBitcoin a);
         t_description := t_description o; t_issuer := t_issuer o; t_quantity := t_quantity o;
         t_absolute_expiry := t_absolute_expiry o; t_signing_pubkey := t_signing_pubkey o;
         t_paths := t_paths o |}
  | OBPath p =>
      {| t_amount := t_amount o; t_description := t_description o; t_issuer := t_issuer o;
         t_quantity := t_quantity o; t_absolute_expiry := t_absolute_expiry o;
         t_signing_pubkey := t_signing_pubkey o; t_paths := t_paths o ++ [p] |}
  | OBDescription s =>
      {| t_amount := t_amount o; t_description := Some s; t_issuer := t_issuer o;
         t_quantity := t_quantity o; t_absolute_expiry := t_absolute_expiry o;
         t_signing_pubkey := t_signing_pubkey o; t_paths := t_paths o |}
  | OBIssuer s =>
      {| t_amount := t_amount o; t_description := t_description o; t_issuer := Some s;
         t_quantity := t_quantity o; t_absolute_expiry := t_absolute_expiry o;
         t_signing_pubkey := t_signing_pubkey o; t_paths := t_paths o |}
  | OBSupportedQuantity q =>
      {| t_amount := t_amount o; t_description := t_description o; t_issuer := t_issuer o;
         t_quantity := q; t_absolute_expiry := t_absolute_expiry o;
         t_signing_pubkey := t_signing_pubkey o; t_paths := t_paths o |}
  | OBAbsoluteExpiry e =>
      {| t_amount := t_amount o; t_description := t_description o; t_issuer := t_issuer o;
         t_quantity := t_quantity o; t_absolute_expiry := Some e;
         t_signing_pubkey := t_signing_pubkey o; t_paths := t_paths o |}
  end.

(** An offer with an amount has a description, empty if none was given. *)
Definition built_offer (o : TestOffer) : TestOffer :=
  match t_amount o, t_description o with
  | Some _, None =>
      {| t_amount := t_amount o; t_description := Some ""%string; t_issuer := t_issuer o;
         t_quantity := t_quantity o; t_absolute_expiry := t_absolute_expiry o;
         t_signing_pubkey := t_signing_pubkey o; t_paths := t_paths o |}
  | _, _ => o
  end.

#[local] Instance test_ldk_build : LdkBuild := {
  offer_build _ _ nonce calls :=
    Ok (built_offer
          (foldl builder_step
             {| t_amount := None; t_description := None; t_issuer := None; t_quantity := QOne;
                t_absolute_expiry := None; t_signing_pubkey := Some (derived_key nonce);
                t_paths := [] |} calls));
  from_blinded_path_and_payinfo node _ _ _ := [node];
}.

(** ** Worlds *)

(** How many values were drawn from the entropy source. *)
Abbreviation Draws := Z (only parsing).

#[local] Instance test_entropy : LdkEntropy Draws := {
  get_secure_random_bytes := λ n, (Ret (replicate 32 n), n + 1);
  nonce_from_entropy_source := λ n, (Ret n, n + 1);
  message_path_one_hop pk _ := ret (Ok [pk]);
  message_path_new nodes pk _ := ret (Ok (map fwd_node_id nodes ++ [pk]));
}.

#[local] Instance test_clock : SystemClock Draws := ret (1700000000 * 10 ^ 9).

Definition new_source : Draws := 42.

(** A client by its answers; [None] is a call that is not expected. *)
Definition answer {A} (o : option A) : M Draws A :=
  match o with Some a => ret a | None => panic end.
Definition connector (peers : option (result (list Peer) Status))
    (info : string → option (result NodeInfo Status)) (connect : option (result unit Status))
    (channels : option (result (list Channel) Status)) : PeerConnector Draws := {|
  list_peers := answer peers;
  connect_peer _ _ := answer connect;
  get_node_info pk _ := answer (info pk);
  list_active_public_channels := answer channels;
|}.

Definition pubkey1 : string := pk_to_string kA.
Definition pubkey2 : string := pk_to_string kB.
Definition get_message_context : MessageContext :=
  CtxOffers (CtxOutboundPayment (replicate 32 42) (42 : Nonce) None).

Definition expanded_key42 : ExpandedKey := replicate 32 42.

Definition feature_38 : gmap Z Feature :=
  {[ 38 := {| feature_name := ""; feature_is_required := false; feature_is_known := false |} ]}.
Definition peer (pk : string) (features : gmap Z Feature) : Peer :=
  {| peer_pub_key := pk; peer_features := features |}.
Definition node_at (addresses : list string) (features : gmap Z Feature) (channels : list Z)
    : result NodeInfo Status :=
  Ok {| info_node := Some {| node_addresses :=
                               map (λ a, {| addr_network := "regtest"; addr_addr := a |}) addresses;
                             node_features := features |};
        info_channels := map (λ c, {| channel_id := c; node1_pub := ""; node2_pub := "" |}) channels |}.
Definition localhost : result NodeInfo Status := node_at ["127.0.0.1"%string] ∅ [].
Definition unknown_error : Status := Status_new Unknown "unknown error".

Definition returns_ok {A E} (run : outcome (result A E) * Draws) : bool :=
  match run with (Ret (Ok _), _) => true | _ => false end.
Definition returns_err {A E} (run : outcome (result A E) * Draws) : bool :=
  match run with (Ret (Err _), _) => true | _ => false end.

(** ** Peers and reply paths *)

Module PeerTests.

Definition no_peers : option (result (list Peer) Status) := Some (Ok []).
Definition unexpected {A} : option A := None.
Definition not_found : result NodeInfo Status := Err (Status_new NotFound "node was not found").

Definition connect_with (client : PeerConnector Draws) : outcome (result unit OfferError) * Draws :=
  connect_to_peer (PeerConnector0 := client) kA new_source.

Definition test_connect_peer : bool :=
  returns_ok (connect_with (connector no_peers (λ _, Some localhost) (Some (Ok tt)) unexpected)).

Definition test_connect_peer_already_connected : bool :=
  returns_ok (connect_with
    (connector (Some (Ok [peer pubkey1 ∅])) (λ _, Some localhost) unexpected unexpected)).

Definition test_connect_peer_connect_error : bool :=
  returns_err (connect_with
    (connector no_peers (λ _, Some localhost) (Some (Err (Status_new Unknown ""))) unexpected)).

Definition outgoing_path (client : PeerConnector Draws)
    : outcome (result BlindedMessagePath OfferError) * Draws :=
  create_reply_path_for_outgoing_payments (PeerConnector0 := client) kA get_message_context
    new_source.
Definition offer_paths_from (client : PeerConnector Draws)
    : outcome (result (list BlindedMessagePath) OfferError) * Draws :=
  create_reply_path_for_offer_creation (PeerConnector0 := client) kA get_message_context
    new_source.

Definition test_create_reply_path_no_intro_node : bool :=
  returns_ok (outgoing_path (connector no_peers (λ _, unexpected) unexpected unexpected))
  && returns_ok (offer_paths_from
       (connector unexpected (λ _, unexpected) unexpected (Some (Ok [])))).

Definition test_reply_path_for_outgoing_payments : bool :=
  returns_ok (outgoing_path
    (connector (Some (Ok [peer pubkey1 feature_38])) (λ _, Some (node_at [] ∅ []))
       unexpected unexpected)).

Definition test_create_reply_path_for_offer_creation : bool :=
  returns_ok (offer_paths_from
    (connector unexpected (λ _, Some localhost) unexpected
       (Some (Ok [{| remote_pubkey := pubkey1; chan_id := 0 |}])))).

Definition test_create_reply_path_list_peers_error : bool :=
  returns_err (outgoing_path
    (connector (Some (Err unknown_error)) (λ _, unexpected) unexpected unexpected))
  && returns_err (offer_paths_from
       (connector unexpected (λ _, unexpected) unexpected (Some (Err unknown_error)))).

(** The number of hops of the path, or of the first of the paths, returned. *)
Definition has_hops (n : nat) (run : outcome (result BlindedMessagePath OfferError) * Draws) : bool :=
  match run with (Ret (Ok path), _) => Nat.eqb (length (path : list PublicKey)) n | _ => false end.
Definition first_has_hops (n : nat)
    (run : outcome (result (list BlindedMessagePath) OfferError) * Draws) : bool :=
  match run with
  | (Ret (Ok (path :: _)), _) => Nat.eqb (length (path : list PublicKey)) n
  | _ => false
  end.

Definition test_create_reply_path_for_outgoing_payments_not_advertised : bool :=
  has_hops 1 (outgoing_path
    (connector (Some (Ok [peer pubkey1 feature_38])) (λ _, Some not_found) unexpected unexpected))
  && has_hops 2 (outgoing_path
       (connector (Some (Ok [peer pubkey1 feature_38; peer pubkey2 feature_38]))
          (λ pk, if (pk =? pubkey1)%string then Some not_found
                 else if (pk =? pubkey2)%string then Some (node_at [] ∅ [0])
                 else unexpected)
          unexpected unexpected)).

Definition test_create_reply_path_for_offer_creation_not_advertised : bool :=
  first_has_hops 1 (offer_paths_from
    (connector unexpected (λ _, Some localhost) unexpected (Some (Ok []))))
  && first_has_hops 2 (offer_paths_from
       (connector unexpected
          (λ _, Some (node_at ["127.0.0.1"%string]
                        {[ 38 := {| feature_name := "onion_messages_optional";
                                    feature_is_required := false; feature_is_known := true |} ]}
                        [10; 20]))
          unexpected (Some (Ok [{| remote_pubkey := pubkey2; chan_id := 10 |}])))).

Example peer_tests_pass :
  all_pass [test_connect_peer; test_connect_peer_already_connected;
            test_connect_peer_connect_error; test_create_reply_path_no_intro_node;
            test_reply_path_for_outgoing_payments; test_create_reply_path_for_offer_creation;
            test_create_reply_path_list_peers_error;
            test_create_reply_path_for_outgoing_payments_not_advertised;
            test_create_reply_path_for_offer_creation_not_advertised] = true.
Proof. vm_compute. reflexivity. Qed.
End PeerTests.

(** ** Invoice requests and payments *)

Module PaymentTests.

Definition request_from (offer : Offer) (amount : Z) (note : option string)
    : M Draws (result (InvoiceRequest * PaymentId * Z * OffersContext) OfferError) :=
  create_invoice_request offer Regtest expanded_key42 (Some amount) note.

(** The decoded offer with its amount in millisatoshis. *)
Definition decoded : M Draws (Offer * Z) :=
  let* offer := unwrap (result_ok (decode get_offer)) in
  match offer_amount offer with
  | Some (AmountBitcoin amount_msats) => ret (offer, amount_msats)
  | _ => panic
  end.

Definition test_request_invoice : bool :=
  returns_ok ((let* oa := decoded in request_from oa.1 oa.2 (Some ""%string)) new_source).

Definition test_transient_keys : bool :=
  let run :=
    (let* oa := decoded in
     let* resp_1 := request_from oa.1 oa.2 (Some ""%string) in
     let* resp_2 := request_from oa.1 oa.2 (Some ""%string) in
     let* r1 := unwrap (result_ok resp_1) in
     let* r2 := unwrap (result_ok resp_2) in
     ret (r1.1.1.1 : TestRequest, r2.1.1.1 : TestRequest)) new_source in
  match run with (Ret (r1, r2), _) => bool_decide (t_payer r1 ≠ t_payer r2) | _ => false end.

Definition payer (routes : option (result (list unit) Status))
    (sent : option (result unit Status)) : InvoicePayer Draws := {|
  Route := unit;
  HtlcAttempt := unit;
  query_routes _ _ _ _ _ _ := answer routes;
  send_to_route _ _ := answer sent;
  payer_track_payment _ :=
    ret (Ok {| payment_preimage := ""; payment_status := PaymentUnknown |});
|}.

(** Two hops: the introduction node and the payee. *)
Definition get_blinded_payment_path : BlindedPaymentPath := [kA; kA] : list PublicKey.
Definition send_with (client : InvoicePayer Draws) : outcome (result unit OfferError) * Draws :=
  (let* payment_hash := get_secure_random_bytes in
   let* payment_id := get_secure_random_bytes in
   send_payment (InvoicePayer0 := client)
     {| sp_path := get_blinded_payment_path; sp_cltv_expiry_delta := 200; sp_fee_base_msat := 1;
        sp_fee_ppm := 0; sp_payment_hash := payment_hash; sp_msats := 2000;
        sp_payment_id := payment_id; sp_fee_limit := None |}) new_source.

Definition test_send_payment : bool :=
  returns_ok (send_with (payer (Some (Ok [tt])) (Some (Ok tt)))).
Definition test_send_payment_query_error : bool :=
  returns_err (send_with (payer (Some (Err unknown_error)) None)).
Definition test_send_payment_send_error : bool :=
  returns_err (send_with (payer (Some (Ok [tt])) (Some (Err unknown_error)))).

Example payment_tests_pass :
  all_pass [test_request_invoice; test_transient_keys; test_send_payment;
            test_send_payment_query_error; test_send_payment_send_error] = true.
Proof. vm_compute. reflexivity. Qed.
End PaymentTests.

(** ** Creating offers *)

Module CreateOfferTests.

Record Creator := {
  creator_info : OfferCreator Draws;
  creator_peers : PeerConnector Draws;
}.

Definition setup_create_offer_success_mock : Creator := {|
  creator_info :=
    ret (Ok {| identity_pubkey := pubkey2; info_features := ∅; info_chains := [] |});
  creator_peers :=
    connector (Some (Ok [peer pubkey1 ∅])) (λ _, Some localhost) None
      (Some (Ok [{| remote_pubkey := pubkey1; chan_id := 0 |}]));
|}.

(** A client whose only expected call is [get_info]. *)
Definition only_info (info : result GetInfoResponse Status) : Creator := {|
  creator_info := ret info;
  creator_peers := connector None (λ _, None) None None;
|}.

Definition create_offer_with (client : Creator) (args : CreateOfferArgs)
    : M Draws (result Offer OfferError) :=
  create_offer (OfferCreator0 := creator_info client) (PeerConnector0 := creator_peers client)
    args expanded_key42.

Definition new_args (amount_msats : option Z) (description issuer : option string)
    (quantity : option Quantity) (expiry : option Z) : CreateOfferArgs := {|
  args_amount_msats := amount_msats; args_chain := Regtest; args_description := description;
  args_issuer := issuer; args_quantity := quantity; args_expiry := expiry;
|}.

(** The offer is created and satisfies the assertions. *)
Definition created (args : CreateOfferArgs) (assertions : TestOffer → bool) : bool :=
  match create_offer_with setup_create_offer_success_mock args new_source with
  | (Ret (Ok offer), _) => assertions offer
  | _ => false
  end.
Definition is_node_address_not_found (run : outcome (result Offer OfferError) * Draws) : bool :=
  match run with (Ret (Err NodeAddressNotFound), _) => true | _ => false end.

Definition amount_is (a : option Z) (o : TestOffer) : bool :=
  match t_amount o, a with
  | Some (AmountBitcoin b), Some a => b =? a
  | None, None => true
  | _, _ => false
  end.
Definition quantity_is (q : Quantity) (o : TestOffer) : bool :=
  match t_quantity o, q with
  | QOne, QOne | QUnbounded, QUnbounded => true
  | QBounded n, QBounded m => n =? m
  | _, _ => false
  end.

Definition test_create_offer_success : bool :=
  created (new_args (Some 1000) (Some "Test offer"%string) (Some "Test issuer"%string)
             (Some QOne) None)
    (λ o, amount_is (Some 1000) o
          && bool_decide (t_description o = Some "Test offer"%string)
          && bool_decide (t_issuer o = Some "Test issuer"%string) && quantity_is QOne o).

Definition test_create_offer_minimal : bool :=
  created (new_args (Some 1000) None None None None)
    (λ o, amount_is (Some 1000) o && bool_decide (t_description o = Some ""%string)
          && bool_decide (t_issuer o = None) && quantity_is QOne o).

Definition test_create_offer_no_amount : bool :=
  created (new_args None (Some "donations welcome"%string) None None None) (amount_is None).

Definition test_create_offer_with_expiry : bool :=
  created (new_args (Some 1000) None None None (Some (3600 * 10 ^ 9)))
    (λ o, bool_decide (is_Some (t_absolute_expiry o))).

Definition test_create_offer_get_info_error : bool :=
  is_node_address_not_found
    (create_offer_with (only_info (Err (Status_new Internal "Failed to get node info")))
       (new_args (Some 1000) None None None None) new_source).

Definition test_create_offer_invalid_pubkey : bool :=
  is_node_address_not_found
    (create_offer_with
       (only_info (Ok {| identity_pubkey := "invalid_pubkey"; info_features := ∅;
                         info_chains := [] |}))
       (new_args (Some 1000) None None None None) new_source).

Definition test_create_offer_with_quantity : bool :=
  created (new_args (Some 1000) None None (Some QUnbounded) None) (quantity_is QUnbounded).

(** Offers differ by their derived signing key, which their id hashes. *)
Definition test_create_offer_different_signing_pubkeys_and_ids : bool :=
  let create :=
    create_offer_with setup_create_offer_success_mock (new_args (Some 1000) None None None None) in
  let run :=
    (let* offer1 := create in
     let* offer2 := create in
     let* o1 := unwrap (result_ok offer1) in
     let* o2 := unwrap (result_ok offer2) in
     ret (o1 : TestOffer, o2 : TestOffer)) new_source in
  match run with
  | (Ret (o1, o2), _) => bool_decide (t_signing_pubkey o1 ≠ t_signing_pubkey o2)
  | _ => false
  end.

Example create_offer_tests_pass :
  all_pass [test_create_offer_success; test_create_offer_minimal; test_create_offer_no_amount;
            test_create_offer_with_expiry; test_create_offer_get_info_error;
            test_create_offer_invalid_pubkey; test_create_offer_with_quantity;
            test_create_offer_different_signing_pubkeys_and_ids] = true.
Proof. vm_compute. reflexivity. Qed.
End CreateOfferTests.

(** ** Invoices for invoice requests *)

Module InvoiceInfoTests.

(** Parsing of a hash of 64 hexadecimal digits. *)
Definition hash_from_hex (s : string) : result PaymentHash string :=
  match hex_decode s with
  | Some bs => if Nat.eqb (length bs) 32 then Ok bs else Err "invalid length"%string
  | None => Err "invalid digit"%string
  end.

Definition creator (added : result string Status) (decoded : option (result PayReq Status))
    : Bolt12InvoiceCreator Draws := {|
  add_invoice _ := ret added;
  decode_payment_request _ := answer decoded;
|}.
Definition payreq (hash : string) : option (result PayReq Status) :=
  Some (Ok {| payreq_payment_hash := hash; payreq_blinded_paths := [] |}).

Definition create_dummy_invoice_request : M Draws InvoiceRequest :=
  let* oa := PaymentTests.decoded in
  let* r := PaymentTests.request_from oa.1 oa.2 None in
  let* r := unwrap (result_ok r) in
  ret r.1.1.1.

Definition info_with (client : Bolt12InvoiceCreator Draws)
    : outcome (result LndkBolt12InvoiceInfo OfferError) * Draws :=
  (let* invoice_request := create_dummy_invoice_request in
   create_invoice_info_from_request (Bolt12InvoiceCreator0 := client) hash_from_hex invoice_request)
    new_source.

Definition test_create_invoice_info_from_request_success : bool :=
  match info_with (creator (Ok "dummy_payment_request"%string)
          (payreq "abcdef1234567890abcdef1234567890abcdef1234567890abcdef1234567890")) with
  | (Ret (Ok info), _) =>
      Nat.eqb (length (info_payment_hash info)) 32 && Nat.eqb (length (info_payment_paths info)) 0
  | _ => false
  end.

Definition test_create_invoice_info_from_request_add_invoice_failure : bool :=
  match info_with (creator (Err (Status_new Internal "Failed to add invoice")) None) with
  | (Ret (Err (AddInvoiceFailure _)), _) => true
  | _ => false
  end.

Definition test_create_invoice_info_from_request_decode_payment_request_failure : bool :=
  match info_with (creator (Ok "dummy_payment_request"%string)
          (Some (Err (Status_new InvalidArgument "Failed to decode payment request")))) with
  | (Ret (Err (DecodePaymentRequestFailure _)), _) => true
  | _ => false
  end.

Definition test_create_invoice_info_from_request_invalid_hex_payment_hash : bool :=
  match info_with (creator (Ok "dummy_payment_request"%string)
          (payreq "invalid_hex_string_gggg")) with
  | (Ret (Err (ParsePaymentHashFailure _)), _) => true
  | _ => false
  end.

Example invoice_info_tests_pass :
  all_pass [test_create_invoice_info_from_request_success;
            test_create_invoice_info_from_request_add_invoice_failure;
            test_create_invoice_info_from_request_decode_payment_request_failure;
            test_create_invoice_info_from_request_invalid_hex_payment_hash] = true.
Proof. vm_compute. reflexivity. Qed.
End InvoiceInfoTests.
