(* ===== verification/UnitTestsMessenger.v ===== *)
(** * The unit tests of src/onion_messenger.rs, run on the model

    The world of a test holds the channel of events, the scripted answers of
    the mocked producers and what the mocks were asked to do.  A call that no
    expectation of the test covers panics.  Where the source evaluates
    [matches!] and drops the result, the test here requires the match. *)

From S2P Require Import Prelude RateLimit Grpc Ldk OfferError Lnd LndRequests.
From S2P Require Import OnionMessenger Mock UnitTests.
Open Scope Z_scope.

Definition pk_0 : PublicKey := pubkey 0.
Definition pk_1 : PublicKey := pubkey 1.
Definition pk_2 : PublicKey := pubkey 2.

(** The bytes that the test helper writes: the blinding point, the length of
    the packet, its version, the ephemeral key, the payloads and the HMAC. *)
Definition onion_message : OnionMessage :=
  pk_serialize pk_0 ++ [Z.shiftr 1366 8; Z.land 1366 255] ++ [0] ++ pk_serialize pk_0
  ++ replicate 1300 1 ++ replicate 32 2.

Record TestWorld := {
  tw_channel : list MessengerEvents;
  tw_triggered : bool;
  tw_notifications : nat;
  tw_lists : nat;
  tw_peer_events : list (result PeerEvent Status);
  tw_support : list bool;
  tw_messages : list (result CustomMessage Status);
}.

Definition quiet : TestWorld := {|
  tw_channel := []; tw_triggered := false; tw_notifications := 0; tw_lists := 0;
  tw_peer_events := []; tw_support := []; tw_messages := [];
|}.
Definition triggered : TestWorld := {|
  tw_channel := []; tw_triggered := true; tw_notifications := 0; tw_lists := 0;
  tw_peer_events := []; tw_support := []; tw_messages := [];
|}.

Definition with_channel (l : list MessengerEvents) (w : TestWorld) : TestWorld := {|
  tw_channel := l; tw_triggered := tw_triggered w; tw_notifications := tw_notifications w;
  tw_lists := tw_lists w; tw_peer_events := tw_peer_events w; tw_support := tw_support w;
  tw_messages := tw_messages w;
|}.

#[local] Instance test_channel : EventChannel TestWorld := {
  channel_new _ := ret tt;
  send_event e := λ w, (Ret (Ok tt), with_channel (tw_channel w ++ [e]) w);
  recv_event := λ w,
    match tw_channel w with
    | [] => (Ret None, w)
    | e :: l => (Ret (Some e), with_channel l w)
    end;
}.

#[local] Instance test_listener : Listener TestWorld := λ w, (Ret (tw_triggered w), w).

(** ** Producers *)

Module ProducerTests.

Definition peer_of (pk : PublicKey) (features : gmap Z Feature) : Peer :=
  {| peer_pub_key := pk_to_string pk; peer_features := features |}.
Definition mock_peers : list Peer :=
  [peer_of pk_1 ∅;
   peer_of pk_2 {[ ONION_MESSAGES_OPTIONAL :=
                     {| feature_name := ""; feature_is_required := false;
                        feature_is_known := false |} ]}].

(** One listing is expected; without a notification the task waits. *)
#[local] Instance mock_reconnection : ReconnectionClient TestWorld := {
  list_peers_with_retries := λ w,
    (if Nat.eqb (tw_lists w) 0 then Ret (Ok mock_peers) else Panic,
     {| tw_channel := tw_channel w; tw_triggered := tw_triggered w;
        tw_notifications := tw_notifications w; tw_lists := S (tw_lists w);
        tw_peer_events := tw_peer_events w; tw_support := tw_support w;
        tw_messages := tw_messages w |});
  reconnection_notified := λ w,
    match tw_notifications w with
    | O => (Pending, w)
    | S n =>
        (Ret tt,
         {| tw_channel := tw_channel w; tw_triggered := tw_triggered w; tw_notifications := n;
            tw_lists := tw_lists w; tw_peer_events := tw_peer_events w;
            tw_support := tw_support w; tw_messages := tw_messages w |})
    end;
}.

Definition notified_once : TestWorld := {|
  tw_channel := []; tw_triggered := false; tw_notifications := 1; tw_lists := 0;
  tw_peer_events := []; tw_support := []; tw_messages := [];
|}.
Definition is_connected (pk : PublicKey) (support : bool) (e : MessengerEvents) : bool :=
  match e with
  | PeerConnected pk' o => bool_decide (pk' = pk) && Bool.eqb o support
  | _ => false
  end.

(** The task is still waiting when it is aborted. *)
Definition test_receive_reconection_event : bool :=
  match receive_reconnection_event 10 notified_once with
  | (Pending, w) =>
      Nat.eqb (length (tw_channel w)) 2 && Nat.eqb (tw_lists w) 1
      && existsb (is_connected pk_1 false) (tw_channel w)
      && existsb (is_connected pk_2 true) (tw_channel w)
  | _ => false
  end.

#[local] Instance mock_peer_producer : PeerEventProducer TestWorld := {
  pe_receive := λ w,
    match tw_peer_events w with
    | [] => (Panic, w)
    | r :: l =>
        (Ret r,
         {| tw_channel := tw_channel w; tw_triggered := tw_triggered w;
            tw_notifications := tw_notifications w; tw_lists := tw_lists w; tw_peer_events := l;
            tw_support := tw_support w; tw_messages := tw_messages w |})
    end;
  pe_onion_support _ := λ w,
    match tw_support w with
    | [] => (Panic, w)
    | b :: l =>
        (Ret b,
         {| tw_channel := tw_channel w; tw_triggered := tw_triggered w;
            tw_notifications := tw_notifications w; tw_lists := tw_lists w;
            tw_peer_events := tw_peer_events w; tw_support := l; tw_messages := tw_messages w |})
    end;
}.

Definition peer_event (t : EventType) : result PeerEvent Status :=
  Ok {| pe_pub_key := pk_to_string pk_0; pe_type := t |}.
Definition mock_stream_err : Status := Status_new Unknown "mock stream err".

Definition test_produce_peer_events : bool :=
  match produce_peer_events 10
          {| tw_channel := []; tw_triggered := false; tw_notifications := 0; tw_lists := 0;
             tw_peer_events := [peer_event PeerOnline; peer_event PeerOnline;
                                peer_event PeerOffline; Err mock_stream_err];
             tw_support := [true; false]; tw_messages := [] |} with
  | (Ret (Err (StreamError _)), w) =>
      match tw_channel w with
      | [PeerConnected _ true; PeerConnected _ false; PeerDisconnected _; ProducerExit _] => true
      | _ => false
      end
  | _ => false
  end.

Definition test_produce_peer_events_exit : bool :=
  match produce_peer_events 10 triggered with (Ret (Ok _), _) => true | _ => false end.

#[local] Instance mock_message_producer : IncomingMessageProducer TestWorld := λ w,
  match tw_messages w with
  | [] => (Panic, w)
  | r :: l =>
      (Ret r,
       {| tw_channel := tw_channel w; tw_triggered := tw_triggered w;
          tw_notifications := tw_notifications w; tw_lists := tw_lists w;
          tw_peer_events := tw_peer_events w; tw_support := tw_support w; tw_messages := l |})
  end.

Definition test_produce_incoming_message_events : bool :=
  match produce_incoming_message_events 10
          {| tw_channel := []; tw_triggered := false; tw_notifications := 0; tw_lists := 0;
             tw_peer_events := []; tw_support := [];
             tw_messages :=
               [Ok {| cm_peer := pk_serialize pk_0; cm_type := 3; cm_data := [1; 2; 3] |};
                Ok {| cm_peer := pk_serialize pk_0; cm_type := ONION_MESSAGE_TYPE;
                      cm_data := onion_message |};
                Err mock_stream_err] |} with
  | (Ret (Err (StreamError _)), w) =>
      match tw_channel w with
      | [IncomingMessage _ _; ProducerExit _] => true
      | _ => false
      end
  | _ => false
  end.

Definition test_produce_incoming_message_exit : bool :=
  match produce_incoming_message_events 10 triggered with (Ret (Ok _), _) => true | _ => false end.

Definition test_produce_outgoing_message_events_exit : bool :=
  match produce_outgoing_message_events (ret tt) 10 triggered with
  | (Ret (Ok _), _) => true
  | _ => false
  end.

Example producer_tests_pass :
  all_pass [test_receive_reconection_event; test_produce_peer_events;
            test_produce_peer_events_exit; test_produce_incoming_message_events;
            test_produce_incoming_message_exit; test_produce_outgoing_message_events_exit] = true.
Proof. vm_compute. reflexivity. Qed.
End ProducerTests.

(** ** The consumer *)

Module ConsumerTests.

(** What the mocked messenger and sender were asked: the onion support of the
    peers connected, how many disconnected, how many messages were handled and
    how many sent. *)
Record Calls := {
  c_channel : list MessengerEvents;
  c_connected : list bool;
  c_disconnected : nat;
  c_handled : nat;
  c_sent : nat;
}.
Definition calls (channel : list MessengerEvents) : Calls :=
  {| c_channel := channel; c_connected := []; c_disconnected := 0; c_handled := 0; c_sent := 0 |}.

#[local] Instance calls_channel : EventChannel Calls := {
  channel_new _ := ret tt;
  send_event e := λ w,
    (Ret (Ok tt), {| c_channel := c_channel w ++ [e]; c_connected := c_connected w;
                     c_disconnected := c_disconnected w; c_handled := c_handled w;
                     c_sent := c_sent w |});
  recv_event := λ w,
    match c_channel w with
    | [] => (Ret None, w)
    | e :: l => (Ret (Some e), {| c_channel := l; c_connected := c_connected w;
                                  c_disconnected := c_disconnected w; c_handled := c_handled w;
                                  c_sent := c_sent w |})
    end;
}.

Definition supports_onion_messages (features : bytes) : bool :=
  le_bit features ONION_MESSAGES_REQUIRED || le_bit features ONION_MESSAGES_OPTIONAL.

(** [connect] answers a connection by the support announced and the
    connections before it. *)
Definition onion_handler (connect : bool → list bool → outcome (result unit unit))
    : LdkMessenger Calls := {|
  om_peer_connected _ init _ := λ w,
    let support := supports_onion_messages (init_features init) in
    (connect support (c_connected w),
     {| c_channel := c_channel w; c_connected := c_connected w ++ [support];
        c_disconnected := c_disconnected w; c_handled := c_handled w; c_sent := c_sent w |});
  om_peer_disconnected _ := λ w,
    (if Nat.eqb (c_disconnected w) 0 then Ret tt else Panic,
     {| c_channel := c_channel w; c_connected := c_connected w;
        c_disconnected := S (c_disconnected w); c_handled := c_handled w; c_sent := c_sent w |});
  om_handle_onion_message _ _ := λ w,
    (if Nat.eqb (c_handled w) 0 then Ret tt else Panic,
     {| c_channel := c_channel w; c_connected := c_connected w;
        c_disconnected := c_disconnected w; c_handled := S (c_handled w); c_sent := c_sent w |});
  om_process_pending_events _ := ret tt;
  om_next_onion_message_for_peer pk :=
    ret (if bool_decide (pk = pk_1) then Some onion_message else None);
|}.

#[local] Instance mock_sender : SendCustomMessage Calls := λ _ w,
  (if Nat.ltb (c_sent w) 2 then Ret (Ok tt) else Panic,
   {| c_channel := c_channel w; c_connected := c_connected w; c_disconnected := c_disconnected w;
      c_handled := c_handled w; c_sent := S (c_sent w) |}).

#[local] Instance mock_limiter : RateLimiter PublicKey unit := {
  rl_peer_connected _ r := r;
  rl_peer_disconnected _ r := r;
  rl_peers _ := [pk_1; pk_2];
  rl_query_peer pk r := (bool_decide (pk = pk_1), r);
}.

Definition consume (connect : bool → list bool → outcome (result unit unit))
    (events : list MessengerEvents) : outcome (result unit ConsumerError) * Calls :=
  consume_messenger_events (LdkMessenger0 := onion_handler connect) (λ _, panic) Regtest
    (S (length events)) tt (calls events).

(** One connection of each kind is expected. *)
Definition once_each (support : bool) (before : list bool) : outcome (result unit unit) :=
  if existsb (Bool.eqb support) before then Panic else Ret (Ok tt).

Definition test_consume_messenger_events : bool :=
  match consume once_each
          [PeerConnected pk_2 true; SendOutgoing; SendOutgoing; PeerConnected pk_1 false;
           PeerDisconnected pk_1; IncomingMessage pk_1 onion_message;
           IncomingMessage pk_2 onion_message; ProducerExit PeerProducerExit] with
  | (Ret (Ok _), w) => Nat.eqb (c_sent w) 2
  | _ => false
  end.

Definition test_consumer_exit_onion_messenger_failure : bool :=
  match consume (λ _ _, Ret (Err tt)) [PeerConnected pk_0 true] with
  | (Ret (Err OnionMessengerFailure), _) => true
  | _ => false
  end.

Definition test_consumer_clean_exit : bool :=
  match consume (λ _ _, Panic) [] with (Ret (Ok _), _) => true | _ => false end.

Example consumer_tests_pass :
  all_pass [test_consume_messenger_events; test_consumer_exit_onion_messenger_failure;
            test_consumer_clean_exit] = true.
Proof. vm_compute. reflexivity. Qed.
End ConsumerTests.

(** ** The event handler *)

Module EventHandlerTests.

(** The calls of [get_node_info] and [connect_peer], the milliseconds waited
    and whether the test was notified. *)
Record Attempts := { a_info : nat; a_connect : nat; a_waited : Z; a_notified : bool }.
Definition no_attempts : Attempts :=
  {| a_info := 0; a_connect := 0; a_waited := 0; a_notified := false |}.

(** [connect] answers the attempt of a number, from 1. *)
Definition attempts_connector (connect : nat → outcome (result unit Status))
    : PeerConnector Attempts := {|
  list_peers := ret (Ok []);
  connect_peer _ _ := λ w,
    let n := S (a_connect w) in
    (connect n,
     {| a_info := a_info w; a_connect := n; a_waited := a_waited w;
        a_notified := match connect n with Ret (Ok _) => true | _ => a_notified w end |});
  get_node_info _ _ := λ w,
    (Ret (Ok {| info_node := Some {| node_addresses := [{| addr_network := "regtest";
                                                           addr_addr := "127.0.0.1:9735" |}];
                                     node_features := ∅ |};
                info_channels := [] |}),
     {| a_info := S (a_info w); a_connect := a_connect w; a_waited := a_waited w;
        a_notified := a_notified w |});
  list_active_public_channels := panic;
|}.

(** The shutdown is never triggered: every wait lasts its whole delay. *)
#[local] Instance no_shutdown : Shutdown Attempts := λ delay w,
  (Ret false, {| a_info := a_info w; a_connect := a_connect w; a_waited := a_waited w + delay;
                 a_notified := a_notified w |}).

(** A spawned task runs to its end before the test goes on. *)
#[local] Instance run_spawned : Runtime Attempts := {|
  spawn task := task;
  set_spawn _ task := task;
  join_next := ret None;
  trigger_shutdown := panic;
  notify_waiters := panic;
  rounds_within _ := panic;
|}.

Definition handle_events (connect : nat → outcome (result unit Status)) (event : Event)
    : outcome (result unit unit) * Attempts :=
  LndkEventHandler_handle_event (PeerConnector0 := attempts_connector connect) event no_attempts.

Definition test_lndk_event_handler_connection_needed : bool :=
  match handle_events (λ n, if Nat.eqb n 1 then Ret (Ok tt) else Panic) (ConnectionNeeded pk_1) with
  | (Ret (Ok _), w) =>
      a_notified w && (a_waited w <=? 200) && Nat.eqb (a_info w) 1 && Nat.eqb (a_connect w) 1
  | _ => false
  end.

Definition test_lndk_event_handler_other_events : bool :=
  forallb (λ e, match handle_events (λ _, Panic) e with (Ret (Ok _), _) => true | _ => false end)
    [OnionMessageIntercepted; OnionMessagePeerConnected].

Definition test_lndk_event_handler_connection_needed_success_with_retry : bool :=
  match handle_events
          (λ n, if Nat.leb n 5 then Ret (Err (Status_new Unavailable "Connection failed"))
                else Ret (Ok tt))
          (ConnectionNeeded pk_1) with
  | (Ret (Ok _), w) => a_notified w && (a_waited w <=? 60000)
  | _ => false
  end.

Example event_handler_tests_pass :
  all_pass [test_lndk_event_handler_connection_needed; test_lndk_event_handler_other_events;
            test_lndk_event_handler_connection_needed_success_with_retry] = true.
Proof. vm_compute. reflexivity. Qed.
End EventHandlerTests.
