(* ===== verification/Witnesses.v ===== *)
(** * The theorems at concrete inputs

    Each theorem that has hypotheses is applied to the world of [Mock], where
    the hypotheses hold by evaluation. *)

From S2P Require Import Prelude RateLimit Grpc Ldk OfferError Parse.
From S2P Require Import Lnd LndRequests LndRequestsFacts Handler HandlerFacts HandlerSteps.
From S2P Require Import HandlerLiveness.
From S2P Require Import OnionMessenger OnionMessengerFacts MessageRouter ClientImpls Server ServerFacts.
From S2P Require Import Shutdown Daemon Cli Mock.
Open Scope Z_scope.

(** A run is known from its outcome. *)
Lemma run_of {A B} (p : A * B) a : p.1 = a → p = (a, p.2).
Proof. intros <-. by destruct p. Qed.

(** Proves an equation on the outcome of a run by evaluating it. *)
Ltac by_vm := match goal with |- ?x = ?a => exact (eq_refl a <: x = a) end.
Ltac evaluate := apply run_of; by_vm.

(** ** Versions *)

Definition version_of (major minor patch : Z) (pre : string) : Version :=
  {| app_major := major; app_minor := minor; app_patch := patch; app_pre_release := pre;
     build_tags := [] |}.

Lemma has_version_is_order_witness :
  has_version (version_of 0 18 0 "beta") (Some default_version_requirement) = true ∧
  has_version (version_of 0 19 0 "alpha") (Some default_version_requirement) = true.
Proof.
  destruct (has_version_is_order (version_of 0 18 0 "beta") default_version_requirement)
    as (_ & Hself & Hmono).
  assert (has_version (version_of 0 18 0 "beta") (Some default_version_requirement) = true) as Hv
    by (apply Hself; reflexivity).
  split; [exact Hv|]. apply (Hmono (version_of 0 19 0 "alpha") Hv). by vm_compute.
Defined.

(** ** Requests *)

Lemma connect_with_retry_correct_witness :
  ∃ n r w', connect_to_peer_with_retry kB w0 = (Ret r, w') ∧ (n ≤ 11)%nat.
Proof.
  destruct (connect_with_retry_correct kB w0) as (n & r & w' & ? & _ & ? & _).
  - intros d w. by eexists _, _.
  - intros w. destruct (connect_to_peer kB w) as [o w'] eqn:E. revert E.
    unfold connect_to_peer, try_bind, map_err, bind. cbn -[pk_to_string peer_pub_key String.eqb known_node].
    match goal with |- context [existsb ?f ?l] => destruct (existsb f l) end; intros [= <- <-]; eauto.
  - by exists n, r, w'.
Defined.

Definition reply_paths : list BlindedMessagePath := [NodeId kC; NodeId kB].

Lemma offer_reply_paths_correct_witness :
  ∃ asked rest keys nodes w2, w_channels w0 = asked ++ rest ∧ surveyed asked w0 keys w2 ∧
    NoDup nodes ∧ ∀ pk : PublicKey, pk ∈ nodes ↔ pk ∈ keys.
Proof.
  destruct (offer_reply_paths_correct kA (CtxOffers CtxOther) w0 reply_paths
              (create_reply_path_for_offer_creation kA (CtxOffers CtxOther) w0).2)
    as (channels & w1 & asked & rest & keys & w2 & nodes & Hl & Hc & Hs & Hnd & Hk & _); [evaluate|].
  injection Hl as <- <-. by exists asked, rest, keys, nodes, w2.
Defined.

Lemma create_invoice_request_correct_witness :
  (create_invoice_request open_offer Regtest key12 None None w0).2 = w0.
Proof.
  refine (proj2 (proj1 (create_invoice_request_correct open_offer Regtest key12 None None w0
    (Err (InvalidAmount "Offer doesn't set an amount, so user must specify one"))
    (create_invoice_request open_offer Regtest key12 None None w0).2 _)
    (InvalidAmount "Offer doesn't set an amount, so user must specify one") _)); [evaluate|reflexivity].
Defined.

Definition example_args : CreateOfferArgs :=
  {| args_amount_msats := Some 5; args_chain := Regtest; args_description := None;
     args_issuer := None; args_quantity := None; args_expiry := Some 60 |}.

Lemma create_offer_correct_witness :
  ∃ node_id nonce calls w1 paths w2,
    create_reply_path_for_offer_creation node_id (CtxOffers (CtxInvoiceRequest nonce)) w1
      = (Ret (Ok paths), w2) ∧
    offer_build node_id key12 nonce calls = Ok open_offer ∧
    filter (λ c, is_path_call c = true) calls = map OBPath (take 3 paths).
Proof.
  destruct (create_offer_correct example_args key12 w0 open_offer (create_offer example_args key12 w0).2)
    as (info & w1 & n & nonce & w2 & paths & w3 & calls & _ & _ & _ & ? & ? & ? & _); [evaluate|].
  by exists n, nonce, calls, w2, paths, w3.
Defined.

(** ** The handler *)

Lemma get_invoice_outcomes_witness :
  get_invoice_outcome pay_cfg w0 (Ok (invoice1, 1000, [42])) (get_invoice pay_cfg w0).2.
Proof. apply get_invoice_outcomes. evaluate. Defined.

(** A payment in the table. *)
Definition w_active : World :=
  upd_handler (with_payments (λ _, {[ [42] := {| state := InvoiceReceived;
                                                 invoice := Some invoice1 |} ]})
                 (w_handler w0)) w0.

Lemma pay_invoice_scid_failure_leaks_witness :
  is_Some (active_payments (handler (pay_invoice 1000 scid_invoice [42]
                                       None w_active).2) !! [42]).
Proof.
  destruct (pay_invoice_scid_failure_leaks 1000 scid_invoice [42] None
              scid_path [] NodeOne 6 not_found
              {| state := InvoiceReceived; invoice := Some invoice1 |} w_active w_active)
    as [Hrun Hl]; [reflexivity|reflexivity|reflexivity|reflexivity|reflexivity|].
  rewrite Hrun. by exists {| state := InvoiceReceived; invoice := Some invoice1 |}.
Defined.

(** The request of [pay_cfg], up to the wait. *)
Definition request1000 : InvoiceRequest := 1000.
Definition request_ctx : OffersContext := CtxOutboundPayment [42] 7 (Some 7).
Definition w_requested : World :=
  (create_invoice_request (cfg_offer pay_cfg) (cfg_network pay_cfg) (expanded_key (handler w0))
     (cfg_amount pay_cfg) (cfg_payer_note pay_cfg) w0).2.
Definition w_registered : World := (register_payment [42] w_requested).2.
Definition request_message : OffersMessage * MessageSendInstructions :=
  (MsgInvoiceRequest request1000, WithSpecifiedReplyPath (DestNode kB) (NodeId kC)).
Definition w_allowed : World := (send_invoice_request (DestNode kB) request1000 request_ctx w_registered).2.
Definition w_waiting : World := (push_pending_message request_message w_allowed).2.

Lemma pay_cfg_requested : requested pay_cfg w0 [42] 1000 request_ctx w_waiting.
Proof.
  exists request1000, w_requested, w_registered, request_message, w_allowed.
  split_and!; evaluate.
Qed.

Lemma get_invoice_wait_ends_witness : ∃ r w', get_invoice pay_cfg w0 = (Ret r, w').
Proof.
  destruct (get_invoice_wait_ends pay_cfg w0 [42] 1000 request_ctx w_waiting 1000 w_waiting)
    as (n & wn & r & w' & Hrun & _); [exact pay_cfg_requested|evaluate|by vm_compute|].
  by exists r, w'.
Defined.

(** Blocks: a payment is registered, its invoice handled, another one handled. *)
Definition context42 : OffersContext := CtxOutboundPayment [42] 7 None.
Definition h_stored : OfferHandler :=
  run_blocks [BRegister [42]; BInvoice invoice1 (Some context42) None] (w_handler w0).
Definition later_blocks : list block :=
  [BRegister [42]; BInvoice invoice2 (Some context42) None; BState [42] PaymentDispatched; BRelease].

Lemma stored_invoice_is_write_once_witness :
  stored (run_blocks later_blocks h_stored) [42] = Some invoice1.
Proof.
  apply stored_invoice_is_write_once.
  - by_vm.
  - unfold later_blocks. rewrite !elem_of_cons, elem_of_nil. intuition discriminate.
  - intros nonce hmac. unfold later_blocks. rewrite !elem_of_cons, elem_of_nil. intuition discriminate.
Defined.


Lemma pay_offer_pays_verified_invoice_witness :
  ∃ inv pid amount path, verified key12 pid inv ∧ path ∈ invoice_payment_paths inv ∧
    validate_amount (Some (AmountBitcoin 1000)) None = Ok amount.
Proof.
  destruct (pay_offer_pays_verified_invoice (w_handler w0) [] pay_cfg w0 paid (pay_offer pay_cfg w0).2)
    as (inv & pid & amount & path & w1 & w2 & ? & ? & ? & _); [reflexivity|reflexivity|evaluate|].
  by exists inv, pid, amount, path.
Defined.

(** The request of [pay_cfg] is answered during the first wait. *)
Definition w_answered : World := (timeout_sleep 5000 2000 w_waiting).2.
Definition no_hash : string → result PaymentHash string := λ _, Err "hash"%string.

Lemma pay_cfg_answered : answered no_hash pay_cfg w0 invoice1 1000 [42] w_answered.
Proof.
  refine (answered_in_time no_hash pay_cfg w0 [42] 1000 7 (Some 7) w_waiting 1000 w_waiting 0 w_waiting
            InvoiceRequestCreated invoice1 None None
            (handle_message no_hash (MsgInvoice invoice1) (Some request_ctx) None w_waiting).2
            w_answered pay_cfg_requested _ (idle_done _ _ _) _ _ _ _ _).
  1, 4-5: evaluate.
  all: first [by_vm|by vm_compute].
Defined.

Definition w_received : World := (set_payment_state [42] InvoiceReceived w_answered).2.
Definition w_dispatched : World := (set_payment_state [42] PaymentDispatched w_received).2.

Lemma answered_offer_is_paid_witness :
  ∃ w', pay_offer pay_cfg w0 = (Ret (Ok paid), w') ∧ active_payments (handler w') !! [42] = None.
Proof.
  refine (answered_offer_is_paid no_hash pay_cfg w0 invoice1 1000 [42] w_answered w_received [] []
            (NodeId kB : BlindedPaymentPath) [] w_received paid w_dispatched _ pay_cfg_answered
            _ eq_refl (attempted_none _ _ _ _ _) _).
  - by vm_compute.
  - evaluate.
  - exists w_received, w_received, w_dispatched. split_and!; [reflexivity|evaluate..].
Defined.

(** ** The onion messenger *)

Definition quiet_handler (_ : Event) : M World (result unit unit) := ret (Ok tt).

Lemma quiet_handler_quiet e : respects (grows []) (quiet_handler e).
Proof. apply respects_ret. exact _. Qed.

Definition example_limiter : TokenLimiter PublicKey TokioClock :=
  TokenLimiter_new [kC] 2 100 (TokioClock_new (λ _, 10)).

Definition consumed : outcome (result unit ConsumerError) * World :=
  consume_messenger_events quiet_handler Regtest 10 example_limiter w0.

(** The third message of the peer is dropped; it is polled while online. *)
Example consumed_history :
  w_history consumed.2 =
    [HRecv (PeerConnected kB true); HConnected kB (peer_init_features true);
     HRecv (IncomingMessage kB [1]); HHandle kB [1]; HRecv (IncomingMessage kB [2]); HHandle kB [2];
     HRecv (IncomingMessage kB [3]);
     HRecv SendOutgoing; HProcess; HNext kC; HNext kB;
     HRecv (PeerDisconnected kB); HDisconnected kB;
     HRecv SendOutgoing; HProcess; HNext kC].
Proof. by_vm. Qed.


Lemma outgoing_poll_is_exact_witness :
  ∃ ps rest, drop 8 (w_history consumed.2) = HProcess :: (HNext <$> ps) ++ rest ∧ NoDup ps ∧ kB ∈ ps.
Proof.
  destruct (outgoing_poll_is_exact quiet_handler Regtest 10 example_limiter w0 (Ok tt) consumed.2
              quiet_handler_quiet) as (l & Hh & Hpolls); [evaluate|].
  change (history consumed.2) with (w_history consumed.2) in Hh. change (history w0) with (@nil hist_entry) in Hh.
  cbn [app] in Hh. subst l.
  destruct (Hpolls (take 7 (w_history consumed.2)) (drop 8 (w_history consumed.2)))
    as (ps & rest & Heq & _ & Hnd & Hps); [by_vm|].
  exists ps, rest. split_and!; [exact Heq|exact Hnd|]. apply Hps. rewrite consumed_history. cbn. set_solver.
Defined.

Lemma incoming_rate_bound_witness :
  ∃ l, w_history consumed.2 = l ∧ Z.of_nat (handled kB l) ≤ 4.
Proof.
  destruct (incoming_rate_bound quiet_handler Regtest 10 w0 (Ret (Ok tt)) consumed.2 [kC] 2 100
              (TokioClock_new (λ _, 10)) [] 10 kB) as (l & Hh & Hl).
  - apply quiet_handler_quiet.
  - lia.
  - lia.
  - vm_compute. repeat constructor; discriminate.
  - evaluate.
  - exists l. split; [exact Hh|exact Hl].
Defined.

Lemma mock_support_quiet pk :
  respects (ph_steps (receive := pe_receive (W := World)) [] []) (pe_onion_support pk).
Proof. intros w o w' [= _ <-]. split; by rewrite app_nil_r. Qed.

Lemma peer_events_are_forwarded_witness :
  ∃ g s, w_got_peers (produce_peer_events 5 w0).2 = g ∧ w_sent (produce_peer_events 5 w0).2 = s ∧
    forwarded (Forall2 peer_event_matches) (ProducerExit PeerProducerExit) g s
      (Err (StreamError "no event provided")).
Proof.
  destruct (peer_events_are_forwarded (W := World)
              mock_support_quiet 5 w0
              (Err (StreamError "no event provided")) (produce_peer_events 5 w0).2)
    as (g & s & Hg & Hs & Hf); [evaluate|].
  exists g, s. split_and!; [exact Hg|exact Hs|exact Hf].
Defined.

Lemma incoming_messages_are_forwarded_witness :
  ∃ g s, w_got_messages (produce_incoming_message_events 5 w0).2 = g ∧
    w_sent (produce_incoming_message_events 5 w0).2 = s ∧
    forwarded (λ cms evs, evs = omap message_event cms) (ProducerExit IncomingMessageProducerExit) g s
      (Err (StreamError "no event provided")).
Proof.
  destruct (incoming_messages_are_forwarded (W := World) 5 w0
              (Err (StreamError "no event provided")) (produce_incoming_message_events 5 w0).2)
    as (g & s & Hg & Hs & Hf); [evaluate|].
  exists g, s. split_and!; [exact Hg|exact Hs|exact Hf].
Defined.

Definition current_peers : gmap PublicKey bool := {[ kC := true; kB := false ]}.

Lemma startup_does_not_block_witness :
  ∃ w2, announce_current_peers w0 = (Ret (Ok current_peers), w2) ∧ ch_len w2 = 2%nat.
Proof.
  destruct (startup_does_not_block w0 current_peers (get_current_peers w0).2) as (w2 & ? & Hl & _);
    [evaluate|]. exists w2. split; [done|]. rewrite Hl. vm_compute. reflexivity.
Defined.

Definition message5 : OnionMessage := [5].

Lemma relay_roundtrip_witness :
  ∃ req, relay_outgoing_msg_event kB message5 w0 =
           bind (send_custom_message req) (λ _, ret tt) w0 ∧
    message_event {| cm_peer := scm_peer req; cm_type := scm_type req; cm_data := scm_data req |} =
      Some (IncomingMessage kB message5).
Proof.
  apply (relay_roundtrip kB message5 [5] w0); [|reflexivity]. intros m b [= <-]. reflexivity.
Defined.

(** The tasks of the messenger end at once when the shutdown is triggered. *)
Definition example_tasks : MessengerTask → M World unit := task_code 10 (ret tt) (ret tt).

Definition w_stopping : World := upd_tasks true [] w0.

Lemma example_tasks_end t : example_tasks t w_stopping = (Ret tt, w_stopping).
Proof. by destruct t. Qed.

#[local] Instance mock_task_laws : TaskLaws example_tasks.
Proof.
  refine {| triggered w := w_shutdown w = true; tasks := w_tasks |}.
  all: try by intros; intros w o w' [= _ <-].
  - by intros w w' [= ? <-].
  - by intros w u w' [= _ <-].
  - by intros t w u w' [= _ <-].
  - intros w r w'. unfold join_next, mock_runtime. destruct (w_tasks w) as [|t ts] eqn:Ht; intros [= <- <-].
    + done.
    + split; [done|]. exists t, [], ts, w_stopping, w_stopping. split_and!; [done|done| |done].
      apply example_tasks_end.
  - intros ev w o w'. unfold send_event, mock_channel. case_match; by intros [= _ <-].
  - intros w o w'. unfold recv_event, mock_channel. case_match; by intros [= _ <-].
Defined.

Lemma messenger_stops_cleanly_witness :
  w_shutdown (run_onion_messenger 10 (ret tt) (ret tt) (TokioClock_new (λ _, 10)) Regtest
                {| cfg_call_count := 2; cfg_call_period := 100 |} w0).2 = true.
Proof.
  refine (proj1 (proj1 (messenger_stops_cleanly 10 (ret tt) (ret tt) (TokioClock_new (λ _, 10)) Regtest
    {| cfg_call_count := 2; cfg_call_period := 100 |} w0 (Ok tt) _ eq_refl _) eq_refl)). evaluate.
Defined.

(** ** Router and clients *)

Definition node_path : BlindedPaymentPath := NodeId kB.

Lemma query_routes_request_faithful_witness :
  ∃ req, client_query_routes node_path 40 1 10 1000 None w0 = rpc_query_routes req w0 ∧
    qr_amt_msat req = 1000.
Proof.
  destruct (query_routes_request_faithful node_path 40 1 10 1000 None w0 (Ok kB) w0)
    as (req & lp & Hq & _ & Ha & _); [by split|split; [lia|reflexivity]|split; [lia|reflexivity]|].
  exists req. split; [exact Hq|]. apply Ha. reflexivity.
Defined.

Definition scid_path5 : BlindedPaymentPath := DirectedShortChannelId NodeOne 5.

Lemma query_routes_scid_fails_witness :
  client_query_routes scid_path5 40 1 10 1000 None w0 =
    (Ret (Err (Status_new Unknown "Could not get node id.")), w0).
Proof.
  apply (query_routes_scid_fails scid_path5 NodeOne 5 40 1 10 1000 None w0
    {| channel_id := 5; node1_pub := pk_to_string kA; node2_pub := pk_to_string kB |} w0 kA kB);
    reflexivity.
Defined.

(** ** The server *)

Definition example_server : LNDKServer := {| srv_lnd_cert := "cert"; srv_address := "address" |}.
Definition no_metadata : MetadataMap := λ _, None.
Definition macaroon_metadata : MetadataMap := λ _, Some (Ok "abcd"%string).
Definition get_request : GetInvoiceRequest :=
  {| gi_offer := "lno1"; gi_amount := None; gi_payer_note := None;
     gi_response_invoice_timeout := Some 4 |}.
Definition pay_request : PayOfferRequest :=
  {| po_offer := "lno1"; po_amount := None; po_payer_note := None;
     po_response_invoice_timeout := Some 4; po_fee_limit := None; po_fee_limit_percent := None |}.
Definition pay_invoice_request : PayInvoiceRequest :=
  {| pi_invoice := "4201"; pi_amount := None; pi_fee_limit := None; pi_fee_limit_percent := None |}.
Definition create_request : CreateOfferRequest :=
  {| co_amount := None; co_description := None; co_issuer := None; co_expiry := None;
     co_quantity := None |}.

Lemma unauthenticated_requests_do_nothing_witness :
  server_pay_offer example_server no_metadata pay_request w0 =
    (Ret (Err (AuthError_to_status MissingMacaroon)), w0).
Proof.
  refine (proj1 (unauthenticated_requests_do_nothing example_server no_metadata pay_request get_request
    pay_invoice_request create_request w0 _ w0 (ref_missing _ _ _ eq_refl))).
Defined.

Lemma mock_invoice_roundtrip (inv : Bolt12Invoice) buf :
  invoice_write inv = Ok buf → Forall (in_u 8) buf ∧ invoice_try_from buf = Some inv.
Proof.
  destruct inv as [hash paths]. cbn. destruct paths as [|[k|d s] [|]]; try done.
  destruct (forallb _ hash) eqn:Hf; [|done]. intros [= <-]. split.
  - constructor.
    + split; [lia|]. pose proof (Ascii.nat_ascii_bounded k). change (2 ^ 8) with 256. lia.
    + apply Forall_forall. intros z Hz. apply forallb_forall with (x := z) in Hf;
        [|by apply list_elem_of_In]. unfold in_u. change (2 ^ 8) with 256. lia.
  - cbn. by rewrite Nat2Z.id, Ascii.ascii_nat_embedding.
Qed.

Lemma fetched_invoice_roundtrip_witness :
  ∃ inv reply, (server_get_invoice example_server macaroon_metadata get_request w0).1 = Ret (Ok reply) ∧
    invoice_from_hex (gir_invoice_hex_str reply) = Ok inv.
Proof.
  pose (reply := {| gir_invoice_hex_str := "4201";
                    gir_invoice_contents := Some (generate_bolt12_invoice_contents invoice1) |}).
  assert ((server_get_invoice example_server macaroon_metadata get_request w0).1 = Ret (Ok reply)) as Hr
    by by_vm.
  destruct (fetched_invoice_roundtrip example_server macaroon_metadata get_request w0 reply
    (server_get_invoice example_server macaroon_metadata get_request w0).2)
    as (inv & amount & pid & cfg & wa & wb & _ & _ & _ & _ & _ & Hd & _);
    [exact mock_invoice_roundtrip|by apply run_of|].
  exists inv, reply. split; [exact Hr|exact Hd].
Defined.

(** ** The daemon *)

(** A disk with a certificate and no key. *)
Definition cert_disk : Disk :=
  {| disk_files := {[ "data/tls-cert.pem"%string := {| file_content := "old cert"; file_mode := 420 |} ]} |}.

Definition tls_names : option string := Some "10.0.0.1,node"%string.

Lemma tls_key_is_protected_witness :
  file_mode <$> key_file "data" (generate_tls_creds "data" tls_names cert_disk).2 = Some owner_only.
Proof.
  pose proof (tls_key_is_protected "data" tls_names cert_disk (Ok tt)
                (generate_tls_creds "data" tls_names cert_disk).2) as Hp.
  apply Hp; [evaluate|reflexivity].
Defined.

Definition tls_pair : string * string := ("cert for localhost,10.0.0.1,node", "key")%string.

Lemma tls_identity_roundtrip_witness :
  ∃ wa wb : Disk, generate_simple_self_signed ["localhost"; "10.0.0.1"; "node"]%string wa
                    = (Ret (Ok tls_pair), wb).
Proof.
  pose proof (tls_identity_roundtrip "data" tls_names cert_disk
    (generate_tls_creds "data" tls_names cert_disk).2 tls_pair
    (read_tls "data" (generate_tls_creds "data" tls_names cert_disk).2).2) as Hi.
  assert (creds_files "data" cert_disk = None) as E by by_vm. rewrite E in Hi.
  assert (collect_tls_ips tls_names = Some ["10.0.0.1"; "node"]%string) as En by by_vm.
  rewrite En in Hi. apply Hi; evaluate.
Defined.

Definition example_cfg : Cfg := {|
  cfg_lnd := {| lnd_address := "https://localhost:10009"; lnd_creds := CredsPath "mac" "cert" |};
  skip_version_check := false; rate_limit_count := 10; rate_limit_period_secs := 1 |}.

Definition example_run : M World (result unit unit) :=
  run 10 (ret tt) (ret tt) (TokioClock_new (λ _, 10)) example_cfg.

Lemma messenger_starts_on_fit_node_witness :
  ∃ info version, lnd_fit example_cfg info version = true ∧ get_network info = Ok Regtest.
Proof.
  destruct (messenger_starts_on_fit_node 10 (ret tt) (ret tt) (TokioClock_new (λ _, 10)) example_cfg w0
              (Ok tt) (example_run w0).2) as (info & w1 & w2 & Hi & [(? & _)|(v & w3 & Hv & [(? & _)|(n & Hf & Hn & _)])]);
    [evaluate|done|done|].
  exists info, v. split; [exact Hf|]. injection Hi as <- _. reflexivity.
Defined.

Definition example_config : Config := {|
  conf_data_dir := Some "data"%string; conf_log_file := None; conf_log_level := Some "info"%string;
  conf_cert_path := Some "cert"%string; conf_cert_pem := None;
  conf_macaroon_path := Some "mac"%string; conf_macaroon_hex := None;
  conf_address := "https://localhost:10009"; conf_skip_version_check := false;
  conf_rate_limit_count := 10; conf_rate_limit_period_secs := 1;
  conf_response_invoice_timeout := None; conf_grpc_host := None; conf_grpc_port := None;
  conf_tls_ip := None |}.

Definition example_setup : outcome (setup_end Prepared) * World :=
  main_setup (λ b, b) Some example_config w0.

Definition example_prepared : Prepared := {|
  prep_args := example_cfg;
  prep_handler := {| active_payments := ∅; pending_messages := [];
                     expanded_key := expanded_key_new (as_bytes seed_message);
                     response_invoice_timeout := 15; has_client := true |};
  prep_server := {| srv_lnd_cert := "text of cert"; srv_address := "https://localhost:10009" |};
  prep_addr := "127.0.0.1:7000";
  prep_identity := ("text of data/tls-cert.pem", "text of data/tls-key.pem")%string |}.

Lemma setup_gives_fresh_handler_witness :
  conf_response_invoice_timeout example_config ≠ Some 0 ∧
  active_payments (prep_handler example_prepared) = ∅.
Proof.
  destruct (setup_gives_fresh_handler (λ b, b) Some example_config w0 example_prepared example_setup.2)
    as (_ & ? & _ & ? & _); [evaluate|]. done.
Defined.

(** ** The client and the server *)

Definition cli_args (c : Commands) : Cli := {|
  cli_network := "regtest"; cli_macaroon_path := None; cli_macaroon_hex := None;
  cli_cert_pem := None; cli_cert_path := None; cli_grpc_host := "https://127.0.0.1";
  cli_grpc_port := 7000; cli_command := c |}.

Lemma mock_metadata_faithful s v :
  metadata_value_from_str (W := World) s = Ok v → metadata_value_to_str v = Ok s.
Proof. cbn. by case_match; intros [= <-]. Qed.

Lemma mock_offer_printable s (o : Offer) :
  offer_from_str s = Ok o → offer_from_str (offer_to_string o) = Ok o.
Proof. cbn. by case_match; intros [= <-]. Qed.

Definition cli_pay : Cli := cli_args (PayOffer "lno1" None None (Some 4) (Some 50) None).
#[local] Instance example_client : OffersClient World := offers_server example_server.
Definition cli_paid : outcome (result CliOutput string) * World := cli_main cli_pay w0.

Lemma cli_pay_offer_end_to_end_witness :
  ∃ offer macaroon, decode "lno1" = Ok offer ∧ lnd_reached_with (W := World) example_server macaroon.
Proof.
  destruct (cli_pay_offer_end_to_end example_server mock_metadata_faithful mock_offer_printable
              cli_pay "lno1" None None (Some 4) (Some 50) None w0 SuccessfullyPaid cli_paid.2)
    as (offer & dest & net & mac & p & wa & _ & ? & _ & _ & ? & _);
    [reflexivity|reflexivity|evaluate|]. by exists offer, mac.
Defined.

Definition cli_get : Cli := cli_args (GetInvoice "lno1" None None (Some 4)).
Definition cli_got : outcome (result CliOutput string) * World := cli_main cli_get w0.
Definition example_reply : GetInvoiceResponse :=
  {| gir_invoice_hex_str := "4201";
     gir_invoice_contents := Some (generate_bolt12_invoice_contents invoice1) |}.

Lemma cli_invoice_roundtrip_witness :
  ∃ inv, cli_main (cli_args (DecodeInvoice "4201")) w0 = (Ret (Ok (DecodedInvoice inv)), w0).
Proof.
  destruct (cli_invoice_roundtrip example_server mock_offer_printable cli_get "lno1" None None (Some 4)
              w0 (FetchedInvoice example_reply) cli_got.2)
    as (r & inv & a & pid & cfg & wa & wb & Hr & _ & _ & _ & Hd);
    [exact mock_invoice_roundtrip|reflexivity|evaluate|].
  injection Hr as <-. exists inv. by apply Hd.
Defined.
